(** * Ambulance routing: graph preparation, MCF-MILP builder, result extraction

    Shallow embedding of
      - [src/data/graph_processor.py]   (capacity assignment, destination binding)
      - [src/models/optimization_model.py] (graph simplification, model builder,
        route reconstruction, edge usage)

    Conventions.
      - Python floats and ints used as quantities are rationals ([Q]); equality of
        quantities is [Qeq] ([==]).
      - A Python [dict] whose iteration order the program observes (NetworkX
        adjacency, [self.x], PuLP's constraint table, the result tables) is an
        insertion-ordered association list ([OD]); an attribute bag, whose order
        is never observed, is a [gmap string Q].
      - A Python exception is the [Raise] branch of [result]. *)

From Stdlib Require Import QArith.
From stdpp Require Import gmap strings list.

#[global] Set Warnings "-clear-no-such-hyp".

Close Scope Q_scope.
Open Scope Z_scope.

(** ** Quantities *)

(** Python's [a > b] on numbers. *)
Definition Qgtb (a b : Q) : bool := negb (Qle_bool a b).

(** ** Exceptions and results *)

Inductive exn : Type :=
  | KeyError (what : string)
  | TypeError
  | ValueError
  | ZeroDivisionError
  | IndexError
  | PulpError.

Inductive result (A : Type) : Type :=
  | Ok (a : A)
  | Raise (e : exn).
Arguments Ok {A} a.
Arguments Raise {A} e.

#[global] Instance result_bind : MBind result := λ A B f r,
  match r with
  | Ok a => f a
  | Raise e => Raise e
  end.

#[global] Instance result_ret : MRet result := λ A a, Ok a.

#[global] Instance result_fmap : FMap result := λ A B f r,
  match r with
  | Ok a => Ok (f a)
  | Raise e => Raise e
  end.

(** [d[key]] on an optional lookup. *)
Definition getitem {A : Type} (what : string) (o : option A) : result A :=
  match o with
  | Some a => Ok a
  | None => Raise (KeyError what)
  end.

(** A [for] loop whose body may raise. *)
Fixpoint for_each {A S : Type} (body : S → A → result S) (xs : list A) (s : S)
  : result S :=
  match xs with
  | [] => Ok s
  | x :: xs' => s' ← body s x ; for_each body xs' s'
  end.

(** ** Insertion-ordered dictionaries *)

Module OD.
Section odict.
Context {K V : Type} `{EqDecision K}.

Fixpoint get (k : K) (d : list (K * V)) : option V :=
  match d with
  | [] => None
  | (k', v) :: d' => if decide (k = k') then Some v else get k d'
  end.

(** [d[k] = v]: an existing key keeps its position, a new one goes last. *)
Fixpoint set (k : K) (v : V) (d : list (K * V)) : list (K * V) :=
  match d with
  | [] => [(k, v)]
  | (k', v') :: d' =>
      if decide (k = k') then (k, v) :: d' else (k', v') :: set k v d'
  end.

Definition mem (k : K) (d : list (K * V)) : bool :=
  match get k d with Some _ => true | None => false end.

Definition keys (d : list (K * V)) : list K := d.*1.

Definition wf (d : list (K * V)) : Prop := NoDup (keys d).
End odict.
End OD.

(** ** Graphs (NetworkX) *)

(** Nodes and edge keys are integers ([Z]); node and edge attribute bags hold the
    numeric attributes (['length'], ['capacity'], ['travel_time'], ['x'], ['y'],
    ...). *)

(** [nx.MultiDiGraph]: [_node] and [_adj]; [_adj[u][v]] is the key dictionary of
    the parallel edges from [u] to [v]. *)
Record MultiDiGraph : Type := mkMulti {
  mg_node : list (Z * gmap string Q);
  mg_adj : list (Z * list (Z * list (Z * gmap string Q)))
}.

(** [nx.DiGraph]: at most one edge per ordered pair by construction of [_adj]. *)
Record DiGraph : Type := mkDi {
  dg_node : list (Z * gmap string Q);
  dg_adj : list (Z * list (Z * gmap string Q))
}.

(** [G.edges(keys=True, data=True)] of a multigraph. *)
Definition mg_edges (g : MultiDiGraph) : list (Z * Z * Z * gmap string Q) :=
  '(u, nbrs) ← mg_adj g; '(v, kd) ← nbrs; '(k, d) ← kd; [(u, v, k, d)].

(** [G.number_of_edges(u, v)] of a multigraph. *)
Definition mg_number_of_edges (g : MultiDiGraph) (u v : Z) : nat :=
  match OD.get u (mg_adj g) with
  | Some nbrs => match OD.get v nbrs with Some kd => length kd | None => 0%nat end
  | None => 0%nat
  end.

(** [G[u][v]] of a multigraph. *)
Definition mg_getitem2 (g : MultiDiGraph) (u v : Z)
  : result (list (Z * gmap string Q)) :=
  nbrs ← getitem "u" (OD.get u (mg_adj g)) ; getitem "v" (OD.get v nbrs).

(** [G.edges()] of a simple digraph. *)
Definition dg_edges (g : DiGraph) : list (Z * Z) :=
  '(u, nbrs) ← dg_adj g; '(v, _) ← nbrs; [(u, v)].

(** [G.nodes()] *)
Definition dg_nodes (g : DiGraph) : list Z := OD.keys (dg_node g).

(** [G[u][v]] of a simple digraph. *)
Definition dg_edge_data (g : DiGraph) (u v : Z) : option (gmap string Q) :=
  match OD.get u (dg_adj g) with
  | Some nbrs => OD.get v nbrs
  | None => None
  end.

(** [dict.update]: the new entries win. *)
Definition dict_update (old new : gmap string Q) : gmap string Q := new ∪ old.

(** [DiGraph.add_node(n, **attr)] *)
Definition add_node (n : Z) (attr : gmap string Q) (g : DiGraph) : DiGraph :=
  if OD.mem n (dg_adj g)
  then mkDi (OD.set n (dict_update (default ∅ (OD.get n (dg_node g))) attr) (dg_node g))
            (dg_adj g)
  else mkDi (OD.set n (dict_update ∅ attr) (dg_node g))
            (OD.set n [] (dg_adj g)).

(** [DiGraph.add_edge(u, v, **attr)] *)
Definition add_edge (u v : Z) (attr : gmap string Q) (g : DiGraph) : DiGraph :=
  let g1 := if OD.mem u (dg_adj g) then g
            else mkDi (OD.set u ∅ (dg_node g)) (OD.set u [] (dg_adj g)) in
  let g2 := if OD.mem v (dg_adj g1) then g1
            else mkDi (OD.set v ∅ (dg_node g1)) (OD.set v [] (dg_adj g1)) in
  let nbrs := default [] (OD.get u (dg_adj g2)) in
  let datadict := dict_update (default ∅ (OD.get v nbrs)) attr in
  mkDi (dg_node g2) (OD.set u (OD.set v datadict nbrs) (dg_adj g2)).

(** ** [AmbulanceOptimizationModel._simplificar_a_digraph] *)

(** [d.get('capacity', 0)] *)
Definition get_capacity (d : gmap string Q) : Q := default 0%Q (d !! "capacity").

(** The inner loop choosing the parallel edge of largest capacity. *)
Definition mejor_paso (acc : Q * option (gmap string Q)) (kd : Z * gmap string Q)
  : Q * option (gmap string Q) :=
  let cap := get_capacity kd.2 in
  if Qgtb cap acc.1 then (cap, Some kd.2) else acc.

Definition mejor_arista (items : list (Z * gmap string Q))
  : Q * option (gmap string Q) :=
  fold_left mejor_paso items ((-1)%Q, None).

Definition simplificar_paso (mg : MultiDiGraph)
    (st : DiGraph * gset (Z * Z)) (e : Z * Z * Z * gmap string Q)
  : result (DiGraph * gset (Z * Z)) :=
  let '(i, j, _, data) := e in
  let '(grafo_simple, pares_procesados) := st in
  if decide ((i, j) ∈ pares_procesados) then Ok st
  else
    let pares := pares_procesados ∪ {[ (i, j) ]} in
    if decide (1 < mg_number_of_edges mg i j)%nat then
      items ← mg_getitem2 mg i j ;
      match (mejor_arista items).2 with
      | Some mejor_data => Ok (add_edge i j mejor_data grafo_simple, pares)
      | None => Raise TypeError
      end
    else Ok (add_edge i j data grafo_simple, pares).

Definition _simplificar_a_digraph (multi_grafo : MultiDiGraph) : result DiGraph :=
  let grafo_simple :=
    fold_left (λ g nd, add_node nd.1 nd.2 g) (mg_node multi_grafo) (mkDi [] []) in
  st ← for_each (simplificar_paso multi_grafo) (mg_edges multi_grafo)
                (grafo_simple, ∅) ;
  Ok st.1.

(** ** The [random] module

    The generator is outside the repository and is modelled by what it hands
    out.  A generator state is the sequence of the values still to come; each
    call of [random()] or of [_randbelow(n)] takes the next one, [random()] as
    a fraction of [2^53] and [_randbelow(n)] reduced below [n].  How CPython
    derives these values from the words of the Mersenne Twister (two words per
    [random()], [n.bit_length()] bits redrawn until below [n] for
    [_randbelow(n)]) is not followed: the theorems hold for every sequence, and
    an example fixes the values its call draws.  [random.seed(s)] installs the
    state [random_seed s], which the definitions below take as a parameter. *)

Record Rng : Type := mkRng { rng_raw : nat → N; rng_pos : nat }.

Definition rng_next (r : Rng) : N * Rng :=
  (rng_raw r (rng_pos r), mkRng (rng_raw r) (S (rng_pos r))).

(** [random.random()]: a fraction of [2^53] in [[0, 1)]. *)
Definition random_random (r : Rng) : Q * Rng :=
  let '(w, r') := rng_next r in
  (Qmake (Z.of_N (w mod 2 ^ 53)) (2 ^ 53), r').

(** [random.uniform(a, b)] is [a + (b - a) * random()]. *)
Definition random_uniform (a b : Q) (r : Rng) : Q * Rng :=
  let '(u, r') := random_random r in
  ((a + (b - a) * u)%Q, r').

(** [_randbelow(n)] for [n > 0]: the next value, below [n]. *)
Definition randbelow (n : nat) (r : Rng) : nat * Rng :=
  let '(w, r') := rng_next r in
  (N.to_nat (w mod N.of_nat n), r').

(** The selection loop of [random.sample]: [m] is the number of pool slots
    still eligible; each round returns [pool[j]] and moves the last eligible
    slot into position [j]. *)
Fixpoint sample_pool (k m : nat) (pool : list Z) (rng : Rng)
  : result (list Z) * Rng :=
  match k with
  | O => (Ok [], rng)
  | S k' =>
      let '(j, rng1) := randbelow m rng in
      match pool !! j, pool !! (m - 1)%nat with
      | Some x, Some y =>
          let '(r, rng2) := sample_pool k' (m - 1) (<[j := y]> pool) rng1 in
          ((x ::.) <$> r, rng2)
      | _, _ => (Raise IndexError, rng1)
      end
  end.

(** [_ceil(_log(x, 4))]: the least [e] with [x <= 4^e].  The arguments are
    [3 * k], never a power of 4, so that the rounding of the floating-point
    logarithm does not show. *)
Definition ceil_log4 (x : nat) : nat :=
  Z.to_nat ((Z.log2_up (Z.of_nat x) + 1) / 2).

(** [setsize]: 21, plus [4 ** _ceil(_log(k * 3, 4))] when [k > 5]. *)
Definition setsize (k : nat) : nat :=
  if decide (5 < k)%nat then (21 + 4 ^ ceil_log4 (k * 3))%nat else 21%nat.

(** [while j in selected: j = randbelow(n)]; [fuel] bounds the number of
    redraws and [None] means the bound was reached. *)
Fixpoint sample_redraw (fuel n : nat) (selected : gset nat) (j : nat) (rng : Rng)
  : option (nat * Rng) :=
  if decide (j ∈ selected) then
    match fuel with
    | O => None
    | S fuel' =>
        let '(j', rng') := randbelow n rng in
        sample_redraw fuel' n selected j' rng'
    end
  else Some (j, rng).

(** The selection loop of [random.sample] for a large population: every round
    draws an index below [n], redraws while it has been selected before, and
    returns [population[j]]. *)
Fixpoint sample_set (fuel k n : nat) (population : list Z) (selected : gset nat)
    (rng : Rng) : option (result (list Z) * Rng) :=
  match k with
  | O => Some (Ok [], rng)
  | S k' =>
      let '(j0, rng0) := randbelow n rng in
      match sample_redraw fuel n selected j0 rng0 with
      | None => None
      | Some (j, rng1) =>
          match population !! j with
          | Some x =>
              match sample_set fuel k' n population (selected ∪ {[ j ]}) rng1 with
              | None => None
              | Some (r, rng2) => Some ((x ::.) <$> r, rng2)
              end
          | None => Some (Raise IndexError, rng1)
          end
      end
  end.

(** [random.sample(population, k)]: [ValueError] when the sample is larger
    than the population; the pool when the population has at most [setsize]
    elements, the set of selected indices otherwise.  [fuel] bounds the
    redraws of one selection; [None] means the bound was reached. *)
Definition random_sample (fuel : nat) (population : list Z) (k : nat) (rng : Rng)
  : option (result (list Z) * Rng) :=
  let n := length population in
  if decide (k ≤ n)%nat then
    if decide (n ≤ setsize k)%nat then Some (sample_pool k n population rng)
    else sample_set fuel k n population ∅ rng
  else Some (Raise ValueError, rng).

(** Python's [a / b]. *)
Definition py_div (a b : Q) : result Q :=
  if Qeq_bool b 0 then Raise ZeroDivisionError else Ok (a / b)%Q.

(** ** [graph_processor.asignar_capacidades_aleatorias] *)

(** The store the function works on: the graph object it mutates and the
    module-level generator. *)
Record Store : Type := mkStore { st_grafo : MultiDiGraph; st_rng : Rng }.

(** [numpy.random.seed] accepts seeds in [[0, 2^32 - 1]] only. *)
Definition np_seed_ok (s : Z) : bool := (0 <=? s) && (s <? 2 ^ 32).

(** [grafo[u][v][key]] *)
Definition mg_edge_data (g : MultiDiGraph) (u v k : Z) : option (gmap string Q) :=
  nbrs ← OD.get u (mg_adj g); kd ← OD.get v nbrs; OD.get k kd.

(** [grafo[u][v][key][name] = x] *)
Definition mg_setattr (u v k : Z) (name : string) (x : Q) (g : MultiDiGraph)
  : MultiDiGraph :=
  match OD.get u (mg_adj g) with
  | Some nbrs =>
      match OD.get v nbrs with
      | Some kd =>
          match OD.get k kd with
          | Some d =>
              mkMulti (mg_node g)
                (OD.set u (OD.set v (OD.set k (<[name := x]> d) kd) nbrs) (mg_adj g))
          | None => g
          end
      | None => g
      end
  | None => g
  end.

(** One round of the assignment loop; the state is the graph, the generator and
    the list [capacidades]. *)
Definition capacidad_paso (c_min c_max : Q)
    (st : MultiDiGraph * Rng * list Q) (e : Z * Z * Z * gmap string Q)
  : MultiDiGraph * Rng * list Q :=
  let '(grafo, rng, capacidades) := st in
  let '(u, v, key, _) := e in
  let '(capacidad, rng') := random_uniform c_min c_max rng in
  (mg_setattr u v key "capacity" capacidad grafo, rng', capacidades ++ [capacidad]).

Definition asignar_capacidades_aleatorias (random_seed : Z → Rng)
    (c_min c_max : Q) (seed : option Z) (s : Store)
  : result MultiDiGraph * Store :=
  let sembrado :=
    match seed with
    | Some sd => (random_seed sd, np_seed_ok sd)
    | None => (st_rng s, true)
    end in
  if negb sembrado.2 then (Raise ValueError, mkStore (st_grafo s) sembrado.1)
  else
    let '(grafo, rng, capacidades) :=
      fold_left (capacidad_paso c_min c_max) (mg_edges (st_grafo s))
                (st_grafo s, sembrado.1, []) in
    (* min(capacidades) / max(capacidades) in the summary *)
    match capacidades with
    | [] => (Raise ValueError, mkStore grafo rng)
    | _ :: _ => (Ok grafo, mkStore grafo rng)
    end.

(** ** [graph_processor.filtrar_nodos_internos] *)

(** [grafo.nodes()] *)
Definition mg_nodes (g : MultiDiGraph) : list Z := OD.keys (mg_node g).

(** [grafo.predecessors(n)] and [grafo.successors(n)], as node lists. *)
Definition mg_predecessors (g : MultiDiGraph) (n : Z) : list Z :=
  (filter (λ row, OD.mem n row.2 = true) (mg_adj g)).*1.

Definition mg_successors (g : MultiDiGraph) (n : Z) : list Z :=
  match OD.get n (mg_adj g) with
  | Some nbrs => OD.keys nbrs
  | None => []
  end.

Definition filtrar_nodos_internos (grafo : MultiDiGraph)
    (min_salidas min_entradas : nat) : list Z :=
  filter (λ nodo,
            (min_entradas ≤ length (mg_predecessors grafo nodo))%nat ∧
            (min_salidas ≤ length (mg_successors grafo nodo))%nat)
         (mg_nodes grafo).

(** ** Emergencies *)

Inductive Severidad : Type := leve | media | grave.

#[global] Instance Severidad_eq_dec : EqDecision Severidad.
Proof. solve_decision. Defined.

(** An emergency as [generar_conjunto_emergencias] produces it. *)
Record EmergenciaBase : Type := mkBase {
  eb_id : Z;
  eb_severidad : Severidad;
  eb_velocidad_requerida : Q;
  eb_ambulancia_id : Z
}.

(** An emergency once bound to a node: the copy with ['nodo_destino'],
    ['latitud'] and ['longitud'] added. *)
Record Emergencia : Type := mkEmergencia {
  em_id : Z;
  severidad : Severidad;
  velocidad_requerida : Q;
  ambulancia_id : Z;
  nodo_destino : Z;
  latitud : Q;
  longitud : Q
}.

(** ** [graph_processor.asignar_emergencias_a_nodos] *)

Definition emergencia_completa (grafo : MultiDiGraph) (emergencia : EmergenciaBase)
    (nodo : Z) : result Emergencia :=
  nodo_data ← getitem "nodo" (OD.get nodo (mg_node grafo));
  y ← getitem "y" (nodo_data !! "y");
  x ← getitem "x" (nodo_data !! "x");
  Ok (mkEmergencia (eb_id emergencia) (eb_severidad emergencia)
        (eb_velocidad_requerida emergencia) (eb_ambulancia_id emergencia)
        nodo y x).

(** [zip(emergencias, nodos_seleccionados)] with the loop body applied. *)
Fixpoint asignar_zip (grafo : MultiDiGraph) (emergencias : list EmergenciaBase)
    (nodos : list Z) : result (list Emergencia) :=
  match emergencias, nodos with
  | emergencia :: es, nodo :: ns =>
      e ← emergencia_completa grafo emergencia nodo;
      rest ← asignar_zip grafo es ns;
      Ok (e :: rest)
  | _, _ => Ok []
  end.

(** [fuel] is the bound on the redraws of [random.sample]; the result is
    [None] when the bound was reached. *)
Definition asignar_emergencias_a_nodos (fuel : nat) (random_seed : Z → Rng)
    (grafo : MultiDiGraph) (emergencias : list EmergenciaBase)
    (seed : option Z) (rng : Rng) : option (result (list Emergencia) * Rng) :=
  let rng0 := match seed with Some sd => random_seed sd | None => rng end in
  let nodos_internos := filtrar_nodos_internos grafo 3 3 in
  (* the percentage of interior nodes in the report *)
  match py_div (Z.of_nat (length nodos_internos) # 1)
               (Z.of_nat (length (mg_nodes grafo)) # 1) with
  | Raise e => Some (Raise e, rng0)
  | Ok _ =>
      let nodos_a_usar :=
        if decide (length nodos_internos < length emergencias)%nat
        then mg_nodes grafo else nodos_internos in
      match random_sample fuel nodos_a_usar (length emergencias) rng0 with
      | None => None
      | Some (sel, rng1) =>
          Some (nodos_seleccionados ← sel;
                asignar_zip grafo emergencias nodos_seleccionados,
                rng1)
      end
  end.

(** ** Cost tables ([config/costos.py]) *)

Inductive TipoAmbulancia : Type := TAB_leve | TAM_moderada | TAM_grave.

Record CostoConfig : Type := mkCostoConfig {
  costo_fijo_activacion : Q;
  costo_por_km : Q
}.

Definition COSTOS (t : TipoAmbulancia) : CostoConfig :=
  match t with
  | TAB_leve => mkCostoConfig 35000 5585
  | TAM_moderada => mkCostoConfig 60000 10534
  | TAM_grave => mkCostoConfig 85000 20396
  end.

Definition PRIORIDAD_A_AMBULANCIA (s : Severidad) : TipoAmbulancia :=
  match s with
  | leve => TAB_leve
  | media => TAM_moderada
  | grave => TAM_grave
  end.

(** A row of [costos_usuario]: [{'costo_fijo': _, 'costo_km': _}]. *)
Record CostoUsuario : Type := mkCostoUsuario {
  costo_fijo : Q;
  costo_km : Q
}.

(** ** PuLP: variables, affine expressions, constraints, problems *)

(** The binary variable named [x_{i}_{j}_{k}]. *)
Inductive LpVariable : Type := LpVar (i j : Z) (k : nat).

#[global] Instance LpVariable_eq_dec : EqDecision LpVariable.
Proof. solve_decision. Defined.

(** An [LpAffineExpression]: an ordered table variable -> coefficient and a
    constant. *)
Record LpAffineExpression : Type := mkExpr {
  terms : list (LpVariable * Q);
  constant : Q
}.

Definition expr_vacia : LpAffineExpression := mkExpr [] 0.

(** [LpAffineExpression.addterm] *)
Definition addterm (key : LpVariable) (value : Q) (e : LpAffineExpression)
  : LpAffineExpression :=
  match OD.get key (terms e) with
  | Some y =>
      if Qeq_bool y 0 then mkExpr (OD.set key value (terms e)) (constant e)
      else mkExpr (OD.set key (y + value)%Q (terms e)) (constant e)
  | None => mkExpr (OD.set key value (terms e)) (constant e)
  end.

(** [self.addInPlace(other)] and [self.subInPlace(other)] for an expression. *)
Definition addInPlace (self other : LpAffineExpression) : LpAffineExpression :=
  fold_left (λ e vx, addterm vx.1 vx.2 e) (terms other)
            (mkExpr (terms self) (constant self + constant other)%Q).

Definition subInPlace (self other : LpAffineExpression) : LpAffineExpression :=
  fold_left (λ e vx, addterm vx.1 (- vx.2)%Q e) (terms other)
            (mkExpr (terms self) (constant self - constant other)%Q).

(** [lpSum] of a list of expressions, and of a list of variables. *)
Definition lpSum (vector : list LpAffineExpression) : LpAffineExpression :=
  fold_left addInPlace vector expr_vacia.

Definition lpSum_vars (vector : list LpVariable) : LpAffineExpression :=
  fold_left (λ e v, addterm v 1 e) vector expr_vacia.

(** [number * variable]; the product with zero has no term. *)
Definition mul_var (c : Q) (v : LpVariable) : LpAffineExpression :=
  if Qeq_bool c 0 then expr_vacia else mkExpr [(v, c)] 0.

(** [number + expression] *)
Definition add_num (c : Q) (e : LpAffineExpression) : LpAffineExpression :=
  mkExpr (terms e) (constant e + c)%Q.

Inductive LpSense : Type := LpConstraintLE | LpConstraintEQ | LpConstraintGE.

(** An [LpConstraint] holds [expresion (sense) 0]. *)
Record LpConstraint : Type := mkConstraint {
  expresion : LpAffineExpression;
  sense : LpSense
}.

(** [e == rhs] and [e <= rhs] for a number [rhs]. *)
Definition constraint_eq (e : LpAffineExpression) (rhs : Q) : LpConstraint :=
  mkConstraint (mkExpr (terms e) (constant e - rhs)%Q) LpConstraintEQ.

Definition constraint_le (e : LpAffineExpression) (rhs : Q) : LpConstraint :=
  mkConstraint (mkExpr (terms e) (constant e - rhs)%Q) LpConstraintLE.

(** Constraint names: [Flujo_Origen_k{k}_n{nodo}], [Flujo_Destino_k{k}_n{nodo}],
    [Flujo_Conservacion_k{k}_n{nodo}] and [Capacidad_a{i}_{j}]. *)
Inductive NombreRestriccion : Type :=
  | Flujo_Origen (k : nat) (nodo : Z)
  | Flujo_Destino (k : nat) (nodo : Z)
  | Flujo_Conservacion (k : nat) (nodo : Z)
  | Capacidad (i j : Z).

#[global] Instance NombreRestriccion_eq_dec : EqDecision NombreRestriccion.
Proof. solve_decision. Defined.

Record LpProblem : Type := mkProblem {
  objective : option LpAffineExpression;
  constraints : list (NombreRestriccion * LpConstraint)
}.

(** [LpProblem.addConstraint]: a name already in the table is refused. *)
Definition addConstraint (name : NombreRestriccion) (c : LpConstraint)
    (m : LpProblem) : result LpProblem :=
  if OD.mem name (constraints m) then Raise PulpError
  else Ok (mkProblem (objective m) (OD.set name c (constraints m))).

(** The value of an expression and the truth of a constraint under an
    assignment of the variables. *)
Definition valor_terminos (val : LpVariable → Q) (ts : list (LpVariable * Q)) : Q :=
  foldr (λ vx acc, (vx.2 * val vx.1 + acc)%Q) 0%Q ts.

Definition valor (val : LpVariable → Q) (e : LpAffineExpression) : Q :=
  (constant e + valor_terminos val (terms e))%Q.

Definition satisface (val : LpVariable → Q) (c : LpConstraint) : Prop :=
  match sense c with
  | LpConstraintLE => (valor val (expresion c) <= 0)%Q
  | LpConstraintEQ => (valor val (expresion c) == 0)%Q
  | LpConstraintGE => (0 <= valor val (expresion c))%Q
  end.

(** ** [AmbulanceOptimizationModel] *)

Record AmbulanceOptimizationModel : Type := mkModel {
  grafo : DiGraph;
  emergencias : list Emergencia;
  nodo_origen : Z;
  costos_usuario : option (list (Severidad * CostoUsuario));
  num_emergencias : nat;
  nodos : list Z;
  aristas : list (Z * Z);
  modelo : option LpProblem;
  x : list (Z * Z * nat * LpVariable)
}.

(** [AmbulanceOptimizationModel.__init__] *)
Definition init (multi_grafo : MultiDiGraph) (emergencias : list Emergencia)
    (nodo_origen : Z) (costos_usuario : option (list (Severidad * CostoUsuario)))
  : result AmbulanceOptimizationModel :=
  g ← _simplificar_a_digraph multi_grafo;
  Ok (mkModel g emergencias nodo_origen costos_usuario (length emergencias)
              (dg_nodes g) (dg_edges g) None []).

(** [enumerate(xs)] *)
Definition enumerate {A : Type} (xs : list A) : list (nat * A) :=
  imap pair xs.

(** [_crear_variables] *)
Definition _crear_variables (self : AmbulanceOptimizationModel)
  : AmbulanceOptimizationModel :=
  let x' :=
    fold_left
      (λ x k, fold_left (λ x ij, OD.set (ij.1, ij.2, k) (LpVar ij.1 ij.2 k) x)
                        (aristas self) x)
      (seq 0 (num_emergencias self)) (x self) in
  mkModel (grafo self) (emergencias self) (nodo_origen self) (costos_usuario self)
          (num_emergencias self) (nodos self) (aristas self) (modelo self) x'.

(** [self.costos_usuario and severidad in self.costos_usuario] *)
Definition fila_usuario (self : AmbulanceOptimizationModel) (s : Severidad)
  : option CostoUsuario :=
  match costos_usuario self with
  | Some (fila :: filas) => OD.get s (fila :: filas)
  | _ => None
  end.

Definition costo_fijo_de (self : AmbulanceOptimizationModel) (s : Severidad) : Q :=
  match fila_usuario self s with
  | Some fila => costo_fijo fila
  | None => costo_fijo_activacion (COSTOS (PRIORIDAD_A_AMBULANCIA s))
  end.

Definition costo_km_de (self : AmbulanceOptimizationModel) (s : Severidad) : Q :=
  match fila_usuario self s with
  | Some fila => costo_km fila
  | None => costo_por_km (COSTOS (PRIORIDAD_A_AMBULANCIA s))
  end.

(** [self.grafo[i][j][name]] *)
Definition atributo_arista (g : DiGraph) (i j : Z) (name : string) : result Q :=
  d ← getitem "arista" (dg_edge_data g i j); getitem name (d !! name).

(** [self.x[i, j, k]] *)
Definition x_get (self : AmbulanceOptimizationModel) (i j : Z) (k : nat)
  : result LpVariable :=
  getitem "x" (OD.get (i, j, k) (x self)).

Definition con_modelo (self : AmbulanceOptimizationModel) (m : LpProblem)
  : AmbulanceOptimizationModel :=
  mkModel (grafo self) (emergencias self) (nodo_origen self) (costos_usuario self)
          (num_emergencias self) (nodos self) (aristas self) (Some m) (x self).

(** [self.modelo += ...]; [construir_modelo] creates the problem first. *)
Definition modelo_actual (self : AmbulanceOptimizationModel) : result LpProblem :=
  match modelo self with
  | Some m => Ok m
  | None => Raise TypeError
  end.

(** [_definir_funcion_objetivo] *)
Definition costo_aristas_flujo (self : AmbulanceOptimizationModel)
    (costo_variable : list LpAffineExpression) (ke : nat * Emergencia)
  : result (list LpAffineExpression) :=
  let costo_km := costo_km_de self (severidad ke.2) in
  for_each
    (λ costo_variable ij,
       distancia_metros ← atributo_arista (grafo self) ij.1 ij.2 "length";
       let distancia_km := (distancia_metros / 1000)%Q in
       v ← x_get self ij.1 ij.2 ke.1;
       Ok (costo_variable ++ [mul_var (distancia_km * costo_km)%Q v]))
    (aristas self) costo_variable.

Definition _definir_funcion_objetivo (self : AmbulanceOptimizationModel)
  : result AmbulanceOptimizationModel :=
  let costo_fijo_total :=
    fold_left (λ total emerg, (total + costo_fijo_de self (severidad emerg))%Q)
              (emergencias self) 0%Q in
  costo_variable ←
    for_each (costo_aristas_flujo self) (enumerate (emergencias self)) [];
  m ← modelo_actual self;
  Ok (con_modelo self
        (mkProblem (Some (add_num costo_fijo_total (lpSum costo_variable)))
                   (constraints m))).

(** [_restriccion_conservacion_flujo] *)
Definition restriccion_nodo (self : AmbulanceOptimizationModel) (k : nat)
    (dest_k : Z) (m : LpProblem) (nodo : Z) : result LpProblem :=
  entrantes ←
    mapM (λ ij, x_get self ij.1 nodo k)
         (filter (λ ij, ij.2 = nodo) (aristas self));
  salientes ←
    mapM (λ ij, x_get self nodo ij.2 k)
         (filter (λ ij, ij.1 = nodo) (aristas self));
  if decide (nodo = nodo_origen self) then
    addConstraint (Flujo_Origen k nodo)
      (constraint_eq (subInPlace (lpSum_vars salientes) (lpSum_vars entrantes)) 1) m
  else if decide (nodo = dest_k) then
    addConstraint (Flujo_Destino k nodo)
      (constraint_eq (subInPlace (lpSum_vars entrantes) (lpSum_vars salientes)) 1) m
  else
    addConstraint (Flujo_Conservacion k nodo)
      (constraint_eq (subInPlace (lpSum_vars entrantes) (lpSum_vars salientes)) 0) m.

Definition _restriccion_conservacion_flujo (self : AmbulanceOptimizationModel)
  : result AmbulanceOptimizationModel :=
  m0 ← modelo_actual self;
  m ← for_each
        (λ m ke, for_each (restriccion_nodo self ke.1 (nodo_destino ke.2))
                          (nodos self) m)
        (enumerate (emergencias self)) m0;
  Ok (con_modelo self m).

(** [_restriccion_capacidad_vias] *)
Definition restriccion_arista (self : AmbulanceOptimizationModel)
    (m : LpProblem) (ij : Z * Z) : result LpProblem :=
  capacidad ← atributo_arista (grafo self) ij.1 ij.2 "capacity";
  demanda_total ←
    mapM (λ ke, v ← x_get self ij.1 ij.2 ke.1;
                Ok (mul_var (velocidad_requerida ke.2) v))
         (enumerate (emergencias self));
  addConstraint (Capacidad ij.1 ij.2)
    (constraint_le (lpSum demanda_total) capacidad) m.

Definition _restriccion_capacidad_vias (self : AmbulanceOptimizationModel)
  : result AmbulanceOptimizationModel :=
  m0 ← modelo_actual self;
  m ← for_each (restriccion_arista self) (aristas self) m0;
  Ok (con_modelo self m).

Definition _agregar_restricciones (self : AmbulanceOptimizationModel)
  : result AmbulanceOptimizationModel :=
  self1 ← _restriccion_conservacion_flujo self;
  _restriccion_capacidad_vias self1.

(** [construir_modelo] *)
Definition construir_modelo (self : AmbulanceOptimizationModel)
  : result AmbulanceOptimizationModel :=
  let self0 := con_modelo self (mkProblem None []) in
  let self1 := _crear_variables self0 in
  self2 ← _definir_funcion_objetivo self1;
  _agregar_restricciones self2.

(** ** Result extraction

    [varValue] is the value the solver left in each variable. *)

(** The search for the outgoing edge of [nodo_actual] chosen by flow [k]:
    the first one in [self.aristas] whose variable exceeds 0.5. *)
Fixpoint buscar_siguiente (self : AmbulanceOptimizationModel)
    (varValue : LpVariable → Q) (k : nat) (nodo_actual : Z)
    (restantes : list (Z * Z)) : result (option Z) :=
  match restantes with
  | [] => Ok None
  | (i, j) :: rs =>
      if decide (i = nodo_actual) then
        v ← x_get self i j k;
        if Qgtb (varValue v) (1 # 2) then Ok (Some j)
        else buscar_siguiente self varValue k nodo_actual rs
      else buscar_siguiente self varValue k nodo_actual rs
  end.

(** The [while nodo_actual != destino] loop; [fuel] bounds the number of times
    the body runs and [None] means the bound was reached. *)
Fixpoint ruta_loop (fuel : nat) (self : AmbulanceOptimizationModel)
    (varValue : LpVariable → Q) (k : nat) (destino : Z)
    (ruta : list Z) (nodo_actual : Z) (visitados : gset Z)
  : option (result (list Z)) :=
  if decide (nodo_actual = destino) then Some (Ok ruta)
  else
    match fuel with
    | O => None
    | S fuel' =>
        match buscar_siguiente self varValue k nodo_actual (aristas self) with
        | Raise e => Some (Raise e)
        | Ok None => Some (Ok ruta)
        | Ok (Some siguiente_nodo) =>
            if decide (siguiente_nodo ∈ visitados) then Some (Ok ruta)
            else ruta_loop fuel' self varValue k destino
                   (ruta ++ [siguiente_nodo]) siguiente_nodo
                   (visitados ∪ {[ siguiente_nodo ]})
        end
    end.

(** [_reconstruir_ruta_flujo]; one more round than there are edges is always
    enough for the loop to finish. *)
Definition _reconstruir_ruta_flujo (self : AmbulanceOptimizationModel)
    (varValue : LpVariable → Q) (k : nat) (destino : Z)
  : option (result (list Z)) :=
  ruta_loop (S (length (aristas self))) self varValue k destino
            [nodo_origen self] (nodo_origen self) {[ nodo_origen self ]}.

(** An entry of the table [_calcular_uso_aristas] returns. *)
Record UsoArista : Type := mkUso {
  num_flujos : nat;
  flujos_ids : list nat;
  carga_total : Q;
  capacidad : Q;
  utilizacion : Q
}.

Definition uso_flujo (self : AmbulanceOptimizationModel)
    (varValue : LpVariable → Q) (ij : Z * Z)
    (st : list nat * Q) (ke : nat * Emergencia) : result (list nat * Q) :=
  v ← x_get self ij.1 ij.2 ke.1;
  if Qgtb (varValue v) (1 # 2)
  then Ok (st.1 ++ [S ke.1], (st.2 + velocidad_requerida ke.2)%Q)
  else Ok st.

Definition uso_arista (self : AmbulanceOptimizationModel)
    (varValue : LpVariable → Q)
    (uso : list (Z * Z * UsoArista)) (ij : Z * Z)
  : result (list (Z * Z * UsoArista)) :=
  st ← for_each (uso_flujo self varValue ij) (enumerate (emergencias self)) ([], 0%Q);
  let '(flujos_usando, carga) := st in
  match flujos_usando with
  | [] => Ok uso
  | _ :: _ =>
      cap ← atributo_arista (grafo self) ij.1 ij.2 "capacity";
      u ← (if Qgtb cap 0 then py_div carga cap else Ok 0%Q);
      Ok (OD.set ij (mkUso (length flujos_usando) flujos_usando carga cap u) uso)
  end.

(** [_calcular_uso_aristas] *)
Definition _calcular_uso_aristas (self : AmbulanceOptimizationModel)
    (varValue : LpVariable → Q) : result (list (Z * Z * UsoArista)) :=
  for_each (uso_arista self varValue) (aristas self) [].

(** ** Well-formed graphs

    The invariants NetworkX keeps on its dictionaries. *)

(** Keys are unique at every level of the adjacency of a multigraph. *)
Definition mg_wf (g : MultiDiGraph) : Prop :=
  OD.wf (mg_adj g) ∧
  Forall (λ row, OD.wf row.2 ∧ Forall (λ ent, OD.wf ent.2) row.2) (mg_adj g).

(** Keys are unique among the nodes and at both levels of the adjacency of a
    digraph. *)
Definition dg_ok (g : DiGraph) : Prop :=
  OD.wf (dg_node g) ∧ OD.wf (dg_adj g) ∧ Forall (λ row, OD.wf row.2) (dg_adj g).

(** A digraph: [_node] and [_adj] have the same keys in the same order, keys are
    unique, and every edge ends in a node. *)
Definition dg_wf (g : DiGraph) : Prop :=
  OD.wf (dg_node g) ∧
  OD.keys (dg_adj g) = OD.keys (dg_node g) ∧
  Forall (λ row, OD.wf row.2 ∧ Forall (λ v, v ∈ OD.keys (dg_node g)) (OD.keys row.2))
         (dg_adj g).

(** ** Sums used to state the model *)

Definition suma (qs : list Q) : Q := foldr Qplus 0%Q qs.

(** The required speed of the flow with 1-based identifier [id]. *)
Definition velocidad_de_flujo (ems : list Emergencia) (id : nat) : Q :=
  match id with
  | S k => from_option velocidad_requerida 0%Q (ems !! k)
  | O => 0%Q
  end.

(** Flow [k] uses edge [(i, j)] under the assignment [varValue]. *)
Definition flujo_usa (varValue : LpVariable → Q) (i j : Z) (k : nat) : Prop :=
  (1 # 2 < varValue (LpVar i j k))%Q.

#[global] Instance flujo_usa_dec varValue i j k : Decision (flujo_usa varValue i j k).
Proof.
  unfold flujo_usa.
  destruct (Qlt_le_dec (1 # 2) (varValue (LpVar i j k))) as [Hlt|Hle].
  - left. exact Hlt.
  - right. apply Qle_not_lt. exact Hle.
Defined.

(** The flows (with their positions) that use edge [ij]. *)
Definition flujos_que_usan (varValue : LpVariable → Q) (ij : Z * Z)
    (l : list (nat * Emergencia)) : list (nat * Emergencia) :=
  filter (λ ke, flujo_usa varValue ij.1 ij.2 ke.1) l.

(** The generator that hands out the listed values (and 0 once they are used
    up, which no example reaches). *)
Definition rng_de (valores : list N) : Rng := mkRng (λ n, nth n valores 0%N) 0.

(** The first sixteen values [random.random()] returns after [random.seed(42)],
    as [int(random.random() * 2**53)]: 0.6394..., 0.0250..., 0.2750...,
    0.2232..., 0.7364..., ...; for the examples that draw with
    [random.uniform]. *)
Definition rng_seed42 : Rng :=
  rng_de [5759444582531269; 225276855802115; 2477243871446254;
          2010503594304263; 6633542971356286; 6095167118799258;
          8036039137326224; 783075388467729; 3800333899828131;
          268389492715941; 1969315803709096; 4551835774384025;
          239014766360326; 1790970339079230; 5853638623635490;
          4908396497966746]%N.

(** The values [_randbelow] returns to [random.sample] after [random.seed(42)]
    when two nodes are drawn out of two: 0 below 2, then 0 below 1. *)
Definition sorteos_seed42_dos : Rng := rng_de [0; 0]%N.

(** The same when the nodes are drawn out of 22: 20, 3, 0, 8, 7, all
    below 22. *)
Definition sorteos_seed42_veintidos : Rng := rng_de [20; 3; 0; 8; 7]%N.

(** A generator that repeats a value: 15, 15, 8. *)
Definition sorteos_repetidos : Rng := rng_de [15; 15; 8]%N.

(** The values [_randbelow n] returns on the next [m] calls. *)
Fixpoint sorteos (n m : nat) (rng : Rng) : list nat :=
  match m with
  | O => []
  | S m' => let '(j, rng') := randbelow n rng in j :: sorteos n m' rng'
  end.

(** How many of the values [js], read in order, are new: neither in
    [selected] nor met earlier in [js]. *)
Fixpoint valores_nuevos (selected : gset nat) (js : list nat) : nat :=
  match js with
  | [] => O
  | j :: js' =>
      if decide (j ∈ selected) then valores_nuevos selected js'
      else S (valores_nuevos (selected ∪ {[ j ]}) js')
  end.

(** The sample of [k] out of [n] returns within the bound [fuel]: it takes
    the pool, which never redraws, or the next [fuel + 1] values below [n]
    include [k] different ones. *)
Definition muestra_termina (fuel n k : nat) (rng : Rng) : Prop :=
  (n ≤ setsize k)%nat ∨ (k ≤ valores_nuevos ∅ (sorteos n (S fuel) rng))%nat.

(** The nodes the binding draws from: the interior nodes, or all the nodes
    when there are fewer interior nodes than emergencies. *)
Definition candidatos (grafo : MultiDiGraph) (emergencias : list EmergenciaBase)
  : list Z :=
  if decide (length (filtrar_nodos_internos grafo 3 3) < length emergencias)%nat
  then mg_nodes grafo else filtrar_nodos_internos grafo 3 3.

(** Every flow-edge pair has its variable in [self.x]. *)
Definition x_completa (self : AmbulanceOptimizationModel) : Prop :=
  ∀ i j k, (i, j) ∈ aristas self → (k < num_emergencias self)%nat →
           OD.get (i, j, k) (x self) = Some (LpVar i j k).

(** Consecutive nodes of a route are joined by an edge that flow [k] uses. *)
Definition encadenada (self : AmbulanceOptimizationModel)
    (varValue : LpVariable → Q) (k : nat) (ruta : list Z) : Prop :=
  ∀ n cur next, ruta !! n = Some cur → ruta !! S n = Some next →
    (cur, next) ∈ aristas self ∧ (1 # 2 < varValue (LpVar cur next k))%Q.

(** The number of edge heads not yet visited: it bounds the rounds the
    reconstruction loop has left. *)
Definition pendientes (self : AmbulanceOptimizationModel) (visitados : gset Z) : nat :=
  length (filter (λ t, t ∉ visitados) (aristas self).*2).

(** *** Capacity assignment *)

(** The [n]-th value [random.random()] returns from the state [rng] on. *)
Definition sorteo (rng : Rng) (n : nat) : Q :=
  Qmake (Z.of_N (rng_raw rng (rng_pos rng + n)%nat mod 2 ^ 53)) (2 ^ 53).

(** The capacity [random.uniform(c_min, c_max)] gives at the [n]-th draw. *)
Definition capacidad_sorteada (c_min c_max : Q) (rng : Rng) (n : nat) : Q :=
  (c_min + (c_max - c_min) * sorteo rng n)%Q.

(** The generator after [n] draws. *)
Definition rng_avanza (rng : Rng) (n : nat) : Rng :=
  mkRng (rng_raw rng) (rng_pos rng + n).

(** The state the assignment draws from: reseeded when a seed is given. *)
Definition rng_inicial (random_seed : Z → Rng) (seed : option Z) (rng : Rng) : Rng :=
  match seed with
  | Some sd => random_seed sd
  | None => rng
  end.

(** The seed, when there is one, is one [numpy.random.seed] accepts. *)
Definition semilla_valida (seed : option Z) : bool :=
  match seed with
  | Some sd => np_seed_ok sd
  | None => true
  end.

(** The invariant of the assignment loop once the edges [pre] have been
    visited: they carry their draws, the others are untouched. *)
Definition capacidades_inv (c_min c_max : Q) (g : MultiDiGraph) (rng0 : Rng)
    (pre : list (Z * Z * Z * gmap string Q)) (st : MultiDiGraph * Rng * list Q)
  : Prop :=
  st.1.2 = rng_avanza rng0 (length pre) ∧
  length st.2 = length pre ∧
  mg_wf st.1.1 ∧
  mg_node st.1.1 = mg_node g ∧
  (∀ u v k, is_Some (mg_edge_data st.1.1 u v k) ↔ is_Some (mg_edge_data g u v k)) ∧
  (∀ n u v k d, pre !! n = Some (u, v, k, d) →
     mg_edge_data st.1.1 u v k
     = Some (<["capacity" := capacidad_sorteada c_min c_max rng0 n]> d)) ∧
  (∀ u v k, (u, v, k) ∉ pre.*1 → mg_edge_data st.1.1 u v k = mg_edge_data g u v k).

(** *** Destination binding *)

(** Every node carries its coordinates ['y'] and ['x']. *)
Definition nodos_con_coordenadas (g : MultiDiGraph) : Prop :=
  Forall (λ na, is_Some (na.2 !! "y") ∧ is_Some (na.2 !! "x")) (mg_node g).

(** *** Simplification *)

(** The edge kept for the pair [(u, v)]: the attributes of a parallel edge of
    the multigraph whose capacity no other parallel exceeds. *)
Definition arista_elegida (mg : MultiDiGraph) (g : DiGraph) (u v : Z) : Prop :=
  ∃ k d, (u, v, k, d) ∈ mg_edges mg ∧ dg_edge_data g u v = Some d ∧
         ∀ k' d', (u, v, k', d') ∈ mg_edges mg → (get_capacity d' <= get_capacity d)%Q.

(** The invariant of the simplification loop once the edges [pre] have been
    visited. *)
Definition simplificar_inv (mg : MultiDiGraph)
    (pre : list (Z * Z * Z * gmap string Q)) (st : DiGraph * gset (Z * Z)) : Prop :=
  (∀ u v, (u, v) ∈ st.2 ↔ ∃ k d, (u, v, k, d) ∈ pre) ∧
  (∀ u v, is_Some (dg_edge_data st.1 u v) → (u, v) ∈ st.2) ∧
  (∀ u v, (u, v) ∈ st.2 → arista_elegida mg st.1 u v).

(** Every capacity, read as the code reads it, is above the value the search
    for the best parallel edge starts from. *)
Definition capacidades_validas (mg : MultiDiGraph) : Prop :=
  Forall (λ e, (-1 < get_capacity e.2)%Q) (mg_edges mg).

#[global] Instance Qlt_decision (a b : Q) : Decision (a < b)%Q.
Proof.
  destruct (Qlt_le_dec a b) as [Hlt|Hle].
  - left. exact Hlt.
  - right. apply Qle_not_lt. exact Hle.
Defined.

(** *** The model as the specification states it *)

(** [Σ_{(v,j)∈E} x[v,j,k]] and [Σ_{(i,v)∈E} x[i,v,k]]. *)
Definition flujo_saliente (val : LpVariable → Q) (E : list (Z * Z)) (v : Z) (k : nat)
  : Q :=
  suma ((λ ij, val (LpVar v ij.2 k)) <$> filter (λ ij, ij.1 = v) E).

Definition flujo_entrante (val : LpVariable → Q) (E : list (Z * Z)) (v : Z) (k : nat)
  : Q :=
  suma ((λ ij, val (LpVar ij.1 v k)) <$> filter (λ ij, ij.2 = v) E).

(** [Σ_k required_speed_kmh(k) · x[i,j,k]]. *)
Definition demanda_total_arista (val : LpVariable → Q) (ems : list Emergencia)
    (i j : Z) : Q :=
  suma ((λ ke, velocidad_requerida ke.2 * val (LpVar i j ke.1))%Q <$> enumerate ems).

(** The cost row of a severity: the caller's row when there is one, the default
    table otherwise. *)
Definition fila_costos (costos : option (list (Severidad * CostoUsuario)))
    (s : Severidad) : CostoUsuario :=
  match costos ≫= OD.get s with
  | Some fila => fila
  | None =>
      mkCostoUsuario (costo_fijo_activacion (COSTOS (PRIORIDAD_A_AMBULANCIA s)))
                     (costo_por_km (COSTOS (PRIORIDAD_A_AMBULANCIA s)))
  end.

(** [length_m(i,j)] and [capacity_kmh(i,j)] of the prepared graph. *)
Definition length_m (g : DiGraph) (i j : Z) : Q :=
  default 0%Q (dg_edge_data g i j ≫= (.!! "length")).

Definition capacity_kmh (g : DiGraph) (i j : Z) : Q :=
  default 0%Q (dg_edge_data g i j ≫= (.!! "capacity")).

(** [Z = Σ_k fixed_cost(severity_k)
       + Σ_k Σ_{(i,j)∈E'} (length_m(i,j) / 1000) · per_km_cost(severity_k) · x[i,j,k]]. *)
Definition costo_objetivo (g : DiGraph) (ems : list Emergencia)
    (costos : option (list (Severidad * CostoUsuario))) (val : LpVariable → Q) : Q :=
  (suma ((λ e, costo_fijo (fila_costos costos (severidad e))) <$> ems)
   + suma ((λ ke,
              suma ((λ ij, length_m g ij.1 ij.2 / 1000
                           * costo_km (fila_costos costos (severidad ke.2))
                           * val (LpVar ij.1 ij.2 ke.1)) <$> dg_edges g))
           <$> enumerate ems))%Q.

(** *** The closed form of what the builder's loops produce *)

Definition agrega (m : LpProblem) (l : list (NombreRestriccion * LpConstraint))
  : LpProblem :=
  mkProblem (objective m) (constraints m ++ l).

Definition entrantes_de (self : AmbulanceOptimizationModel) (nodo : Z) (k : nat)
  : list LpVariable :=
  (λ ij, LpVar ij.1 nodo k) <$> filter (λ ij, ij.2 = nodo) (aristas self).

Definition salientes_de (self : AmbulanceOptimizationModel) (nodo : Z) (k : nat)
  : list LpVariable :=
  (λ ij, LpVar nodo ij.2 k) <$> filter (λ ij, ij.1 = nodo) (aristas self).

Definition par_nodo (self : AmbulanceOptimizationModel) (k : nat) (dest_k nodo : Z)
  : NombreRestriccion * LpConstraint :=
  let entrantes := lpSum_vars (entrantes_de self nodo k) in
  let salientes := lpSum_vars (salientes_de self nodo k) in
  if decide (nodo = nodo_origen self) then
    (Flujo_Origen k nodo, constraint_eq (subInPlace salientes entrantes) 1)
  else if decide (nodo = dest_k) then
    (Flujo_Destino k nodo, constraint_eq (subInPlace entrantes salientes) 1)
  else
    (Flujo_Conservacion k nodo, constraint_eq (subInPlace entrantes salientes) 0).

Definition pares_flujo (self : AmbulanceOptimizationModel)
  : list (NombreRestriccion * LpConstraint) :=
  concat ((λ ke, par_nodo self ke.1 (nodo_destino ke.2) <$> nodos self)
          <$> enumerate (emergencias self)).

Definition par_arista (self : AmbulanceOptimizationModel) (ij : Z * Z)
  : NombreRestriccion * LpConstraint :=
  (Capacidad ij.1 ij.2,
   constraint_le
     (lpSum ((λ ke, mul_var (velocidad_requerida ke.2) (LpVar ij.1 ij.2 ke.1))
             <$> enumerate (emergencias self)))
     (capacity_kmh (grafo self) ij.1 ij.2)).

Definition terminos_costo (self : AmbulanceOptimizationModel)
  : list LpAffineExpression :=
  concat ((λ ke, (λ ij, mul_var (length_m (grafo self) ij.1 ij.2 / 1000
                                 * costo_km_de self (severidad ke.2))%Q
                                (LpVar ij.1 ij.2 ke.1)) <$> aristas self)
          <$> enumerate (emergencias self)).

Definition costo_fijo_total_de (self : AmbulanceOptimizationModel) : Q :=
  fold_left (λ total emerg, (total + costo_fijo_de self (severidad emerg))%Q)
            (emergencias self) 0%Q.

(** Every edge of the graph carries the attribute [name]. *)
Definition aristas_con (g : DiGraph) (name : string) : Prop :=
  Forall (λ ij, is_Some (dg_edge_data g ij.1 ij.2 ≫= (.!! name))) (dg_edges g).

(** The flow and node a flow-conservation constraint is named after. *)
Definition clave_flujo (n : NombreRestriccion) : option (nat * Z) :=
  match n with
  | Flujo_Origen k nodo | Flujo_Destino k nodo | Flujo_Conservacion k nodo =>
      Some (k, nodo)
  | Capacidad _ _ => None
  end.

(** Edge [ij] is used by at least one flow. *)
Definition usada (self : AmbulanceOptimizationModel) (varValue : LpVariable → Q)
    (ij : Z * Z) : Prop :=
  ∃ k e, emergencias self !! k = Some e ∧ flujo_usa varValue ij.1 ij.2 k.

(** What the usage table must hold for edge [ij]: the identifiers listed are
    those of the flows using the edge, the load is the sum of their required
    speeds, the capacity is the edge's, and the utilisation is their quotient,
    or 0 when the capacity is not positive. *)
Definition registro_correcto (self : AmbulanceOptimizationModel)
    (varValue : LpVariable → Q) (ij : Z * Z) (u : UsoArista) : Prop :=
  (∀ id, id ∈ flujos_ids u ↔
         ∃ k e, id = S k ∧ emergencias self !! k = Some e ∧
                flujo_usa varValue ij.1 ij.2 k) ∧
  num_flujos u = length (flujos_ids u) ∧
  (carga_total u == suma (velocidad_de_flujo (emergencias self) <$> flujos_ids u))%Q ∧
  atributo_arista (grafo self) ij.1 ij.2 "capacity" = Ok (capacidad u) ∧
  ((0 < capacidad u)%Q → utilizacion u = (carga_total u / capacidad u)%Q) ∧
  ((capacidad u <= 0)%Q → utilizacion u = 0%Q).

(** ** A small scenario

    A diamond [0 → 1 → 3], [0 → 2 → 3] with a second, slower street from [0] to
    [1]; two emergencies leave the clinic at node [0]. *)

Definition ej_nodo (lat lon : Q) : gmap string Q :=
  <["y" := lat]> (<["x" := lon]> ∅).

Definition ej_via (length capacity : Q) : gmap string Q :=
  <["length" := length]> (<["capacity" := capacity]> ∅).

Definition ej_multigrafo : MultiDiGraph :=
  mkMulti
    [(0, ej_nodo 6 (-75)); (1, ej_nodo 7 (-75)); (2, ej_nodo 6 (-74));
     (3, ej_nodo 7 (-74))]
    [(0, [(1, [(0, ej_via 1200 30); (1, ej_via 1000 60)]);
          (2, [(0, ej_via 2000 60)])]);
     (1, [(3, [(0, ej_via 1000 60)])]);
     (2, [(3, [(0, ej_via 500 60)])]);
     (3, [])].

Definition ej_emergencias : list Emergencia :=
  [mkEmergencia 1 leve 40 1 3 7 (-74); mkEmergencia 2 grave 15 2 1 7 (-75)].

Definition ej_costos : option (list (Severidad * CostoUsuario)) :=
  Some [(leve, mkCostoUsuario 30000 5000)].

Definition ej_self0 : AmbulanceOptimizationModel :=
  Eval vm_compute in
    match init ej_multigrafo ej_emergencias 0 ej_costos with
    | Ok self => self
    | Raise _ => mkModel (mkDi [] []) [] 0 None 0 [] [] None []
    end.

Definition ej_self : AmbulanceOptimizationModel :=
  Eval vm_compute in
    match construir_modelo ej_self0 with
    | Ok self => self
    | Raise _ => ej_self0
    end.

(** Two nodes joined both ways, and two emergencies to bind. *)
Definition ej_dos_nodos : MultiDiGraph :=
  mkMulti [(0, ej_nodo 6 (-75)); (1, ej_nodo 7 (-75))]
          [(0, [(1, [(0, ej_via 100 50)])]); (1, [(0, [(0, ej_via 100 50)])])].

(** Twenty-two nodes without streets: none is interior, and the sample is
    drawn from all of them through the set of selected indices. *)
Definition ej_veintidos : MultiDiGraph :=
  mkMulti ((λ n, (n, ej_nodo 6 (-75))) <$> seqZ 0 22)
          ((λ n, (n, [])) <$> seqZ 0 22).

Definition ej_emergencias_base : list EmergenciaBase :=
  [mkBase 1 leve 40 1; mkBase 2 grave 80 2].

(** Flow 0 goes [0 → 1 → 3], flow 1 goes [0 → 1]. *)
Definition ej_varValue (v : LpVariable) : Q :=
  match v with
  | LpVar 0 1 0%nat | LpVar 1 3 0%nat | LpVar 0 1 1%nat => 1
  | _ => 0
  end.

(** ** [graph_processor.calcular_tiempos_viaje] *)

(** The loop over [grafo.edges(keys=True, data=True)]; [data] is the edge's own
    dictionary, which no earlier round has written to.  The graph is mutated
    in place, so it is returned beside the outcome also when a round raises. *)
Fixpoint tiempos_loop (es : list (Z * Z * Z * gmap string Q)) (grafo : MultiDiGraph)
    (tiempos : list Q) : result (list Q) * MultiDiGraph :=
  match es with
  | [] => (Ok tiempos, grafo)
  | (u, v, key, data) :: es' =>
      match data !! "length", data !! "capacity" with
      | Some longitud_m, Some velocidad_kmh =>
          let velocidad_m_min := (velocidad_kmh * 1000 / 60)%Q in
          match py_div longitud_m velocidad_m_min with
          | Ok tiempo_min =>
              tiempos_loop es' (mg_setattr u v key "travel_time" tiempo_min grafo)
                           (tiempos ++ [tiempo_min])
          | Raise e => (Raise e, grafo)
          end
      | _, _ => tiempos_loop es' grafo tiempos
      end
  end.

Definition calcular_tiempos_viaje (grafo : MultiDiGraph)
  : result MultiDiGraph * MultiDiGraph :=
  let '(r, grafo') := tiempos_loop (mg_edges grafo) grafo [] in
  match r with
  | Raise e => (Raise e, grafo')
  | Ok [] => (Raise ValueError, grafo')  (* min(tiempos) in the summary *)
  | Ok (_ :: _) => (Ok grafo', grafo')
  end.

(** The edge carries both attributes the travel time is computed from. *)
Definition con_datos (d : gmap string Q) : Prop :=
  is_Some (d !! "length") ∧ is_Some (d !! "capacity").

(** The edge carries a length and a capacity that is zero. *)
Definition capacidad_nula (d : gmap string Q) : Prop :=
  is_Some (d !! "length") ∧ ∃ c, d !! "capacity" = Some c ∧ (c == 0)%Q.

(** The dictionary of an edge once its round has run. *)
Definition con_tiempo (d : gmap string Q) : gmap string Q :=
  match d !! "length", d !! "capacity" with
  | Some l, Some c => <["travel_time" := (l / (c * 1000 / 60))%Q]> d
  | _, _ => d
  end.

(** The invariant of the loop once the edges [pre] have been visited. *)
Definition tiempos_inv (g : MultiDiGraph) (pre : list (Z * Z * Z * gmap string Q))
    (g1 : MultiDiGraph) (ts : list Q) : Prop :=
  mg_wf g1 ∧
  mg_node g1 = mg_node g ∧
  (∀ u v k, is_Some (mg_edge_data g1 u v k) ↔ is_Some (mg_edge_data g u v k)) ∧
  (∀ u v k d, (u, v, k, d) ∈ pre → mg_edge_data g1 u v k = Some (con_tiempo d)) ∧
  (∀ u v k, (u, v, k) ∉ pre.*1 → mg_edge_data g1 u v k = mg_edge_data g u v k) ∧
  (ts = [] ↔ ∀ e, e ∈ pre → ¬ con_datos e.2).

From Stdlib Require Import Lqa.

(** ** More of the [random] module *)

(** A computation that draws from the module-level generator and may raise. *)
Definition Aleatorio (A : Type) : Type := Rng → result A * Rng.

#[global] Instance aleatorio_ret : MRet Aleatorio := λ A a rng, (Ok a, rng).

#[global] Instance aleatorio_bind : MBind Aleatorio := λ A B f m rng,
  match m rng with
  | (Ok a, rng') => f a rng'
  | (Raise e, rng') => (Raise e, rng')
  end.

Definition lanzar {A : Type} (e : exn) : Aleatorio A := λ rng, (Raise e, rng).

(** [random.choice(seq)]: [IndexError] on an empty sequence. *)
Definition random_choice {A : Type} (seq : list A) : Aleatorio A := λ rng,
  match seq with
  | [] => (Raise IndexError, rng)
  | _ :: _ =>
      let '(j, rng') := randbelow (length seq) rng in
      (getitem "choice" (seq !! j), rng')
  end.

(** [random.randint(a, b)] is [a + randbelow(b - a + 1)]; [ValueError] on an
    empty range. *)
Definition random_randint (a b : Z) : Aleatorio Z := λ rng,
  if decide (b < a) then (Raise ValueError, rng)
  else
    let '(j, rng') := randbelow (Z.to_nat (b - a + 1)) rng in
    (Ok (a + Z.of_nat j), rng').

(** ** [config/parametros.py] *)

Definition R_MIN : Q := 30.
Definition R_MAX : Q := 90.
Definition RANGO_TOTAL : Q := R_MAX - R_MIN.
Definition TERCIO : Q := RANGO_TOTAL / 3.

Record Rango : Type := mkRango {
  rango_min : Q;
  rango_max : Q;
  descripcion : string
}.

Definition RANGOS_EMERGENCIA : list (string * Rango) :=
  [("leve", mkRango R_MIN (R_MIN + TERCIO) "Emergencia de baja prioridad");
   ("media", mkRango (R_MIN + TERCIO) (R_MIN + 2 * TERCIO)
                     "Emergencia de prioridad media");
   ("grave", mkRango (R_MIN + 2 * TERCIO) R_MAX "Emergencia de alta prioridad")].

Definition generar_velocidad_emergencia (severidad : string) : Aleatorio Q := λ rng,
  match OD.get severidad RANGOS_EMERGENCIA with
  | None => (Raise ValueError, rng)
  | Some rango =>
      let '(v, rng') := random_uniform (rango_min rango) (rango_max rango) rng in
      (Ok v, rng')
  end.

Definition C_MIN : Q := 30.
Definition C_MAX : Q := 100.

Definition generar_capacidad_via : Aleatorio Q := λ rng,
  let '(c, rng') := random_uniform C_MIN C_MAX rng in (Ok c, rng').

Definition generar_severidad_aleatoria : Aleatorio string :=
  random_choice ["leve"; "media"; "grave"].

Definition NUM_EMERGENCIAS_MIN : Z := 3.
Definition NUM_EMERGENCIAS_MAX : Z := 5.

Definition generar_num_emergencias : Aleatorio Z :=
  random_randint NUM_EMERGENCIAS_MIN NUM_EMERGENCIAS_MAX.

(** An emergency as [generar_conjunto_emergencias] builds it. *)
Record EmergenciaGenerada : Type := mkGenerada {
  eg_id : Z;
  eg_severidad : string;
  eg_velocidad_requerida : Q;
  eg_ambulancia_id : Z;
  eg_origen : string
}.

(** The body of [for i in range(num_emergencias)]. *)
Fixpoint generar_desde (indices : list nat) (emergencias : list EmergenciaGenerada)
  : Aleatorio (list EmergenciaGenerada) :=
  match indices with
  | [] => mret emergencias
  | i :: indices' =>
      severidad ← generar_severidad_aleatoria;
      velocidad ← generar_velocidad_emergencia severidad;
      generar_desde indices'
        (emergencias ++ [mkGenerada (Z.of_nat i + 1) severidad velocidad
                                    (Z.of_nat i + 1)
                                    "Clínica Medellín - Sede El Poblado"])
  end.

Definition generar_conjunto_emergencias (num_emergencias : option Z)
  : Aleatorio (list EmergenciaGenerada) :=
  n ← match num_emergencias with
      | None => generar_num_emergencias
      | Some n => mret n
      end;
  generar_desde (seq 0 (Z.to_nat n)) [].

(** The bands of required speed, in km/h, as the thirds of [[30, 90]]. *)
Definition bandas : list (string * Q * Q) :=
  [("leve", 30, 50); ("media", 50, 70); ("grave", 70, 90)]%Q.

(** What one generated emergency at position [i] looks like. *)
Definition generada_en (i : nat) (e : EmergenciaGenerada) : Prop :=
  eg_id e = Z.of_nat i + 1 ∧
  eg_ambulancia_id e = Z.of_nat i + 1 ∧
  ∃ lo hi, (eg_severidad e, lo, hi) ∈ bandas ∧
           (lo <= eg_velocidad_requerida e)%Q ∧ (eg_velocidad_requerida e <= hi)%Q.

(** ** [sidebar.actualizar_velocidades_emergencias] *)

(** [nuevos_rangos[severidad]] as [(min, max)]; every severity has its row. *)
Definition nuevos_rangos (r_min r_max : Q) (s : Severidad) : Q * Q :=
  let rango_total := (r_max - r_min)%Q in
  let tercio := (rango_total / 3)%Q in
  match s with
  | leve => (r_min, r_min + tercio)%Q
  | media => (r_min + tercio, r_min + 2 * tercio)%Q
  | grave => (r_min + 2 * tercio, r_max)%Q
  end.

(** [emerg.copy()] with ['velocidad_requerida'] replaced. *)
Definition con_velocidad (emerg : Emergencia) (v : Q) : Emergencia :=
  mkEmergencia (em_id emerg) (severidad emerg) v (ambulancia_id emerg)
               (nodo_destino emerg) (latitud emerg) (longitud emerg).

(** One round of the loop over [emergencias]; the state is the list
    [emergencias_actualizadas] and the generator. *)
Definition actualizar_paso (r_min r_max : Q) (st : list Emergencia * Rng)
    (emerg : Emergencia) : list Emergencia * Rng :=
  let rango := nuevos_rangos r_min r_max (severidad emerg) in
  let '(nueva_velocidad, rng') := random_uniform rango.1 rango.2 st.2 in
  (st.1 ++ [con_velocidad emerg nueva_velocidad], rng').

Definition actualizar_velocidades_emergencias (emergencias : list Emergencia)
    (r_min r_max : Q) (rng : Rng) : list Emergencia * Rng :=
  fold_left (actualizar_paso r_min r_max) emergencias ([], rng).

(** ** More of [config/costos.py] *)

(** The keys of [COSTOS]; [None] stands for [tipo not in COSTOS]. *)
Definition tipo_de_clave (clave : string) : option TipoAmbulancia :=
  if decide (clave = "TAB_leve") then Some TAB_leve
  else if decide (clave = "TAM_moderada") then Some TAM_moderada
  else if decide (clave = "TAM_grave") then Some TAM_grave
  else None.

Definition clave_de_tipo (t : TipoAmbulancia) : string :=
  match t with
  | TAB_leve => "TAB_leve"
  | TAM_moderada => "TAM_moderada"
  | TAM_grave => "TAM_grave"
  end.

(** The keys of [PRIORIDAD_A_AMBULANCIA]. *)
Definition severidad_de_texto (texto : string) : option Severidad :=
  if decide (texto = "leve") then Some leve
  else if decide (texto = "media") then Some media
  else if decide (texto = "grave") then Some grave
  else None.

Definition texto_de_severidad (s : Severidad) : string :=
  match s with
  | leve => "leve"
  | media => "media"
  | grave => "grave"
  end.

(** [COSTOS[tipo]['desglose_km']] and [COSTOS[tipo]['nivel']]. *)
Record DesgloseKm : Type := mkDesgloseKm {
  dk_depreciacion_mantenimiento : Q;
  dk_combustible : Q;
  dk_personal : Q;
  dk_insumos : Q
}.

Definition desglose_km (t : TipoAmbulancia) : DesgloseKm :=
  match t with
  | TAB_leve => mkDesgloseKm 1910 1031 769 1875
  | TAM_moderada => mkDesgloseKm 2524 1031 1354 5625
  | TAM_grave => mkDesgloseKm 2524 1031 1841 15000
  end.

Definition nivel (t : TipoAmbulancia) : Z :=
  match t with
  | TAB_leve => 1
  | TAM_moderada => 2
  | TAM_grave => 3
  end.

(** [calcular_costo_servicio]; [tiempo_min] is accepted and not used. *)
Definition calcular_costo_servicio (tipo_ambulancia : string) (distancia_km : Q)
    (tiempo_min : option Q) : result Q :=
  match tipo_de_clave tipo_ambulancia with
  | None => Raise ValueError
  | Some t =>
      let config := COSTOS t in
      let costo_fijo := costo_fijo_activacion config in
      let costo_variable := (distancia_km * costo_por_km config)%Q in
      Ok (costo_fijo + costo_variable)%Q
  end.

(** The dictionary [obtener_desglose_costo] returns. *)
Record DesgloseCosto : Type := mkDesgloseCosto {
  dc_costo_fijo : Q;
  dc_depreciacion_mantenimiento : Q;
  dc_combustible : Q;
  dc_personal : Q;
  dc_insumos : Q;
  dc_total : Q
}.

Definition obtener_desglose_costo (tipo_ambulancia : string) (distancia_km : Q)
  : result DesgloseCosto :=
  match tipo_de_clave tipo_ambulancia with
  | None => Raise ValueError
  | Some t =>
      let config := COSTOS t in
      let desglose := desglose_km t in
      (total ← calcular_costo_servicio tipo_ambulancia distancia_km None;
       Ok (mkDesgloseCosto
             (costo_fijo_activacion config)
             (dk_depreciacion_mantenimiento desglose * distancia_km)%Q
             (dk_combustible desglose * distancia_km)%Q
             (dk_personal desglose * distancia_km)%Q
             (dk_insumos desglose * distancia_km)%Q
             total))
  end.

Definition validar_tipo_ambulancia_para_prioridad (tipo_ambulancia prioridad : string)
  : result bool :=
  t ← getitem tipo_ambulancia (tipo_de_clave tipo_ambulancia);
  let nivel_ambulancia := nivel t in
  if decide (prioridad = "leve") then Ok (bool_decide (nivel_ambulancia = 1))
  else if decide (prioridad = "media") then Ok (bool_decide (2 ≤ nivel_ambulancia))
  else if decide (prioridad = "grave") then Ok (bool_decide (nivel_ambulancia = 3))
  else Ok false.

(** [calcular_costo_con_valores_usuario]: the caller's row when there is one
    for the priority, the default table otherwise. *)
Definition calcular_costo_con_valores_usuario (prioridad : string) (distancia_km : Q)
    (costos_usuario : option (list (Severidad * CostoUsuario))) : result Q :=
  let fila :=
    match costos_usuario, severidad_de_texto prioridad with
    | Some (f :: fs), Some s => OD.get s (f :: fs)
    | _, _ => None
    end in
  match fila with
  | Some config => Ok (costo_fijo config + distancia_km * costo_km config)%Q
  | None =>
      (s ← getitem prioridad (severidad_de_texto prioridad);
       let config := COSTOS (PRIORIDAD_A_AMBULANCIA s) in
       Ok (costo_fijo_activacion config + distancia_km * costo_por_km config)%Q)
  end.

(** ** Further predicates and scenarios *)

(** A multigraph as NetworkX keeps it: the node identifiers are distinct and
    every edge joins two nodes. *)
Definition mg_cerrado (mg : MultiDiGraph) : Prop :=
  OD.wf (mg_node mg) ∧
  ∀ u v k d, (u, v, k, d) ∈ mg_edges mg → u ∈ mg_nodes mg ∧ v ∈ mg_nodes mg.

(** The pair [(u, v)] has parallel edges and none of them has a capacity above
    the value the search starts from. *)
Definition sin_candidata (mg : MultiDiGraph) (u v : Z) : Prop :=
  (1 < mg_number_of_edges mg u v)%nat ∧
  ∀ k d, (u, v, k, d) ∈ mg_edges mg → (get_capacity d <= -1)%Q.

(** Two streets from 0 to 1 whose capacities were drawn from a negative
    range. *)
Definition ej_negativas : MultiDiGraph :=
  mkMulti [(0, ∅); (1, ∅)]
          [(0, [(1, [(0, ej_via 100 (-5)); (1, ej_via 100 (-2))])]); (1, [])].

(** The variables of flow [k], in the order of the edges. *)
Definition variables_de (aristas : list (Z * Z)) (k : nat)
  : list (Z * Z * nat * LpVariable) :=
  (λ ij, (ij.1, ij.2, k, LpVar ij.1 ij.2 k)) <$> aristas.

(** The model before the objective and the constraints are added. *)
Definition con_variables (self0 : AmbulanceOptimizationModel)
  : AmbulanceOptimizationModel :=
  _crear_variables (con_modelo self0 (mkProblem None [])).

(** One street without a length. *)
Definition ej_sin_length : MultiDiGraph :=
  mkMulti [(0, ∅); (1, ∅)] [(0, [(1, [(0, <["capacity" := 50%Q]> ∅)])]); (1, [])].

Definition ej_self_sin_length : AmbulanceOptimizationModel :=
  Eval vm_compute in
    match init ej_sin_length ej_emergencias 0 None with
    | Ok self => self
    | Raise _ => mkModel (mkDi [] []) [] 0 None 0 [] [] None []
    end.
(** [i] is followed by [j] in the route [p]. *)
Definition seguidos (p : list Z) (i j : Z) : Prop :=
  ∃ n, p !! n = Some i ∧ p !! S n = Some j.

(** [(i, j)] is the first edge of [aristas] out of [i] that flow [k] uses: the
    one the search [for (i, j) in self.aristas: ... break] stops at. *)
Definition primera_usada (varValue : LpVariable → Q) (k : nat)
    (aristas : list (Z * Z)) (i j : Z) : Prop :=
  ∃ pre post, aristas = pre ++ (i, j) :: post ∧
              flujo_usa varValue i j k ∧
              ∀ j', (i, j') ∈ pre → ¬ flujo_usa varValue i j' k.

(** ** [_reconstruir_rutas] and [_calcular_detalles_flujos] *)

(** The loop over [enumerate(self.emergencias)]; [None] when the
    reconstruction of some route ran out of rounds. *)
Fixpoint reconstruir_desde (self : AmbulanceOptimizationModel)
    (varValue : LpVariable → Q) (kes : list (nat * Emergencia))
    (rutas : list (list Z)) : option (result (list (list Z))) :=
  match kes with
  | [] => Some (Ok rutas)
  | (k, emerg) :: kes' =>
      match _reconstruir_ruta_flujo self varValue k (nodo_destino emerg) with
      | None => None
      | Some (Raise e) => Some (Raise e)
      | Some (Ok ruta) => reconstruir_desde self varValue kes' (rutas ++ [ruta])
      end
  end.

Definition _reconstruir_rutas (self : AmbulanceOptimizationModel)
    (varValue : LpVariable → Q) : option (result (list (list Z))) :=
  reconstruir_desde self varValue (enumerate (emergencias self)) [].

(** [COSTOS[tipo]['nombre']] *)
Definition nombre (t : TipoAmbulancia) : string :=
  match t with
  | TAB_leve => "TAB - Transporte Asistencial Básico"
  | TAM_moderada => "TAM - Transporte Asistencial Medicalizado (Moderada)"
  | TAM_grave => "TAM - Transporte Asistencial Medicalizado (Grave)"
  end.

(** An entry of the list [_calcular_detalles_flujos] returns. *)
Record DetalleFlujo : Type := mkDetalle {
  dt_emergencia_id : Z;
  dt_tipo_ambulancia : string;
  dt_severidad : Severidad;
  dt_nodo_destino : Z;
  dt_velocidad_requerida : Q;
  dt_distancia_km : Q;
  dt_num_aristas : nat;
  dt_costo_fijo : Q;
  dt_costo_variable : Q;
  dt_costo_total : Q;
  dt_ruta_nodos : list Z;
  dt_ruta_aristas : list (Z * Z);
  dt_velocidades_aristas : list Q
}.

(** The state of the loops over a route: [distancia_total_m], [aristas_ruta]
    and [velocidades_aristas]. *)
Definition Recorrido : Type := Q * list (Z * Z) * list Q.

(** The search of the edge from [nodo_i] to [nodo_j] in [self.aristas]; it
    stops at the first one whose variable exceeds 0.5. *)
Fixpoint buscar_arista (self : AmbulanceOptimizationModel)
    (varValue : LpVariable → Q) (k : nat) (nodo_i nodo_j : Z)
    (restantes : list (Z * Z)) (st : Recorrido) : result Recorrido :=
  match restantes with
  | [] => Ok st
  | (i, j) :: rs =>
      if decide (i = nodo_i ∧ j = nodo_j) then
        v ← x_get self i j k;
        if Qgtb (varValue v) (1 # 2) then
          longitud ← atributo_arista (grafo self) i j "length";
          velocidad ← atributo_arista (grafo self) i j "capacity";
          Ok (st.1.1 + longitud, st.1.2 ++ [(i, j)], st.2 ++ [velocidad])%Q
        else buscar_arista self varValue k nodo_i nodo_j rs st
      else buscar_arista self varValue k nodo_i nodo_j rs st
  end.

(** The pairs [(ruta[idx], ruta[idx + 1])] for [idx] in [range(len(ruta) - 1)]. *)
Definition pasos (ruta : list Z) : list (Z * Z) := zip ruta (tail ruta).

Definition detalle_flujo (self : AmbulanceOptimizationModel)
    (varValue : LpVariable → Q) (rutas : list (list Z)) (k : nat) (emerg : Emergencia)
  : result DetalleFlujo :=
  let severidad := severidad emerg in
  let '(costo_fijo, costo_km, tipo_amb_str) :=
    match fila_usuario self severidad with
    | Some fila =>
        (costo_fijo fila, costo_km fila,
         String.append "Ambulancia " (texto_de_severidad severidad))
    | None =>
        let tipo_amb := PRIORIDAD_A_AMBULANCIA severidad in
        (costo_fijo_activacion (COSTOS tipo_amb), costo_por_km (COSTOS tipo_amb),
         nombre tipo_amb)
    end in
  ruta ← match rutas !! k with Some ruta => Ok ruta | None => Raise IndexError end;
  st ← for_each (λ st paso, buscar_arista self varValue k paso.1 paso.2
                              (aristas self) st)
                (pasos ruta) (0%Q, [], []);
  let '(distancia_total_m, aristas_ruta, velocidades_aristas) := st in
  let distancia_km := (distancia_total_m / 1000)%Q in
  let costo_variable := (distancia_km * costo_km)%Q in
  let costo_total := (costo_fijo + costo_variable)%Q in
  Ok (mkDetalle (em_id emerg) tipo_amb_str severidad (nodo_destino emerg)
        (velocidad_requerida emerg) distancia_km (length aristas_ruta)
        costo_fijo costo_variable costo_total ruta aristas_ruta velocidades_aristas).

Definition _calcular_detalles_flujos (self : AmbulanceOptimizationModel)
    (varValue : LpVariable → Q) (rutas : list (list Z)) : result (list DetalleFlujo) :=
  for_each (λ detalles ke,
              detalle ← detalle_flujo self varValue rutas ke.1 ke.2;
              Ok (detalles ++ [detalle]))
           (enumerate (emergencias self)) [].

(** What the detail of an emergency must be, given the route of its flow:
    the steps of the route, their number, their capacities, the length of the
    route in kilometres, and the cost of the service under the cost row of the
    severity. *)
Definition detalle_correcto (self : AmbulanceOptimizationModel) (e : Emergencia)
    (ruta : list Z) (d : DetalleFlujo) : Prop :=
  dt_emergencia_id d = em_id e ∧ dt_severidad d = severidad e ∧
  dt_nodo_destino d = nodo_destino e ∧
  dt_velocidad_requerida d = velocidad_requerida e ∧
  dt_ruta_nodos d = ruta ∧
  dt_ruta_aristas d = pasos ruta ∧
  dt_num_aristas d = (length ruta - 1)%nat ∧
  dt_velocidades_aristas d
  = (λ ij, capacity_kmh (grafo self) ij.1 ij.2) <$> pasos ruta ∧
  (dt_distancia_km d
   == suma ((λ ij, length_m (grafo self) ij.1 ij.2) <$> pasos ruta) / 1000)%Q ∧
  dt_costo_fijo d = costo_fijo (fila_costos (costos_usuario self) (severidad e)) ∧
  (dt_costo_variable d
   == dt_distancia_km d
      * costo_km (fila_costos (costos_usuario self) (severidad e)))%Q ∧
  (dt_costo_total d == dt_costo_fijo d + dt_costo_variable d)%Q.

(** The problem built for the scenario. *)
Definition ej_modelo : LpProblem :=
  Eval vm_compute in
    match modelo ej_self with
    | Some m => m
    | None => mkProblem None []
    end.

(** ** The class of the graph object

    Python passes whatever object the caller gives; the repository handles
    graphs of two NetworkX classes. *)
Inductive GrafoNx : Type :=
  | Multi (g : MultiDiGraph)
  | Simple (g : DiGraph).

(** [_simplificar_a_digraph] applied to a graph object of either class.  On an
    [nx.DiGraph] the nodes are copied and then
    [multi_grafo.edges(keys=True, data=True)] raises [TypeError]: the edge view
    of a [DiGraph] takes no [keys] argument. *)
Definition _simplificar_a_digraph_nx (multi_grafo : GrafoNx) : result DiGraph :=
  match multi_grafo with
  | Multi mg => _simplificar_a_digraph mg
  | Simple _ => Raise TypeError
  end.

(** At most one edge per ordered pair of nodes. *)
Definition sin_paralelas (mg : MultiDiGraph) : Prop :=
  ∀ u v, (mg_number_of_edges mg u v ≤ 1)%nat.

(** A multigraph that is already simple: two streets in a row, the second
    under the key [1]. *)
Definition ej_simple : MultiDiGraph :=
  mkMulti [(0, ∅); (1, ∅); (2, ∅)]
          [(0, [(1, [(0, ej_via 1200 30)])]);
           (1, [(2, [(1, ej_via 800 50)])]);
           (2, [])].

(** * Properties *)

(** ** Insertion-ordered dictionaries *)

Module ODFacts.
Section facts.
Context {K V : Type} `{EqDecision K}.
Implicit Types (k : K) (v : V) (d : list (K * V)).

Lemma get_set_eq k v d : OD.get k (OD.set k v d) = Some v.
Proof.
  induction d as [|[k' v'] d IH]; simpl.
  - by rewrite decide_True.
  - destruct (decide (k = k')) as [->|Hne]; simpl.
    + by rewrite decide_True.
    + by rewrite decide_False.
Qed.

Lemma get_set_ne k k' v d : k ≠ k' → OD.get k' (OD.set k v d) = OD.get k' d.
Proof.
  intros Hne. induction d as [|[k0 v0] d IH]; simpl.
  - by rewrite decide_False.
  - destruct (decide (k = k0)) as [->|Hne0]; simpl.
    + by rewrite !(decide_False (P := k' = k0)).
    + by rewrite IH.
Qed.

Lemma get_None k d : OD.get k d = None ↔ k ∉ OD.keys d.
Proof.
  unfold OD.keys. induction d as [|[k' v'] d IH]; csimpl.
  - split; [intros _; apply not_elem_of_nil | done].
  - rewrite not_elem_of_cons. destruct (decide (k = k')) as [->|Hne].
    + split; [done | by intros [? _]].
    + rewrite IH. tauto.
Qed.

Lemma get_is_Some k d : is_Some (OD.get k d) ↔ k ∈ OD.keys d.
Proof.
  rewrite <-not_eq_None_Some, get_None.
  destruct (decide (k ∈ OD.keys d)); naive_solver.
Qed.

Lemma get_Some_elem k v d : OD.get k d = Some v → (k, v) ∈ d.
Proof.
  induction d as [|[k' v'] d IH]; simpl; [done|].
  destruct (decide (k = k')) as [->|Hne].
  - intros [= ->]. apply list_elem_of_here.
  - intros Hg. apply list_elem_of_further. auto.
Qed.

Lemma elem_get k v d : OD.wf d → (k, v) ∈ d → OD.get k d = Some v.
Proof.
  unfold OD.wf, OD.keys. induction d as [|[k' v'] d IH]; simpl.
  - intros _ Hin. by apply elem_of_nil in Hin.
  - rewrite NoDup_cons. intros [Hnin Hnd] Hin.
    apply elem_of_cons in Hin as [[= -> ->]|Hin].
    + by rewrite decide_True.
    + rewrite decide_False; [auto|].
      intros ->. apply Hnin. apply list_elem_of_fmap. by exists (k', v).
Qed.

Lemma mem_true k d : OD.mem k d = true ↔ k ∈ OD.keys d.
Proof.
  unfold OD.mem. rewrite <-get_is_Some.
  destruct (OD.get k d); split; (done || by intros [? [=]] || eauto).
Qed.

Lemma mem_false k d : OD.mem k d = false ↔ k ∉ OD.keys d.
Proof.
  rewrite <-mem_true. destruct (OD.mem k d); naive_solver.
Qed.

Lemma set_fresh k v d : k ∉ OD.keys d → OD.set k v d = d ++ [(k, v)].
Proof.
  unfold OD.keys. induction d as [|[k' v'] d IH]; simpl; [done|].
  rewrite not_elem_of_cons. intros [Hne Hnin].
  rewrite decide_False by done. by rewrite IH.
Qed.

Lemma keys_set_in k v d : k ∈ OD.keys d → OD.keys (OD.set k v d) = OD.keys d.
Proof.
  unfold OD.keys. induction d as [|[k' v'] d IH]; csimpl.
  - intros Hin. by apply elem_of_nil in Hin.
  - intros Hin. destruct (decide (k = k')) as [->|Hne]; csimpl; [done|].
    apply elem_of_cons in Hin as [?|Hin]; [done|]. by rewrite IH.
Qed.

Lemma keys_set_fresh k v d :
  k ∉ OD.keys d → OD.keys (OD.set k v d) = OD.keys d ++ [k].
Proof.
  intros Hnin. rewrite set_fresh by done. unfold OD.keys. by rewrite fmap_app.
Qed.

Lemma elem_keys_set k k' v d :
  k' ∈ OD.keys (OD.set k v d) ↔ k' = k ∨ k' ∈ OD.keys d.
Proof.
  destruct (decide (k ∈ OD.keys d)) as [Hin|Hnin].
  - rewrite keys_set_in by done. naive_solver.
  - rewrite keys_set_fresh by done. rewrite elem_of_app, list_elem_of_singleton.
    naive_solver.
Qed.

Lemma wf_set k v d : OD.wf d → OD.wf (OD.set k v d).
Proof.
  unfold OD.wf. intros Hwf.
  destruct (decide (k ∈ OD.keys d)) as [Hin|Hnin].
  - by rewrite keys_set_in.
  - rewrite keys_set_fresh by done. apply NoDup_app. split_and!; [done| |].
    + intros k' Hk' ->%list_elem_of_singleton. done.
    + apply NoDup_singleton.
Qed.

Lemma get_middle k v d1 d2 :
  k ∉ OD.keys d1 → OD.get k (d1 ++ (k, v) :: d2) = Some v.
Proof.
  unfold OD.keys. induction d1 as [|[k' v'] d1 IH]; simpl.
  - intros _. by rewrite decide_True.
  - rewrite not_elem_of_cons. intros [Hne Hnin]. rewrite decide_False by done. auto.
Qed.

Lemma set_middle k v v0 d1 d2 :
  k ∉ OD.keys d1 → OD.set k v (d1 ++ (k, v0) :: d2) = d1 ++ (k, v) :: d2.
Proof.
  unfold OD.keys. induction d1 as [|[k' v'] d1 IH]; simpl.
  - intros _. by rewrite decide_True.
  - rewrite not_elem_of_cons. intros [Hne Hnin]. rewrite decide_False by done.
    by rewrite IH.
Qed.

Lemma wf_nil : OD.wf (@nil (K * V)).
Proof. apply NoDup_nil_2. Qed.
End facts.
End ODFacts.

Import ODFacts.

(** ** Quantities and results *)

Lemma Qgtb_true (a b : Q) : Qgtb a b = true ↔ (b < a)%Q.
Proof.
  unfold Qgtb. rewrite negb_true_iff, <-not_true_iff_false, Qle_bool_iff.
  split; [apply Qnot_le_lt | apply Qlt_not_le].
Qed.

Lemma Qgtb_false (a b : Q) : Qgtb a b = false ↔ (a <= b)%Q.
Proof.
  unfold Qgtb. by rewrite negb_false_iff, Qle_bool_iff.
Qed.

Lemma bind_Ok {A B : Type} (r : result A) (f : A → result B) (b : B) :
  r ≫= f = Ok b ↔ ∃ a, r = Ok a ∧ f a = Ok b.
Proof.
  destruct r as [a|e]; simpl.
  - split; [eauto | by intros (? & [= ->] & ?)].
  - split; [done | by intros (? & [=] & _)].
Qed.

Lemma for_each_app {A S : Type} (body : S → A → result S) (xs ys : list A) (s : S) :
  for_each body (xs ++ ys) s = for_each body xs s ≫= for_each body ys.
Proof.
  revert s. induction xs as [|x xs IH]; intros s; simpl; [done|].
  destruct (body s x); simpl; [apply IH | done].
Qed.

(** An invariant kept by every round holds when the loop returns. *)
Lemma for_each_inv {A S : Type} (I : S → Prop) (body : S → A → result S)
    (xs : list A) (s s' : S) :
  (∀ s x s', x ∈ xs → I s → body s x = Ok s' → I s') →
  I s → for_each body xs s = Ok s' → I s'.
Proof.
  revert s. induction xs as [|x xs IH]; intros s Hstep Hs; simpl.
  - by intros [= <-].
  - intros (s1 & H1 & H2)%bind_Ok. apply (IH s1); [|by eapply Hstep; [left|..]|done].
    intros ????. apply Hstep. by right.
Qed.

(** A loop whose every round succeeds and re-establishes an invariant indexed
    by the elements already visited. *)
Lemma for_each_total_inv {A S : Type} (I : list A → S → Prop)
    (body : S → A → result S) (xs : list A) (s : S) :
  I [] s →
  (∀ pre x post s1, xs = pre ++ x :: post → I pre s1 →
     ∃ s2, body s1 x = Ok s2 ∧ I (pre ++ [x]) s2) →
  ∃ s', for_each body xs s = Ok s' ∧ I xs s'.
Proof.
  intros H0 Hstep.
  cut (∀ rest pre s1, xs = pre ++ rest → I pre s1 →
         ∃ s', for_each body rest s1 = Ok s' ∧ I xs s').
  { intros Hgen. by apply (Hgen xs [] s). }
  induction rest as [|x rest IH]; intros pre s1 Hxs Hpre; simpl.
  - exists s1. rewrite app_nil_r in Hxs. by subst.
  - destruct (Hstep pre x rest s1 Hxs Hpre) as (s2 & -> & H2). simpl.
    apply (IH (pre ++ [x])); [|done]. by rewrite <-app_assoc.
Qed.

(** Every round of a loop that returned did return. *)
Lemma for_each_Ok_elem {A S : Type} (body : S → A → result S)
    (xs : list A) (s s' : S) (x : A) :
  for_each body xs s = Ok s' → x ∈ xs → ∃ s1 s2, body s1 x = Ok s2.
Proof.
  revert s. induction xs as [|y xs IH]; intros s Hfe Hin.
  - by apply elem_of_nil in Hin.
  - simpl in Hfe. apply bind_Ok in Hfe as (s1 & H1 & H2).
    apply elem_of_cons in Hin as [->|Hin]; [eauto | by eapply IH].
Qed.

Lemma mapM_Ok {A B : Type} (f : A → result B) (g : A → B) (l : list A) :
  (∀ a, a ∈ l → f a = Ok (g a)) → mapM f l = Ok (g <$> l).
Proof.
  induction l as [|a l IH]; intros Hf; [done|].
  change (mapM f (a :: l)) with (y ← f a; k ← mapM f l; mret (y :: k)).
  rewrite (Hf a) by left. rewrite IH; [done|].
  intros ??. apply Hf. by right.
Qed.

(** ** The variable table *)

Section fold_set.
Context {K V A : Type} `{EqDecision K}.
Implicit Types (f : A → K) (h : A → V).

Lemma get_fold_set_notin f h (l : list A) (d : list (K * V)) key :
  (∀ a, a ∈ l → f a ≠ key) →
  OD.get key (fold_left (λ d a, OD.set (f a) (h a) d) l d) = OD.get key d.
Proof.
  revert d. induction l as [|a l IH]; intros d Hl; simpl; [done|].
  rewrite IH by (intros ??; apply Hl; by right).
  apply get_set_ne, Hl. by left.
Qed.

Lemma get_fold_set_in f h (l : list A) (d : list (K * V)) key hv :
  (∃ a, a ∈ l ∧ f a = key) → (∀ a, f a = key → h a = hv) →
  OD.get key (fold_left (λ d a, OD.set (f a) (h a) d) l d) = Some hv.
Proof.
  intros Hex Hh. revert d Hex.
  induction l as [|a l IH] using rev_ind; intros d (a0 & Hin & Hf).
  - by apply elem_of_nil in Hin.
  - rewrite fold_left_app. simpl.
    destruct (decide (f a = key)) as [Heq|Hne].
    + rewrite Heq, get_set_eq. by rewrite (Hh a).
    + rewrite get_set_ne by done. apply IH.
      apply elem_of_app in Hin as [Hin|Hin%list_elem_of_singleton]; [eauto|].
      by subst.
Qed.
End fold_set.

Lemma crear_variables_x (self : AmbulanceOptimizationModel) :
  x_completa (_crear_variables self).
Proof.
  intros i j k Hij Hk. unfold _crear_variables in *. simpl in *.
  assert (Hks : k ∈ seq 0 (num_emergencias self)) by (apply elem_of_seq; lia).
  revert Hks. generalize (seq 0 (num_emergencias self)) as ks. generalize (x self).
  intros x0 ks. revert x0.
  induction ks as [|k' ks IH] using rev_ind; intros x0 Hks.
  - by apply elem_of_nil in Hks.
  - rewrite fold_left_app. simpl.
    destruct (decide (k' = k)) as [->|Hne].
    + apply (get_fold_set_in (λ ij : Z * Z, (ij.1, ij.2, k)) (λ ij, LpVar ij.1 ij.2 k)).
      * by exists (i, j).
      * by intros [i' j'] [= -> ->].
    + rewrite (get_fold_set_notin (λ ij : Z * Z, (ij.1, ij.2, k'))
                 (λ ij, LpVar ij.1 ij.2 k')) by (intros ? _ [=]; done).
      apply IH. apply elem_of_app in Hks as [?|Hk'%list_elem_of_singleton]; done.
Qed.

(** ** Simple digraphs *)

Lemma NoDup_fmap_fst_wf {K V : Type} (d : list (K * V)) : OD.wf d → NoDup d.
Proof. unfold OD.wf, OD.keys. apply NoDup_fmap_1. Qed.

Lemma elem_of_dg_edges (g : DiGraph) (u v : Z) :
  (u, v) ∈ dg_edges g ↔ ∃ nbrs d, (u, nbrs) ∈ dg_adj g ∧ (v, d) ∈ nbrs.
Proof.
  unfold dg_edges. rewrite list_elem_of_bind. split.
  - intros ([u' nbrs] & Hin & Hrow).
    apply list_elem_of_bind in Hin as ([v' d] & Hin & Hv).
    apply list_elem_of_singleton in Hin as [= -> ->]. eauto.
  - intros (nbrs & d & Hrow & Hv). exists (u, nbrs). split; [|done].
    apply list_elem_of_bind. exists (v, d). split; [|done].
    by apply list_elem_of_singleton.
Qed.

Lemma dg_edge_data_elem (g : DiGraph) (u v : Z) d :
  dg_edge_data g u v = Some d → (u, v) ∈ dg_edges g.
Proof.
  unfold dg_edge_data. destruct (OD.get u (dg_adj g)) as [nbrs|] eqn:Hu; [|done].
  intros Hv. apply elem_of_dg_edges. exists nbrs, d.
  split; by apply get_Some_elem.
Qed.

Lemma elem_dg_edge_data (g : DiGraph) (u v : Z) :
  dg_ok g → (u, v) ∈ dg_edges g → is_Some (dg_edge_data g u v).
Proof.
  intros (_ & Hadj & Hrows) (nbrs & d & Hrow & Hv)%elem_of_dg_edges.
  unfold dg_edge_data. rewrite (elem_get u nbrs) by done.
  rewrite Forall_forall in Hrows. exists d. apply elem_get; [|done].
  apply (Hrows (u, nbrs)). done.
Qed.

Lemma NoDup_dg_edges (g : DiGraph) : dg_ok g → NoDup (dg_edges g).
Proof.
  intros (_ & Hadj & Hrows). unfold dg_edges. apply NoDup_bind.
  - intros [u1 n1] [u2 n2] [u v] H1 H2 Hv1 Hv2.
    apply list_elem_of_bind in Hv1 as ([v1 d1] & [= -> ->]%list_elem_of_singleton & _).
    apply list_elem_of_bind in Hv2 as ([v2 d2] & [= -> ->]%list_elem_of_singleton & _).
    assert (OD.get u2 (dg_adj g) = Some n1) by (by apply elem_get).
    assert (OD.get u2 (dg_adj g) = Some n2) by (by apply elem_get).
    congruence.
  - intros [u nbrs] Hrow. rewrite Forall_forall in Hrows.
    specialize (Hrows _ Hrow). simpl in Hrows.
    apply NoDup_bind; [| |by apply NoDup_fmap_fst_wf].
    + intros [v1 d1] [v2 d2] [u' v'] H1 H2
        [= -> ->]%list_elem_of_singleton [= ->]%list_elem_of_singleton.
      assert (OD.get v2 nbrs = Some d1) by (by apply elem_get).
      assert (OD.get v2 nbrs = Some d2) by (by apply elem_get).
      congruence.
    + intros [v d] _. apply NoDup_singleton.
  - by apply NoDup_fmap_fst_wf.
Qed.

Lemma elem_of_set {K V : Type} `{EqDecision K} (k : K) (v : V) d kv :
  kv ∈ OD.set k v d → kv = (k, v) ∨ kv ∈ d.
Proof.
  induction d as [|[k' v'] d IH]; simpl.
  - intros ->%list_elem_of_singleton. by left.
  - destruct (decide (k = k')) as [->|Hne].
    + intros [->|Hin]%elem_of_cons; [by left|]. right. by right.
    + intros [->|Hin]%elem_of_cons; [right; by left|].
      destruct (IH Hin) as [->|?]; [by left|]. right. by right.
Qed.

Lemma dg_ok_vacio : dg_ok (mkDi [] []).
Proof. split_and!; [apply wf_nil..|]. apply Forall_nil_2. Qed.

Lemma dg_ok_con_nodo (g : DiGraph) (n : Z) (a : gmap string Q) :
  dg_ok g →
  dg_ok (if OD.mem n (dg_adj g) then g
         else mkDi (OD.set n a (dg_node g)) (OD.set n [] (dg_adj g))).
Proof.
  intros Hok. destruct (OD.mem n (dg_adj g)); [done|].
  destruct Hok as (Hn & Hadj & Hrows). split_and!; simpl; [by apply wf_set..|].
  apply Forall_forall. intros row [->|Hin]%elem_of_set.
  - apply wf_nil.
  - rewrite Forall_forall in Hrows. by apply Hrows.
Qed.

Lemma dg_ok_add_node (g : DiGraph) (n : Z) (a : gmap string Q) :
  dg_ok g → dg_ok (add_node n a g).
Proof.
  intros (Hn & Hadj & Hrows). unfold add_node.
  destruct (OD.mem n (dg_adj g)); split_and!; simpl; try (by apply wf_set); try done.
  apply Forall_forall. intros row [->|Hin]%elem_of_set.
  - apply wf_nil.
  - rewrite Forall_forall in Hrows. by apply Hrows.
Qed.

Lemma dg_ok_add_edge (g : DiGraph) (u v : Z) (a : gmap string Q) :
  dg_ok g → dg_ok (add_edge u v a g).
Proof.
  intros Hok. unfold add_edge.
  pose proof (dg_ok_con_nodo g u ∅ Hok) as Hok1.
  set (g1 := if OD.mem u (dg_adj g) then g else _) in *.
  pose proof (dg_ok_con_nodo g1 v ∅ Hok1) as Hok2.
  set (g2 := if OD.mem v (dg_adj g1) then g1 else _) in *.
  clearbody g2. clear -Hok2. destruct Hok2 as (Hn & Hadj & Hrows).
  split_and!; simpl; [done|by apply wf_set|].
  rewrite Forall_forall in Hrows.
  apply Forall_forall. intros row [->|Hin]%elem_of_set; [|by apply Hrows].
  simpl. apply wf_set.
  destruct (OD.get u (dg_adj g2)) as [nbrs|] eqn:Hu; simpl; [|apply wf_nil].
  apply (Hrows (u, nbrs)). by apply get_Some_elem.
Qed.

Lemma simplificar_dg_ok (mg : MultiDiGraph) (g : DiGraph) :
  _simplificar_a_digraph mg = Ok g → dg_ok g.
Proof.
  unfold _simplificar_a_digraph. intros (st & Hfe & [= <-])%bind_Ok.
  revert Hfe. apply (for_each_inv (λ st, dg_ok st.1)).
  - intros [g1 pares] [[[i j] key] data] [g2 pares2] _ Hok. simpl in *.
    destruct (decide ((i, j) ∈ pares)); [by intros [= <- <-]|].
    destruct (decide (1 < mg_number_of_edges mg i j)%nat).
    + intros (items & _ & Hbest)%bind_Ok.
      destruct (mejor_arista items).2; [|done].
      injection Hbest as <- <-. by apply dg_ok_add_edge.
    + intros [= <- <-]. by apply dg_ok_add_edge.
  - simpl. generalize dg_ok_vacio. generalize (mkDi [] []).
    induction (mg_node mg) as [|[n a] ns IH]; intros g0 Hg0; simpl; [done|].
    by apply IH, dg_ok_add_node.
Qed.

(** ** The model keeps its data through [construir_modelo] *)

Lemma definir_funcion_objetivo_forma self self' :
  _definir_funcion_objetivo self = Ok self' → ∃ m, self' = con_modelo self m.
Proof.
  unfold _definir_funcion_objetivo.
  intros (cv & _ & (m & _ & [= <-])%bind_Ok)%bind_Ok. eauto.
Qed.

Lemma conservacion_flujo_forma self self' :
  _restriccion_conservacion_flujo self = Ok self' → ∃ m, self' = con_modelo self m.
Proof.
  unfold _restriccion_conservacion_flujo.
  intros (m0 & _ & (m & _ & [= <-])%bind_Ok)%bind_Ok. eauto.
Qed.

Lemma capacidad_vias_forma self self' :
  _restriccion_capacidad_vias self = Ok self' → ∃ m, self' = con_modelo self m.
Proof.
  unfold _restriccion_capacidad_vias.
  intros (m0 & _ & (m & _ & [= <-])%bind_Ok)%bind_Ok. eauto.
Qed.

Lemma construir_modelo_forma self0 self :
  construir_modelo self0 = Ok self →
  ∃ m, self = con_modelo (_crear_variables (con_modelo self0 (mkProblem None []))) m.
Proof.
  unfold construir_modelo, _agregar_restricciones.
  intros (s2 & [m2 ->]%definir_funcion_objetivo_forma
             & (s3 & [m3 ->]%conservacion_flujo_forma
                   & [m4 ->]%capacidad_vias_forma)%bind_Ok)%bind_Ok.
  by exists m4.
Qed.

Lemma construir_modelo_x self0 self :
  construir_modelo self0 = Ok self →
  x_completa self ∧ aristas self = aristas self0 ∧
  num_emergencias self = num_emergencias self0.
Proof.
  intros [m ->]%construir_modelo_forma. split; [|done].
  intros i j k Hij Hk.
  by apply (crear_variables_x (con_modelo self0 (mkProblem None []))).
Qed.

(** ** Route reconstruction *)

Section ruta.
Variable self : AmbulanceOptimizationModel.
Variable varValue : LpVariable → Q.
Variable k : nat.
Hypothesis Hx : x_completa self.
Hypothesis Hk : (k < num_emergencias self)%nat.

Lemma buscar_siguiente_ok nodo_actual restantes :
  restantes ⊆ aristas self →
  ∃ o, buscar_siguiente self varValue k nodo_actual restantes = Ok o ∧
       ∀ j, o = Some j →
            (nodo_actual, j) ∈ restantes ∧
            (1 # 2 < varValue (LpVar nodo_actual j k))%Q.
Proof.
  induction restantes as [|[i j] rs IH]; intros Hsub; simpl.
  - by exists None.
  - destruct IH as (o & Ho & Hspec).
    { intros e He. apply Hsub. by right. }
    assert (Hrest : ∀ j0, o = Some j0 →
              (nodo_actual, j0) ∈ (i, j) :: rs ∧
              (1 # 2 < varValue (LpVar nodo_actual j0 k))%Q).
    { intros j0 Hj0. destruct (Hspec j0 Hj0). split; [by right|done]. }
    destruct (decide (i = nodo_actual)) as [->|Hne]; [|eauto].
    unfold x_get. rewrite Hx; [|apply Hsub; by left|done]. simpl.
    destruct (Qgtb (varValue (LpVar nodo_actual j k)) (1 # 2)) eqn:Hgt; [|eauto].
    exists (Some j). split; [done|]. intros j0 [= <-].
    split; [by left | by apply Qgtb_true].
Qed.

Lemma encadenada_snoc ruta pre nodo_actual j :
  ruta = pre ++ [nodo_actual] → encadenada self varValue k ruta →
  (nodo_actual, j) ∈ aristas self →
  (1 # 2 < varValue (LpVar nodo_actual j k))%Q →
  encadenada self varValue k (ruta ++ [j]).
Proof.
  intros -> Henc Hin Hval n cur next Hcur Hnext.
  destruct (decide (S n < length (pre ++ [nodo_actual]))%nat) as [Hlt|Hge].
  - rewrite lookup_app_l in Hcur by lia. rewrite lookup_app_l in Hnext by lia.
    by apply (Henc n).
  - assert (S n = length (pre ++ [nodo_actual])) as Hn.
    { apply lookup_lt_Some in Hnext. rewrite length_app in Hnext. simpl in Hnext. lia. }
    rewrite Hn, lookup_app_r, Nat.sub_diag in Hnext by lia.
    injection Hnext as <-.
    rewrite length_app in Hn. simpl in Hn.
    rewrite lookup_app_l in Hcur by (rewrite length_app; simpl; lia).
    rewrite lookup_app_r in Hcur by lia.
    replace (n - length pre)%nat with 0%nat in Hcur by lia.
    by injection Hcur as <-.
Qed.

Lemma pendientes_lt visitados j i :
  (i, j) ∈ aristas self → j ∉ visitados →
  (pendientes self (visitados ∪ {[ j ]}) < pendientes self visitados)%nat.
Proof.
  intros Hin Hj. unfold pendientes.
  assert (Hj2 : j ∈ (aristas self).*2).
  { apply list_elem_of_fmap. by exists (i, j). }
  revert Hj2. generalize ((aristas self).*2) as ts.
  assert (Hle : ∀ ts : list Z,
            (length (filter (λ t, t ∉ visitados ∪ {[ j ]}) ts)
             ≤ length (filter (λ t, t ∉ visitados) ts))%nat).
  { induction ts as [|t ts IH]; [done|].
    rewrite !filter_cons. repeat case_decide; simpl; try lia.
    set_solver. }
  induction ts as [|t ts IH]; intros Hj2.
  - by apply elem_of_nil in Hj2.
  - rewrite !filter_cons. apply elem_of_cons in Hj2 as [<-|Hj2].
    + rewrite decide_False by set_solver. rewrite decide_True by done.
      simpl. specialize (Hle ts). lia.
    + specialize (IH Hj2). repeat case_decide; simpl; try lia. set_solver.
Qed.

Lemma ruta_loop_ok destino fuel :
  ∀ ruta pre nodo_actual visitados,
    ruta = pre ++ [nodo_actual] →
    head ruta = Some (nodo_origen self) →
    NoDup ruta →
    (∀ n, n ∈ ruta ↔ n ∈ visitados) →
    encadenada self varValue k ruta →
    (pendientes self visitados < fuel)%nat →
    ∃ r, ruta_loop fuel self varValue k destino ruta nodo_actual visitados
           = Some (Ok r) ∧
         head r = Some (nodo_origen self) ∧ NoDup r ∧ encadenada self varValue k r.
Proof.
  induction fuel as [|fuel IH]; intros ruta pre nodo_actual visitados
    Hruta Hhead Hnd Hvis Henc Hfuel; [lia|].
  simpl. destruct (decide (nodo_actual = destino)) as [|Hdest]; [by eauto|].
  destruct (buscar_siguiente_ok nodo_actual (aristas self)) as (o & -> & Ho); [done|].
  destruct o as [j|]; [|by eauto].
  destruct (Ho j eq_refl) as [Hin Hval].
  destruct (decide (j ∈ visitados)) as [|Hnew]; [by eauto|].
  apply (IH _ ruta).
  - done.
  - rewrite Hruta in *. by destruct pre.
  - apply NoDup_app. split_and!; [done| |apply NoDup_singleton].
    intros n Hn ->%list_elem_of_singleton. apply Hnew. by apply Hvis.
  - intros n. rewrite elem_of_app, list_elem_of_singleton, Hvis. set_solver.
  - by eapply encadenada_snoc.
  - pose proof (pendientes_lt visitados j nodo_actual Hin Hnew). lia.
Qed.

Lemma ruta_loop_mono destino fuel :
  ∀ ruta nodo_actual visitados res,
    ruta_loop fuel self varValue k destino ruta nodo_actual visitados = Some res →
    ruta_loop (S fuel) self varValue k destino ruta nodo_actual visitados = Some res.
Proof.
  induction fuel as [|fuel IH]; intros ruta nodo_actual visitados res.
  - simpl. by destruct (decide (nodo_actual = destino)).
  - intros H. change (ruta_loop (S (S fuel)) self varValue k destino ruta
                        nodo_actual visitados)
      with (if decide (nodo_actual = destino) then Some (Ok ruta)
            else match buscar_siguiente self varValue k nodo_actual (aristas self) with
                 | Raise e => Some (Raise e)
                 | Ok None => Some (Ok ruta)
                 | Ok (Some s) =>
                     if decide (s ∈ visitados) then Some (Ok ruta)
                     else ruta_loop (S fuel) self varValue k destino
                            (ruta ++ [s]) s (visitados ∪ {[ s ]})
                 end).
    simpl in H. destruct (decide (nodo_actual = destino)); [done|].
    destruct (buscar_siguiente _ _ _ _ _) as [[s|]|]; try done.
    destruct (decide (s ∈ visitados)); [done|]. by apply IH.
Qed.

Lemma ruta_loop_mono_le destino fuel fuel' ruta nodo_actual visitados res :
  (fuel ≤ fuel')%nat →
  ruta_loop fuel self varValue k destino ruta nodo_actual visitados = Some res →
  ruta_loop fuel' self varValue k destino ruta nodo_actual visitados = Some res.
Proof.
  induction 1 as [|fuel' _ IH]; [done|].
  intros H. by apply ruta_loop_mono, IH.
Qed.

Lemma pendientes_le visitados : (pendientes self visitados ≤ length (aristas self))%nat.
Proof.
  unfold pendientes. etrans; [apply length_filter|]. by rewrite length_fmap.
Qed.
End ruta.

(** C6. For every assignment of values to the variables, the reconstruction of
    the route of flow [k] terminates (one round more than there are edges is
    enough, and more rounds do not change the outcome) and returns a list of
    nodes that starts at the origin, repeats no node, and whose consecutive
    pairs are edges of the prepared graph with a variable above 0.5 for that
    flow. *)
Theorem reconstruir_ruta_flujo_correcta
    (mg : MultiDiGraph) (ems : list Emergencia) (origen : Z)
    (costos : option (list (Severidad * CostoUsuario)))
    (self0 self : AmbulanceOptimizationModel)
    (varValue : LpVariable → Q) (k : nat) (destino : Z) :
  init mg ems origen costos = Ok self0 →
  construir_modelo self0 = Ok self →
  (k < length ems)%nat →
  ∃ ruta,
    _reconstruir_ruta_flujo self varValue k destino = Some (Ok ruta) ∧
    (∀ fuel, (S (length (dg_edges (grafo self))) ≤ fuel)%nat →
       ruta_loop fuel self varValue k destino [origen] origen {[ origen ]}
       = Some (Ok ruta)) ∧
    head ruta = Some origen ∧
    NoDup ruta ∧
    ∀ n cur next, ruta !! n = Some cur → ruta !! S n = Some next →
      (cur, next) ∈ dg_edges (grafo self) ∧
      (1 # 2 < varValue (LpVar cur next k))%Q.
Proof.
  intros Hinit Hbuild Hk.
  destruct (construir_modelo_x _ _ Hbuild) as (Hx & Har & Hnum).
  apply construir_modelo_forma in Hbuild as [m ->].
  apply bind_Ok in Hinit as (g & _ & [= <-]).
  simpl in *.
  set (self := con_modelo _ m) in *.
  destruct (ruta_loop_ok self varValue k Hx Hk destino (S (length (aristas self)))
              [origen] [] origen {[ origen ]}) as (r & Hr & Hhead & Hnd & Henc).
  - done.
  - done.
  - apply NoDup_singleton.
  - intros n. rewrite list_elem_of_singleton. set_solver.
  - intros n cur next _ Hnext. by destruct n.
  - pose proof (pendientes_le self {[ origen ]}). lia.
  - exists r. split_and!; try done.
    intros fuel Hfuel. by apply (ruta_loop_mono_le self varValue k destino
                                   (S (length (aristas self)))).
Qed.

Lemma reconstruir_ruta_flujo_correcta_witness :
  init ej_multigrafo ej_emergencias 0 ej_costos = Ok ej_self0 ∧
  construir_modelo ej_self0 = Ok ej_self ∧
  (0 < length ej_emergencias)%nat ∧
  ∃ ruta,
    _reconstruir_ruta_flujo ej_self ej_varValue 0 3 = Some (Ok ruta) ∧
    (∀ fuel, (S (length (dg_edges (grafo ej_self))) ≤ fuel)%nat →
       ruta_loop fuel ej_self ej_varValue 0 3 [0] 0 {[ 0 ]} = Some (Ok ruta)) ∧
    head ruta = Some 0 ∧
    NoDup ruta ∧
    ∀ n cur next, ruta !! n = Some cur → ruta !! S n = Some next →
      (cur, next) ∈ dg_edges (grafo ej_self) ∧
      (1 # 2 < ej_varValue (LpVar cur next 0))%Q.
Proof.
  assert (H1 : init ej_multigrafo ej_emergencias 0 ej_costos = Ok ej_self0)
    by (vm_compute; reflexivity).
  assert (H2 : construir_modelo ej_self0 = Ok ej_self) by (vm_compute; reflexivity).
  assert (H3 : (0 < length ej_emergencias)%nat) by (simpl; lia).
  split_and!; [exact H1 | exact H2 | exact H3 |].
  exact (reconstruir_ruta_flujo_correcta ej_multigrafo ej_emergencias 0 ej_costos
           ej_self0 ej_self ej_varValue 0 3 H1 H2 H3).
Defined.

Example reconstruir_ruta_ejemplo :
  _reconstruir_ruta_flujo ej_self ej_varValue 0 3 = Some (Ok [0; 1; 3]).
Proof. vm_compute. reflexivity. Qed.

(** ** Sums *)

Lemma suma_app (l1 l2 : list Q) : (suma (l1 ++ l2) == suma l1 + suma l2)%Q.
Proof.
  induction l1 as [|q l1 IH]; simpl.
  - by rewrite Qplus_0_l.
  - rewrite IH. by rewrite Qplus_assoc.
Qed.

Lemma elem_of_enumerate {A : Type} (xs : list A) (k : nat) (a : A) :
  (k, a) ∈ enumerate xs ↔ xs !! k = Some a.
Proof.
  unfold enumerate. rewrite elem_of_lookup_imap. split.
  - by intros (i & y & [= -> ->] & H).
  - intros H. by exists k, a.
Qed.

(** ** What construction of the model guarantees about the graph *)

Lemma construir_modelo_capacidad self0 self i j :
  construir_modelo self0 = Ok self → (i, j) ∈ aristas self →
  ∃ cap, atributo_arista (grafo self) i j "capacity" = Ok cap.
Proof.
  intros Hbuild Hin. unfold construir_modelo, _agregar_restricciones in Hbuild.
  apply bind_Ok in Hbuild as (s2 & _ & (s3 & _ & Hcap)%bind_Ok).
  unfold _restriccion_capacidad_vias in Hcap.
  apply bind_Ok in Hcap as (m0 & _ & (m & Hfe & [= <-])%bind_Ok).
  simpl in *.
  destruct (for_each_Ok_elem _ _ _ _ (i, j) Hfe Hin) as (m1 & m2 & Hbody).
  unfold restriccion_arista in Hbody.
  apply bind_Ok in Hbody as (cap & Hcap & _). eauto.
Qed.

(** ** Edge usage *)

Section uso.
Variable self : AmbulanceOptimizationModel.
Variable varValue : LpVariable → Q.
Hypothesis Hx : x_completa self.
Hypothesis Hnum : num_emergencias self = length (emergencias self).

Lemma uso_flujo_paso ij st ke :
  ij ∈ aristas self → (ke.1 < num_emergencias self)%nat →
  uso_flujo self varValue ij st ke
  = Ok (if decide (flujo_usa varValue ij.1 ij.2 ke.1)
        then (st.1 ++ [S ke.1], (st.2 + velocidad_requerida ke.2)%Q)
        else st).
Proof.
  intros Hij Hk. unfold uso_flujo, x_get. destruct ij as [i j].
  rewrite Hx by done. simpl.
  destruct (Qgtb (varValue (LpVar i j ke.1)) (1 # 2)) eqn:Hgt.
  - by rewrite decide_True by (by apply Qgtb_true).
  - rewrite decide_False; [done|].
    unfold flujo_usa. apply Qle_not_lt. by apply Qgtb_false.
Qed.

Lemma uso_flujos_ok ij (l : list (nat * Emergencia)) ids c :
  ij ∈ aristas self →
  (∀ ke, ke ∈ l → (ke.1 < num_emergencias self)%nat) →
  ∃ c', for_each (uso_flujo self varValue ij) l (ids, c)
          = Ok (ids ++ ((S ∘ fst) <$> flujos_que_usan varValue ij l), c') ∧
        (c' == c + suma (velocidad_requerida ∘ snd
                           <$> flujos_que_usan varValue ij l))%Q.
Proof.
  intros Hij. revert ids c. unfold flujos_que_usan.
  induction l as [|ke l IH]; intros ids c Hl; simpl.
  - exists c. rewrite app_nil_r. split; [done|]. by rewrite Qplus_0_r.
  - rewrite uso_flujo_paso; [|done|apply Hl; by left]. simpl.
    rewrite filter_cons.
    destruct (decide (flujo_usa varValue ij.1 ij.2 ke.1)) as [Hu|Hu]; simpl.
    + destruct (IH (ids ++ [S ke.1]) (c + velocidad_requerida ke.2)%Q)
        as (c' & -> & Hc'); [intros ??; apply Hl; by right|].
      exists c'. rewrite <-app_assoc. split; [done|].
      rewrite Hc'. csimpl. by rewrite Qplus_assoc.
    + apply IH. intros ??; apply Hl; by right.
Qed.

Lemma enumerate_lt ke :
  ke ∈ enumerate (emergencias self) → (ke.1 < num_emergencias self)%nat.
Proof.
  destruct ke as [k e]. rewrite elem_of_enumerate. intros H%lookup_lt_Some.
  simpl. by rewrite Hnum.
Qed.

Lemma usados_ids ij id :
  id ∈ (S ∘ fst) <$> flujos_que_usan varValue ij (enumerate (emergencias self)) ↔
  ∃ k e, id = S k ∧ emergencias self !! k = Some e ∧ flujo_usa varValue ij.1 ij.2 k.
Proof.
  unfold flujos_que_usan. rewrite list_elem_of_fmap. split.
  - intros ([k e] & -> & [Hu He%elem_of_enumerate]%list_elem_of_filter).
    by exists k, e.
  - intros (k & e & -> & He & Hu). exists (k, e). split; [done|].
    apply list_elem_of_filter. split; [done|]. by apply elem_of_enumerate.
Qed.

Lemma usados_carga ij :
  velocidad_requerida ∘ snd <$> flujos_que_usan varValue ij (enumerate (emergencias self))
  = velocidad_de_flujo (emergencias self)
      <$> ((S ∘ fst) <$> flujos_que_usan varValue ij (enumerate (emergencias self))).
Proof.
  rewrite <-list_fmap_compose. apply list_fmap_ext.
  intros n [k e] Hl. simpl.
  assert (Hin : (k, e) ∈ flujos_que_usan varValue ij (enumerate (emergencias self))).
  { apply list_elem_of_lookup. eauto. }
  apply list_elem_of_filter in Hin as [_ He%elem_of_enumerate].
  by rewrite He.
Qed.

Lemma uso_aristas_ok :
  (∀ ij, ij ∈ aristas self →
         ∃ cap, atributo_arista (grafo self) ij.1 ij.2 "capacity" = Ok cap) →
  ∃ uso, _calcular_uso_aristas self varValue = Ok uso ∧
         OD.wf uso ∧
         (∀ ij, ij ∈ OD.keys uso ↔ ij ∈ aristas self ∧ usada self varValue ij) ∧
         (∀ ij u, OD.get ij uso = Some u → registro_correcto self varValue ij u).
Proof.
  intros Hcap. unfold _calcular_uso_aristas.
  destruct (for_each_total_inv
    (λ pre uso, OD.wf uso ∧
                (∀ ij, ij ∈ OD.keys uso ↔ ij ∈ pre ∧ usada self varValue ij) ∧
                (∀ ij u, OD.get ij uso = Some u → registro_correcto self varValue ij u))
    (uso_arista self varValue) (aristas self) []) as (uso & Hfe & Hinv).
  - split_and!; [apply wf_nil| |done].
    intros ij. split; [intros []%elem_of_nil | intros [[]%elem_of_nil _]].
  - intros pre ij post uso Hsplit (Hwf & Hkeys & Hrec).
    assert (Hij : ij ∈ aristas self).
    { rewrite Hsplit. apply elem_of_app. right. by left. }
    unfold uso_arista.
    destruct (uso_flujos_ok ij (enumerate (emergencias self)) [] 0%Q Hij enumerate_lt)
      as (carga & -> & Hcarga).
    rewrite app_nil_l. simpl. rewrite Qplus_0_l in Hcarga.
    pose proof (usados_ids ij) as Hids.
    rewrite usados_carga in Hcarga.
    destruct ((S ∘ fst) <$> flujos_que_usan varValue ij (enumerate (emergencias self)))
      as [|id ids] eqn:Heq.
    + exists uso. split; [done|]. split_and!; [done| |done].
      intros ij'. rewrite Hkeys, elem_of_app, list_elem_of_singleton.
      split; [naive_solver|]. intros [[Hpre| ->] Hus]; [done|].
      destruct Hus as (k & e & He & Hu).
      assert (Hnil : S k ∈ @nil nat) by (apply Hids; eauto).
      by apply elem_of_nil in Hnil.
    + destruct (Hcap ij Hij) as [cap Hc]. rewrite Hc. simpl.
      assert (Hus : usada self varValue ij).
      { destruct (proj1 (Hids id)) as (k & e & _ & He & Hu); [by left|].
        by exists k, e. }
      assert (∃ u, (if Qgtb cap 0 then py_div carga cap else Ok 0%Q) = Ok u ∧
                   ((0 < cap)%Q → u = (carga / cap)%Q) ∧
                   ((cap <= 0)%Q → u = 0%Q)) as (u & -> & Hu1 & Hu2).
      { destruct (Qgtb cap 0) eqn:Hgt.
        - apply Qgtb_true in Hgt. unfold py_div.
          destruct (Qeq_bool cap 0) eqn:Hz.
          + apply Qeq_bool_iff in Hz. rewrite Hz in Hgt. by apply Qlt_irrefl in Hgt.
          + eexists. split; [done|]. split; [done|].
            intros Hle. by apply Qle_not_lt in Hle.
        - apply Qgtb_false in Hgt. exists 0%Q. split; [done|]. split; [|done].
          intros Hlt. by apply Qle_not_lt in Hgt. }
      simpl. eexists. split; [done|]. split_and!.
      * by apply wf_set.
      * intros ij'. rewrite elem_keys_set, Hkeys, elem_of_app, list_elem_of_singleton.
        naive_solver.
      * intros ij' u'. destruct (decide (ij = ij')) as [<-|Hne].
        -- rewrite get_set_eq. intros [= <-]. by split_and!.
        -- rewrite get_set_ne by done. apply Hrec.
  - exists uso. by destruct Hinv as (? & ? & ?).
Qed.
End uso.

(** C10. For every assignment of values to the variables, the usage table has
    exactly the edges used by at least one flow as keys; for each of them the
    load is the sum of the required speeds of the flows listed, and the
    utilisation is load over capacity, or 0 when the capacity is not strictly
    positive: the division is never by zero and the call returns. *)
Theorem calcular_uso_aristas_correcto
    (mg : MultiDiGraph) (ems : list Emergencia) (origen : Z)
    (costos : option (list (Severidad * CostoUsuario)))
    (self0 self : AmbulanceOptimizationModel) (varValue : LpVariable → Q) :
  init mg ems origen costos = Ok self0 →
  construir_modelo self0 = Ok self →
  ∃ uso,
    _calcular_uso_aristas self varValue = Ok uso ∧
    NoDup (OD.keys uso) ∧
    (∀ i j, (i, j) ∈ OD.keys uso ↔
            (i, j) ∈ dg_edges (grafo self) ∧
            ∃ k e, ems !! k = Some e ∧ (1 # 2 < varValue (LpVar i j k))%Q) ∧
    (∀ i j u, OD.get (i, j) uso = Some u →
       (∀ id, id ∈ flujos_ids u ↔
              ∃ k e, id = S k ∧ ems !! k = Some e ∧
                     (1 # 2 < varValue (LpVar i j k))%Q) ∧
       num_flujos u = length (flujos_ids u) ∧
       (carga_total u == suma (velocidad_de_flujo ems <$> flujos_ids u))%Q ∧
       atributo_arista (grafo self) i j "capacity" = Ok (capacidad u) ∧
       ((0 < capacidad u)%Q → utilizacion u = (carga_total u / capacidad u)%Q) ∧
       ((capacidad u <= 0)%Q → utilizacion u = 0%Q)).
Proof.
  intros Hinit Hbuild.
  destruct (construir_modelo_x _ _ Hbuild) as (Hx & Har & Hnum).
  pose proof (λ i j, construir_modelo_capacidad self0 self i j Hbuild) as Hcap.
  apply construir_modelo_forma in Hbuild as [m ->].
  apply bind_Ok in Hinit as (g & _ & [= <-]).
  simpl in *. set (self := con_modelo _ m) in *.
  destruct (uso_aristas_ok self varValue Hx eq_refl) as (uso & Huso & Hwf & Hkeys & Hrec).
  { intros [i j] Hij. by apply Hcap. }
  exists uso. split_and!; [done|done| |].
  - intros i j. apply (Hkeys (i, j)).
  - intros i j u Hu. apply (Hrec (i, j) u Hu).
Qed.

Lemma calcular_uso_aristas_correcto_witness :
  init ej_multigrafo ej_emergencias 0 ej_costos = Ok ej_self0 ∧
  construir_modelo ej_self0 = Ok ej_self ∧
  ∃ uso,
    _calcular_uso_aristas ej_self ej_varValue = Ok uso ∧
    NoDup (OD.keys uso) ∧
    (∀ i j, (i, j) ∈ OD.keys uso ↔
            (i, j) ∈ dg_edges (grafo ej_self) ∧
            ∃ k e, ej_emergencias !! k = Some e ∧
                   (1 # 2 < ej_varValue (LpVar i j k))%Q) ∧
    (∀ i j u, OD.get (i, j) uso = Some u →
       (∀ id, id ∈ flujos_ids u ↔
              ∃ k e, id = S k ∧ ej_emergencias !! k = Some e ∧
                     (1 # 2 < ej_varValue (LpVar i j k))%Q) ∧
       num_flujos u = length (flujos_ids u) ∧
       (carga_total u == suma (velocidad_de_flujo ej_emergencias <$> flujos_ids u))%Q ∧
       atributo_arista (grafo ej_self) i j "capacity" = Ok (capacidad u) ∧
       ((0 < capacidad u)%Q → utilizacion u = (carga_total u / capacidad u)%Q) ∧
       ((capacidad u <= 0)%Q → utilizacion u = 0%Q)).
Proof.
  assert (H1 : init ej_multigrafo ej_emergencias 0 ej_costos = Ok ej_self0)
    by (vm_compute; reflexivity).
  assert (H2 : construir_modelo ej_self0 = Ok ej_self) by (vm_compute; reflexivity).
  split_and!; [exact H1 | exact H2 |].
  exact (calcular_uso_aristas_correcto ej_multigrafo ej_emergencias 0 ej_costos
           ej_self0 ej_self ej_varValue H1 H2).
Defined.

Example calcular_uso_aristas_ejemplo :
  _calcular_uso_aristas ej_self ej_varValue
  = Ok [((0, 1), mkUso 2 [1; 2]%nat (0 + 40 + 15) 60 ((0 + 40 + 15) / 60));
        ((1, 3), mkUso 1 [1]%nat (0 + 40) 60 ((0 + 40) / 60))].
Proof. vm_compute. reflexivity. Qed.

(** ** The value of PuLP expressions *)

Section valor.
Variable val : LpVariable → Q.

Lemma valor_terminos_app ts1 ts2 :
  (valor_terminos val (ts1 ++ ts2)
   == valor_terminos val ts1 + valor_terminos val ts2)%Q.
Proof.
  induction ts1 as [|[v c] ts1 IH]; simpl.
  - ring.
  - rewrite IH. ring.
Qed.

Lemma valor_terminos_set v c ts :
  (valor_terminos val (OD.set v c ts)
   == valor_terminos val ts
      + (c - from_option id 0 (OD.get v ts)) * val v)%Q.
Proof.
  induction ts as [|[v' c'] ts IH]; simpl.
  - ring.
  - destruct (decide (v = v')) as [->|Hne]; simpl.
    + ring.
    + rewrite IH. ring.
Qed.

Lemma valor_addterm v c e :
  (valor val (addterm v c e) == valor val e + c * val v)%Q.
Proof.
  unfold addterm, valor.
  destruct (OD.get v (terms e)) as [y|] eqn:Hget.
  - destruct (Qeq_bool y 0) eqn:Hy; simpl; rewrite valor_terminos_set, Hget; simpl.
    + apply Qeq_bool_iff in Hy. rewrite Hy. ring.
    + ring.
  - simpl. rewrite valor_terminos_set, Hget. simpl. ring.
Qed.

Lemma valor_fold_addterm (f : Q → Q) (ts : list (LpVariable * Q)) e :
  (valor val (fold_left (λ e vx, addterm vx.1 (f vx.2) e) ts e)
   == valor val e + valor_terminos val ((λ vx, (vx.1, f vx.2)) <$> ts))%Q.
Proof.
  revert e. induction ts as [|[v c] ts IH]; intros e; csimpl.
  - ring.
  - rewrite IH, valor_addterm. simpl. ring.
Qed.

Lemma valor_terminos_opp ts :
  (valor_terminos val ((λ vx, (vx.1, - vx.2)%Q) <$> ts)
   == - valor_terminos val ts)%Q.
Proof.
  induction ts as [|[v c] ts IH]; csimpl.
  - ring.
  - rewrite IH. ring.
Qed.

Lemma valor_addInPlace a b :
  (valor val (addInPlace a b) == valor val a + valor val b)%Q.
Proof.
  unfold addInPlace.
  rewrite (valor_fold_addterm (λ c, c)).
  assert (Hid : (λ vx : LpVariable * Q, (vx.1, vx.2)) <$> terms b = terms b).
  { induction (terms b) as [|[??] ? IH]; csimpl; [done|]. by rewrite IH. }
  rewrite Hid. unfold valor. simpl. ring.
Qed.

Lemma valor_subInPlace a b :
  (valor val (subInPlace a b) == valor val a - valor val b)%Q.
Proof.
  unfold subInPlace.
  rewrite (valor_fold_addterm (λ c, (- c)%Q)).
  rewrite valor_terminos_opp. unfold valor. simpl. ring.
Qed.

Lemma valor_lpSum_desde es e :
  (valor val (fold_left addInPlace es e) == valor val e + suma (valor val <$> es))%Q.
Proof.
  revert e. induction es as [|e' es IH]; intros e; csimpl.
  - ring.
  - rewrite IH, valor_addInPlace. ring.
Qed.

Lemma valor_lpSum es : (valor val (lpSum es) == suma (valor val <$> es))%Q.
Proof.
  unfold lpSum. rewrite valor_lpSum_desde. unfold valor, expr_vacia. simpl. ring.
Qed.

Lemma valor_lpSum_vars vs : (valor val (lpSum_vars vs) == suma (val <$> vs))%Q.
Proof.
  unfold lpSum_vars.
  cut (∀ e, (valor val (fold_left (λ e v, addterm v 1 e) vs e)
             == valor val e + suma (val <$> vs))%Q).
  { intros H. rewrite H. unfold valor, expr_vacia. simpl. ring. }
  induction vs as [|v vs IH]; intros e; csimpl.
  - ring.
  - rewrite IH, valor_addterm. ring.
Qed.

Lemma valor_mul_var c v : (valor val (mul_var c v) == c * val v)%Q.
Proof.
  unfold mul_var. destruct (Qeq_bool c 0) eqn:Hc; unfold valor; simpl.
  - apply Qeq_bool_iff in Hc. rewrite Hc. ring.
  - ring.
Qed.

Lemma valor_add_num c e : (valor val (add_num c e) == c + valor val e)%Q.
Proof. unfold valor, add_num. simpl. ring. Qed.

Lemma satisface_eq e rhs :
  satisface val (constraint_eq e rhs) ↔ (valor val e == rhs)%Q.
Proof.
  unfold satisface, constraint_eq, valor. simpl. split; intros H.
  - apply Qplus_inj_r with (z := (- rhs)%Q). rewrite Qplus_opp_r, <-H. ring.
  - rewrite <-(Qplus_opp_r rhs), <-H. ring.
Qed.

Lemma satisface_le e rhs :
  satisface val (constraint_le e rhs) ↔ (valor val e <= rhs)%Q.
Proof.
  unfold satisface, constraint_le, valor. simpl.
  rewrite (Qle_minus_iff _ 0), (Qle_minus_iff _ rhs).
  assert (E : (0 + - (constant e - rhs + valor_terminos val (terms e))
               == rhs + - (constant e + valor_terminos val (terms e)))%Q) by ring.
  by rewrite E.
Qed.
End valor.

(** ** The builder in closed form *)

Lemma concat_singletons {A B : Type} (f : A → B) (l : list A) :
  concat ((λ a, [f a]) <$> l) = f <$> l.
Proof. induction l as [|a l IH]; csimpl; [done|]. by rewrite IH. Qed.

Lemma addConstraint_fresco n c m :
  OD.wf (constraints m ++ [(n, c)]) → addConstraint n c m = Ok (agrega m [(n, c)]).
Proof.
  unfold OD.wf, OD.keys. rewrite fmap_app, NoDup_app. intros (_ & Hfresh & _).
  assert (Hn : n ∉ OD.keys (constraints m)).
  { intros Hin. apply (Hfresh n Hin). by left. }
  unfold addConstraint. rewrite (proj2 (mem_false _ _) Hn).
  by rewrite set_fresh.
Qed.

Lemma wf_app_l {K V : Type} (d1 d2 : list (K * V)) : OD.wf (d1 ++ d2) → OD.wf d1.
Proof. unfold OD.wf, OD.keys. rewrite fmap_app, NoDup_app. by intros (? & _). Qed.

(** A loop each of whose rounds appends a family of constraints. *)
Lemma for_each_agrega {A : Type} (body : LpProblem → A → result LpProblem)
    (fam : A → list (NombreRestriccion * LpConstraint)) (xs : list A) (m0 : LpProblem) :
  OD.wf (constraints m0 ++ concat (fam <$> xs)) →
  (∀ m x, x ∈ xs → OD.wf (constraints m ++ fam x) → body m x = Ok (agrega m (fam x))) →
  for_each body xs m0 = Ok (agrega m0 (concat (fam <$> xs))).
Proof.
  revert m0. induction xs as [|x xs IH]; intros m0 Hwf Hbody; csimpl.
  - unfold agrega. rewrite app_nil_r. by destruct m0.
  - csimpl in Hwf. rewrite app_assoc in Hwf.
    rewrite Hbody; [|by left|by apply wf_app_l in Hwf]. simpl.
    rewrite IH; [|done|intros ????; apply Hbody; [by right|done]].
    unfold agrega. simpl. by rewrite app_assoc.
Qed.

(** A loop each of whose rounds appends to a list. *)
Lemma for_each_append {A B : Type} (body : list B → A → result (list B))
    (fam : A → list B) (xs : list A) (acc : list B) :
  (∀ acc x, x ∈ xs → body acc x = Ok (acc ++ fam x)) →
  for_each body xs acc = Ok (acc ++ concat (fam <$> xs)).
Proof.
  revert acc. induction xs as [|x xs IH]; intros acc Hbody; csimpl.
  - by rewrite app_nil_r.
  - rewrite Hbody by left. simpl.
    rewrite IH by (intros ???; apply Hbody; by right). by rewrite app_assoc.
Qed.

Section constructor.
Variable self : AmbulanceOptimizationModel.
Hypothesis Hx : x_completa self.
Hypothesis Hnum : num_emergencias self = length (emergencias self).
Hypothesis Haristas : aristas self = dg_edges (grafo self).

Lemma atributo_arista_Ok name i j :
  aristas_con (grafo self) name → (i, j) ∈ aristas self →
  atributo_arista (grafo self) i j name
  = Ok (default 0%Q (dg_edge_data (grafo self) i j ≫= (.!! name))).
Proof.
  intros Hcon Hij. rewrite Haristas in Hij.
  unfold aristas_con in Hcon. rewrite Forall_forall in Hcon.
  destruct (Hcon (i, j) Hij) as [q Hq]. simpl in Hq.
  unfold atributo_arista.
  destruct (dg_edge_data (grafo self) i j) as [d|]; [|done].
  simpl in *. by rewrite Hq.
Qed.

Lemma restriccion_nodo_forma k dest_k m nodo :
  (k < num_emergencias self)%nat →
  restriccion_nodo self k dest_k m nodo
  = addConstraint (par_nodo self k dest_k nodo).1 (par_nodo self k dest_k nodo).2 m.
Proof.
  intros Hk. unfold restriccion_nodo.
  rewrite (mapM_Ok (λ ij, x_get self ij.1 nodo k) (λ ij, LpVar ij.1 nodo k));
    last first.
  { intros [i j] [Hj Hin]%list_elem_of_filter. simpl in *. subst.
    unfold x_get. by rewrite Hx. }
  simpl.
  rewrite (mapM_Ok (λ ij, x_get self nodo ij.2 k) (λ ij, LpVar nodo ij.2 k));
    last first.
  { intros [i j] [Hi Hin]%list_elem_of_filter. simpl in *. subst.
    unfold x_get. by rewrite Hx. }
  simpl. unfold par_nodo, entrantes_de, salientes_de.
  destruct (decide (nodo = nodo_origen self)); [done|].
  by destruct (decide (nodo = dest_k)).
Qed.

Lemma conservacion_flujo_forma_cerrada m0 :
  modelo self = Some m0 →
  OD.wf (constraints m0 ++ pares_flujo self) →
  _restriccion_conservacion_flujo self
  = Ok (con_modelo self (agrega m0 (pares_flujo self))).
Proof.
  intros Hm Hwf. unfold _restriccion_conservacion_flujo, modelo_actual.
  rewrite Hm. simpl.
  rewrite (for_each_agrega _
             (λ ke, par_nodo self ke.1 (nodo_destino ke.2) <$> nodos self)); [done|done|].
  intros m [k e] Hke Hwfm. simpl in *.
  rewrite <-concat_singletons.
  apply for_each_agrega; [by rewrite concat_singletons|].
  intros m' nodo _ Hwf'. rewrite restriccion_nodo_forma.
  - destruct (par_nodo self k (nodo_destino e) nodo) as [n c] eqn:Hp.
    by apply addConstraint_fresco.
  - apply elem_of_enumerate, lookup_lt_Some in Hke. by rewrite Hnum.
Qed.

Lemma restriccion_arista_forma m ij :
  aristas_con (grafo self) "capacity" → ij ∈ aristas self →
  restriccion_arista self m ij
  = addConstraint (par_arista self ij).1 (par_arista self ij).2 m.
Proof.
  intros Hcap Hij. unfold restriccion_arista. destruct ij as [i j].
  rewrite atributo_arista_Ok by done. simpl.
  rewrite (mapM_Ok _ (λ ke, mul_var (velocidad_requerida ke.2) (LpVar i j ke.1))).
  - done.
  - intros [k e] Hke. unfold x_get. simpl. rewrite Hx; [done|done|].
    apply elem_of_enumerate, lookup_lt_Some in Hke. by rewrite Hnum.
Qed.

Lemma capacidad_vias_forma_cerrada m0 :
  aristas_con (grafo self) "capacity" →
  modelo self = Some m0 →
  OD.wf (constraints m0 ++ (par_arista self <$> aristas self)) →
  _restriccion_capacidad_vias self
  = Ok (con_modelo self (agrega m0 (par_arista self <$> aristas self))).
Proof.
  intros Hcap Hm Hwf. unfold _restriccion_capacidad_vias, modelo_actual.
  rewrite Hm. simpl. rewrite <-concat_singletons.
  rewrite (for_each_agrega _ (λ ij, [par_arista self ij]));
    [done|by rewrite concat_singletons|].
  intros m ij Hij Hwfm. rewrite restriccion_arista_forma by done.
  destruct (par_arista self ij) as [n c] eqn:Hp. by apply addConstraint_fresco.
Qed.

Lemma definir_funcion_objetivo_forma_cerrada m0 :
  aristas_con (grafo self) "length" →
  modelo self = Some m0 →
  _definir_funcion_objetivo self
  = Ok (con_modelo self
          (mkProblem (Some (add_num (costo_fijo_total_de self)
                                    (lpSum (terminos_costo self))))
                     (constraints m0))).
Proof.
  intros Hlen Hm. unfold _definir_funcion_objetivo.
  rewrite (for_each_append _
    (λ ke, (λ ij, mul_var (length_m (grafo self) ij.1 ij.2 / 1000
                           * costo_km_de self (severidad ke.2))%Q
                          (LpVar ij.1 ij.2 ke.1)) <$> aristas self)).
  - simpl. unfold modelo_actual. rewrite Hm. done.
  - intros acc [k e] Hke. unfold costo_aristas_flujo. simpl.
    rewrite <-concat_singletons. apply for_each_append.
    intros acc' [i j] Hij. simpl.
    rewrite atributo_arista_Ok by done. simpl.
    unfold x_get. rewrite Hx; [done|done|].
    apply elem_of_enumerate, lookup_lt_Some in Hke. by rewrite Hnum.
Qed.
End constructor.

(** ** Constraint names are not reused *)

Lemma concat_fmap_bind {A B : Type} (f : A → list B) (l : list A) :
  concat (f <$> l) = l ≫= f.
Proof. induction l as [|a l IH]; csimpl; [done|]. by rewrite IH. Qed.

Lemma NoDup_enumerate {A : Type} (xs : list A) : NoDup (enumerate xs).
Proof.
  apply NoDup_alt. intros i j [k a] Hi Hj. unfold enumerate in *.
  rewrite list_lookup_imap in Hi, Hj.
  destruct (xs !! i); [|done]. destruct (xs !! j); [|done].
  simpl in *. congruence.
Qed.

Lemma clave_par_nodo self k dest_k nodo :
  clave_flujo (par_nodo self k dest_k nodo).1 = Some (k, nodo).
Proof.
  unfold par_nodo. destruct (decide (nodo = nodo_origen self)); [done|].
  by destruct (decide (nodo = dest_k)).
Qed.

Lemma keys_pares_flujo self :
  OD.keys (pares_flujo self)
  = enumerate (emergencias self)
      ≫= λ ke, (λ nodo, (par_nodo self ke.1 (nodo_destino ke.2) nodo).1) <$> nodos self.
Proof.
  unfold pares_flujo, OD.keys. rewrite concat_fmap_bind.
  induction (enumerate (emergencias self)) as [|ke l IH]; csimpl; [done|].
  rewrite fmap_app, IH. f_equal. by rewrite <-list_fmap_compose.
Qed.

Lemma elem_keys_pares_flujo self n :
  n ∈ OD.keys (pares_flujo self) →
  ∃ k e nodo, emergencias self !! k = Some e ∧ nodo ∈ nodos self ∧
              n = (par_nodo self k (nodo_destino e) nodo).1.
Proof.
  rewrite keys_pares_flujo.
  intros ([k e] & (nodo & -> & Hnodo)%list_elem_of_fmap & Hke%elem_of_enumerate)
    %list_elem_of_bind.
  by exists k, e, nodo.
Qed.

Lemma NoDup_claves_pares_flujo self :
  NoDup (nodos self) → NoDup (clave_flujo <$> OD.keys (pares_flujo self)).
Proof.
  intros Hnd.
  assert (Heq : clave_flujo <$> OD.keys (pares_flujo self)
                = enumerate (emergencias self)
                    ≫= λ ke, (λ nodo, Some (ke.1, nodo)) <$> nodos self).
  { rewrite keys_pares_flujo.
    induction (enumerate (emergencias self)) as [|ke l IH]; csimpl; [done|].
    rewrite fmap_app, IH. f_equal. rewrite <-list_fmap_compose.
    apply list_fmap_ext. intros ? nodo _. apply clave_par_nodo. }
  rewrite Heq. apply NoDup_bind.
  - intros [k1 e1] [k2 e2] n H1%elem_of_enumerate H2%elem_of_enumerate
      (n1 & -> & _)%list_elem_of_fmap (n2 & [= -> _] & _)%list_elem_of_fmap.
    congruence.
  - intros [k e] _. apply NoDup_fmap_2_strong; [|done].
    by intros n1 n2 _ _ [= ->].
  - apply NoDup_enumerate.
Qed.

Lemma wf_pares_flujo self : NoDup (nodos self) → OD.wf (pares_flujo self).
Proof.
  intros Hnd. unfold OD.wf. eapply NoDup_fmap_1. by apply NoDup_claves_pares_flujo.
Qed.

Lemma wf_pares_arista self :
  NoDup (aristas self) → OD.wf (par_arista self <$> aristas self).
Proof.
  intros Hnd. unfold OD.wf, OD.keys. rewrite <-list_fmap_compose.
  apply NoDup_fmap_2_strong; [|done].
  intros [i1 j1] [i2 j2] _ _. simpl. by intros [= -> ->].
Qed.

Lemma wf_restricciones self :
  NoDup (nodos self) → NoDup (aristas self) →
  OD.wf (pares_flujo self ++ (par_arista self <$> aristas self)).
Proof.
  intros Hn Ha. unfold OD.wf, OD.keys. rewrite fmap_app. apply NoDup_app.
  split_and!; [by apply wf_pares_flujo| |by apply wf_pares_arista].
  intros n (k & e & nodo & _ & _ & ->)%elem_keys_pares_flujo
    ([nm c] & Heq & (ij & [= -> _] & _)%list_elem_of_fmap)%list_elem_of_fmap.
  apply (f_equal clave_flujo) in Heq. by rewrite clave_par_nodo in Heq.
Qed.

(** ** The model that [construir_modelo] returns *)

Lemma x_completa_con_modelo self m : x_completa self → x_completa (con_modelo self m).
Proof. intros Hx i j k. apply Hx. Qed.

Lemma init_forma mg ems origen costos self0 :
  init mg ems origen costos = Ok self0 →
  ∃ g, _simplificar_a_digraph mg = Ok g ∧ dg_ok g ∧
       self0 = mkModel g ems origen costos (length ems) (dg_nodes g) (dg_edges g) None [].
Proof.
  unfold init. intros (g & Hg & [= <-])%bind_Ok. exists g.
  split_and!; [done| |done]. by eapply simplificar_dg_ok.
Qed.

Lemma construir_modelo_forma_cerrada self0 :
  aristas self0 = dg_edges (grafo self0) →
  nodos self0 = dg_nodes (grafo self0) →
  num_emergencias self0 = length (emergencias self0) →
  dg_ok (grafo self0) →
  aristas_con (grafo self0) "length" →
  aristas_con (grafo self0) "capacity" →
  let self1 := _crear_variables (con_modelo self0 (mkProblem None [])) in
  construir_modelo self0
  = Ok (con_modelo self1
          (mkProblem (Some (add_num (costo_fijo_total_de self1)
                                    (lpSum (terminos_costo self1))))
                     (pares_flujo self1 ++ (par_arista self1 <$> aristas self1)))).
Proof.
  intros Har Hno Hnum Hok Hlen Hcap self1.
  assert (Hx : x_completa self1) by apply crear_variables_x.
  assert (Hwf : OD.wf (pares_flujo self1 ++ (par_arista self1 <$> aristas self1))).
  { apply wf_restricciones; simpl.
    - rewrite Hno. apply Hok.
    - rewrite Har. by apply NoDup_dg_edges. }
  unfold construir_modelo. fold self1.
  rewrite (definir_funcion_objetivo_forma_cerrada self1 Hx Hnum Har (mkProblem None []))
    by done.
  simpl. unfold _agregar_restricciones.
  match goal with |- context [_restriccion_conservacion_flujo ?s] => set (self2 := s) end.
  rewrite (conservacion_flujo_forma_cerrada self2
             (x_completa_con_modelo _ _ Hx) Hnum _ eq_refl);
    [|simpl; by apply wf_app_l in Hwf].
  simpl.
  match goal with |- context [_restriccion_capacidad_vias ?s] => set (self3 := s) end.
  rewrite (capacidad_vias_forma_cerrada self3
             (x_completa_con_modelo _ _ (x_completa_con_modelo _ _ Hx)) Hnum Har
             _ Hcap eq_refl); [done|].
  exact Hwf.
Qed.

Lemma filter_ninguno {A : Type} (P : A → Prop) `{∀ x, Decision (P x)} (l : list A) :
  (∀ x, x ∈ l → ¬ P x) → filter P l = [].
Proof.
  induction l as [|a l IH]; intros Hl; [done|].
  rewrite filter_cons_False by (apply Hl; by left).
  apply IH. intros ??. apply Hl. by right.
Qed.

Lemma filter_clave_unica {K V : Type} `{EqDecision K} (d : list (K * V)) k v :
  OD.wf d → (k, v) ∈ d → filter (λ kv, kv.1 = k) d = [(k, v)].
Proof.
  unfold OD.wf, OD.keys. induction d as [|[k' v'] d IH]; csimpl.
  - intros _ Hin. by apply elem_of_nil in Hin.
  - rewrite NoDup_cons. intros [Hk' Hnd] Hin. rewrite filter_cons. simpl.
    apply elem_of_cons in Hin as [[= -> ->]|Hin].
    + rewrite decide_True by done. f_equal.
      apply filter_ninguno.
      intros [k2 v2] Hin2 Heq. simpl in Heq. subst k2.
      apply Hk'. apply list_elem_of_fmap. by exists (k', v2).
    + rewrite decide_False; [by apply IH|].
      intros ->. apply Hk'. apply list_elem_of_fmap. by exists (k, v).
Qed.

Lemma suma_concat {A : Type} (f : A → Q) (ll : list (list A)) :
  (suma (f <$> concat ll) == suma ((λ l, suma (f <$> l)) <$> ll))%Q.
Proof.
  induction ll as [|l ll IH]; csimpl; [done|].
  by rewrite fmap_app, suma_app, IH.
Qed.

Lemma suma_ext {A : Type} (f g : A → Q) (l : list A) :
  (∀ a, a ∈ l → (f a == g a)%Q) → (suma (f <$> l) == suma (g <$> l))%Q.
Proof.
  induction l as [|a l IH]; intros Hfg; csimpl; [done|].
  rewrite (Hfg a) by left. rewrite IH; [done|]. intros ??. apply Hfg. by right.
Qed.

Lemma fold_left_suma {A : Type} (f : A → Q) (l : list A) (q : Q) :
  (fold_left (λ total a, total + f a) l q == q + suma (f <$> l))%Q.
Proof.
  revert q. induction l as [|a l IH]; intros q; csimpl.
  - ring.
  - rewrite IH. ring.
Qed.

Lemma costo_de_fila self s :
  costo_fijo_de self s = costo_fijo (fila_costos (costos_usuario self) s) ∧
  costo_km_de self s = costo_km (fila_costos (costos_usuario self) s).
Proof.
  unfold costo_fijo_de, costo_km_de, fila_usuario, fila_costos.
  destruct (costos_usuario self) as [[|fila filas]|]; [done| |done].
  change (Some (fila :: filas) ≫= OD.get s) with (OD.get s (fila :: filas)).
  by destruct (OD.get s (fila :: filas)).
Qed.

Lemma filter_unico {A B : Type} `{EqDecision B} (f : A → B) (l : list A) (a : A) :
  NoDup (f <$> l) → a ∈ l → filter (λ x, f x = f a) l = [a].
Proof.
  induction l as [|a' l IH]; csimpl.
  - intros _ Hin. by apply elem_of_nil in Hin.
  - rewrite NoDup_cons. intros [Ha' Hnd] Hin. rewrite filter_cons.
    apply elem_of_cons in Hin as [->|Hin].
    + rewrite decide_True by done. f_equal. apply filter_ninguno.
      intros x Hx Heq. apply Ha'. rewrite <-Heq. apply list_elem_of_fmap. eauto.
    + rewrite decide_False; [by apply IH|].
      intros Heq. apply Ha'. rewrite Heq. apply list_elem_of_fmap. eauto.
Qed.

(** The three theorems on the built model share this form of its result. *)
Lemma modelo_construido mg ems origen costos self0 :
  init mg ems origen costos = Ok self0 →
  aristas_con (grafo self0) "length" →
  aristas_con (grafo self0) "capacity" →
  ∃ self,
    construir_modelo self0 = Ok self ∧
    grafo self = grafo self0 ∧ emergencias self = ems ∧ nodo_origen self = origen ∧
    costos_usuario self = costos ∧
    aristas self = dg_edges (grafo self0) ∧ nodos self = dg_nodes (grafo self0) ∧
    NoDup (nodos self) ∧ NoDup (aristas self) ∧
    modelo self
    = Some (mkProblem (Some (add_num (costo_fijo_total_de self)
                                     (lpSum (terminos_costo self))))
                      (pares_flujo self ++ (par_arista self <$> aristas self))).
Proof.
  intros (g & Hg & Hok & ->)%init_forma Hlen Hcap. simpl in *.
  eexists. split; [by apply construir_modelo_forma_cerrada|].
  simpl. split_and!; try done.
  - apply Hok.
  - by apply NoDup_dg_edges.
Qed.

(** C1. For every edge [(i, j)] of the prepared graph the built model holds
    exactly one constraint named after the edge's capacity; it states that the
    sum over the emergencies [k] of [required_speed_kmh(k) * x[i,j,k]] is at
    most [capacity_kmh(i,j)], and no capacity constraint exists for a pair that
    is not an edge. *)
Theorem restriccion_capacidad_por_arista
    (mg : MultiDiGraph) (ems : list Emergencia) (origen : Z)
    (costos : option (list (Severidad * CostoUsuario)))
    (self0 : AmbulanceOptimizationModel) :
  init mg ems origen costos = Ok self0 →
  aristas_con (grafo self0) "length" →
  aristas_con (grafo self0) "capacity" →
  ∃ self m,
    construir_modelo self0 = Ok self ∧ modelo self = Some m ∧
    grafo self = grafo self0 ∧
    (∀ i j, (i, j) ∈ dg_edges (grafo self) →
       ∃ c, filter (λ nc, nc.1 = Capacidad i j) (constraints m) = [(Capacidad i j, c)] ∧
            sense c = LpConstraintLE ∧
            ∀ val, satisface val c ↔
                   (demanda_total_arista val ems i j
                    <= capacity_kmh (grafo self) i j)%Q) ∧
    (∀ i j c, (Capacidad i j, c) ∈ constraints m → (i, j) ∈ dg_edges (grafo self)).
Proof.
  intros Hinit Hlen Hcap.
  destruct (modelo_construido _ _ _ _ _ Hinit Hlen Hcap)
    as (self & Hbuild & Hg & Hems & Ho & Hcu & Har & Hno & Hndn & Hnda & Hm).
  eexists self, _. split_and!; [done|done|done| |].
  - intros i j Hij. rewrite Hg, <-Har in Hij.
    exists (par_arista self (i, j)).2. simpl. split_and!; [|done|].
    + apply (filter_clave_unica _ (Capacidad i j)).
      * by apply wf_restricciones.
      * apply elem_of_app. right. apply list_elem_of_fmap. by exists (i, j).
    + intros val. rewrite satisface_le, valor_lpSum, <-list_fmap_compose.
      unfold demanda_total_arista. rewrite Hems.
      assert (Heq : (suma (valor val ∘ (λ ke, mul_var (velocidad_requerida ke.2)
                                                 (LpVar i j ke.1)) <$> enumerate ems)
                     == suma ((λ ke, velocidad_requerida ke.2 * val (LpVar i j ke.1))
                              <$> enumerate ems))%Q).
      { apply suma_ext. intros ke _. simpl. apply valor_mul_var. }
      by rewrite Heq.
  - intros i j c. simpl. rewrite elem_of_app.
    intros [Hin|(ij & [= -> -> _] & Hin)%list_elem_of_fmap].
    + assert (Hk : Capacidad i j ∈ OD.keys (pares_flujo self)).
      { apply list_elem_of_fmap. by exists (Capacidad i j, c). }
      apply elem_keys_pares_flujo in Hk as (k & e & nodo & _ & _ & Heq).
      apply (f_equal clave_flujo) in Heq. by rewrite clave_par_nodo in Heq.
    + rewrite Hg, <-Har. by destruct ij.
Qed.

(** C2. For every emergency [k] and every node [v] of the prepared graph the
    built model holds exactly one flow-conservation equality: outgoing minus
    incoming equals 1 at the origin, incoming minus outgoing equals 1 at the
    destination of [k] (when it is not the origin), and incoming minus outgoing
    equals 0 at every other node. *)
Theorem restriccion_conservacion_por_nodo
    (mg : MultiDiGraph) (ems : list Emergencia) (origen : Z)
    (costos : option (list (Severidad * CostoUsuario)))
    (self0 : AmbulanceOptimizationModel) :
  init mg ems origen costos = Ok self0 →
  aristas_con (grafo self0) "length" →
  aristas_con (grafo self0) "capacity" →
  ∃ self m,
    construir_modelo self0 = Ok self ∧ modelo self = Some m ∧
    grafo self = grafo self0 ∧
    ∀ k e v, ems !! k = Some e → v ∈ dg_nodes (grafo self) →
      ∃ n c,
        filter (λ nc, clave_flujo nc.1 = Some (k, v)) (constraints m) = [(n, c)] ∧
        sense c = LpConstraintEQ ∧
        ∀ val,
          let sal := flujo_saliente val (dg_edges (grafo self)) v k in
          let ent := flujo_entrante val (dg_edges (grafo self)) v k in
          satisface val c ↔
            if decide (v = origen) then (sal - ent == 1)%Q
            else if decide (v = nodo_destino e) then (ent - sal == 1)%Q
            else (ent - sal == 0)%Q.
Proof.
  intros Hinit Hlen Hcap.
  destruct (modelo_construido _ _ _ _ _ Hinit Hlen Hcap)
    as (self & Hbuild & Hg & Hems & Ho & Hcu & Har & Hno & Hndn & Hnda & Hm).
  eexists self, _. split_and!; [done|done|done|].
  intros k e v He Hv. rewrite Hg, <-Hno in Hv.
  set (par := par_nodo self k (nodo_destino e) v).
  exists par.1, par.2. simpl. split_and!.
  - rewrite filter_app.
    rewrite (filter_ninguno _ (par_arista self <$> aristas self)), app_nil_r.
    + rewrite <-surjective_pairing.
      rewrite <-(clave_par_nodo self k (nodo_destino e) v). fold par.
      apply (filter_unico (λ nc : NombreRestriccion * LpConstraint, clave_flujo nc.1)).
      * pose proof (NoDup_claves_pares_flujo self Hndn) as Hcl.
        unfold OD.keys in Hcl. rewrite <-list_fmap_compose in Hcl. exact Hcl.
      * unfold pares_flujo. rewrite concat_fmap_bind. apply list_elem_of_bind.
        exists (k, e). split; [|apply elem_of_enumerate; by rewrite Hems].
        apply list_elem_of_fmap. by exists v.
    + by intros nc (ij & -> & _)%list_elem_of_fmap.
  - unfold par, par_nodo. by repeat case_decide.
  - intros val. rewrite Hg, <-Har, <-Ho. unfold par, par_nodo.
    unfold flujo_saliente, flujo_entrante.
    assert (Hent : (valor val (lpSum_vars (entrantes_de self v k))
                    == suma ((λ ij, val (LpVar ij.1 v k))
                             <$> filter (λ ij, ij.2 = v) (aristas self)))%Q).
    { rewrite valor_lpSum_vars. unfold entrantes_de. by rewrite <-list_fmap_compose. }
    assert (Hsal : (valor val (lpSum_vars (salientes_de self v k))
                    == suma ((λ ij, val (LpVar v ij.2 k))
                             <$> filter (λ ij, ij.1 = v) (aristas self)))%Q).
    { rewrite valor_lpSum_vars. unfold salientes_de. by rewrite <-list_fmap_compose. }
    repeat case_decide; simpl; rewrite satisface_eq, valor_subInPlace, Hent, Hsal; done.
Qed.

(** C3. The objective of the built model is, under every assignment, the sum
    over the emergencies of the fixed cost of their severity plus the sum over
    emergencies and edges of [(length_m(i,j) / 1000) * per_km_cost * x[i,j,k]],
    the cost row of a severity being the caller's when there is one and the
    default table's otherwise. *)
Theorem objetivo_es_costo_total
    (mg : MultiDiGraph) (ems : list Emergencia) (origen : Z)
    (costos : option (list (Severidad * CostoUsuario)))
    (self0 : AmbulanceOptimizationModel) :
  init mg ems origen costos = Ok self0 →
  aristas_con (grafo self0) "length" →
  aristas_con (grafo self0) "capacity" →
  ∃ self m obj,
    construir_modelo self0 = Ok self ∧ modelo self = Some m ∧
    grafo self = grafo self0 ∧
    objective m = Some obj ∧
    ∀ val, (valor val obj == costo_objetivo (grafo self) ems costos val)%Q.
Proof.
  intros Hinit Hlen Hcap.
  destruct (modelo_construido _ _ _ _ _ Hinit Hlen Hcap)
    as (self & Hbuild & Hg & Hems & Ho & Hcu & Har & Hno & Hndn & Hnda & Hm).
  eexists self, _, _. split_and!; [done|done|done|done|].
  intros val. rewrite valor_add_num, valor_lpSum. unfold costo_objetivo.
  apply Qplus_comp.
  - unfold costo_fijo_total_de.
    rewrite (fold_left_suma (λ e, costo_fijo_de self (severidad e))), Qplus_0_l.
    rewrite Hems. apply suma_ext. intros e _.
    destruct (costo_de_fila self (severidad e)) as [-> _]. by rewrite Hcu.
  - unfold terminos_costo. rewrite suma_concat, <-list_fmap_compose.
    rewrite Hems. apply suma_ext. intros [k e] _. simpl.
    rewrite <-list_fmap_compose, Har, Hg. apply suma_ext. intros [i j] _. simpl.
    rewrite valor_mul_var.
    destruct (costo_de_fila self (severidad e)) as [_ ->]. by rewrite Hcu.
Qed.

Lemma ej_con_length : aristas_con (grafo ej_self0) "length".
Proof. unfold aristas_con. apply (bool_decide_unpack _). vm_compute. exact I. Qed.

Lemma ej_con_capacity : aristas_con (grafo ej_self0) "capacity".
Proof. unfold aristas_con. apply (bool_decide_unpack _). vm_compute. exact I. Qed.

Lemma ej_init : init ej_multigrafo ej_emergencias 0 ej_costos = Ok ej_self0.
Proof. vm_compute. reflexivity. Qed.

Lemma restriccion_capacidad_por_arista_witness :
  init ej_multigrafo ej_emergencias 0 ej_costos = Ok ej_self0 ∧
  aristas_con (grafo ej_self0) "length" ∧
  aristas_con (grafo ej_self0) "capacity" ∧
  ∃ self m,
    construir_modelo ej_self0 = Ok self ∧ modelo self = Some m ∧
    grafo self = grafo ej_self0 ∧
    (∀ i j, (i, j) ∈ dg_edges (grafo self) →
       ∃ c, filter (λ nc, nc.1 = Capacidad i j) (constraints m) = [(Capacidad i j, c)] ∧
            sense c = LpConstraintLE ∧
            ∀ val, satisface val c ↔
                   (demanda_total_arista val ej_emergencias i j
                    <= capacity_kmh (grafo self) i j)%Q) ∧
    (∀ i j c, (Capacidad i j, c) ∈ constraints m → (i, j) ∈ dg_edges (grafo self)).
Proof.
  split_and!; [exact ej_init | exact ej_con_length | exact ej_con_capacity |].
  exact (restriccion_capacidad_por_arista ej_multigrafo ej_emergencias 0 ej_costos
           ej_self0 ej_init ej_con_length ej_con_capacity).
Defined.

Lemma restriccion_conservacion_por_nodo_witness :
  init ej_multigrafo ej_emergencias 0 ej_costos = Ok ej_self0 ∧
  aristas_con (grafo ej_self0) "length" ∧
  aristas_con (grafo ej_self0) "capacity" ∧
  ∃ self m,
    construir_modelo ej_self0 = Ok self ∧ modelo self = Some m ∧
    grafo self = grafo ej_self0 ∧
    ∀ k e v, ej_emergencias !! k = Some e → v ∈ dg_nodes (grafo self) →
      ∃ n c,
        filter (λ nc, clave_flujo nc.1 = Some (k, v)) (constraints m) = [(n, c)] ∧
        sense c = LpConstraintEQ ∧
        ∀ val,
          let sal := flujo_saliente val (dg_edges (grafo self)) v k in
          let ent := flujo_entrante val (dg_edges (grafo self)) v k in
          satisface val c ↔
            if decide (v = 0) then (sal - ent == 1)%Q
            else if decide (v = nodo_destino e) then (ent - sal == 1)%Q
            else (ent - sal == 0)%Q.
Proof.
  split_and!; [exact ej_init | exact ej_con_length | exact ej_con_capacity |].
  exact (restriccion_conservacion_por_nodo ej_multigrafo ej_emergencias 0 ej_costos
           ej_self0 ej_init ej_con_length ej_con_capacity).
Defined.

Lemma objetivo_es_costo_total_witness :
  init ej_multigrafo ej_emergencias 0 ej_costos = Ok ej_self0 ∧
  aristas_con (grafo ej_self0) "length" ∧
  aristas_con (grafo ej_self0) "capacity" ∧
  ∃ self m obj,
    construir_modelo ej_self0 = Ok self ∧ modelo self = Some m ∧
    grafo self = grafo ej_self0 ∧
    objective m = Some obj ∧
    ∀ val, (valor val obj == costo_objetivo (grafo self) ej_emergencias ej_costos val)%Q.
Proof.
  split_and!; [exact ej_init | exact ej_con_length | exact ej_con_capacity |].
  exact (objetivo_es_costo_total ej_multigrafo ej_emergencias 0 ej_costos
           ej_self0 ej_init ej_con_length ej_con_capacity).
Defined.

(** The scenario's objective: the caller's row prices the [leve] emergency, the
    default table the [grave] one. *)
Example objetivo_ejemplo :
  (modelo ej_self ≫= objective)
  = Some (mkExpr [(LpVar 0 1 0, 1000 / 1000 * 5000); (LpVar 0 2 0, 2000 / 1000 * 5000);
                  (LpVar 1 3 0, 1000 / 1000 * 5000); (LpVar 2 3 0, 500 / 1000 * 5000);
                  (LpVar 0 1 1, 1000 / 1000 * 20396); (LpVar 0 2 1, 2000 / 1000 * 20396);
                  (LpVar 1 3 1, 1000 / 1000 * 20396); (LpVar 2 3 1, 500 / 1000 * 20396)]%Q
                 (0 + 0 + (0 + 30000 + 85000))%Q).
Proof. vm_compute. reflexivity. Qed.

(** ** Multigraphs *)

Lemma elem_of_mg_edges (mg : MultiDiGraph) u v k d :
  (u, v, k, d) ∈ mg_edges mg ↔
  ∃ nbrs kd, (u, nbrs) ∈ mg_adj mg ∧ (v, kd) ∈ nbrs ∧ (k, d) ∈ kd.
Proof.
  unfold mg_edges. rewrite list_elem_of_bind. split.
  - intros ([u' nbrs] & Hin & Hrow).
    apply list_elem_of_bind in Hin as ([v' kd] & Hin & Hv).
    apply list_elem_of_bind in Hin as ([k' d'] & Hin & Hk).
    apply list_elem_of_singleton in Hin as [= -> -> -> ->]. eauto.
  - intros (nbrs & kd & Hrow & Hv & Hk). exists (u, nbrs). split; [|done].
    apply list_elem_of_bind. exists (v, kd). split; [|done].
    apply list_elem_of_bind. exists (k, d). split; [|done].
    by apply list_elem_of_singleton.
Qed.

(** In a well-formed multigraph the parallel edges of a pair are the items of
    its key dictionary. *)
Lemma mg_paralelas (mg : MultiDiGraph) u v k d :
  mg_wf mg → (u, v, k, d) ∈ mg_edges mg →
  ∃ nbrs kd, OD.get u (mg_adj mg) = Some nbrs ∧ OD.get v nbrs = Some kd ∧
             ∀ k' d', (u, v, k', d') ∈ mg_edges mg ↔ (k', d') ∈ kd.
Proof.
  intros [Hadj Hrows] (nbrs & kd & Hrow & Hv & Hk)%elem_of_mg_edges.
  rewrite Forall_forall in Hrows. destruct (Hrows _ Hrow) as [Hnbrs _]. simpl in *.
  assert (Hgu : OD.get u (mg_adj mg) = Some nbrs) by (by apply elem_get).
  assert (Hgv : OD.get v nbrs = Some kd) by (by apply elem_get).
  exists nbrs, kd. split_and!; [done..|].
  intros k' d'. rewrite elem_of_mg_edges. split.
  - intros (nbrs' & kd' & Hrow' & Hv' & Hk').
    assert (nbrs' = nbrs) as -> by (apply (elem_get u) in Hrow'; congruence).
    assert (kd' = kd) as -> by (apply (elem_get v) in Hv'; congruence).
    done.
  - intros Hk'. by exists nbrs, kd.
Qed.

(** ** The choice among parallel edges *)

Lemma mejor_arista_desde (items : list (Z * gmap string Q)) c0 o0 :
  ∃ c o,
    fold_left mejor_paso items (c0, o0) = (c, o) ∧
    (c0 <= c)%Q ∧
    (∀ kd, kd ∈ items → (get_capacity kd.2 <= c)%Q) ∧
    ((c, o) = (c0, o0) ∨
     ∃ kd, kd ∈ items ∧ o = Some kd.2 ∧ c = get_capacity kd.2).
Proof.
  revert c0 o0. induction items as [|kd items IH]; intros c0 o0.
  - exists c0, o0. split_and!; [done|apply Qle_refl| |by left].
    intros ? []%elem_of_nil.
  - change (fold_left mejor_paso (kd :: items) (c0, o0))
      with (fold_left mejor_paso items (mejor_paso (c0, o0) kd)).
    unfold mejor_paso at 2. simpl.
    destruct (Qgtb (get_capacity kd.2) c0) eqn:Hgt.
    + apply Qgtb_true in Hgt.
      destruct (IH (get_capacity kd.2) (Some kd.2)) as (c & o & -> & Hle & Hall & Hres).
      exists c, o. split_and!; [done| | |].
      * eapply Qle_trans; [apply Qlt_le_weak, Hgt | exact Hle].
      * intros kd' [->|Hin]%elem_of_cons; [done | by apply Hall].
      * right. destruct Hres as [[= -> ->]|(kd' & Hin & H2 & H1)].
        -- exists kd. split_and!; [by left|done..].
        -- exists kd'. split_and!; [by right|done..].
    + apply Qgtb_false in Hgt.
      destruct (IH c0 o0) as (c & o & -> & Hle & Hall & Hres).
      exists c, o. split_and!; [done|done| |].
      * intros kd' [->|Hin]%elem_of_cons; [|by apply Hall].
        by eapply Qle_trans.
      * destruct Hres as [?|(kd' & Hin & H2 & H1)]; [by left|].
        right. exists kd'. split_and!; [by right|done..].
Qed.

Lemma mejor_arista_ok (items : list (Z * gmap string Q)) :
  items ≠ [] →
  Forall (λ kd, (-1 < get_capacity kd.2)%Q) items →
  ∃ kd, kd ∈ items ∧ (mejor_arista items).2 = Some kd.2 ∧
        ∀ kd', kd' ∈ items → (get_capacity kd'.2 <= get_capacity kd.2)%Q.
Proof.
  intros Hne Hcap. unfold mejor_arista.
  destruct (mejor_arista_desde items (-1)%Q None) as (c & o & -> & Hle & Hall & Hres).
  destruct Hres as [[= -> ->]|(kd & Hin & H2 & H1)].
  - destruct items as [|kd items]; [done|]. exfalso.
    apply Forall_cons in Hcap as [Hkd _].
    specialize (Hall kd (list_elem_of_here _ _)).
    by apply Qlt_not_le in Hkd.
  - exists kd. split_and!; [done..|]. intros kd' Hin'. rewrite <-H1. by apply Hall.
Qed.

(** ** Edge data under [add_node] and [add_edge] *)

Lemma dg_edge_data_con_nodo (g : DiGraph) (n : Z) (a : gmap string Q) u v :
  dg_edge_data (if OD.mem n (dg_adj g) then g
                else mkDi (OD.set n a (dg_node g)) (OD.set n [] (dg_adj g))) u v
  = dg_edge_data g u v.
Proof.
  destruct (OD.mem n (dg_adj g)) eqn:Hmem; [done|].
  apply mem_false, get_None in Hmem. unfold dg_edge_data. simpl.
  destruct (decide (n = u)) as [->|Hne].
  - by rewrite get_set_eq, Hmem.
  - by rewrite get_set_ne.
Qed.

Lemma dg_edge_data_add_node (g : DiGraph) (n : Z) (a : gmap string Q) u v :
  dg_edge_data (add_node n a g) u v = dg_edge_data g u v.
Proof.
  unfold add_node. destruct (OD.mem n (dg_adj g)) eqn:Hmem; [done|].
  apply mem_false, get_None in Hmem. unfold dg_edge_data. simpl.
  destruct (decide (n = u)) as [->|Hne].
  - by rewrite get_set_eq, Hmem.
  - by rewrite get_set_ne.
Qed.

Lemma dg_edge_data_add_edge (g : DiGraph) (i j : Z) (a : gmap string Q) u v :
  dg_edge_data (add_edge i j a g) u v
  = if decide ((u, v) = (i, j))
    then Some (dict_update (default ∅ (dg_edge_data g i j)) a)
    else dg_edge_data g u v.
Proof.
  unfold add_edge.
  set (g1 := if OD.mem i (dg_adj g) then g else _).
  set (g2 := if OD.mem j (dg_adj g1) then g1 else _).
  assert (H2 : ∀ u v, dg_edge_data g2 u v = dg_edge_data g u v).
  { intros u' v'. unfold g2. rewrite dg_edge_data_con_nodo.
    unfold g1. by rewrite dg_edge_data_con_nodo. }
  rewrite <-!H2. clearbody g2. clear g1 H2.
  unfold dg_edge_data at 1. simpl.
  destruct (decide (u = i)) as [->|Hu].
  - rewrite get_set_eq. destruct (decide (v = j)) as [->|Hv].
    + rewrite decide_True by done. rewrite get_set_eq. do 2 f_equal.
      unfold dg_edge_data. by destruct (OD.get i (dg_adj g2)).
    + rewrite decide_False by congruence. rewrite get_set_ne by done.
      unfold dg_edge_data. by destruct (OD.get i (dg_adj g2)).
  - rewrite decide_False by congruence. by rewrite get_set_ne.
Qed.

Lemma dg_edge_data_nodos (ns : list (Z * gmap string Q)) (g : DiGraph) u v :
  dg_edge_data (fold_left (λ g nd, add_node nd.1 nd.2 g) ns g) u v
  = dg_edge_data g u v.
Proof.
  revert g. induction ns as [|[n a] ns IH]; intros g; simpl; [done|].
  by rewrite IH, dg_edge_data_add_node.
Qed.

(** ** [_simplificar_a_digraph] keeps, for every pair, a parallel edge of
       largest capacity *)

Lemma simplificar_paso_paralelas (mg : MultiDiGraph) pre e post st :
  mg_wf mg →
  (∀ i j k d, (i, j, k, d) ∈ mg_edges mg → (1 < mg_number_of_edges mg i j)%nat →
              (-1 < get_capacity d)%Q) →
  mg_edges mg = pre ++ e :: post →
  simplificar_inv mg pre st →
  ∃ st', simplificar_paso mg st e = Ok st' ∧ simplificar_inv mg (pre ++ [e]) st'.
Proof.
  intros Hwf Hcap Hsplit (Hpares & Hdata & Hsel).
  destruct e as [[[i j] key] data]. destruct st as [g pares]. simpl in *.
  assert (He : (i, j, key, data) ∈ mg_edges mg).
  { rewrite Hsplit. apply elem_of_app. right. by left. }
  unfold simplificar_paso.
  destruct (decide ((i, j) ∈ pares)) as [Hin|Hnin].
  { exists (g, pares). split; [done|]. split_and!; simpl; [|done..].
    intros u v. rewrite Hpares. setoid_rewrite elem_of_app.
    setoid_rewrite list_elem_of_singleton. split; [naive_solver|].
    intros (k & d & [Hpre|[= -> -> -> ->]]); [eauto|]. by apply Hpares. }
  destruct (mg_paralelas mg i j key data Hwf He) as (nbrs & kd & Hgi & Hgj & Hkd).
  assert (Hnum : mg_number_of_edges mg i j = length kd).
  { unfold mg_number_of_edges. by rewrite Hgi, Hgj. }
  assert (∃ d, (if decide (1 < mg_number_of_edges mg i j)%nat
                then items ← mg_getitem2 mg i j;
                     match (mejor_arista items).2 with
                     | Some mejor_data =>
                         Ok (add_edge i j mejor_data g, pares ∪ {[ (i, j) ]})
                     | None => Raise TypeError
                     end
                else Ok (add_edge i j data g, pares ∪ {[ (i, j) ]}))
               = Ok (add_edge i j d g, pares ∪ {[ (i, j) ]}) ∧
               ∃ k, (i, j, k, d) ∈ mg_edges mg ∧
                    ∀ k' d', (i, j, k', d') ∈ mg_edges mg →
                             (get_capacity d' <= get_capacity d)%Q)
    as (d & -> & k & Hkin & Hmax).
  { rewrite Hnum. destruct (decide (1 < length kd)%nat) as [Hlt|Hge].
    - unfold mg_getitem2. rewrite Hgi. simpl. rewrite Hgj. simpl.
      destruct (mejor_arista_ok kd) as ([k d] & Hin & -> & Hmax).
      + intros ->. simpl in Hlt. lia.
      + apply Forall_forall. intros [k' d'] Hin'. simpl.
        apply (Hcap i j k' d'); [by apply Hkd|]. by rewrite Hnum.
      + exists d. split; [done|]. exists k. split; [by apply Hkd|].
        intros k' d' Hin'. apply (Hmax (k', d')). by apply Hkd.
    - exists data. split; [done|]. exists key. split; [done|].
      intros k' d' Hin'. apply Hkd in Hin'. apply Hkd in He.
      destruct kd as [|it1 [|it2 kd]]; [by apply elem_of_nil in He| |simpl in Hge; lia].
      apply list_elem_of_singleton in He, Hin'. simplify_eq. apply Qle_refl. }
  eexists. split; [done|]. split_and!; simpl.
  - intros u v. rewrite elem_of_union, elem_of_singleton, Hpares.
    setoid_rewrite elem_of_app. setoid_rewrite list_elem_of_singleton.
    split.
    + intros [(k' & d' & Hpre)|[= -> ->]]; eauto.
    + intros (k' & d' & [Hpre|[= -> -> -> ->]]); eauto.
  - intros u v. rewrite dg_edge_data_add_edge, elem_of_union, elem_of_singleton.
    destruct (decide ((u, v) = (i, j))); [by right|]. intros H. left. by apply Hdata.
  - intros u v [Hold|[= -> ->]%elem_of_singleton]%elem_of_union.
    + destruct (Hsel u v Hold) as (k' & d' & Hin' & Hd' & Hmax').
      exists k', d'. split_and!; [done| |done].
      rewrite dg_edge_data_add_edge. rewrite decide_False; [done|].
      intros [= -> ->]. done.
    + exists k, d. split_and!; [done| |done].
      rewrite dg_edge_data_add_edge, decide_True by done.
      destruct (dg_edge_data g i j) as [d0|] eqn:Hd0.
      * exfalso. apply Hnin, Hdata. by rewrite Hd0.
      * simpl. unfold dict_update. by rewrite (right_id_L ∅ (∪)).
Qed.

Lemma simplificar_paso_ok (mg : MultiDiGraph) pre e post st :
  mg_wf mg →
  capacidades_validas mg →
  mg_edges mg = pre ++ e :: post →
  simplificar_inv mg pre st →
  ∃ st', simplificar_paso mg st e = Ok st' ∧ simplificar_inv mg (pre ++ [e]) st'.
Proof.
  intros Hwf Hcap. apply simplificar_paso_paralelas; [done|].
  intros i j k d Hin _. unfold capacidades_validas in Hcap.
  rewrite Forall_forall in Hcap. by apply (Hcap (i, j, k, d)).
Qed.

(** The simplification succeeds as soon as the capacities of the parallel
    edges, the only ones it compares, are above the starting value. *)
Lemma simplificar_paralelas_ok (mg : MultiDiGraph) :
  mg_wf mg →
  (∀ i j k d, (i, j, k, d) ∈ mg_edges mg → (1 < mg_number_of_edges mg i j)%nat →
              (-1 < get_capacity d)%Q) →
  ∃ g, _simplificar_a_digraph mg = Ok g ∧ dg_ok g ∧
       (∀ u v, is_Some (dg_edge_data g u v) ↔ ∃ k d, (u, v, k, d) ∈ mg_edges mg) ∧
       (∀ u v, is_Some (dg_edge_data g u v) → arista_elegida mg g u v).
Proof.
  intros Hwf Hcap. unfold _simplificar_a_digraph.
  set (g0 := fold_left _ (mg_node mg) (mkDi [] [])).
  destruct (for_each_total_inv (simplificar_inv mg) (simplificar_paso mg)
              (mg_edges mg) (g0, ∅)) as ([g pares] & Hfe & Hp & Hd & Hs).
  - split_and!; simpl.
    + intros u v. split; [set_solver|]. intros (k & d & []%elem_of_nil).
    + intros u v. unfold g0. rewrite dg_edge_data_nodos. by intros [? [=]].
    + set_solver.
  - intros pre e post st Hsplit Hinv. by eapply simplificar_paso_paralelas.
  - simpl in *. exists g. rewrite Hfe. simpl. split; [done|].
    assert (Hiff : ∀ u v, is_Some (dg_edge_data g u v)
                          ↔ ∃ k d, (u, v, k, d) ∈ mg_edges mg).
    { intros u v. split; [intros H%Hd; by apply Hp|].
      intros H%Hp. destruct (Hs u v H) as (k & d & _ & -> & _). eauto. }
    split_and!; [|done|].
    + apply (simplificar_dg_ok mg). unfold _simplificar_a_digraph. fold g0.
      by rewrite Hfe.
    + intros u v H. by apply Hs, Hd.
Qed.

Lemma simplificar_ok (mg : MultiDiGraph) :
  mg_wf mg →
  capacidades_validas mg →
  ∃ g, _simplificar_a_digraph mg = Ok g ∧ dg_ok g ∧
       (∀ u v, is_Some (dg_edge_data g u v) ↔ ∃ k d, (u, v, k, d) ∈ mg_edges mg) ∧
       (∀ u v, is_Some (dg_edge_data g u v) → arista_elegida mg g u v).
Proof.
  intros Hwf Hcap. apply simplificar_paralelas_ok; [done|].
  intros i j k d Hin _. unfold capacidades_validas in Hcap.
  rewrite Forall_forall in Hcap. by apply (Hcap (i, j, k, d)).
Qed.

(** C4. On a multigraph whose capacities are all above the sentinel the search
    starts from (as they are when they are positive), the simplification returns
    a digraph that has exactly one edge from [u] to [v] for every pair with an
    edge in the input, carrying the attributes of a parallel edge of largest
    capacity; and it has no other edge. *)
Theorem simplificar_arista_de_mayor_capacidad (mg : MultiDiGraph) :
  mg_wf mg →
  capacidades_validas mg →
  ∃ g,
    _simplificar_a_digraph mg = Ok g ∧
    (∀ u v, (∃ k d, (u, v, k, d) ∈ mg_edges mg) →
       filter (λ e, e = (u, v)) (dg_edges g) = [(u, v)] ∧
       ∃ k d, (u, v, k, d) ∈ mg_edges mg ∧ dg_edge_data g u v = Some d ∧
              ∀ k' d', (u, v, k', d') ∈ mg_edges mg →
                       (get_capacity d' <= get_capacity d)%Q) ∧
    (∀ u v, (u, v) ∈ dg_edges g → ∃ k d, (u, v, k, d) ∈ mg_edges mg).
Proof.
  intros Hwf Hcap.
  destruct (simplificar_ok mg Hwf Hcap) as (g & Hg & Hok & Hiff & Hsel).
  exists g. split_and!; [done| |].
  - intros u v Hex. apply Hiff in Hex. split; [|by apply Hsel].
    apply (filter_unico id).
    + rewrite list_fmap_id. by apply NoDup_dg_edges.
    + destruct Hex as [d Hd]. by eapply dg_edge_data_elem.
  - intros u v Hin. apply Hiff. by apply elem_dg_edge_data.
Qed.

Lemma ej_multigrafo_wf : mg_wf ej_multigrafo.
Proof. apply (bool_decide_unpack _). vm_compute. exact I. Qed.

Lemma ej_capacidades_validas : capacidades_validas ej_multigrafo.
Proof. apply (bool_decide_unpack _). vm_compute. exact I. Qed.

Lemma simplificar_arista_de_mayor_capacidad_witness :
  mg_wf ej_multigrafo ∧
  capacidades_validas ej_multigrafo ∧
  ∃ g,
    _simplificar_a_digraph ej_multigrafo = Ok g ∧
    (∀ u v, (∃ k d, (u, v, k, d) ∈ mg_edges ej_multigrafo) →
       filter (λ e, e = (u, v)) (dg_edges g) = [(u, v)] ∧
       ∃ k d, (u, v, k, d) ∈ mg_edges ej_multigrafo ∧ dg_edge_data g u v = Some d ∧
              ∀ k' d', (u, v, k', d') ∈ mg_edges ej_multigrafo →
                       (get_capacity d' <= get_capacity d)%Q) ∧
    (∀ u v, (u, v) ∈ dg_edges g → ∃ k d, (u, v, k, d) ∈ mg_edges ej_multigrafo).
Proof.
  split_and!; [exact ej_multigrafo_wf | exact ej_capacidades_validas |].
  exact (simplificar_arista_de_mayor_capacidad ej_multigrafo
           ej_multigrafo_wf ej_capacidades_validas).
Defined.

(** Of the two streets from [0] to [1] the faster one (60 km/h, 1000 m) is
    kept. *)
Example simplificar_ejemplo :
  (g ← _simplificar_a_digraph ej_multigrafo;
   Ok (dg_edges g, dg_edge_data g 0 1))
  = Ok ([(0, 1); (0, 2); (1, 3); (2, 3)], Some (ej_via 1000 60)).
Proof. vm_compute. reflexivity. Qed.

(** ** Copying the nodes *)

(** The nodes are copied in order, each with an empty adjacency row. *)
Lemma copiar_nodos (ns done_n : list (Z * gmap string Q)) :
  NoDup (OD.keys (done_n ++ ns)) →
  fold_left (λ g nd, add_node nd.1 nd.2 g) ns
            (mkDi done_n ((λ nd, (nd.1, [])) <$> done_n))
  = mkDi (done_n ++ ns) ((λ nd, (nd.1, [])) <$> (done_n ++ ns)).
Proof.
  revert done_n. induction ns as [|[n a] ns IH]; intros done_n Hnd; simpl.
  - by rewrite app_nil_r.
  - assert (Hn : n ∉ OD.keys done_n).
    { unfold OD.keys in *. rewrite fmap_app in Hnd. apply NoDup_app in Hnd as (_ & Hd & _).
      intros Hin. apply (Hd n Hin). csimpl. by left. }
    assert (Hn' : n ∉ OD.keys ((λ nd : Z * gmap string Q,
                                  (nd.1, @nil (Z * gmap string Q))) <$> done_n)).
    { unfold OD.keys in *. by rewrite <-list_fmap_compose. }
    unfold add_node at 2. simpl.
    rewrite (proj2 (mem_false _ _) Hn'). rewrite !set_fresh by done.
    unfold dict_update. rewrite (right_id_L ∅ (∪)).
    replace (((λ nd : Z * gmap string Q, (nd.1, [])) <$> done_n) ++ [(n, [])])
      with ((λ nd : Z * gmap string Q, (nd.1, @nil (Z * gmap string Q)))
              <$> (done_n ++ [(n, a)])) by (by rewrite fmap_app).
    rewrite IH by (by rewrite <-app_assoc). by rewrite <-app_assoc.
Qed.

(** ** What [_simplificar_a_digraph] returns is a well-formed digraph *)

Lemma dg_wf_vacio : dg_wf (mkDi [] []).
Proof. split_and!; [apply wf_nil|done|apply Forall_nil_2]. Qed.

Lemma dg_wf_filas_mono (ks ks' : list Z) (adj : list (Z * list (Z * gmap string Q))) :
  (∀ v, v ∈ ks → v ∈ ks') →
  Forall (λ row, OD.wf row.2 ∧ Forall (λ v, v ∈ ks) (OD.keys row.2)) adj →
  Forall (λ row, OD.wf row.2 ∧ Forall (λ v, v ∈ ks') (OD.keys row.2)) adj.
Proof.
  intros Hsub Hadj. eapply Forall_impl; [exact Hadj|].
  intros row [Hwf Hin]. split; [done|].
  eapply Forall_impl; [exact Hin|]. auto.
Qed.

Lemma dg_wf_nuevo_nodo (g : DiGraph) (n : Z) (a : gmap string Q) :
  dg_wf g → n ∉ OD.keys (dg_adj g) →
  dg_wf (mkDi (OD.set n a (dg_node g)) (OD.set n [] (dg_adj g))).
Proof.
  intros (Hn & Hk & Hrows) Hfresh.
  assert (Hfresh' : n ∉ OD.keys (dg_node g)) by (by rewrite <-Hk).
  split_and!; simpl.
  - by apply wf_set.
  - rewrite !keys_set_fresh by done. by rewrite Hk.
  - rewrite (set_fresh n [] (dg_adj g)) by done. apply Forall_app. split.
    + eapply dg_wf_filas_mono; [|exact Hrows].
      intros v Hv. apply elem_keys_set. by right.
    + apply Forall_singleton. simpl. split; [apply wf_nil|apply Forall_nil_2].
Qed.

Lemma dg_wf_con_nodo (g : DiGraph) (n : Z) :
  dg_wf g →
  dg_wf (if OD.mem n (dg_adj g) then g
         else mkDi (OD.set n ∅ (dg_node g)) (OD.set n [] (dg_adj g))) ∧
  n ∈ OD.keys (dg_adj (if OD.mem n (dg_adj g) then g
                       else mkDi (OD.set n ∅ (dg_node g)) (OD.set n [] (dg_adj g)))).
Proof.
  intros Hwf. destruct (OD.mem n (dg_adj g)) eqn:Hmem.
  - split; [done|]. by apply mem_true.
  - apply mem_false in Hmem. split; [by apply dg_wf_nuevo_nodo|].
    simpl. apply elem_keys_set. by left.
Qed.

Lemma dg_wf_add_node (g : DiGraph) (n : Z) (a : gmap string Q) :
  dg_wf g → dg_wf (add_node n a g).
Proof.
  intros Hwf. unfold add_node. destruct (OD.mem n (dg_adj g)) eqn:Hmem.
  - destruct Hwf as (Hn & Hk & Hrows). apply mem_true in Hmem.
    assert (Hin : n ∈ OD.keys (dg_node g)) by (by rewrite <-Hk).
    split_and!; simpl.
    + by apply wf_set.
    + by rewrite keys_set_in.
    + by rewrite keys_set_in.
  - apply mem_false in Hmem. by apply dg_wf_nuevo_nodo.
Qed.

Lemma dg_wf_add_edge (g : DiGraph) (u v : Z) (a : gmap string Q) :
  dg_wf g → dg_wf (add_edge u v a g).
Proof.
  intros Hwf. unfold add_edge.
  destruct (dg_wf_con_nodo g u Hwf) as [Hwf1 Hu1].
  set (g1 := if OD.mem u (dg_adj g) then g else _) in *.
  destruct (dg_wf_con_nodo g1 v Hwf1) as [Hwf2 Hv2].
  assert (Hu2 : u ∈ OD.keys (dg_adj (if OD.mem v (dg_adj g1) then g1
                 else mkDi (OD.set v ∅ (dg_node g1)) (OD.set v [] (dg_adj g1))))).
  { destruct (OD.mem v (dg_adj g1)); [done|]. simpl. apply elem_keys_set. by right. }
  set (g2 := if OD.mem v (dg_adj g1) then g1 else _) in *.
  clearbody g2. clear g1 Hwf1 Hu1 Hwf.
  destruct Hwf2 as (Hn & Hk & Hrows). rewrite Forall_forall in Hrows.
  split_and!; simpl; [done|by rewrite keys_set_in|].
  apply Forall_forall. intros row [->|Hin]%elem_of_set; [|by apply Hrows].
  simpl.
  assert (Hnb : OD.wf (default [] (OD.get u (dg_adj g2))) ∧
                Forall (λ w, w ∈ OD.keys (dg_node g2))
                       (OD.keys (default [] (OD.get u (dg_adj g2))))).
  { destruct (OD.get u (dg_adj g2)) as [nbrs|] eqn:Hget; simpl.
    - apply (Hrows (u, nbrs)). by apply get_Some_elem.
    - split; [apply wf_nil|apply Forall_nil_2]. }
  destruct Hnb as [Hnbwf Hnbin]. split; [by apply wf_set|].
  apply Forall_forall. intros w [->|Hw]%elem_keys_set.
  - by rewrite <-Hk.
  - rewrite Forall_forall in Hnbin. by apply Hnbin.
Qed.

Lemma simplificar_dg_wf (mg : MultiDiGraph) (g : DiGraph) :
  _simplificar_a_digraph mg = Ok g → dg_wf g.
Proof.
  unfold _simplificar_a_digraph. intros (st & Hfe & [= <-])%bind_Ok.
  revert Hfe. apply (for_each_inv (λ st, dg_wf st.1)).
  - intros [g1 pares] [[[i j] key] data] [g2 pares2] _ Hok. simpl in *.
    destruct (decide ((i, j) ∈ pares)); [by intros [= <- <-]|].
    destruct (decide (1 < mg_number_of_edges mg i j)%nat).
    + intros (items & _ & Hbest)%bind_Ok.
      destruct (mejor_arista items).2; [|done].
      injection Hbest as <- <-. by apply dg_wf_add_edge.
    + intros [= <- <-]. by apply dg_wf_add_edge.
  - simpl. generalize dg_wf_vacio. generalize (mkDi [] []).
    induction (mg_node mg) as [|[n a] ns IH]; intros g0 Hg0; simpl; [done|].
    by apply IH, dg_wf_add_node.
Qed.

(** ** Edge data of a multigraph *)

Lemma fold_left_inv {A S : Type} (I : list A → S → Prop) (f : S → A → S)
    (xs : list A) (s : S) :
  I [] s →
  (∀ pre a post s1, xs = pre ++ a :: post → I pre s1 → I (pre ++ [a]) (f s1 a)) →
  I xs (fold_left f xs s).
Proof.
  intros H0 Hstep.
  cut (∀ rest pre s1, xs = pre ++ rest → I pre s1 → I xs (fold_left f rest s1)).
  { intros Hgen. by apply (Hgen xs [] s). }
  induction rest as [|a rest IH]; intros pre s1 Hxs Hpre; simpl.
  - rewrite app_nil_r in Hxs. by subst.
  - apply (IH (pre ++ [a])); [by rewrite <-app_assoc|]. by eapply Hstep.
Qed.

Lemma mg_edge_data_setattr (g : MultiDiGraph) (u v k : Z) name q u' v' k' :
  mg_edge_data (mg_setattr u v k name q g) u' v' k'
  = if decide ((u', v', k') = (u, v, k))
    then <[name := q]> <$> mg_edge_data g u v k
    else mg_edge_data g u' v' k'.
Proof.
  unfold mg_setattr, mg_edge_data.
  destruct (OD.get u (mg_adj g)) as [nbrs|] eqn:Hu; simpl.
  2:{ case_decide; [|done]. simplify_eq. by rewrite Hu. }
  destruct (OD.get v nbrs) as [kd|] eqn:Hv; simpl.
  2:{ case_decide; [|done]. simplify_eq. rewrite Hu. simpl. by rewrite Hv. }
  destruct (OD.get k kd) as [d|] eqn:Hk; simpl.
  2:{ case_decide; [|done]. simplify_eq. rewrite Hu. simpl. rewrite Hv. simpl.
      by rewrite Hk. }
  destruct (decide (u' = u)) as [->|Hu'].
  - rewrite get_set_eq. simpl. destruct (decide (v' = v)) as [->|Hv'].
    + rewrite get_set_eq. simpl. destruct (decide (k' = k)) as [->|Hk'].
      * rewrite get_set_eq. by rewrite decide_True.
      * rewrite get_set_ne by done. rewrite decide_False by congruence.
        rewrite Hu. simpl. by rewrite Hv.
    + rewrite get_set_ne by done. rewrite decide_False by congruence. by rewrite Hu.
  - rewrite get_set_ne by done. by rewrite decide_False by congruence.
Qed.

Lemma mg_edge_data_elem (g : MultiDiGraph) u v k d :
  mg_edge_data g u v k = Some d → (u, v, k, d) ∈ mg_edges g.
Proof.
  unfold mg_edge_data.
  destruct (OD.get u (mg_adj g)) as [nbrs|] eqn:Hu; [|done]. simpl.
  destruct (OD.get v nbrs) as [kd|] eqn:Hv; [|done]. simpl. intros Hk.
  apply elem_of_mg_edges. exists nbrs, kd. split_and!; by apply get_Some_elem.
Qed.

Lemma elem_mg_edge_data (g : MultiDiGraph) u v k d :
  mg_wf g → (u, v, k, d) ∈ mg_edges g → mg_edge_data g u v k = Some d.
Proof.
  intros [Hadj Hrows] (nbrs & kd & Hrow & Hv & Hk)%elem_of_mg_edges.
  rewrite Forall_forall in Hrows. destruct (Hrows _ Hrow) as [Hnbrs Hkds]. simpl in *.
  rewrite Forall_forall in Hkds. specialize (Hkds _ Hv). simpl in Hkds.
  unfold mg_edge_data. rewrite (elem_get u nbrs) by done. simpl.
  rewrite (elem_get v kd) by done. simpl. by apply elem_get.
Qed.

(** The triples [(u, v, key)] of the edges of a well-formed multigraph are
    pairwise distinct. *)
Lemma NoDup_mg_edges_claves (g : MultiDiGraph) : mg_wf g → NoDup (mg_edges g).*1.
Proof.
  intros Hwf. apply NoDup_fmap_2_strong.
  { intros [[[u1 v1] k1] d1] [[[u2 v2] k2] d2] Hin1 Hin2 [= -> -> ->].
    apply (elem_mg_edge_data g) in Hin1, Hin2; [|done..]. congruence. }
  destruct Hwf as [Hadj Hrows]. unfold mg_edges. apply NoDup_bind.
  - intros [u1 n1] [u2 n2] e Hr1 Hr2 Hx1 Hx2.
    apply list_elem_of_bind in Hx1 as ([v1 kd1] & Hx1 & _).
    apply list_elem_of_bind in Hx1 as ([k1 e1] & Hx1%list_elem_of_singleton & _).
    apply list_elem_of_bind in Hx2 as ([v2 kd2] & Hx2 & _).
    apply list_elem_of_bind in Hx2 as ([k2 e2] & Hx2%list_elem_of_singleton & _).
    simplify_eq.
    assert (OD.get u2 (mg_adj g) = Some n1) by (by apply elem_get).
    assert (OD.get u2 (mg_adj g) = Some n2) by (by apply elem_get).
    congruence.
  - intros [u1 nbrs] Hrow. rewrite Forall_forall in Hrows.
    destruct (Hrows _ Hrow) as [Hnbrs Hkds]. simpl in *.
    apply NoDup_bind; [| |by apply NoDup_fmap_fst_wf].
    + intros [v1 kd1] [v2 kd2] e Hv1 Hv2 Hx1 Hx2.
      apply list_elem_of_bind in Hx1 as ([k1 e1] & Hx1%list_elem_of_singleton & _).
      apply list_elem_of_bind in Hx2 as ([k2 e2] & Hx2%list_elem_of_singleton & _).
      simplify_eq.
      assert (OD.get v2 nbrs = Some kd1) by (by apply elem_get).
      assert (OD.get v2 nbrs = Some kd2) by (by apply elem_get).
      congruence.
    + intros [v1 kd1] Hv1. rewrite Forall_forall in Hkds.
      specialize (Hkds _ Hv1). simpl in Hkds.
      apply NoDup_bind; [| |by apply NoDup_fmap_fst_wf].
      * intros [k1 e1] [k2 e2] e _ _ Hx1%list_elem_of_singleton
          Hx2%list_elem_of_singleton.
        by simplify_eq.
      * intros [k1 e1] _. apply NoDup_singleton.
  - by apply NoDup_fmap_fst_wf.
Qed.

Lemma mg_wf_setattr (g : MultiDiGraph) (u v k : Z) name q :
  mg_wf g → mg_wf (mg_setattr u v k name q g).
Proof.
  intros [Hadj Hrows]. unfold mg_setattr.
  destruct (OD.get u (mg_adj g)) as [nbrs|] eqn:Hu; [|done].
  destruct (OD.get v nbrs) as [kd|] eqn:Hv; [|done].
  destruct (OD.get k kd) as [d|] eqn:Hk; [|done].
  rewrite Forall_forall in Hrows.
  destruct (Hrows (u, nbrs)) as [Hnbrs Hkds]; [by apply get_Some_elem|]. simpl in *.
  rewrite Forall_forall in Hkds.
  split; simpl; [by apply wf_set|].
  apply Forall_forall. intros row [->|Hin]%elem_of_set; [|by apply Hrows].
  simpl. split; [by apply wf_set|].
  apply Forall_forall. intros ent [->|Hin]%elem_of_set; [|by apply Hkds].
  simpl. apply wf_set. apply (Hkds (v, kd)). by apply get_Some_elem.
Qed.

(** ** The capacity assignment loop *)

Lemma mg_node_setattr (g : MultiDiGraph) (u v k : Z) name q :
  mg_node (mg_setattr u v k name q g) = mg_node g.
Proof.
  unfold mg_setattr.
  destruct (OD.get u (mg_adj g)) as [nbrs|]; [|done].
  destruct (OD.get v nbrs) as [kd|]; [|done].
  by destruct (OD.get k kd).
Qed.

Lemma capacidad_paso_forma c_min c_max rng0 n g caps u v k d :
  capacidad_paso c_min c_max (g, rng_avanza rng0 n, caps) (u, v, k, d)
  = (mg_setattr u v k "capacity" (capacidad_sorteada c_min c_max rng0 n) g,
     rng_avanza rng0 (S n),
     caps ++ [capacidad_sorteada c_min c_max rng0 n]).
Proof.
  unfold capacidad_paso, random_uniform, random_random, rng_next, rng_avanza. simpl.
  unfold capacidad_sorteada, sorteo. do 2 f_equal. f_equal. lia.
Qed.

Lemma capacidades_paso_inv c_min c_max (g : MultiDiGraph) rng0 pre e post st :
  mg_wf g →
  mg_edges g = pre ++ e :: post →
  capacidades_inv c_min c_max g rng0 pre st →
  capacidades_inv c_min c_max g rng0 (pre ++ [e]) (capacidad_paso c_min c_max st e).
Proof.
  intros Hwf Hsplit (Hrng & Hlen & Hwf' & Hnode & Hsome & Hproc & Hrest).
  destruct st as [[g' rng'] caps]. destruct e as [[[u v] k] d].
  simpl in Hrng, Hlen, Hwf', Hnode, Hsome, Hproc, Hrest. subst rng'.
  rewrite capacidad_paso_forma.
  assert (He : (u, v, k, d) ∈ mg_edges g).
  { rewrite Hsplit. apply elem_of_app. right. by left. }
  assert (Hfresh : (u, v, k) ∉ pre.*1).
  { pose proof (NoDup_mg_edges_claves g Hwf) as Hnd.
    rewrite Hsplit, fmap_app in Hnd. apply NoDup_app in Hnd as (_ & Hd & _).
    intros Hin. apply (Hd _ Hin). csimpl. by left. }
  assert (Hd : mg_edge_data g' u v k = Some d).
  { rewrite Hrest by done. by apply elem_mg_edge_data. }
  split_and!; simpl.
  - by rewrite length_app, Nat.add_1_r.
  - rewrite !length_app. simpl. lia.
  - by apply mg_wf_setattr.
  - by rewrite mg_node_setattr.
  - intros u' v' k'. rewrite mg_edge_data_setattr, <-Hsome.
    case_decide; [|done]. simplify_eq. rewrite Hd. simpl. split; eauto.
  - intros n u' v' k' d' Hn. rewrite mg_edge_data_setattr.
    destruct (decide (n < length pre)%nat) as [Hlt|Hge].
    + rewrite lookup_app_l in Hn by done.
      rewrite decide_False; [by apply Hproc|].
      intros [= -> -> ->]. apply Hfresh. apply list_elem_of_fmap.
      exists (u, v, k, d'). split; [done|]. apply list_elem_of_lookup. eauto.
    + assert (n = length pre) as ->.
      { apply lookup_lt_Some in Hn. rewrite length_app in Hn. simpl in Hn. lia. }
      rewrite lookup_app_r, Nat.sub_diag in Hn by lia. injection Hn as <- <- <- <-.
      rewrite decide_True by done. by rewrite Hd.
  - intros u' v' k'. rewrite fmap_app, not_elem_of_app. csimpl.
    rewrite list_elem_of_singleton. intros [Hpre Hne].
    rewrite mg_edge_data_setattr, decide_False by done. by apply Hrest.
Qed.

Lemma sorteo_rango rng n : (0 <= sorteo rng n)%Q ∧ (sorteo rng n < 1)%Q.
Proof.
  unfold sorteo, Qle, Qlt. cbn [Qnum Qden].
  set (w := (rng_raw rng (rng_pos rng + n) mod 2 ^ 53)%N).
  assert (Hlt : (w < 2 ^ 53)%N) by (by apply N.mod_lt).
  assert (Hp : Z.pos (2 ^ 53) = Z.of_N (2 ^ 53)%N) by reflexivity.
  rewrite Hp. clearbody w. split; lia.
Qed.

(** The outcome of the assignment on a graph with edges, under a seed that is
    accepted. *)
Lemma asignar_capacidades_ok (random_seed : Z → Rng) (c_min c_max : Q)
    (seed : option Z) (s : Store) :
  mg_wf (st_grafo s) →
  semilla_valida seed = true →
  mg_edges (st_grafo s) ≠ [] →
  let rng0 := rng_inicial random_seed seed (st_rng s) in
  ∃ g',
    asignar_capacidades_aleatorias random_seed c_min c_max seed s
    = (Ok g', mkStore g' (rng_avanza rng0 (length (mg_edges (st_grafo s))))) ∧
    mg_wf g' ∧
    mg_node g' = mg_node (st_grafo s) ∧
    (∀ u v k, is_Some (mg_edge_data g' u v k)
              ↔ is_Some (mg_edge_data (st_grafo s) u v k)) ∧
    (∀ n u v k d, mg_edges (st_grafo s) !! n = Some (u, v, k, d) →
       mg_edge_data g' u v k
       = Some (<["capacity" := capacidad_sorteada c_min c_max rng0 n]> d)).
Proof.
  intros Hwf Hseed Hne rng0. unfold asignar_capacidades_aleatorias.
  assert (Hsem : (match seed with
                  | Some sd => (random_seed sd, np_seed_ok sd)
                  | None => (st_rng s, true)
                  end) = (rng0, true)).
  { unfold rng0. destruct seed; simpl in *; by rewrite ?Hseed. }
  rewrite Hsem. simpl.
  assert (Hinv : capacidades_inv c_min c_max (st_grafo s) rng0 (mg_edges (st_grafo s))
                   (fold_left (capacidad_paso c_min c_max) (mg_edges (st_grafo s))
                              (st_grafo s, rng0, []))).
  { apply fold_left_inv.
    - split_and!; simpl; try done.
      unfold rng_avanza. destruct rng0. simpl. f_equal. lia.
    - intros pre e post st Hsplit Hst.
      by apply capacidades_paso_inv with (post := post). }
  destruct (fold_left _ _ _) as [[g' rng'] caps].
  destruct Hinv as (Hrng & Hlen & Hwf' & Hnode & Hsome & Hproc & _).
  simpl in *. subst rng'. exists g'.
  destruct caps as [|c caps].
  - destruct (mg_edges (st_grafo s)); [done|]. simpl in Hlen. lia.
  - done.
Qed.

(** C7 (as the code has it). The assignment never looks at the range: for all
    [c_min] and [c_max], also with [c_min >= c_max] or a bound that is not
    positive, on a graph with at least one edge and under a seed that
    [numpy.random.seed] accepts it returns the graph with every edge carrying a
    capacity [c_min + (c_max - c_min) * t] for some [0 <= t < 1]; the only
    failure is [ValueError], for a seed outside [0, 2^32) or a graph without
    edges, and then no edge has been given a capacity. *)
Theorem asignar_capacidades_sin_validacion (random_seed : Z → Rng) (c_min c_max : Q)
    (seed : option Z) (s : Store) :
  mg_wf (st_grafo s) →
  (semilla_valida seed = true → mg_edges (st_grafo s) ≠ [] →
   ∃ g' rng',
     asignar_capacidades_aleatorias random_seed c_min c_max seed s
     = (Ok g', mkStore g' rng') ∧
     ∀ u v k d', (u, v, k, d') ∈ mg_edges g' →
       ∃ t, (0 <= t)%Q ∧ (t < 1)%Q ∧
            d' !! "capacity" = Some (c_min + (c_max - c_min) * t)%Q) ∧
  (semilla_valida seed = false ∨ mg_edges (st_grafo s) = [] →
   (asignar_capacidades_aleatorias random_seed c_min c_max seed s).1
   = Raise ValueError ∧
   st_grafo (asignar_capacidades_aleatorias random_seed c_min c_max seed s).2
   = st_grafo s).
Proof.
  intros Hwf. split.
  - intros Hseed Hne.
    destruct (asignar_capacidades_ok random_seed c_min c_max seed s Hwf Hseed Hne)
      as (g' & Heq & Hwf' & _ & Hsome & Hproc).
    eexists g', _. split; [exact Heq|].
    intros u v k d' Hin. pose proof (elem_mg_edge_data g' u v k d' Hwf' Hin) as Hd'.
    assert (Hs : is_Some (mg_edge_data (st_grafo s) u v k)).
    { apply Hsome. by rewrite Hd'. }
    destruct Hs as [d Hd]. apply mg_edge_data_elem in Hd.
    apply list_elem_of_lookup in Hd as [n Hn].
    rewrite (Hproc n u v k d Hn) in Hd'. injection Hd' as <-.
    exists (sorteo (rng_inicial random_seed seed (st_rng s)) n).
    destruct (sorteo_rango (rng_inicial random_seed seed (st_rng s)) n) as [H0 H1].
    split_and!; [done..|]. by rewrite lookup_insert_eq.
  - unfold asignar_capacidades_aleatorias. intros [Hseed|Hnil].
    + destruct seed as [sd|]; [|done]. simpl in *. by rewrite Hseed.
    + rewrite Hnil. simpl. by destruct (negb _).
Qed.

Lemma asignar_capacidades_sin_validacion_witness :
  mg_wf ej_multigrafo ∧
  (semilla_valida (Some 42) = true → mg_edges ej_multigrafo ≠ [] →
   ∃ g' rng',
     asignar_capacidades_aleatorias (λ _, rng_seed42) 100 30 (Some 42)
       (mkStore ej_multigrafo rng_seed42)
     = (Ok g', mkStore g' rng') ∧
     ∀ u v k d', (u, v, k, d') ∈ mg_edges g' →
       ∃ t, (0 <= t)%Q ∧ (t < 1)%Q ∧
            d' !! "capacity" = Some (100 + (30 - 100) * t)%Q) ∧
  (semilla_valida (Some 42) = false ∨ mg_edges ej_multigrafo = [] →
   (asignar_capacidades_aleatorias (λ _, rng_seed42) 100 30 (Some 42)
      (mkStore ej_multigrafo rng_seed42)).1
   = Raise ValueError ∧
   st_grafo (asignar_capacidades_aleatorias (λ _, rng_seed42) 100 30 (Some 42)
               (mkStore ej_multigrafo rng_seed42)).2
   = ej_multigrafo).
Proof.
  split; [exact ej_multigrafo_wf|].
  exact (asignar_capacidades_sin_validacion (λ _, rng_seed42) 100 30 (Some 42)
           (mkStore ej_multigrafo rng_seed42) ej_multigrafo_wf).
Defined.

(** With [c_min = 100 >= c_max = 30] the call does not fail: it returns the
    graph, and the edge [0 → 1] (key 0), of capacity 30 before the call, now
    has the capacity of the first draw. *)
Lemma asignar_capacidades_rango_invalido_contraejemplo :
  (30 <= 100)%Q ∧
  ∃ g',
    (asignar_capacidades_aleatorias (λ _, rng_seed42) 100 30 (Some 42)
       (mkStore ej_multigrafo rng_seed42)).1 = Ok g' ∧
    mg_edge_data ej_multigrafo 0 1 0 ≫= (.!! "capacity") = Some 30%Q ∧
    mg_edge_data g' 0 1 0 ≫= (.!! "capacity")
    = Some (100 + (30 - 100) * (5759444582531269 # 9007199254740992))%Q.
Proof.
  split; [by vm_compute|].
  eexists. split_and!; [vm_compute; reflexivity| vm_compute; reflexivity |].
  vm_compute. reflexivity.
Qed.

(** C8 (as the code has it). The assignment draws once per edge [(u, v, key)]
    of the multigraph, in iteration order, not once per ordered pair: after the
    call the generator has advanced by the number of edges, and the [n]-th edge
    carries the capacity of the [n]-th draw, so parallel edges between the same
    pair carry separate draws. *)
Theorem asignar_capacidades_un_sorteo_por_arista (random_seed : Z → Rng)
    (c_min c_max : Q) (seed : option Z) (s : Store) :
  mg_wf (st_grafo s) →
  semilla_valida seed = true →
  mg_edges (st_grafo s) ≠ [] →
  ∃ g',
    asignar_capacidades_aleatorias random_seed c_min c_max seed s
    = (Ok g',
       mkStore g' (rng_avanza (rng_inicial random_seed seed (st_rng s))
                              (length (mg_edges (st_grafo s))))) ∧
    ∀ n u v k d, mg_edges (st_grafo s) !! n = Some (u, v, k, d) →
      mg_edge_data g' u v k
      = Some (<["capacity" :=
                  capacidad_sorteada c_min c_max
                    (rng_inicial random_seed seed (st_rng s)) n]> d).
Proof.
  intros Hwf Hseed Hne.
  destruct (asignar_capacidades_ok random_seed c_min c_max seed s Hwf Hseed Hne)
    as (g' & Heq & _ & _ & _ & Hproc).
  by exists g'.
Qed.

Lemma asignar_capacidades_un_sorteo_por_arista_witness :
  mg_wf ej_multigrafo ∧
  semilla_valida (Some 42) = true ∧
  mg_edges ej_multigrafo ≠ [] ∧
  ∃ g',
    asignar_capacidades_aleatorias (λ _, rng_seed42) 30 100 (Some 42)
      (mkStore ej_multigrafo rng_seed42)
    = (Ok g',
       mkStore g' (rng_avanza (rng_inicial (λ _, rng_seed42) (Some 42) rng_seed42)
                              (length (mg_edges ej_multigrafo)))) ∧
    ∀ n u v k d, mg_edges ej_multigrafo !! n = Some (u, v, k, d) →
      mg_edge_data g' u v k
      = Some (<["capacity" :=
                  capacidad_sorteada 30 100
                    (rng_inicial (λ _, rng_seed42) (Some 42) rng_seed42) n]> d).
Proof.
  assert (H2 : semilla_valida (Some 42) = true) by reflexivity.
  assert (H3 : mg_edges ej_multigrafo ≠ []) by (vm_compute; discriminate).
  split_and!; [exact ej_multigrafo_wf | exact H2 | exact H3 |].
  exact (asignar_capacidades_un_sorteo_por_arista (λ _, rng_seed42) 30 100 (Some 42)
           (mkStore ej_multigrafo rng_seed42) ej_multigrafo_wf H2 H3).
Defined.

(** The two parallel streets from [0] to [1] end up with different
    capacities: each got its own draw. *)
Lemma asignar_capacidades_paralelas_contraejemplo :
  ∃ g' a b,
    (asignar_capacidades_aleatorias (λ _, rng_seed42) 30 100 (Some 42)
       (mkStore ej_multigrafo rng_seed42)).1 = Ok g' ∧
    mg_edge_data g' 0 1 0 ≫= (.!! "capacity") = Some a ∧
    mg_edge_data g' 0 1 1 ≫= (.!! "capacity") = Some b ∧
    ¬ (a == b)%Q.
Proof.
  eexists _, _, _. split_and!; [vm_compute; reflexivity..|].
  intros H. vm_compute in H. discriminate H.
Qed.

(** ** Sampling without replacement *)

Lemma randbelow_lt (n : nat) (rng : Rng) : (0 < n)%nat → ((randbelow n rng).1 < n)%nat.
Proof.
  intros Hn. unfold randbelow, rng_next. simpl.
  pose proof (N.mod_lt (rng_raw rng (rng_pos rng)) (N.of_nat n)) as Hlt. lia.
Qed.

(** Taking slot [j] out of the [m] eligible slots and moving the last of them
    into its place leaves the other [m - 1] eligible. *)
Lemma tomar_de_la_urna (pool : list Z) (j m : nat) x y :
  (j < m)%nat → (m ≤ length pool)%nat →
  pool !! j = Some x → pool !! (m - 1)%nat = Some y →
  take m pool ≡ₚ x :: take (m - 1) (<[j := y]> pool).
Proof.
  intros Hj Hm Hx Hy.
  assert (Htake : take m pool = take (m - 1) pool ++ [y]).
  { replace m with (S (m - 1)) at 1 by lia. by apply take_S_r. }
  rewrite Htake.
  destruct (decide (j = m - 1)%nat) as [->|Hne].
  - assert (x = y) as -> by congruence.
    rewrite take_insert_ge by lia. by rewrite Permutation_app_comm.
  - rewrite take_insert_lt by lia.
    assert (Hxj : take (m - 1) pool !! j = Some x).
    { rewrite lookup_take_lt by lia. done. }
    revert Hxj. generalize (take (m - 1) pool) as l. clear.
    intros l. revert j. induction l as [|a l IH]; intros [|j] Hxj; simplify_eq/=.
    + by rewrite Permutation_app_comm.
    + rewrite (IH j Hxj). apply Permutation_swap.
Qed.

Lemma sample_pool_ok (k m : nat) (pool : list Z) (rng : Rng) :
  (k ≤ m)%nat → (m ≤ length pool)%nat →
  ∃ res rng' resto,
    sample_pool k m pool rng = (Ok res, rng') ∧
    length res = k ∧
    res ++ resto ≡ₚ take m pool.
Proof.
  revert m pool rng. induction k as [|k IH]; intros m pool rng Hk Hm.
  - exists [], rng, (take m pool). by split_and!.
  - change (sample_pool (S k) m pool rng)
      with (let '(j, rng1) := randbelow m rng in
            match pool !! j, pool !! (m - 1)%nat with
            | Some x, Some y =>
                let '(r, rng2) := sample_pool k (m - 1) (<[j := y]> pool) rng1 in
                ((x ::.) <$> r, rng2)
            | _, _ => (Raise IndexError, rng1)
            end).
    pose proof (randbelow_lt m rng) as Hj.
    destruct (randbelow m rng) as [j rng1]. simpl in Hj. specialize (Hj ltac:(lia)).
    destruct (lookup_lt_is_Some_2 pool j) as [x Hx]; [lia|].
    destruct (lookup_lt_is_Some_2 pool (m - 1)) as [y Hy]; [lia|].
    rewrite Hx, Hy.
    destruct (IH (m - 1)%nat (<[j := y]> pool) rng1) as (res & rng' & resto & -> & Hlen & Hperm).
    { lia. }
    { rewrite length_insert. lia. }
    exists (x :: res), rng', resto. split_and!; [done|by simpl; rewrite Hlen|].
    simpl. rewrite Hperm. symmetry. by apply tomar_de_la_urna.
Qed.

(** *** The set of selected indices *)

Lemma ceil_log4_spec (x : nat) :
  (1 < x)%nat → (4 ^ (ceil_log4 x - 1) < x ≤ 4 ^ ceil_log4 x)%nat.
Proof.
  intros Hx. unfold ceil_log4.
  pose proof (Z.log2_up_spec (Z.of_nat x) ltac:(lia)) as [Hlo Hhi].
  pose proof (Z.log2_up_pos (Z.of_nat x) ltac:(lia)) as Hpos.
  set (l := Z.log2_up (Z.of_nat x)) in *.
  set (e := ((l + 1) / 2)%Z).
  assert (He : (l ≤ 2 * e ≤ l + 1)%Z).
  { unfold e. pose proof (Z.div_mod (l + 1) 2 ltac:(lia)).
    pose proof (Z.mod_pos_bound (l + 1) 2 ltac:(lia)). lia. }
  assert (H4 : ∀ n : nat, Z.of_nat (4 ^ n) = (2 ^ (2 * Z.of_nat n))%Z).
  { intros n. rewrite Nat2Z.inj_pow, Z.pow_mul_r by lia. done. }
  split.
  - apply Nat2Z.inj_lt. rewrite H4.
    eapply Z.le_lt_trans; [|exact Hlo].
    apply Z.pow_le_mono_r; lia.
  - apply Nat2Z.inj_le. rewrite H4.
    etrans; [exact Hhi|]. apply Z.pow_le_mono_r; lia.
Qed.

Lemma setsize_ge (k : nat) : (21 ≤ setsize k)%nat.
Proof. unfold setsize. case_decide; lia. Qed.

Lemma sample_redraw_ok (n : nat) :
  (0 < n)%nat →
  ∀ F fuel selected j rng,
    (F ≤ fuel)%nat → (j < n)%nat →
    (1 ≤ valores_nuevos selected (j :: sorteos n F rng))%nat →
    ∃ j' rng' F',
      sample_redraw fuel n selected j rng = Some (j', rng') ∧
      (j' ∉ selected) ∧ (j' < n)%nat ∧ (F' ≤ F)%nat ∧
      valores_nuevos selected (j :: sorteos n F rng)
      = S (valores_nuevos (selected ∪ {[ j' ]}) (sorteos n F' rng')).
Proof.
  intros Hn. induction F as [|F IH]; intros fuel selected j rng Hfuel Hj Hnuevos.
  - simpl in Hnuevos. destruct (decide (j ∈ selected)) as [Hin|Hnin]; [lia|].
    exists j, rng, 0%nat. simpl. rewrite decide_False by done.
    split_and!; [|done..]. destruct fuel; simpl; by rewrite decide_False.
  - destruct (decide (j ∈ selected)) as [Hin|Hnin].
    + destruct fuel as [|fuel]; [lia|].
      cbn [sample_redraw]. rewrite decide_True by done.
      cbn [valores_nuevos sorteos] in Hnuevos |- *.
      rewrite decide_True in Hnuevos |- * by done.
      pose proof (randbelow_lt n rng Hn) as Hlt.
      destruct (randbelow n rng) as [j1 rng1]. simpl in Hlt.
      destruct (IH fuel selected j1 rng1) as (j' & rng' & F' & Hr & ? & ? & ? & Hv);
        [lia|done|done|].
      exists j', rng', F'. split_and!; [done|done|done|lia|done].
    + exists j, rng, (S F). cbn [valores_nuevos]. rewrite decide_False by done.
      split_and!; [|done..]. destruct fuel; simpl; by rewrite decide_False.
Qed.

Lemma sample_set_ok (fuel : nat) (population : list Z) :
  (0 < length population)%nat →
  ∀ k F selected rng,
    (F ≤ S fuel)%nat →
    (k ≤ valores_nuevos selected (sorteos (length population) F rng))%nat →
    ∃ res rng' js,
      sample_set fuel k (length population) population selected rng
      = Some (Ok res, rng') ∧
      length res = k ∧ NoDup js ∧ (∀ j, j ∈ js → j ∉ selected) ∧
      Forall2 (λ x j, population !! j = Some x) res js.
Proof.
  intros Hn. set (n := length population) in *.
  induction k as [|k IH]; intros F selected rng HF Hnuevos.
  - exists [], rng, []. split_and!; [done|done|apply NoDup_nil_2| |done].
    by intros j []%elem_of_nil.
  - destruct F as [|F]; [simpl in Hnuevos; lia|].
    cbn [sorteos] in Hnuevos. cbn [sample_set].
    pose proof (randbelow_lt n rng Hn) as Hlt.
    destruct (randbelow n rng) as [j0 rng0]. simpl in Hlt.
    destruct (sample_redraw_ok n Hn F fuel selected j0 rng0)
      as (j & rng1 & F' & -> & Hj & Hjn & HF' & Hv); [lia|done|lia|].
    destruct (lookup_lt_is_Some_2 population j Hjn) as [x Hx]. rewrite Hx.
    destruct (IH F' (selected ∪ {[ j ]}) rng1) as (res & rng2 & js & -> & Hl & Hnd & Hsel & Hres);
      [lia|lia|].
    exists (x :: res), rng2, (j :: js). simpl. split_and!; [done|by rewrite Hl| | |].
    + apply NoDup_cons. split; [|done]. intros Hin. apply (Hsel j Hin). set_solver.
    + intros j' [->|Hin]%elem_of_cons; [done|].
      specialize (Hsel j' Hin). set_solver.
    + by apply Forall2_cons.
Qed.

(** The values taken at indices without repetition out of a list. *)
Lemma tomados_por_indice (population res : list Z) (js : list nat) :
  Forall2 (λ x j, population !! j = Some x) res js →
  (∀ x, x ∈ res → x ∈ population) ∧
  (NoDup js → NoDup population → NoDup res).
Proof.
  intros H. split.
  - intros x Hx. apply list_elem_of_lookup in Hx as [a Ha].
    destruct (Forall2_lookup_l _ _ _ _ _ H Ha) as (j & _ & Hj).
    by eapply list_elem_of_lookup_2.
  - intros Hjs Hpop. apply NoDup_alt. intros a b x Ha Hb.
    destruct (Forall2_lookup_l _ _ _ _ _ H Ha) as (ja & Hja & Hpa).
    destruct (Forall2_lookup_l _ _ _ _ _ H Hb) as (jb & Hjb & Hpb).
    assert (ja = jb) as -> by exact (NoDup_lookup population ja jb x Hpop Hpa Hpb).
    exact (NoDup_lookup js a b jb Hjs Hja Hjb).
Qed.

(** The sample, when it returns: [k] elements of the population, without
    repetition when the population has none. *)
Lemma random_sample_ok (fuel : nat) (population : list Z) (k : nat) (rng : Rng) :
  (k ≤ length population)%nat →
  muestra_termina fuel (length population) k rng →
  ∃ res rng',
    random_sample fuel population k rng = Some (Ok res, rng') ∧
    length res = k ∧
    (∀ x, x ∈ res → x ∈ population) ∧
    (NoDup population → NoDup res).
Proof.
  intros Hk Hter. unfold random_sample. rewrite decide_True by done.
  destruct (decide (length population ≤ setsize k)%nat) as [Hpool|Hset].
  - destruct (sample_pool_ok k (length population) population rng Hk (le_n _))
      as (res & rng' & resto & Heq & Hlen & Hperm).
    rewrite firstn_all in Hperm.
    exists res, rng'. rewrite Heq. split_and!; [done..| |].
    + intros x Hx. rewrite <-Hperm. apply elem_of_app. by left.
    + intros Hnd. rewrite <-Hperm in Hnd. by apply NoDup_app in Hnd as (? & _).
  - destruct Hter as [?|Hnuevos]; [done|].
    pose proof (setsize_ge k).
    destruct (sample_set_ok fuel population ltac:(lia) k (S fuel) ∅ rng)
      as (res & rng' & js & Heq & Hlen & Hnd & _ & Hres); [lia|done|].
    destruct (tomados_por_indice population res js Hres) as [Hin Hnodup].
    exists res, rng'. split_and!; [done..|]. by apply Hnodup.
Qed.

(** Out of 22 elements the set of selected indices is used: the values 15, 8
    and 21 are the indices returned (the pool would have moved the last
    elements into the positions 15 and 8 and reduced the third value). *)
Example random_sample_ejemplo :
  random_sample 0 (seqZ 0 22) 3 (rng_de [15; 8; 21]%N)
  = Some (Ok [15; 8; 21], rng_avanza (rng_de [15; 8; 21]%N) 3).
Proof. vm_compute. reflexivity. Qed.

(** A repeated value is drawn again: 15, 15, 8 gives the indices 15 and 8 and
    uses three values; with no redraw allowed the bound is reached. *)
Example random_sample_repetidos :
  random_sample 1 (seqZ 0 22) 2 sorteos_repetidos
  = Some (Ok [15; 8], rng_avanza sorteos_repetidos 3) ∧
  random_sample 0 (seqZ 0 22) 2 sorteos_repetidos = None.
Proof. split; vm_compute; reflexivity. Qed.

(** ** Binding emergencies to nodes *)

Lemma asignar_zip_ok (g : MultiDiGraph) (ems : list EmergenciaBase) (sel : list Z) :
  length sel = length ems →
  Forall (λ n, ∃ a, OD.get n (mg_node g) = Some a ∧
                    is_Some (a !! "y") ∧ is_Some (a !! "x")) sel →
  ∃ res, asignar_zip g ems sel = Ok res ∧
         nodo_destino <$> res = sel ∧
         em_id <$> res = eb_id <$> ems ∧
         severidad <$> res = eb_severidad <$> ems ∧
         velocidad_requerida <$> res = eb_velocidad_requerida <$> ems.
Proof.
  revert sel. induction ems as [|e ems IH]; intros [|n sel] Hlen Hsel; simplify_eq/=.
  - by exists [].
  - apply Forall_cons in Hsel as [(a & Ha & [y Hy] & [x' Hx']) Hsel].
    destruct (IH sel) as (res & Hres & Hd & Hi & Hs & Hv); [done..|].
    unfold emergencia_completa. rewrite Ha. simpl. rewrite Hy. simpl. rewrite Hx'. simpl.
    rewrite Hres. simpl. eexists. split; [done|]. csimpl.
    by rewrite Hd, Hi, Hs, Hv.
Qed.

Lemma filtrar_nodos_internos_sub (g : MultiDiGraph) (a b : nat) :
  filtrar_nodos_internos g a b ⊆ mg_nodes g ∧
  (NoDup (mg_nodes g) → NoDup (filtrar_nodos_internos g a b)).
Proof.
  unfold filtrar_nodos_internos. split.
  - intros n Hn. by apply list_elem_of_filter in Hn as [_ ?].
  - apply NoDup_filter.
Qed.

(** The binding reduced to the pairing of the emergencies with the sample. *)
Lemma asignar_emergencias_muestra (fuel : nat) (random_seed : Z → Rng)
    (g : MultiDiGraph) (ems : list EmergenciaBase) (seed : option Z) (rng : Rng) :
  OD.wf (mg_node g) →
  mg_nodes g ≠ [] →
  (length ems ≤ length (mg_nodes g))%nat →
  muestra_termina fuel (length (candidatos g ems)) (length ems)
                  (rng_inicial random_seed seed rng) →
  ∃ sel rng',
    asignar_emergencias_a_nodos fuel random_seed g ems seed rng
    = Some (asignar_zip g ems sel, rng') ∧
    length sel = length ems ∧ NoDup sel ∧ (∀ n, n ∈ sel → n ∈ candidatos g ems) ∧
    candidatos g ems ⊆ mg_nodes g.
Proof.
  intros Hwf Hne Hlen Hter. unfold asignar_emergencias_a_nodos.
  change (match seed with Some sd => random_seed sd | None => rng end)
    with (rng_inicial random_seed seed rng).
  set (rng0 := rng_inicial random_seed seed rng) in *.
  set (internos := filtrar_nodos_internos g 3 3).
  assert (Hdiv : ∃ q, py_div (Z.of_nat (length internos) # 1)
                             (Z.of_nat (length (mg_nodes g)) # 1) = Ok q).
  { unfold py_div. destruct (Qeq_bool _ 0) eqn:Hz; [|eauto].
    apply Qeq_bool_iff in Hz. unfold Qeq in Hz. simpl in Hz.
    destruct (mg_nodes g); [done|]. simpl in Hz. lia. }
  destruct Hdiv as [q ->].
  change (if decide (length internos < length ems)%nat then mg_nodes g else internos)
    with (candidatos g ems).
  destruct (filtrar_nodos_internos_sub g 3 3) as [Hsub Hndi]. fold internos in Hsub, Hndi.
  assert (Husar : (length ems ≤ length (candidatos g ems))%nat ∧
                  NoDup (candidatos g ems) ∧ candidatos g ems ⊆ mg_nodes g).
  { unfold candidatos. fold internos.
    case_decide; split_and!; try done; [lia | by apply Hndi]. }
  destruct Husar as (Hk & Hnd & Hsubu).
  destruct (random_sample_ok fuel (candidatos g ems) (length ems) rng0 Hk Hter)
    as (sel & rng1 & -> & Hlsel & Hin & Hndsel).
  exists sel, rng1. split_and!; [done|done|by apply Hndsel|done|done].
Qed.

(** C5 (as the code has it). On a graph with nodes, at least as many as there
    are emergencies, whose nodes carry their coordinates, and with a generator
    on which the sample returns, the binding returns one emergency per input
    emergency, in order, with destinations that are pairwise distinct nodes of
    the graph, and interior nodes when there are enough of them.  Nothing
    keeps the origin out: the function does not receive it. *)
Theorem asignar_emergencias_destinos_distintos (fuel : nat) (random_seed : Z → Rng)
    (g : MultiDiGraph) (ems : list EmergenciaBase) (seed : option Z) (rng : Rng) :
  OD.wf (mg_node g) →
  mg_nodes g ≠ [] →
  (length ems ≤ length (mg_nodes g))%nat →
  nodos_con_coordenadas g →
  muestra_termina fuel (length (candidatos g ems)) (length ems)
                  (rng_inicial random_seed seed rng) →
  ∃ res rng',
    asignar_emergencias_a_nodos fuel random_seed g ems seed rng
    = Some (Ok res, rng') ∧
    em_id <$> res = eb_id <$> ems ∧
    NoDup (nodo_destino <$> res) ∧
    (∀ n, n ∈ nodo_destino <$> res → n ∈ mg_nodes g) ∧
    ((length ems ≤ length (filtrar_nodos_internos g 3 3))%nat →
     ∀ n, n ∈ nodo_destino <$> res → n ∈ filtrar_nodos_internos g 3 3).
Proof.
  intros Hwf Hne Hlen Hcoord Hter.
  destruct (asignar_emergencias_muestra fuel random_seed g ems seed rng
              Hwf Hne Hlen Hter)
    as (sel & rng1 & -> & Hlsel & Hndsel & Hin & Hsubu).
  destruct (asignar_zip_ok g ems sel) as (res & Hres & Hd & Hi & _); [done| |].
  { apply Forall_forall. intros n Hn.
    specialize (Hsubu n (Hin n Hn)). apply get_is_Some in Hsubu as [a Ha].
    exists a. split; [done|].
    unfold nodos_con_coordenadas in Hcoord. rewrite Forall_forall in Hcoord.
    apply (Hcoord (n, a)). by apply get_Some_elem. }
  exists res, rng1. rewrite Hres, Hd.
  split_and!; [done..| |].
  - intros n Hn. by apply Hsubu, Hin.
  - intros Hint n Hn. specialize (Hin n Hn). unfold candidatos in Hin.
    rewrite decide_False in Hin by lia. done.
Qed.

Lemma ej_dos_nodos_coordenadas : nodos_con_coordenadas ej_dos_nodos.
Proof. apply (bool_decide_unpack _). vm_compute. exact I. Qed.

Lemma ej_dos_nodos_wf : OD.wf (mg_node ej_dos_nodos).
Proof. apply (bool_decide_unpack _). vm_compute. exact I. Qed.

Lemma ej_veintidos_coordenadas : nodos_con_coordenadas ej_veintidos.
Proof. apply (bool_decide_unpack _). vm_compute. exact I. Qed.

Lemma ej_veintidos_wf : OD.wf (mg_node ej_veintidos).
Proof. apply (bool_decide_unpack _). vm_compute. exact I. Qed.

Lemma ej_veintidos_termina :
  muestra_termina 1 (length (candidatos ej_veintidos ej_emergencias_base))
                  (length ej_emergencias_base)
                  (rng_inicial (λ _, sorteos_seed42_veintidos) (Some 42)
                               sorteos_seed42_veintidos).
Proof. right. vm_compute. lia. Qed.

Lemma asignar_emergencias_destinos_distintos_witness :
  OD.wf (mg_node ej_veintidos) ∧
  mg_nodes ej_veintidos ≠ [] ∧
  (length ej_emergencias_base ≤ length (mg_nodes ej_veintidos))%nat ∧
  nodos_con_coordenadas ej_veintidos ∧
  muestra_termina 1 (length (candidatos ej_veintidos ej_emergencias_base))
                  (length ej_emergencias_base)
                  (rng_inicial (λ _, sorteos_seed42_veintidos) (Some 42)
                               sorteos_seed42_veintidos) ∧
  ∃ res rng',
    asignar_emergencias_a_nodos 1 (λ _, sorteos_seed42_veintidos) ej_veintidos
      ej_emergencias_base (Some 42) sorteos_seed42_veintidos = Some (Ok res, rng') ∧
    em_id <$> res = eb_id <$> ej_emergencias_base ∧
    NoDup (nodo_destino <$> res) ∧
    (∀ n, n ∈ nodo_destino <$> res → n ∈ mg_nodes ej_veintidos) ∧
    ((length ej_emergencias_base ≤ length (filtrar_nodos_internos ej_veintidos 3 3))%nat →
     ∀ n, n ∈ nodo_destino <$> res → n ∈ filtrar_nodos_internos ej_veintidos 3 3).
Proof.
  assert (H2 : mg_nodes ej_veintidos ≠ []) by (vm_compute; discriminate).
  assert (H3 : (length ej_emergencias_base ≤ length (mg_nodes ej_veintidos))%nat)
    by (vm_compute; lia).
  split_and!; [exact ej_veintidos_wf | exact H2 | exact H3
               | exact ej_veintidos_coordenadas | exact ej_veintidos_termina |].
  exact (asignar_emergencias_destinos_distintos 1 (λ _, sorteos_seed42_veintidos)
           ej_veintidos ej_emergencias_base (Some 42) sorteos_seed42_veintidos
           ej_veintidos_wf H2 H3 ej_veintidos_coordenadas ej_veintidos_termina).
Defined.

(** Out of the 22 nodes the two emergencies are sent to the nodes 20 and 3. *)
Example asignar_emergencias_veintidos_ejemplo :
  ∃ res rng',
    asignar_emergencias_a_nodos 1 (λ _, sorteos_seed42_veintidos) ej_veintidos
      ej_emergencias_base (Some 42) sorteos_seed42_veintidos = Some (Ok res, rng') ∧
    nodo_destino <$> res = [20; 3].
Proof. eexists _, _. split; [vm_compute; reflexivity|]. vm_compute. reflexivity. Qed.

(** With two nodes and two emergencies both nodes become destinations:
    whichever node is the origin, one emergency is sent to it. *)
Lemma asignar_emergencias_origen_contraejemplo :
  mg_nodes ej_dos_nodos = [0; 1] ∧
  ∃ res rng',
    asignar_emergencias_a_nodos 0 (λ _, sorteos_seed42_dos) ej_dos_nodos
      ej_emergencias_base (Some 42) sorteos_seed42_dos = Some (Ok res, rng') ∧
    nodo_destino <$> res = [0; 1] ∧
    ∀ origen, origen ∈ mg_nodes ej_dos_nodos → origen ∈ nodo_destino <$> res.
Proof.
  split; [reflexivity|].
  eexists _, _. split_and!; [vm_compute; reflexivity | vm_compute; reflexivity |].
  intros origen Hin. vm_compute in Hin |- *. done.
Qed.

(** ** Travel times *)

Lemma py_div_Ok (a b : Q) : ¬ (b == 0)%Q → py_div a b = Ok (a / b)%Q.
Proof.
  intros Hb. unfold py_div. destruct (Qeq_bool b 0) eqn:Hz; [|done].
  by apply Qeq_bool_iff in Hz.
Qed.

Lemma py_div_Raise (a b : Q) : (b == 0)%Q → py_div a b = Raise ZeroDivisionError.
Proof.
  intros Hb. unfold py_div. apply Qeq_bool_iff in Hb. by rewrite Hb.
Qed.

Lemma velocidad_m_min_nula (c : Q) : (c * 1000 / 60 == 0)%Q ↔ (c == 0)%Q.
Proof.
  split; intros H.
  - assert (Hc : (c == c * 1000 / 60 * (60 / 1000))%Q) by (field; done).
    rewrite Hc, H. ring.
  - rewrite H. reflexivity.
Qed.

Lemma tiempos_loop_nula es : ∀ g ts,
  (∃ e, e ∈ es ∧ capacidad_nula e.2) →
  (tiempos_loop es g ts).1 = Raise ZeroDivisionError.
Proof.
  induction es as [|[[[u v] k] d] es IH]; intros g ts [e [Hin Hz]].
  - by apply elem_of_nil in Hin.
  - simpl. destruct (d !! "length") as [l|] eqn:Hl.
    2:{ apply IH. exists e. split; [|done].
        apply elem_of_cons in Hin as [->|]; [|done].
        destruct Hz as [[? Hl'] _]. simpl in Hl'. congruence. }
    destruct (d !! "capacity") as [c|] eqn:Hc.
    2:{ apply IH. exists e. split; [|done].
        apply elem_of_cons in Hin as [->|]; [|done].
        destruct Hz as [_ (? & Hc' & _)]. simpl in Hc'. congruence. }
    destruct (Qeq_dec c 0) as [Hc0|Hc0].
    + rewrite py_div_Raise; [done|]. by apply velocidad_m_min_nula.
    + rewrite py_div_Ok by (by rewrite velocidad_m_min_nula).
      apply IH. exists e. split; [|done].
      apply elem_of_cons in Hin as [->|]; [|done].
      destruct Hz as [_ (c' & Hc' & Hz)]. simpl in Hc'. congruence.
Qed.

Lemma tiempos_loop_ok (g : MultiDiGraph) : mg_wf g →
  ∀ rest pre g1 ts,
    mg_edges g = pre ++ rest →
    tiempos_inv g pre g1 ts →
    (∀ e, e ∈ rest → ¬ capacidad_nula e.2) →
    ∃ g' ts', tiempos_loop rest g1 ts = (Ok ts', g') ∧
              tiempos_inv g (mg_edges g) g' ts'.
Proof.
  intros Hwf. induction rest as [|[[[u v] k] d] rest IH];
    intros pre g1 ts Hsplit Hinv Hnz.
  - rewrite app_nil_r in Hsplit. subst pre. by exists g1, ts.
  - assert (He : (u, v, k, d) ∈ mg_edges g).
    { rewrite Hsplit. apply elem_of_app. right. by left. }
    assert (Hfresh : (u, v, k) ∉ pre.*1).
    { pose proof (NoDup_mg_edges_claves g Hwf) as Hnd.
      rewrite Hsplit, fmap_app in Hnd. apply NoDup_app in Hnd as (_ & Hd & _).
      intros Hin. apply (Hd _ Hin). csimpl. by left. }
    destruct Hinv as (Hwf1 & Hnode & Hsome & Hproc & Hrest & Hts).
    assert (Hd : mg_edge_data g1 u v k = Some d).
    { rewrite Hrest by done. by apply elem_mg_edge_data. }
    assert (Hnz' : ∀ e, e ∈ rest → ¬ capacidad_nula e.2).
    { intros e Hin. apply Hnz. by right. }
    assert (Hsplit' : mg_edges g = (pre ++ [(u, v, k, d)]) ++ rest).
    { by rewrite <-app_assoc. }
    assert (Hotros : ∀ g2, 
              (∀ u' v' k', mg_edge_data g2 u' v' k'
                           = if decide ((u', v', k') = (u, v, k))
                             then Some (con_tiempo d) else mg_edge_data g1 u' v' k') →
              (∀ u' v' k', is_Some (mg_edge_data g2 u' v' k')
                           ↔ is_Some (mg_edge_data g u' v' k')) ∧
              (∀ u' v' k' d', (u', v', k', d') ∈ pre ++ [(u, v, k, d)] →
                 mg_edge_data g2 u' v' k' = Some (con_tiempo d')) ∧
              (∀ u' v' k', (u', v', k') ∉ (pre ++ [(u, v, k, d)]).*1 →
                 mg_edge_data g2 u' v' k' = mg_edge_data g u' v' k')).
    { intros g2 Hg2. split_and!.
      - intros u' v' k'. rewrite Hg2, <-Hsome. case_decide; [|done].
        simplify_eq. rewrite Hd. split; eauto.
      - intros u' v' k' d' [Hin|Hin%list_elem_of_singleton]%elem_of_app; rewrite Hg2.
        + rewrite decide_False; [by apply Hproc|].
          intros [= -> -> ->]. apply Hfresh. apply list_elem_of_fmap.
          by exists (u, v, k, d').
        + injection Hin as -> -> -> ->. by rewrite decide_True.
      - intros u' v' k'. rewrite fmap_app, not_elem_of_app. csimpl.
        rewrite list_elem_of_singleton. intros [Hpre Hne].
        rewrite Hg2, decide_False by done. by apply Hrest. }
    simpl. unfold con_tiempo in Hotros.
    destruct (d !! "length") as [l|] eqn:Hl.
    2:{ apply (IH (pre ++ [(u, v, k, d)])); [done| |done].
        destruct (Hotros g1) as (H1 & H2 & H3).
        { intros u' v' k'. case_decide; [|done]. by simplify_eq. }
        split_and!; try done.
        rewrite Hts. split; intros H e.
        - intros [Hin|Hin%list_elem_of_singleton]%elem_of_app; [by apply H|].
          subst e. simpl. intros [[? Hl'] _]. congruence.
        - intros Hin. apply H. apply elem_of_app. by left. }
    destruct (d !! "capacity") as [c|] eqn:Hc.
    2:{ apply (IH (pre ++ [(u, v, k, d)])); [done| |done].
        destruct (Hotros g1) as (H1 & H2 & H3).
        { intros u' v' k'. case_decide; [|done]. by simplify_eq. }
        split_and!; try done.
        rewrite Hts. split; intros H e.
        - intros [Hin|Hin%list_elem_of_singleton]%elem_of_app; [by apply H|].
          subst e. simpl. intros [_ [? Hc']]. congruence.
        - intros Hin. apply H. apply elem_of_app. by left. }
    assert (Hc0 : ¬ (c == 0)%Q).
    { intros Hc0. apply (Hnz (u, v, k, d)); [by left|].
      split; simpl; [by eauto|]. exists c. by split. }
    rewrite py_div_Ok by (by rewrite velocidad_m_min_nula).
    apply (IH (pre ++ [(u, v, k, d)])); [done| |done].
    destruct (Hotros (mg_setattr u v k "travel_time" (l / (c * 1000 / 60))%Q g1))
      as (H1 & H2 & H3).
    { intros u' v' k'. rewrite mg_edge_data_setattr. case_decide; [|done].
      by rewrite Hd. }
    split_and!; try done.
    + by apply mg_wf_setattr.
    + by rewrite mg_node_setattr.
    + split.
      * intros Happ. by apply app_nil in Happ as [_ ?].
      * intros H. exfalso. apply (H (u, v, k, d)).
        -- apply elem_of_app. right. by left.
        -- split; simpl; eauto.
Qed.

Lemma tiempos_inv_inicial (g : MultiDiGraph) : mg_wf g → tiempos_inv g [] g [].
Proof.
  intros Hwf. split_and!; try done.
  - intros u v k d Hin. by apply elem_of_nil in Hin.
  - split; [|done]. intros _ e Hin. by apply elem_of_nil in Hin.
Qed.

Lemma tiempo_en_minutos (l c : Q) :
  ¬ (c == 0)%Q → (l / (c * 1000 / 60) == l / 1000 / c * 60)%Q.
Proof. intros Hc. field. done. Qed.

#[local] Instance con_datos_dec (d : gmap string Q) : Decision (con_datos d).
Proof. unfold con_datos. apply _. Defined.

#[local] Instance capacidad_nula_dec (d : gmap string Q) : Decision (capacidad_nula d).
Proof.
  unfold capacidad_nula. destruct (d !! "length") as [l|].
  2:{ right. intros [[? ?] _]. done. }
  destruct (d !! "capacity") as [c|].
  2:{ right. intros [_ (? & ? & _)]. done. }
  destruct (Qeq_dec c 0) as [Hc|Hc].
  - left. split; [by eauto|]. by exists c.
  - right. intros [_ (c' & [= <-] & Hc')]. done.
Defined.

Lemma capacidad_nula_con_datos (d : gmap string Q) : capacidad_nula d → con_datos d.
Proof. intros [Hl (c & Hc & _)]. split; [done|by eauto]. Qed.

(** Without a zero capacity the loop runs to its end; the list of times stays
    empty exactly when no edge had both attributes, and then the graph is the
    one the loop started from. *)
Lemma tiempos_loop_fin es : ∀ g ts,
  (∀ e, e ∈ es → ¬ capacidad_nula e.2) →
  ∃ g' ts', tiempos_loop es g ts = (Ok (ts ++ ts'), g') ∧
            (ts' = [] ↔ ∀ e, e ∈ es → ¬ con_datos e.2) ∧
            (ts' = [] → g' = g).
Proof.
  induction es as [|[[[u v] k] d] es IH]; intros g ts Hnz.
  - exists g, []. rewrite app_nil_r. split_and!; try done.
    split; [|done]. intros _ e Hin. by apply elem_of_nil in Hin.
  - assert (Hnz' : ∀ e, e ∈ es → ¬ capacidad_nula e.2).
    { intros e Hin. apply Hnz. by right. }
    assert (Hsin : ¬ con_datos d → ∀ ts' : list Q,
              (ts' = [] ↔ ∀ e, e ∈ es → ¬ con_datos e.2) →
              (ts' = [] ↔ ∀ e, e ∈ (u, v, k, d) :: es → ¬ con_datos e.2)).
    { intros Hd ts' ->. split; intros H e.
      - intros [->|Hin]%elem_of_cons; [done|by apply H].
      - intros Hin. apply H. by right. }
    simpl. destruct (d !! "length") as [l|] eqn:Hl.
    2:{ destruct (IH g ts Hnz') as (g' & ts' & -> & Hts & Hg). exists g', ts'.
        split_and!; [done| |done]. apply (Hsin); [|done..].
        intros [[? Hl'] _]. congruence. }
    destruct (d !! "capacity") as [c|] eqn:Hc.
    2:{ destruct (IH g ts Hnz') as (g' & ts' & -> & Hts & Hg). exists g', ts'.
        split_and!; [done| |done]. apply (Hsin); [|done..].
        intros [_ [? Hc']]. congruence. }
    assert (Hc0 : ¬ (c == 0)%Q).
    { intros Hc0. apply (Hnz (u, v, k, d)); [by left|].
      split; simpl; [by eauto|]. exists c. by split. }
    rewrite py_div_Ok by (by rewrite velocidad_m_min_nula).
    destruct (IH (mg_setattr u v k "travel_time" (l / (c * 1000 / 60))%Q g)
                 (ts ++ [(l / (c * 1000 / 60))%Q]) Hnz') as (g' & ts' & -> & _ & _).
    exists g', ((l / (c * 1000 / 60))%Q :: ts'). rewrite <-app_assoc. simpl.
    split_and!; [done| |done].
    split; [done|]. intros H. exfalso. apply (H (u, v, k, d)); [by left|].
    split; simpl; eauto.
Qed.

(** The outcome on a well-formed graph without zero capacities where some edge
    has both attributes. *)
Lemma calcular_tiempos_viaje_ok (g : MultiDiGraph) :
  mg_wf g →
  (∃ e, e ∈ mg_edges g ∧ con_datos e.2) →
  (∀ e, e ∈ mg_edges g → ¬ capacidad_nula e.2) →
  ∃ g', calcular_tiempos_viaje g = (Ok g', g') ∧
        mg_wf g' ∧
        mg_node g' = mg_node g ∧
        (∀ u v k, is_Some (mg_edge_data g' u v k) ↔ is_Some (mg_edge_data g u v k)) ∧
        (∀ u v k d, (u, v, k, d) ∈ mg_edges g →
           mg_edge_data g' u v k = Some (con_tiempo d)).
Proof.
  intros Hwf (e & He & Hdat) Hnz. unfold calcular_tiempos_viaje.
  destruct (tiempos_loop_ok g Hwf (mg_edges g) [] g [] eq_refl
              (tiempos_inv_inicial g Hwf) Hnz)
    as (g' & ts & -> & Hwf' & Hnode & Hsome & Hproc & _ & Hts).
  destruct ts as [|t ts].
  - exfalso. destruct Hts as [Hts _]. by apply (Hts eq_refl e).
  - by exists g'.
Qed.

(** X1. On a well-formed graph in which at least one edge carries ['length']
    and ['capacity'] and no such edge has capacity zero, the travel times are
    computed without error: an edge with both attributes gets
    ['travel_time'], in minutes, equal to its length in kilometres divided
    by its capacity in km/h, times 60; its other attributes, the edges without
    both attributes and the nodes are left as they were. *)
Theorem calcular_tiempos_viaje_correcto (g : MultiDiGraph) :
  mg_wf g →
  (∃ e, e ∈ mg_edges g ∧ con_datos e.2) →
  (∀ e, e ∈ mg_edges g → ¬ capacidad_nula e.2) →
  ∃ g', calcular_tiempos_viaje g = (Ok g', g') ∧
        mg_node g' = mg_node g ∧
        (∀ u v k, is_Some (mg_edge_data g' u v k) ↔ is_Some (mg_edge_data g u v k)) ∧
        ∀ u v k d, (u, v, k, d) ∈ mg_edges g →
          match d !! "length", d !! "capacity" with
          | Some l, Some c =>
              ∃ t, mg_edge_data g' u v k = Some (<["travel_time" := t]> d) ∧
                   (t == l / 1000 / c * 60)%Q
          | _, _ => mg_edge_data g' u v k = Some d
          end.
Proof.
  intros Hwf Hex Hnz.
  destruct (calcular_tiempos_viaje_ok g Hwf Hex Hnz)
    as (g' & Heq & _ & Hnode & Hsome & Hproc).
  exists g'. split_and!; [done..|].
  intros u v k d Hin. specialize (Hproc u v k d Hin). unfold con_tiempo in Hproc.
  destruct (d !! "length") as [l|] eqn:Hl; [|done].
  destruct (d !! "capacity") as [c|] eqn:Hc; [|done].
  eexists. split; [exact Hproc|]. apply tiempo_en_minutos.
  intros Hc0. apply (Hnz _ Hin). split; simpl; [by eauto|]. by exists c.
Qed.

(** X2. The two ways the travel-time computation fails.  It raises
    [ZeroDivisionError] exactly when some edge with a length has capacity zero,
    and [ValueError] exactly when no edge carries both ['length'] and
    ['capacity'] (an empty graph included); in the second case the graph is
    left untouched. *)
Theorem calcular_tiempos_viaje_errores (g : MultiDiGraph) :
  ((calcular_tiempos_viaje g).1 = Raise ZeroDivisionError
   ↔ ∃ e, e ∈ mg_edges g ∧ capacidad_nula e.2) ∧
  ((calcular_tiempos_viaje g).1 = Raise ValueError
   ↔ ∀ e, e ∈ mg_edges g → ¬ con_datos e.2) ∧
  ((∀ e, e ∈ mg_edges g → ¬ con_datos e.2) → (calcular_tiempos_viaje g).2 = g).
Proof.
  unfold calcular_tiempos_viaje.
  destruct (decide (Exists (λ e, capacidad_nula e.2) (mg_edges g))) as [Hz|Hnz].
  - apply Exists_exists in Hz.
    pose proof (tiempos_loop_nula (mg_edges g) g [] Hz) as Hr.
    destruct (tiempos_loop (mg_edges g) g []) as [r g']. simpl in Hr. subst r. simpl.
    destruct Hz as (e & Hin & Hz).
    split_and!; [split; by eauto| |].
    + split; [done|]. intros H. exfalso.
      by apply (H e Hin), capacidad_nula_con_datos.
    + intros H. exfalso. by apply (H e Hin), capacidad_nula_con_datos.
  - rewrite Exists_exists in Hnz.
    assert (Hnz' : ∀ e, e ∈ mg_edges g → ¬ capacidad_nula e.2) by naive_solver.
    destruct (tiempos_loop_fin (mg_edges g) g [] Hnz') as (g' & ts & -> & Hts & Hg).
    simpl. destruct ts as [|t ts]; simpl.
    + split_and!; [naive_solver| |by intros; apply Hg].
      split; [|done]. intros _. by apply Hts.
    + split_and!; [naive_solver| |].
      * split; [done|]. intros H. by apply Hts in H.
      * intros H. by apply Hts in H.
Qed.

Lemma ej_multigrafo_con_datos : Forall (λ e, con_datos e.2) (mg_edges ej_multigrafo).
Proof. apply (bool_decide_unpack _). vm_compute. exact I. Qed.

Lemma ej_multigrafo_sin_nulas :
  ∀ e, e ∈ mg_edges ej_multigrafo → ¬ capacidad_nula e.2.
Proof.
  apply Forall_forall. apply (bool_decide_unpack _). vm_compute. exact I.
Qed.

Lemma ej_multigrafo_alguna : ∃ e, e ∈ mg_edges ej_multigrafo ∧ con_datos e.2.
Proof.
  pose proof ej_multigrafo_con_datos as H. 
  exists (0, 1, 0, ej_via 1200 30). split; [by left|].
  rewrite Forall_forall in H. apply H. by left.
Qed.

Lemma calcular_tiempos_viaje_correcto_witness :
  mg_wf ej_multigrafo ∧
  (∃ e, e ∈ mg_edges ej_multigrafo ∧ con_datos e.2) ∧
  (∀ e, e ∈ mg_edges ej_multigrafo → ¬ capacidad_nula e.2) ∧
  ∃ g', calcular_tiempos_viaje ej_multigrafo = (Ok g', g') ∧
        mg_node g' = mg_node ej_multigrafo ∧
        (∀ u v k, is_Some (mg_edge_data g' u v k)
                  ↔ is_Some (mg_edge_data ej_multigrafo u v k)) ∧
        ∀ u v k d, (u, v, k, d) ∈ mg_edges ej_multigrafo →
          match d !! "length", d !! "capacity" with
          | Some l, Some c =>
              ∃ t, mg_edge_data g' u v k = Some (<["travel_time" := t]> d) ∧
                   (t == l / 1000 / c * 60)%Q
          | _, _ => mg_edge_data g' u v k = Some d
          end.
Proof.
  split_and!; [exact ej_multigrafo_wf | exact ej_multigrafo_alguna
               | exact ej_multigrafo_sin_nulas |].
  exact (calcular_tiempos_viaje_correcto ej_multigrafo ej_multigrafo_wf
           ej_multigrafo_alguna ej_multigrafo_sin_nulas).
Defined.

(** The street of 1200 m at 30 km/h takes 2.4 minutes. *)
Example calcular_tiempos_viaje_ejemplo :
  ∃ g', calcular_tiempos_viaje ej_multigrafo = (Ok g', g') ∧
        (mg_edge_data g' 0 1 0 ≫= (.!! "travel_time")) = Some (1200 / (30 * 1000 / 60))%Q ∧
        (1200 / (30 * 1000 / 60) == 12 # 5)%Q.
Proof. eexists. split_and!; [vm_compute; reflexivity | vm_compute; reflexivity | done]. Qed.

(** ** Capacities, then travel times *)

Lemma capacidad_sorteada_rango (c_min c_max : Q) (rng : Rng) (n : nat) :
  (c_min <= c_max)%Q →
  (c_min <= capacidad_sorteada c_min c_max rng n)%Q ∧
  (capacidad_sorteada c_min c_max rng n <= c_max)%Q.
Proof.
  intros Hle. unfold capacidad_sorteada.
  destruct (sorteo_rango rng n) as [H0 H1]. revert H0 H1.
  generalize (sorteo rng n) as t. intros t H0 H1.
  assert (Hd : (0 <= c_max - c_min)%Q) by (by apply Qle_minus_iff in Hle).
  split.
  - apply Qle_minus_iff.
    assert (He : (c_min + (c_max - c_min) * t + - c_min == (c_max - c_min) * t)%Q)
      by ring.
    rewrite He.
    by apply Qmult_le_0_compat.
  - apply Qle_minus_iff.
    assert (He : (c_max + - (c_min + (c_max - c_min) * t)
                  == (c_max - c_min) * (1 - t))%Q) by ring.
    rewrite He.
    apply Qmult_le_0_compat; [done|].
    apply Qlt_le_weak in H1. by apply Qle_minus_iff in H1.
Qed.

(** Capacities drawn from [[c_min, c_max]] with [0 < c_min <= c_max], then the
    travel times: both steps succeed and every edge of the input is found in
    the result with its capacity and its travel time. *)
Lemma capacidades_y_tiempos_ok (random_seed : Z → Rng) (c_min c_max : Q)
    (seed : option Z) (s : Store) :
  mg_wf (st_grafo s) →
  semilla_valida seed = true →
  mg_edges (st_grafo s) ≠ [] →
  (0 < c_min)%Q → (c_min <= c_max)%Q →
  (∀ e, e ∈ mg_edges (st_grafo s) → is_Some (e.2 !! "length")) →
  ∃ g1 s1 g2,
    asignar_capacidades_aleatorias random_seed c_min c_max seed s = (Ok g1, s1) ∧
    calcular_tiempos_viaje g1 = (Ok g2, g2) ∧
    mg_wf g2 ∧
    mg_node g2 = mg_node (st_grafo s) ∧
    (∀ u v k, is_Some (mg_edge_data g2 u v k)
              ↔ is_Some (mg_edge_data (st_grafo s) u v k)) ∧
    ∀ u v k d, (u, v, k, d) ∈ mg_edges (st_grafo s) →
      ∃ l c t,
        d !! "length" = Some l ∧
        mg_edge_data g2 u v k
        = Some (<["travel_time" := t]> (<["capacity" := c]> d)) ∧
        (c_min <= c)%Q ∧ (c <= c_max)%Q ∧ (t == l / 1000 / c * 60)%Q.
Proof.
  intros Hwf Hseed Hne Hpos Hle Hlen.
  destruct (asignar_capacidades_ok random_seed c_min c_max seed s Hwf Hseed Hne)
    as (g1 & Heq1 & Hwf1 & Hnode1 & Hsome1 & Hproc1).
  set (rng0 := rng_inicial random_seed seed (st_rng s)) in *.
  (* every edge of [g1] is an edge of the input with its capacity drawn *)
  assert (He1 : ∀ u v k d1, (u, v, k, d1) ∈ mg_edges g1 →
            ∃ n d, mg_edges (st_grafo s) !! n = Some (u, v, k, d) ∧
                   d1 = <["capacity" := capacidad_sorteada c_min c_max rng0 n]> d).
  { intros u v k d1 Hin. pose proof (elem_mg_edge_data g1 u v k d1 Hwf1 Hin) as Hd1.
    assert (Hs : is_Some (mg_edge_data (st_grafo s) u v k)).
    { apply Hsome1. by rewrite Hd1. }
    destruct Hs as [d Hd]. apply mg_edge_data_elem in Hd.
    apply list_elem_of_lookup in Hd as [n Hn]. exists n, d. split; [done|].
    rewrite (Hproc1 n u v k d Hn) in Hd1. by injection Hd1. }
  assert (Hcap0 : ∀ n, ¬ (capacidad_sorteada c_min c_max rng0 n == 0)%Q).
  { intros n Hz. destruct (capacidad_sorteada_rango c_min c_max rng0 n Hle) as [H1 _].
    rewrite Hz in H1. by apply Qle_not_lt in H1. }
  destruct (calcular_tiempos_viaje_ok g1 Hwf1) as (g2 & Heq2 & Hwf2 & Hnode2 & Hsome2 & Hproc2).
  { destruct (mg_edges (st_grafo s)) as [|[[[u v] k] d] es] eqn:Hes; [done|].
    exists (u, v, k, <["capacity" := capacidad_sorteada c_min c_max rng0 0]> d).
    split.
    - apply mg_edge_data_elem. by apply (Hproc1 0%nat).
    - split; simpl.
      + rewrite lookup_insert_ne by done. apply (Hlen (u, v, k, d)). by left.
      + rewrite lookup_insert_eq. by eauto. }
  { intros [[[u v] k] d1] Hin [_ (c & Hc & Hz)]. simpl in *.
    destruct (He1 u v k d1 Hin) as (n & d & _ & ->).
    rewrite lookup_insert_eq in Hc. injection Hc as <-. by apply (Hcap0 n). }
  eexists g1, _, g2.
  split_and!; [exact Heq1 | exact Heq2 | exact Hwf2 | by rewrite Hnode2
               | by intros u v k; rewrite Hsome2 |].
  intros u v k d Hin.
  destruct (Hlen _ Hin) as [l Hl]. simpl in Hl.
  apply list_elem_of_lookup in Hin as [n Hn].
  pose proof (Hproc1 n u v k d Hn) as Hd1. apply mg_edge_data_elem in Hd1.
  pose proof (Hproc2 u v k _ Hd1) as Hd2. unfold con_tiempo in Hd2.
  rewrite lookup_insert_ne, Hl, lookup_insert_eq in Hd2 by done.
  destruct (capacidad_sorteada_rango c_min c_max rng0 n Hle) as [H1 H2].
  eexists l, _, _. split_and!; [done | exact Hd2 | done | done |].
  apply tiempo_en_minutos, Hcap0.
Qed.

(** X3. Assigning capacities from a range [0 < c_min <= c_max] and then
    computing travel times never fails on a well-formed graph with at least
    one edge whose edges all have a length: every edge ends up with a capacity
    within [[c_min, c_max]] and with the travel time, in minutes, of its
    length at that capacity; the nodes and the other attributes are kept. *)
Theorem capacidades_y_tiempos (random_seed : Z → Rng) (c_min c_max : Q)
    (seed : option Z) (s : Store) :
  mg_wf (st_grafo s) →
  semilla_valida seed = true →
  mg_edges (st_grafo s) ≠ [] →
  (0 < c_min)%Q → (c_min <= c_max)%Q →
  (∀ e, e ∈ mg_edges (st_grafo s) → is_Some (e.2 !! "length")) →
  ∃ g1 s1 g2,
    asignar_capacidades_aleatorias random_seed c_min c_max seed s = (Ok g1, s1) ∧
    calcular_tiempos_viaje g1 = (Ok g2, g2) ∧
    mg_node g2 = mg_node (st_grafo s) ∧
    ∀ u v k d, (u, v, k, d) ∈ mg_edges (st_grafo s) →
      ∃ l c t,
        d !! "length" = Some l ∧
        mg_edge_data g2 u v k
        = Some (<["travel_time" := t]> (<["capacity" := c]> d)) ∧
        (c_min <= c)%Q ∧ (c <= c_max)%Q ∧ (t == l / 1000 / c * 60)%Q.
Proof.
  intros Hwf Hseed Hne Hpos Hle Hlen.
  destruct (capacidades_y_tiempos_ok random_seed c_min c_max seed s
              Hwf Hseed Hne Hpos Hle Hlen)
    as (g1 & s1 & g2 & H1 & H2 & _ & Hnode & _ & Hed).
  by exists g1, s1, g2.
Qed.

Lemma ej_multigrafo_con_length :
  ∀ e, e ∈ mg_edges ej_multigrafo → is_Some (e.2 !! "length").
Proof.
  apply Forall_forall. apply (bool_decide_unpack _). vm_compute. exact I.
Qed.

Lemma capacidades_y_tiempos_witness :
  mg_wf ej_multigrafo ∧
  semilla_valida (Some 42) = true ∧
  mg_edges ej_multigrafo ≠ [] ∧
  (0 < 30)%Q ∧ (30 <= 100)%Q ∧
  (∀ e, e ∈ mg_edges ej_multigrafo → is_Some (e.2 !! "length")) ∧
  ∃ g1 s1 g2,
    asignar_capacidades_aleatorias (λ _, rng_seed42) 30 100 (Some 42)
      (mkStore ej_multigrafo rng_seed42) = (Ok g1, s1) ∧
    calcular_tiempos_viaje g1 = (Ok g2, g2) ∧
    mg_node g2 = mg_node ej_multigrafo ∧
    ∀ u v k d, (u, v, k, d) ∈ mg_edges ej_multigrafo →
      ∃ l c t,
        d !! "length" = Some l ∧
        mg_edge_data g2 u v k
        = Some (<["travel_time" := t]> (<["capacity" := c]> d)) ∧
        (30 <= c)%Q ∧ (c <= 100)%Q ∧ (t == l / 1000 / c * 60)%Q.
Proof.
  assert (H2 : semilla_valida (Some 42) = true) by reflexivity.
  assert (H3 : mg_edges ej_multigrafo ≠ []) by (vm_compute; discriminate).
  assert (H4 : (0 < 30)%Q) by reflexivity.
  assert (H5 : (30 <= 100)%Q) by (vm_compute; discriminate).
  split_and!; [exact ej_multigrafo_wf | exact H2 | exact H3 | exact H4 | exact H5
               | exact ej_multigrafo_con_length |].
  exact (capacidades_y_tiempos (λ _, rng_seed42) 30 100 (Some 42)
           (mkStore ej_multigrafo rng_seed42)
           ej_multigrafo_wf H2 H3 H4 H5 ej_multigrafo_con_length).
Defined.

(** ** Generated emergencies *)

Lemma random_uniform_rango (a b : Q) (rng : Rng) :
  (a <= b)%Q →
  (a <= (random_uniform a b rng).1)%Q ∧ ((random_uniform a b rng).1 <= b)%Q.
Proof.
  intros Hle. pose proof (capacidad_sorteada_rango a b rng 0 Hle) as H.
  unfold capacidad_sorteada, sorteo in H. rewrite Nat.add_0_r in H.
  unfold random_uniform, random_random, rng_next. simpl. exact H.
Qed.

Lemma random_uniform_forma (a b : Q) (rng : Rng) :
  random_uniform a b rng = ((random_uniform a b rng).1, rng_avanza rng 1).
Proof.
  unfold random_uniform, random_random, rng_next, rng_avanza. simpl.
  do 2 f_equal. lia.
Qed.

Lemma rangos_emergencia_bandas (severidad : string) :
  match OD.get severidad RANGOS_EMERGENCIA with
  | Some rango =>
      ∃ lo hi, (severidad, lo, hi) ∈ bandas ∧ (lo <= hi)%Q ∧
               (rango_min rango == lo)%Q ∧ (rango_max rango == hi)%Q
  | None => severidad ∉ ["leve"; "media"; "grave"]
  end.
Proof.
  unfold RANGOS_EMERGENCIA, bandas. simpl.
  case_decide; [subst; exists 30%Q, 50%Q; split_and!; [set_solver|done..]|].
  case_decide; [subst; exists 50%Q, 70%Q; split_and!; [set_solver|done..]|].
  case_decide; [subst; exists 70%Q, 90%Q; split_and!; [set_solver|done..]|].
  set_solver.
Qed.

Lemma generar_velocidad_emergencia_ok (severidad : string) (rng : Rng) :
  severidad ∈ ["leve"; "media"; "grave"] →
  ∃ v lo hi,
    generar_velocidad_emergencia severidad rng = (Ok v, rng_avanza rng 1) ∧
    (severidad, lo, hi) ∈ bandas ∧ (lo <= v)%Q ∧ (v <= hi)%Q.
Proof.
  intros Hin. pose proof (rangos_emergencia_bandas severidad) as H.
  unfold generar_velocidad_emergencia.
  destruct (OD.get severidad RANGOS_EMERGENCIA) as [rango|]; [|done].
  destruct H as (lo & hi & Hb & Hle & Hmin & Hmax).
  rewrite random_uniform_forma.
  destruct (random_uniform_rango (rango_min rango) (rango_max rango) rng) as [H1 H2].
  { by rewrite Hmin, Hmax. }
  eexists _, lo, hi. split_and!; [done|done| |].
  - by rewrite <-Hmin.
  - by rewrite <-Hmax.
Qed.

(** X4. The required speed of an emergency is drawn inside the band of its
    severity, the bands being the thirds of [[30, 90]] km/h: 30 to 50 for
    ['leve'], 50 to 70 for ['media'], 70 to 90 for ['grave'].  Any other
    severity is refused with [ValueError] before anything is drawn. *)
Theorem generar_velocidad_emergencia_banda (severidad : string) (rng : Rng) :
  (severidad ∉ ["leve"; "media"; "grave"] →
   generar_velocidad_emergencia severidad rng = (Raise ValueError, rng)) ∧
  (∀ lo hi, (severidad, lo, hi) ∈ bandas →
     ∃ v rng', generar_velocidad_emergencia severidad rng = (Ok v, rng') ∧
               (lo <= v)%Q ∧ (v <= hi)%Q).
Proof.
  split.
  - intros Hnin. pose proof (rangos_emergencia_bandas severidad) as H.
    unfold generar_velocidad_emergencia.
    destruct (OD.get severidad RANGOS_EMERGENCIA) as [rango|]; [|done].
    destruct H as (lo & hi & Hb & _). exfalso. apply Hnin.
    unfold bandas in Hb. set_solver.
  - intros lo hi Hb.
    destruct (generar_velocidad_emergencia_ok severidad rng)
      as (v & lo' & hi' & Heq & Hb' & H1 & H2).
    { unfold bandas in Hb. set_solver. }
    assert (lo' = lo ∧ hi' = hi) as [-> ->].
    { unfold bandas in Hb, Hb'.
      repeat (apply elem_of_cons in Hb as [Hb|Hb]; [injection Hb as -> -> ->|]);
      try (by apply elem_of_nil in Hb);
      repeat (apply elem_of_cons in Hb' as [Hb'|Hb']; [by simplify_eq|]);
      by apply elem_of_nil in Hb'. }
    by eauto.
Qed.

Lemma random_choice_ok {A : Type} (seq : list A) (rng : Rng) :
  seq ≠ [] →
  ∃ a rng', random_choice seq rng = (Ok a, rng') ∧ a ∈ seq.
Proof.
  intros Hne. unfold random_choice. destruct seq as [|a0 seq]; [done|].
  pose proof (randbelow_lt (length (a0 :: seq)) rng) as Hlt.
  destruct (randbelow (length (a0 :: seq)) rng) as [j rng'].
  destruct (lookup_lt_is_Some_2 (a0 :: seq) j) as [a Ha].
  { apply Hlt. simpl. lia. }
  exists a, rng'. rewrite Ha. split; [done|].
  apply list_elem_of_lookup. by exists j.
Qed.

Lemma random_randint_ok (a b : Z) (rng : Rng) :
  a ≤ b →
  ∃ n rng', random_randint a b rng = (Ok n, rng') ∧ a ≤ n ≤ b.
Proof.
  intros Hle. unfold random_randint. rewrite decide_False by lia.
  pose proof (randbelow_lt (Z.to_nat (b - a + 1)) rng) as Hlt.
  destruct (randbelow (Z.to_nat (b - a + 1)) rng) as [j rng'].
  exists (a + Z.of_nat j), rng'. split; [done|].
  simpl in Hlt. lia.
Qed.

Lemma generar_desde_ok (indices : list nat) :
  ∀ emergencias rng,
    ∃ nuevas rng',
      generar_desde indices emergencias rng = (Ok (emergencias ++ nuevas), rng') ∧
      length nuevas = length indices ∧
      ∀ n i e, indices !! n = Some i → nuevas !! n = Some e → generada_en i e.
Proof.
  induction indices as [|i indices IH]; intros emergencias rng.
  - exists [], rng. rewrite app_nil_r. split_and!; [done..|].
    intros n i e Hn. by rewrite lookup_nil in Hn.
  - simpl. unfold mbind, aleatorio_bind.
    destruct (random_choice_ok ["leve"; "media"; "grave"] rng)
      as (s & rng1 & Hs & Hin); [done|].
    unfold generar_severidad_aleatoria. rewrite Hs.
    destruct (generar_velocidad_emergencia_ok s rng1 Hin)
      as (v & lo & hi & Hv & Hb & H1 & H2).
    rewrite Hv.
    destruct (IH (emergencias ++
                    [mkGenerada (Z.of_nat i + 1) s v (Z.of_nat i + 1)
                                "Clínica Medellín - Sede El Poblado"])
                 (rng_avanza rng1 1)) as (nuevas & rng' & -> & Hlen & Hspec).
    eexists (_ :: nuevas), rng'. rewrite <-app_assoc. simpl.
    split_and!; [done|by rewrite Hlen|].
    intros [|n] i' e Hn He; simpl in *.
    + injection Hn as <-. injection He as <-. split_and!; [done..|].
      exists lo, hi. by split_and!.
    + by eapply Hspec.
Qed.

(** X5. [generar_conjunto_emergencias] always returns: it yields the number
    of emergencies asked for, or between 3 and 5 of them when none is given
    (none for a count that is not positive); the emergency at position [i] has
    identifier [i + 1], the ambulance of the same number, one of the three
    severities and a required speed inside the band of that severity. *)
Theorem generar_conjunto_emergencias_correcto (num_emergencias : option Z) (rng : Rng) :
  ∃ emergencias rng',
    generar_conjunto_emergencias num_emergencias rng = (Ok emergencias, rng') ∧
    match num_emergencias with
    | Some n => length emergencias = Z.to_nat n
    | None => (3 ≤ length emergencias ≤ 5)%nat
    end ∧
    ∀ i e, emergencias !! i = Some e →
      eg_id e = Z.of_nat i + 1 ∧
      eg_ambulancia_id e = eg_id e ∧
      ∃ lo hi, (eg_severidad e, lo, hi) ∈ bandas ∧
               (lo <= eg_velocidad_requerida e)%Q ∧
               (eg_velocidad_requerida e <= hi)%Q.
Proof.
  unfold generar_conjunto_emergencias, mbind, aleatorio_bind.
  assert (Hn : ∃ n rng1,
            match num_emergencias with
            | Some n => mret n
            | None => generar_num_emergencias
            end rng = (Ok n, rng1) ∧
            match num_emergencias with
            | Some n' => n = n'
            | None => 3 ≤ n ≤ 5
            end).
  { destruct num_emergencias as [n|].
    - by exists n, rng.
    - destruct (random_randint_ok 3 5 rng) as (n & rng1 & Hn & Hr); [lia|].
      by exists n, rng1. }
  destruct Hn as (n & rng1 & -> & Hn).
  destruct (generar_desde_ok (seq 0 (Z.to_nat n)) [] rng1)
    as (nuevas & rng' & -> & Hlen & Hspec).
  rewrite length_seq in Hlen.
  exists nuevas, rng'. simpl. split_and!; [done| |].
  - destruct num_emergencias; [by subst|lia].
  - intros i e He.
    assert (Hi : seq 0 (Z.to_nat n) !! i = Some i).
    { apply lookup_lt_Some in He. rewrite lookup_seq. split; [done|lia]. }
    destruct (Hspec i i e Hi He) as (H1 & H2 & H3).
    split_and!; [done|congruence|done].
Qed.

(** ** Speeds brought to a new range *)

Lemma nuevos_rangos_orden (r_min r_max : Q) (s : Severidad) :
  (r_min <= r_max)%Q →
  (r_min <= (nuevos_rangos r_min r_max s).1)%Q ∧
  ((nuevos_rangos r_min r_max s).1 <= (nuevos_rangos r_min r_max s).2)%Q ∧
  ((nuevos_rangos r_min r_max s).2 <= r_max)%Q.
Proof.
  intros Hle.
  assert (Ht : ((r_max - r_min) / 3 * 3 == r_max - r_min)%Q) by (field; done).
  unfold nuevos_rangos. revert Ht. generalize ((r_max - r_min) / 3)%Q as t.
  intros t Ht. destruct s; simpl; split_and!; lra.
Qed.

Lemma actualizar_paso_forma (r_min r_max : Q) hechas rng e :
  actualizar_paso r_min r_max (hechas, rng) e
  = (hechas ++ [con_velocidad e
                  (random_uniform (nuevos_rangos r_min r_max (severidad e)).1
                                  (nuevos_rangos r_min r_max (severidad e)).2 rng).1],
     rng_avanza rng 1).
Proof.
  unfold actualizar_paso. cbv zeta. cbn [fst snd].
  pose proof (random_uniform_forma (nuevos_rangos r_min r_max (severidad e)).1
                (nuevos_rangos r_min r_max (severidad e)).2 rng) as Hf.
  destruct (random_uniform _ _ rng) as [v r]. simpl in Hf. by injection Hf as <-.
Qed.

Lemma actualizar_desde (r_min r_max : Q) (emergencias : list Emergencia) :
  (r_min <= r_max)%Q →
  ∀ hechas rng,
    ∃ nuevas rng',
      fold_left (actualizar_paso r_min r_max) emergencias (hechas, rng)
      = (hechas ++ nuevas, rng') ∧
      length nuevas = length emergencias ∧
      ∀ i e, emergencias !! i = Some e →
        ∃ v, nuevas !! i = Some (con_velocidad e v) ∧
             ((nuevos_rangos r_min r_max (severidad e)).1 <= v)%Q ∧
             (v <= (nuevos_rangos r_min r_max (severidad e)).2)%Q.
Proof.
  intros Hle. induction emergencias as [|e emergencias IH]; intros hechas rng.
  - exists [], rng. rewrite app_nil_r. split_and!; [done..|].
    intros i e Hi. by rewrite lookup_nil in Hi.
  - cbn [fold_left]. rewrite actualizar_paso_forma.
    destruct (nuevos_rangos_orden r_min r_max (severidad e) Hle) as (_ & Hord & _).
    pose proof (random_uniform_rango _ _ rng Hord) as [H1 H2].
    set (v := (random_uniform _ _ rng).1) in *.
    destruct (IH (hechas ++ [con_velocidad e v]) (rng_avanza rng 1))
      as (nuevas & rng' & -> & Hlen & Hspec).
    exists (con_velocidad e v :: nuevas), rng'. rewrite <-app_assoc. simpl.
    split_and!; [done|by rewrite Hlen|].
    intros [|i] e' Hi; simpl in *.
    + injection Hi as <-. by exists v.
    + by apply Hspec.
Qed.

(** X6. Bringing the required speeds to a new range [r_min <= r_max] keeps
    the emergencies in their order and touches their speed only:
    identifier, severity, ambulance, destination and coordinates are those of
    the input, and the new speed lies in the third of [[r_min, r_max]] that
    belongs to the severity (the lowest for ['leve'], the middle one for
    ['media'], the highest for ['grave']), hence inside [[r_min, r_max]]. *)
Theorem actualizar_velocidades_emergencias_correcto
    (emergencias : list Emergencia) (r_min r_max : Q) (rng : Rng) :
  (r_min <= r_max)%Q →
  let actualizadas := (actualizar_velocidades_emergencias emergencias r_min r_max rng).1 in
  length actualizadas = length emergencias ∧
  ∀ i e, emergencias !! i = Some e →
    ∃ e', actualizadas !! i = Some e' ∧
      em_id e' = em_id e ∧ severidad e' = severidad e ∧
      ambulancia_id e' = ambulancia_id e ∧ nodo_destino e' = nodo_destino e ∧
      latitud e' = latitud e ∧ longitud e' = longitud e ∧
      (r_min <= velocidad_requerida e')%Q ∧ (velocidad_requerida e' <= r_max)%Q ∧
      let tercio := ((r_max - r_min) / 3)%Q in
      match severidad e with
      | leve => (r_min <= velocidad_requerida e')%Q ∧
                (velocidad_requerida e' <= r_min + tercio)%Q
      | media => (r_min + tercio <= velocidad_requerida e')%Q ∧
                 (velocidad_requerida e' <= r_min + 2 * tercio)%Q
      | grave => (r_min + 2 * tercio <= velocidad_requerida e')%Q ∧
                 (velocidad_requerida e' <= r_max)%Q
      end.
Proof.
  intros Hle actualizadas. unfold actualizadas, actualizar_velocidades_emergencias.
  destruct (actualizar_desde r_min r_max emergencias Hle [] rng)
    as (nuevas & rng' & -> & Hlen & Hspec).
  simpl. split; [done|].
  intros i e Hi. destruct (Hspec i e Hi) as (v & Hv & H1 & H2).
  exists (con_velocidad e v). split; [done|]. simpl.
  destruct (nuevos_rangos_orden r_min r_max (severidad e) Hle) as (Ha & _ & Hb).
  split_and!; try done.
  - by apply Qle_trans with (nuevos_rangos r_min r_max (severidad e)).1.
  - by apply Qle_trans with (nuevos_rangos r_min r_max (severidad e)).2.
  - destruct (severidad e); simpl in *; by split.
Qed.

Lemma actualizar_velocidades_emergencias_correcto_witness :
  (30 <= 90)%Q ∧
  let actualizadas := (actualizar_velocidades_emergencias ej_emergencias 30 90 rng_seed42).1 in
  length actualizadas = length ej_emergencias ∧
  ∀ i e, ej_emergencias !! i = Some e →
    ∃ e', actualizadas !! i = Some e' ∧
      em_id e' = em_id e ∧ severidad e' = severidad e ∧
      ambulancia_id e' = ambulancia_id e ∧ nodo_destino e' = nodo_destino e ∧
      latitud e' = latitud e ∧ longitud e' = longitud e ∧
      (30 <= velocidad_requerida e')%Q ∧ (velocidad_requerida e' <= 90)%Q ∧
      let tercio := ((90 - 30) / 3)%Q in
      match severidad e with
      | leve => (30 <= velocidad_requerida e')%Q ∧
                (velocidad_requerida e' <= 30 + tercio)%Q
      | media => (30 + tercio <= velocidad_requerida e')%Q ∧
                 (velocidad_requerida e' <= 30 + 2 * tercio)%Q
      | grave => (30 + 2 * tercio <= velocidad_requerida e')%Q ∧
                 (velocidad_requerida e' <= 90)%Q
      end.
Proof.
  assert (H : (30 <= 90)%Q) by (vm_compute; discriminate).
  split; [exact H|].
  exact (actualizar_velocidades_emergencias_correcto ej_emergencias 30 90 rng_seed42 H).
Defined.

(** ** Costs of a service *)

Lemma tipo_de_clave_Some (clave : string) (t : TipoAmbulancia) :
  tipo_de_clave clave = Some t ↔ clave = clave_de_tipo t.
Proof.
  unfold tipo_de_clave. repeat case_decide; subst; destruct t; naive_solver.
Qed.

Lemma tipo_de_clave_None (clave : string) :
  tipo_de_clave clave = None ↔ clave ∉ ["TAB_leve"; "TAM_moderada"; "TAM_grave"].
Proof.
  unfold tipo_de_clave.
  repeat case_decide; subst; (split; [try done|intros Hn]); set_solver.
Qed.

Lemma severidad_de_texto_de (s : Severidad) :
  severidad_de_texto (texto_de_severidad s) = Some s.
Proof. by destruct s. Qed.

(** X7. The cost breakdown of a service is consistent: for each of the three
    ambulance types and every distance, the fixed cost and the four per-km
    components (depreciation and maintenance, fuel, staff, supplies) add up to
    the total, which is the amount [calcular_costo_servicio] charges; any other
    type is refused with [ValueError] by both functions. *)
Theorem obtener_desglose_costo_suma (tipo_ambulancia : string) (distancia_km : Q) :
  match obtener_desglose_costo tipo_ambulancia distancia_km with
  | Ok r =>
      tipo_ambulancia ∈ ["TAB_leve"; "TAM_moderada"; "TAM_grave"] ∧
      calcular_costo_servicio tipo_ambulancia distancia_km None = Ok (dc_total r) ∧
      (dc_total r == dc_costo_fijo r + dc_depreciacion_mantenimiento r
                     + dc_combustible r + dc_personal r + dc_insumos r)%Q
  | Raise e =>
      e = ValueError ∧
      (tipo_ambulancia ∉ ["TAB_leve"; "TAM_moderada"; "TAM_grave"]) ∧
      calcular_costo_servicio tipo_ambulancia distancia_km None = Raise ValueError
  end.
Proof.
  unfold obtener_desglose_costo, calcular_costo_servicio.
  destruct (tipo_de_clave tipo_ambulancia) as [t|] eqn:Ht; simpl.
  - apply tipo_de_clave_Some in Ht. subst.
    split_and!; [destruct t; set_solver|done|].
    destruct t; simpl; ring.
  - by apply tipo_de_clave_None in Ht.
Qed.

(** X8. [calcular_costo_con_valores_usuario] charges the cost row the
    objective of the model uses: for each severity, the fixed cost plus the
    distance times the per-km cost of the caller's row when the caller gave
    one for that severity and of the default table otherwise; without
    caller's costs it agrees with [calcular_costo_servicio] on the ambulance
    type assigned to the severity. *)
Theorem calcular_costo_con_valores_usuario_fila (s : Severidad) (distancia_km : Q)
    (costos_usuario : option (list (Severidad * CostoUsuario))) :
  calcular_costo_con_valores_usuario (texto_de_severidad s) distancia_km costos_usuario
  = Ok (costo_fijo (fila_costos costos_usuario s)
        + distancia_km * costo_km (fila_costos costos_usuario s))%Q ∧
  calcular_costo_con_valores_usuario (texto_de_severidad s) distancia_km None
  = calcular_costo_servicio (clave_de_tipo (PRIORIDAD_A_AMBULANCIA s)) distancia_km None.
Proof.
  unfold calcular_costo_con_valores_usuario, fila_costos, calcular_costo_servicio.
  rewrite severidad_de_texto_de. split.
  - destruct costos_usuario as [[|f fs]|]; [done| |done].
    change (Some (f :: fs) ≫= OD.get s) with (OD.get s (f :: fs)).
    by destruct (OD.get s (f :: fs)).
  - by destruct s.
Qed.

Example calcular_costo_servicio_ejemplo :
  calcular_costo_servicio "TAB_leve" 10 None = Ok (35000 + 10 * 5585)%Q ∧
  (35000 + 10 * 5585 == 90850)%Q.
Proof. split; [vm_compute; reflexivity | done]. Qed.

(** X9. Which ambulance types [validar_tipo_ambulancia_para_prioridad]
    accepts: the basic one for ['leve'] only, either medicalised one for
    ['media'], the one for grave cases only for ['grave'], and nothing for any
    other priority; in particular the type [PRIORIDAD_A_AMBULANCIA] assigns to
    a priority is accepted for it.  A type that is not in [COSTOS] raises
    [KeyError]. *)
Theorem validar_tipo_ambulancia_para_prioridad_tabla (tipo_ambulancia prioridad : string) :
  (validar_tipo_ambulancia_para_prioridad tipo_ambulancia prioridad = Ok true
   ↔ (tipo_ambulancia, prioridad) ∈ [("TAB_leve", "leve"); ("TAM_moderada", "media");
                                     ("TAM_grave", "media"); ("TAM_grave", "grave")]) ∧
  (tipo_ambulancia ∉ ["TAB_leve"; "TAM_moderada"; "TAM_grave"] →
   validar_tipo_ambulancia_para_prioridad tipo_ambulancia prioridad
   = Raise (KeyError tipo_ambulancia)) ∧
  (∀ s, validar_tipo_ambulancia_para_prioridad
          (clave_de_tipo (PRIORIDAD_A_AMBULANCIA s)) (texto_de_severidad s) = Ok true).
Proof.
  split_and!.
  - unfold validar_tipo_ambulancia_para_prioridad.
    destruct (tipo_de_clave tipo_ambulancia) as [t|] eqn:Ht; simpl.
    + apply tipo_de_clave_Some in Ht. subst.
      destruct t; simpl; repeat case_decide; subst; simpl;
        (split; [try done; set_solver | set_solver]).
    + apply tipo_de_clave_None in Ht. split; [done|]. set_solver.
  - intros Hn. apply tipo_de_clave_None in Hn.
    unfold validar_tipo_ambulancia_para_prioridad. by rewrite Hn.
  - by intros [].
Qed.

(** ** More on the binding of emergencies *)

Lemma asignar_zip_campos (g : MultiDiGraph) (ems : list EmergenciaBase) :
  ∀ (sel : list Z) (res : list Emergencia),
    asignar_zip g ems sel = Ok res →
    length sel = length ems →
    length res = length ems ∧
    ∀ i b, ems !! i = Some b →
      ∃ e a, res !! i = Some e ∧ sel !! i = Some (nodo_destino e) ∧
             em_id e = eb_id b ∧ severidad e = eb_severidad b ∧
             velocidad_requerida e = eb_velocidad_requerida b ∧
             ambulancia_id e = eb_ambulancia_id b ∧
             OD.get (nodo_destino e) (mg_node g) = Some a ∧
             a !! "y" = Some (latitud e) ∧ a !! "x" = Some (longitud e).
Proof.
  induction ems as [|b0 ems IH]; intros [|n sel] res Hres Hlen; simplify_eq/=.
  - split; [done|]. intros i b Hi. by rewrite lookup_nil in Hi.
  - apply bind_Ok in Hres as (e0 & He0 & Hres).
    apply bind_Ok in Hres as (rest & Hrest & [= <-]).
    destruct (IH sel rest Hrest) as [Hl Hspec]; [done|].
    split; [simpl; by rewrite Hl|].
    intros [|i] b Hi; simpl in *.
    + injection Hi as <-. unfold emergencia_completa in He0.
      apply bind_Ok in He0 as (a & Ha & He0).
      apply bind_Ok in He0 as (y & Hy & He0).
      apply bind_Ok in He0 as (x' & Hx' & [= <-]).
      exists (mkEmergencia (eb_id b0) (eb_severidad b0) (eb_velocidad_requerida b0)
                (eb_ambulancia_id b0) n y x'), a.
      simpl. split_and!; try done.
      * by destruct (OD.get n (mg_node g)); simplify_eq/=.
      * by destruct (a !! "y"); simplify_eq/=.
      * by destruct (a !! "x"); simplify_eq/=.
    + by apply Hspec.
Qed.

(** X10. An emergency keeps its data when it is bound to a node: on a graph
    with nodes, at least as many as emergencies, whose nodes carry coordinates,
    and with a generator on which the sample returns, the bound emergency at
    each position has the identifier, severity, required speed and ambulance of
    the input emergency at that position, and its latitude and longitude are
    the ['y'] and ['x'] of its destination node. *)
Theorem asignar_emergencias_conserva_datos (fuel : nat) (random_seed : Z → Rng)
    (g : MultiDiGraph) (ems : list EmergenciaBase) (seed : option Z) (rng : Rng) :
  OD.wf (mg_node g) →
  mg_nodes g ≠ [] →
  (length ems ≤ length (mg_nodes g))%nat →
  nodos_con_coordenadas g →
  muestra_termina fuel (length (candidatos g ems)) (length ems)
                  (rng_inicial random_seed seed rng) →
  ∃ res rng',
    asignar_emergencias_a_nodos fuel random_seed g ems seed rng
    = Some (Ok res, rng') ∧
    length res = length ems ∧
    ∀ i b, ems !! i = Some b →
      ∃ e a, res !! i = Some e ∧
             em_id e = eb_id b ∧ severidad e = eb_severidad b ∧
             velocidad_requerida e = eb_velocidad_requerida b ∧
             ambulancia_id e = eb_ambulancia_id b ∧
             OD.get (nodo_destino e) (mg_node g) = Some a ∧
             a !! "y" = Some (latitud e) ∧ a !! "x" = Some (longitud e).
Proof.
  intros Hwf Hne Hlen Hcoord Hter.
  destruct (asignar_emergencias_muestra fuel random_seed g ems seed rng
              Hwf Hne Hlen Hter)
    as (sel & rng' & Heq & Hlsel & _ & Hin & Hsub).
  destruct (asignar_zip_ok g ems sel) as (res & Hres & _); [done| |].
  { apply Forall_forall. intros n Hn.
    specialize (Hsub n (Hin n Hn)). apply get_is_Some in Hsub as [a Ha].
    exists a. split; [done|].
    unfold nodos_con_coordenadas in Hcoord. rewrite Forall_forall in Hcoord.
    apply (Hcoord (n, a)). by apply get_Some_elem. }
  exists res, rng'. rewrite Heq, Hres.
  destruct (asignar_zip_campos g ems sel res Hres Hlsel) as [Hl Hspec].
  split_and!; [done..|].
  intros i b Hi. destruct (Hspec i b Hi) as (e & a & He & _ & Hrest).
  by exists e, a.
Qed.

Lemma ej_dos_nodos_termina :
  muestra_termina 0 (length (candidatos ej_dos_nodos ej_emergencias_base))
                  (length ej_emergencias_base)
                  (rng_inicial (λ _, sorteos_seed42_dos) (Some 42) sorteos_seed42_dos).
Proof. left. vm_compute. lia. Qed.

Lemma asignar_emergencias_conserva_datos_witness :
  OD.wf (mg_node ej_dos_nodos) ∧
  mg_nodes ej_dos_nodos ≠ [] ∧
  (length ej_emergencias_base ≤ length (mg_nodes ej_dos_nodos))%nat ∧
  nodos_con_coordenadas ej_dos_nodos ∧
  muestra_termina 0 (length (candidatos ej_dos_nodos ej_emergencias_base))
                  (length ej_emergencias_base)
                  (rng_inicial (λ _, sorteos_seed42_dos) (Some 42) sorteos_seed42_dos) ∧
  ∃ res rng',
    asignar_emergencias_a_nodos 0 (λ _, sorteos_seed42_dos) ej_dos_nodos
      ej_emergencias_base (Some 42) sorteos_seed42_dos = Some (Ok res, rng') ∧
    length res = length ej_emergencias_base ∧
    ∀ i b, ej_emergencias_base !! i = Some b →
      ∃ e a, res !! i = Some e ∧
             em_id e = eb_id b ∧ severidad e = eb_severidad b ∧
             velocidad_requerida e = eb_velocidad_requerida b ∧
             ambulancia_id e = eb_ambulancia_id b ∧
             OD.get (nodo_destino e) (mg_node ej_dos_nodos) = Some a ∧
             a !! "y" = Some (latitud e) ∧ a !! "x" = Some (longitud e).
Proof.
  assert (H2 : mg_nodes ej_dos_nodos ≠ []) by (vm_compute; discriminate).
  assert (H3 : (length ej_emergencias_base ≤ length (mg_nodes ej_dos_nodos))%nat)
    by (vm_compute; lia).
  split_and!; [exact ej_dos_nodos_wf | exact H2 | exact H3
               | exact ej_dos_nodos_coordenadas | exact ej_dos_nodos_termina |].
  exact (asignar_emergencias_conserva_datos 0 (λ _, sorteos_seed42_dos) ej_dos_nodos
           ej_emergencias_base (Some 42) sorteos_seed42_dos
           ej_dos_nodos_wf H2 H3 ej_dos_nodos_coordenadas ej_dos_nodos_termina).
Defined.

(** X11. When the binding cannot be done.  On a graph without nodes the
    call raises [ZeroDivisionError] (the share of interior nodes in its report
    divides by the number of nodes), whatever the emergencies, even none; on a
    graph with nodes but fewer than there are emergencies it raises
    [ValueError] (the sample is larger than the population).  Neither case
    reaches a draw: the call returns under every bound on the redraws. *)
Theorem asignar_emergencias_sin_nodos (fuel : nat) (random_seed : Z → Rng)
    (g : MultiDiGraph) (ems : list EmergenciaBase) (seed : option Z) (rng : Rng) :
  mg_nodes g = [] ∨ (length (mg_nodes g) < length ems)%nat →
  asignar_emergencias_a_nodos fuel random_seed g ems seed rng
  = Some (Raise (if decide (mg_nodes g = []) then ZeroDivisionError else ValueError),
          rng_inicial random_seed seed rng).
Proof.
  intros Hcaso. unfold asignar_emergencias_a_nodos.
  change (match seed with Some sd => random_seed sd | None => rng end)
    with (rng_inicial random_seed seed rng).
  set (rng0 := rng_inicial random_seed seed rng).
  set (internos := filtrar_nodos_internos g 3 3).
  destruct (decide (mg_nodes g = [])) as [Hnil|Hne].
  - rewrite Hnil. simpl. unfold py_div. simpl. done.
  - destruct Hcaso as [|Hlt]; [done|].
    assert (Hdiv : ∃ q, py_div (Z.of_nat (length internos) # 1)
                               (Z.of_nat (length (mg_nodes g)) # 1) = Ok q).
    { unfold py_div. destruct (Qeq_bool _ 0) eqn:Hz; [|eauto].
      apply Qeq_bool_iff in Hz. unfold Qeq in Hz. simpl in Hz.
      destruct (mg_nodes g); [done|]. simpl in Hz. lia. }
    destruct Hdiv as [q ->].
    assert (Hint : (length internos ≤ length (mg_nodes g))%nat).
    { unfold internos, filtrar_nodos_internos. apply length_filter. }
    rewrite decide_True by lia.
    unfold random_sample. rewrite decide_False by lia. done.
Qed.

Lemma asignar_emergencias_sin_nodos_witness :
  (mg_nodes (mkMulti [] []) = [] ∨
   (length (mg_nodes (mkMulti [] [])) < length (@nil EmergenciaBase))%nat) ∧
  asignar_emergencias_a_nodos 0 (λ _, rng_seed42) (mkMulti [] []) [] None rng_seed42
  = Some (Raise (if decide (mg_nodes (mkMulti [] []) = []) then ZeroDivisionError
                 else ValueError),
          rng_inicial (λ _, rng_seed42) None rng_seed42).
Proof.
  assert (H : mg_nodes (mkMulti [] []) = [] ∨
              (length (mg_nodes (mkMulti [] [])) < length (@nil EmergenciaBase))%nat)
    by (left; reflexivity).
  split; [exact H|].
  exact (asignar_emergencias_sin_nodos 0 (λ _, rng_seed42) (mkMulti [] []) [] None
           rng_seed42 H).
Defined.

(** ** The nodes of the simplified graph *)

Lemma add_edge_nodos (g : DiGraph) (u v : Z) (a : gmap string Q) :
  u ∈ OD.keys (dg_adj g) → v ∈ OD.keys (dg_adj g) →
  dg_node (add_edge u v a g) = dg_node g ∧
  OD.keys (dg_adj (add_edge u v a g)) = OD.keys (dg_adj g).
Proof.
  intros Hu Hv. unfold add_edge.
  rewrite (proj2 (mem_true _ _) Hu). rewrite (proj2 (mem_true _ _) Hv).
  simpl. split; [done|]. by rewrite keys_set_in.
Qed.

Lemma simplificar_nodos (mg : MultiDiGraph) (g : DiGraph) :
  mg_cerrado mg →
  _simplificar_a_digraph mg = Ok g →
  dg_node g = mg_node mg.
Proof.
  intros [Hwf Hcerr]. unfold _simplificar_a_digraph.
  intros (st & Hfe & [= <-])%bind_Ok.
  pose proof (copiar_nodos (mg_node mg) []) as Hcopy. simpl in Hcopy.
  rewrite Hcopy in Hfe by done. clear Hcopy.
  cut (dg_node st.1 = mg_node mg ∧ OD.keys (dg_adj st.1) = OD.keys (mg_node mg)).
  { by intros [? _]. }
  revert Hfe.
  apply (for_each_inv
           (λ st, dg_node st.1 = mg_node mg ∧
                  OD.keys (dg_adj st.1) = OD.keys (mg_node mg))).
  - intros [g1 pares] [[[i j] key] data] [g2 pares2] Hin [Hn Hk]. simpl in *.
    destruct (Hcerr i j key data Hin) as [Hi Hj]. unfold mg_nodes in Hi, Hj.
    assert (Hpaso : ∀ a, dg_node (add_edge i j a g1) = mg_node mg ∧
                         OD.keys (dg_adj (add_edge i j a g1)) = OD.keys (mg_node mg)).
    { intros a. destruct (add_edge_nodos g1 i j a) as [H1 H2]; [by rewrite Hk..|].
      by rewrite H1, H2. }
    destruct (decide ((i, j) ∈ pares)); [by intros [= <- <-]|].
    destruct (decide (1 < mg_number_of_edges mg i j)%nat).
    + intros (items & _ & Hbest)%bind_Ok.
      destruct (mejor_arista items).2; [|done].
      injection Hbest as <- <-. apply Hpaso.
    + intros [= <- <-]. apply Hpaso.
  - simpl. split; [done|]. unfold OD.keys. by rewrite <-list_fmap_compose.
Qed.

Lemma dg_wf_extremos (g : DiGraph) (i j : Z) :
  dg_wf g → (i, j) ∈ dg_edges g → i ∈ dg_nodes g ∧ j ∈ dg_nodes g.
Proof.
  intros (_ & Hk & Hrows) (nbrs & d & Hrow & Hv)%elem_of_dg_edges.
  unfold dg_nodes. split.
  - rewrite <-Hk. apply list_elem_of_fmap. by exists (i, nbrs).
  - rewrite Forall_forall in Hrows. destruct (Hrows _ Hrow) as [_ Hin].
    rewrite Forall_forall in Hin. apply Hin. apply list_elem_of_fmap.
    by exists (j, d).
Qed.

(** X12. The simplification keeps the nodes: on a multigraph whose edges join
    nodes of the graph, with capacities above the sentinel, the simple graph
    has the same nodes, in the same order and with the same attributes, and
    each of its edges joins two of them. *)
Theorem simplificar_conserva_nodos (mg : MultiDiGraph) :
  mg_wf mg →
  capacidades_validas mg →
  mg_cerrado mg →
  ∃ g, _simplificar_a_digraph mg = Ok g ∧
       dg_node g = mg_node mg ∧
       ∀ i j, (i, j) ∈ dg_edges g → i ∈ mg_nodes mg ∧ j ∈ mg_nodes mg.
Proof.
  intros Hwf Hcap Hcerr.
  destruct (simplificar_ok mg Hwf Hcap) as (g & Hg & _).
  exists g. pose proof (simplificar_nodos mg g Hcerr Hg) as Hn.
  split_and!; [done..|].
  intros i j Hin. unfold mg_nodes. rewrite <-Hn.
  by apply dg_wf_extremos; [apply (simplificar_dg_wf mg)|].
Qed.

Lemma ej_multigrafo_cerrado : mg_cerrado ej_multigrafo.
Proof.
  split.
  - apply (bool_decide_unpack _). vm_compute. exact I.
  - assert (H : Forall (λ e : Z * Z * Z * gmap string Q,
                          e.1.1.1 ∈ mg_nodes ej_multigrafo ∧
                          e.1.1.2 ∈ mg_nodes ej_multigrafo)
                       (mg_edges ej_multigrafo)).
    { apply (bool_decide_unpack _). vm_compute. exact I. }
    rewrite Forall_forall in H. intros u v k d Hin. apply (H _ Hin).
Qed.

Lemma simplificar_conserva_nodos_witness :
  mg_wf ej_multigrafo ∧
  capacidades_validas ej_multigrafo ∧
  mg_cerrado ej_multigrafo ∧
  ∃ g, _simplificar_a_digraph ej_multigrafo = Ok g ∧
       dg_node g = mg_node ej_multigrafo ∧
       ∀ i j, (i, j) ∈ dg_edges g → i ∈ mg_nodes ej_multigrafo ∧ j ∈ mg_nodes ej_multigrafo.
Proof.
  split_and!; [exact ej_multigrafo_wf | exact ej_capacidades_validas
               | exact ej_multigrafo_cerrado |].
  exact (simplificar_conserva_nodos ej_multigrafo ej_multigrafo_wf
           ej_capacidades_validas ej_multigrafo_cerrado).
Defined.

(** ** When the simplification fails *)

(** A loop whose rounds either re-establish the invariant or raise [e]. *)
Lemma for_each_inv_o_error {A S : Type} (I : list A → S → Prop)
    (body : S → A → result S) (xs : list A) (s : S) (e : exn) :
  I [] s →
  (∀ pre x post s1, xs = pre ++ x :: post → I pre s1 →
     body s1 x = Raise e ∨ ∃ s2, body s1 x = Ok s2 ∧ I (pre ++ [x]) s2) →
  for_each body xs s = Raise e ∨ ∃ s', for_each body xs s = Ok s' ∧ I xs s'.
Proof.
  intros H0 Hstep.
  cut (∀ rest pre s1, xs = pre ++ rest → I pre s1 →
         for_each body rest s1 = Raise e
         ∨ ∃ s', for_each body rest s1 = Ok s' ∧ I xs s').
  { intros Hgen. by apply (Hgen xs [] s). }
  induction rest as [|x rest IH]; intros pre s1 Hxs Hpre; simpl.
  - right. exists s1. rewrite app_nil_r in Hxs. by subst.
  - destruct (Hstep pre x rest s1 Hxs Hpre) as [->|(s2 & -> & H2)]; [by left|].
    simpl. apply (IH (pre ++ [x])); [|done]. by rewrite <-app_assoc.
Qed.

Lemma mejor_arista_ninguna (items : list (Z * gmap string Q)) (c0 : Q)
    (o0 : option (gmap string Q)) :
  (∀ kd, kd ∈ items → (get_capacity kd.2 <= c0)%Q) →
  fold_left mejor_paso items (c0, o0) = (c0, o0).
Proof.
  induction items as [|kd items IH]; intros Hall; [done|].
  cbn [fold_left]. unfold mejor_paso at 2. cbn [fst snd].
  rewrite (proj2 (Qgtb_false _ _)) by (apply Hall; by left).
  apply IH. intros kd' Hin. apply Hall. by right.
Qed.

(** X13. The search among parallel edges starts from capacity [-1] and no
    edge: when some pair of nodes has two or more parallel edges whose
    capacities (0 when the attribute is missing) are all at most [-1], nothing
    is chosen and the simplification raises [TypeError]. *)
Theorem simplificar_sin_candidata (mg : MultiDiGraph) (u v : Z) :
  mg_wf mg →
  sin_candidata mg u v →
  _simplificar_a_digraph mg = Raise TypeError.
Proof.
  intros Hwf [Hnum Hbajas]. unfold _simplificar_a_digraph.
  set (g0 := fold_left _ (mg_node mg) (mkDi [] [])).
  destruct (for_each_inv_o_error
              (λ pre st, (∀ i j, (i, j) ∈ st.2 ↔ ∃ k d, (i, j, k, d) ∈ pre) ∧
                         (∀ i j k d, (i, j, k, d) ∈ pre → ¬ sin_candidata mg i j))
              (simplificar_paso mg) (mg_edges mg) (g0, ∅) TypeError)
    as [->|(st & _ & _ & Hno)]; [| |done|].
  - simpl. split.
    + intros i j. split; [set_solver|]. intros (k & d & []%elem_of_nil).
    + intros i j k d []%elem_of_nil.
  - intros pre [[[i j] key] data] post [g pares] Hsplit [Hpares Hbuenas]. simpl in *.
    assert (He : (i, j, key, data) ∈ mg_edges mg).
    { rewrite Hsplit. apply elem_of_app. right. by left. }
    assert (Hsigue : ¬ sin_candidata mg i j →
              (∀ i' j', (i', j') ∈ pares ∪ {[ (i, j) ]}
                        ↔ ∃ k d, (i', j', k, d) ∈ pre ++ [(i, j, key, data)]) ∧
              (∀ i' j' k d, (i', j', k, d) ∈ pre ++ [(i, j, key, data)] →
                            ¬ sin_candidata mg i' j')).
    { intros Hbuena. split.
      - intros i' j'. rewrite elem_of_union, elem_of_singleton, Hpares.
        setoid_rewrite elem_of_app. setoid_rewrite list_elem_of_singleton.
        split.
        + intros [(k' & d' & Hpre)|[= -> ->]]; eauto.
        + intros (k' & d' & [Hpre|[= -> -> -> ->]]); eauto.
      - intros i' j' k d [Hpre|[= -> -> -> ->]%list_elem_of_singleton]%elem_of_app;
          [by eapply Hbuenas|done]. }
    destruct (decide ((i, j) ∈ pares)) as [Hin|Hnin].
    { right. exists (g, pares). split; [done|]. simpl.
      destruct (proj1 (Hpares i j) Hin) as (k0 & d0 & Hpre0).
      destruct (Hsigue (Hbuenas _ _ _ _ Hpre0)) as [H1 H2].
      split; [|done].
      intros i' j'. rewrite <-H1. rewrite elem_of_union, elem_of_singleton.
      split; [by left|]. intros [?|[= -> ->]]; done. }
    destruct (mg_paralelas mg i j key data Hwf He) as (nbrs & kd & Hgi & Hgj & Hkd).
    destruct (decide (1 < mg_number_of_edges mg i j)%nat) as [Hlt|Hge].
    + unfold mg_getitem2. rewrite Hgi. simpl. rewrite Hgj. simpl.
      destruct (mejor_arista kd).2 as [mejor_data|] eqn:Hbest; [|by left].
      right. eexists. split; [done|]. simpl. apply Hsigue.
      intros [_ Hb]. unfold mejor_arista in Hbest.
      rewrite mejor_arista_ninguna in Hbest; [done|].
      intros [k' d'] Hin'. simpl. apply (Hb k'). by apply Hkd.
    + right. eexists. split; [done|]. simpl. apply Hsigue.
      by intros [? _].
  - exfalso.
    assert (Hex : ∃ k d, (u, v, k, d) ∈ mg_edges mg).
    { unfold mg_number_of_edges in Hnum.
      destruct (OD.get u (mg_adj mg)) as [nbrs|] eqn:Hu; [|simpl in Hnum; lia].
      destruct (OD.get v nbrs) as [kd|] eqn:Hv; [|simpl in Hnum; lia].
      destruct kd as [|[k d] kd]; [simpl in Hnum; lia|].
      exists k, d. apply elem_of_mg_edges. exists nbrs, ((k, d) :: kd).
      split_and!; [by apply get_Some_elem..|by left]. }
    destruct Hex as (k & d & Hin). by apply (Hno u v k d Hin).
Qed.

Lemma ej_negativas_wf : mg_wf ej_negativas.
Proof. apply (bool_decide_unpack _). vm_compute. exact I. Qed.

Lemma ej_negativas_sin_candidata : sin_candidata ej_negativas 0 1.
Proof.
  split; [vm_compute; lia|].
  assert (H : Forall (λ e : Z * Z * Z * gmap string Q, (get_capacity e.2 <= -1)%Q)
                     (mg_edges ej_negativas)).
  { repeat constructor; vm_compute; discriminate. }
  rewrite Forall_forall in H. intros k d Hin. apply (H _ Hin).
Qed.

Lemma simplificar_sin_candidata_witness :
  mg_wf ej_negativas ∧ sin_candidata ej_negativas 0 1 ∧
  _simplificar_a_digraph ej_negativas = Raise TypeError.
Proof.
  split_and!; [exact ej_negativas_wf | exact ej_negativas_sin_candidata |].
  exact (simplificar_sin_candidata ej_negativas 0 1 ej_negativas_wf
           ej_negativas_sin_candidata).
Defined.

(** ** Simplifying a graph that is already simple *)

Lemma sin_paralelas_unica (mg : MultiDiGraph) u v k d k' d' :
  mg_wf mg → sin_paralelas mg →
  (u, v, k, d) ∈ mg_edges mg → (u, v, k', d') ∈ mg_edges mg →
  k = k' ∧ d = d'.
Proof.
  intros Hwf Hsin Hin Hin'.
  destruct (mg_paralelas mg u v k d Hwf Hin) as (nbrs & kd & Hgu & Hgv & Hkd).
  pose proof (Hsin u v) as Hnum. unfold mg_number_of_edges in Hnum.
  rewrite Hgu, Hgv in Hnum.
  apply Hkd in Hin, Hin'.
  destruct kd as [|it [|it2 kd]]; [by apply elem_of_nil in Hin| |simpl in Hnum; lia].
  apply list_elem_of_singleton in Hin, Hin'. by simplify_eq.
Qed.

(** C9 (as the code has it). On a multigraph that is already simple (at most
    one edge per ordered pair, under whatever key) the simplification returns
    the digraph with the same nodes and node attributes and with exactly the
    edges of the input, each with its attributes: no capacity is compared.
    The function cannot be run again on that result: given a digraph it raises
    [TypeError]. *)
Theorem simplificar_grafo_simple (mg : MultiDiGraph) :
  mg_wf mg → mg_cerrado mg → sin_paralelas mg →
  ∃ g, _simplificar_a_digraph_nx (Multi mg) = Ok g ∧
       dg_node g = mg_node mg ∧
       (∀ u v, (u, v) ∈ dg_edges g ↔ ∃ k d, (u, v, k, d) ∈ mg_edges mg) ∧
       (∀ u v k d, (u, v, k, d) ∈ mg_edges mg → dg_edge_data g u v = Some d) ∧
       _simplificar_a_digraph_nx (Simple g) = Raise TypeError.
Proof.
  intros Hwf Hcerr Hsin.
  destruct (simplificar_paralelas_ok mg Hwf) as (g & Hg & Hok & Hiff & Hsel).
  { intros i j k d _ Hlt. pose proof (Hsin i j). lia. }
  exists g. simpl. split_and!; [done| | | |done].
  - by apply simplificar_nodos.
  - intros u v. rewrite <-Hiff. split.
    + by apply elem_dg_edge_data.
    + intros [d Hd]. by eapply dg_edge_data_elem.
  - intros u v k d Hin.
    destruct (Hsel u v) as (k' & d' & Hin' & Hd' & _).
    { apply Hiff. eauto. }
    by destruct (sin_paralelas_unica mg u v k d k' d' Hwf Hsin Hin Hin') as [_ ->].
Qed.

Lemma ej_simple_wf : mg_wf ej_simple.
Proof. apply (bool_decide_unpack _). vm_compute. exact I. Qed.

Lemma ej_simple_cerrado : mg_cerrado ej_simple.
Proof.
  split; [apply (bool_decide_unpack _); vm_compute; exact I|].
  intros u v k d Hin. unfold ej_simple, mg_edges in Hin. simpl in Hin.
  repeat (apply elem_of_cons in Hin as [[= -> -> -> ->]|Hin];
          [split; apply (bool_decide_unpack _); vm_compute; exact I|]).
  by apply elem_of_nil in Hin.
Qed.

Lemma ej_simple_sin_paralelas : sin_paralelas ej_simple.
Proof.
  intros u v. unfold mg_number_of_edges, ej_simple. simpl.
  repeat (case_decide; simpl; try lia).
Qed.

Lemma simplificar_grafo_simple_witness :
  mg_wf ej_simple ∧ mg_cerrado ej_simple ∧ sin_paralelas ej_simple ∧
  ∃ g, _simplificar_a_digraph_nx (Multi ej_simple) = Ok g ∧
       dg_node g = mg_node ej_simple ∧
       (∀ u v, (u, v) ∈ dg_edges g ↔ ∃ k d, (u, v, k, d) ∈ mg_edges ej_simple) ∧
       (∀ u v k d, (u, v, k, d) ∈ mg_edges ej_simple → dg_edge_data g u v = Some d) ∧
       _simplificar_a_digraph_nx (Simple g) = Raise TypeError.
Proof.
  split_and!; [exact ej_simple_wf | exact ej_simple_cerrado
               | exact ej_simple_sin_paralelas |].
  exact (simplificar_grafo_simple ej_simple ej_simple_wf ej_simple_cerrado
           ej_simple_sin_paralelas).
Defined.

(** Run on the simple graph of two streets the function returns the digraph
    with the two streets; run on that digraph it raises [TypeError] instead of
    returning it. *)
Lemma simplificar_no_idempotente_contraejemplo :
  ∃ g, _simplificar_a_digraph_nx (Multi ej_simple) = Ok g ∧
       dg_edges g = [(0, 1); (1, 2)] ∧
       _simplificar_a_digraph_nx (Simple g) = Raise TypeError ∧
       _simplificar_a_digraph_nx (Simple g) ≠ Ok g.
Proof.
  eexists. split_and!; [vm_compute; reflexivity | vm_compute; reflexivity | done | done].
Qed.

(** ** The size of the model *)

Lemma fold_set_frescos {K V A : Type} `{EqDecision K} (f : A → K) (h : A → V)
    (l : list A) (d : list (K * V)) :
  NoDup (f <$> l) → (∀ a, a ∈ l → f a ∉ OD.keys d) →
  fold_left (λ d a, OD.set (f a) (h a) d) l d = d ++ ((λ a, (f a, h a)) <$> l).
Proof.
  revert d. induction l as [|a l IH]; intros d Hnd Hfr; csimpl.
  - by rewrite app_nil_r.
  - apply NoDup_cons in Hnd as [Ha Hnd].
    rewrite set_fresh by (apply Hfr; by left).
    rewrite IH; [by rewrite <-app_assoc|done|].
    intros a' Hin. unfold OD.keys. rewrite fmap_app, not_elem_of_app. split.
    + apply Hfr. by right.
    + csimpl. rewrite list_elem_of_singleton. intros Heq. apply Ha.
      rewrite <-Heq. apply list_elem_of_fmap. eauto.
Qed.

Lemma crear_variables_forma (aristas : list (Z * Z)) (ks : list nat)
    (x0 : list (Z * Z * nat * LpVariable)) :
  NoDup aristas → NoDup ks →
  (∀ key, key ∈ OD.keys x0 → key.2 ∉ ks) →
  fold_left
    (λ x k, fold_left (λ x ij, OD.set (ij.1, ij.2, k) (LpVar ij.1 ij.2 k) x) aristas x)
    ks x0
  = x0 ++ concat (variables_de aristas <$> ks).
Proof.
  intros Har. revert x0. induction ks as [|k ks IH]; intros x0 Hks Hfr; csimpl.
  - by rewrite app_nil_r.
  - apply NoDup_cons in Hks as [Hk Hks].
    rewrite (fold_set_frescos (λ ij : Z * Z, (ij.1, ij.2, k))
               (λ ij, LpVar ij.1 ij.2 k)).
    + rewrite IH; [by rewrite <-app_assoc|done|].
      intros key. unfold OD.keys. rewrite fmap_app, elem_of_app.
      intros [Hin|Hin].
      * intros Hk'. apply (Hfr key Hin). by right.
      * rewrite <-list_fmap_compose in Hin.
        apply list_elem_of_fmap in Hin as (ij & -> & _). simpl. done.
    + apply NoDup_fmap_2; [|done]. by intros [i j] [i' j'] [= -> ->].
    + intros [i j] _ Hin. apply (Hfr _ Hin). simpl. by left.
Qed.

Lemma length_concat_constante {A B : Type} (fam : A → list B) (l : list A) (n : nat) :
  (∀ a, length (fam a) = n) → length (concat (fam <$> l)) = (length l * n)%nat.
Proof.
  intros Hn. induction l as [|a l IH]; csimpl; [done|].
  by rewrite length_app, IH, Hn.
Qed.

(** X14. The size of the built model.  With [K] emergencies on a prepared
    graph with [V] nodes and [E] edges, the model has [K * E] variables, one per
    flow and edge, and [K * V + E] constraints (one conservation equality per
    flow and node, one capacity bound per edge), all under different names. *)
Theorem construir_modelo_tamano
    (mg : MultiDiGraph) (ems : list Emergencia) (origen : Z)
    (costos : option (list (Severidad * CostoUsuario)))
    (self0 : AmbulanceOptimizationModel) :
  init mg ems origen costos = Ok self0 →
  aristas_con (grafo self0) "length" →
  aristas_con (grafo self0) "capacity" →
  ∃ self m,
    construir_modelo self0 = Ok self ∧ modelo self = Some m ∧
    length (x self)
    = (length ems * length (dg_edges (grafo self0)))%nat ∧
    length (constraints m)
    = (length ems * length (dg_nodes (grafo self0))
       + length (dg_edges (grafo self0)))%nat ∧
    NoDup (constraints m).*1 ∧
    (∀ i j k, (i, j) ∈ dg_edges (grafo self0) → (k < length ems)%nat →
              OD.get (i, j, k) (x self) = Some (LpVar i j k)).
Proof.
  intros Hinit Hlen Hcap.
  destruct (modelo_construido _ _ _ _ _ Hinit Hlen Hcap)
    as (self & Hbuild & Hg & Hems & Ho & Hcu & Har & Hno & Hndn & Hnda & Hm).
  eexists self, _. split_and!; [done|exact Hm| | | |].
  - destruct (construir_modelo_forma _ _ Hbuild) as [m ->].
    apply init_forma in Hinit as (g & _ & _ & ->). simpl in *.
    rewrite crear_variables_forma.
    + simpl. rewrite (length_concat_constante _ _ (length (dg_edges g))).
      * by rewrite length_seq.
      * intros k. unfold variables_de. by rewrite length_fmap.
    + done.
    + apply NoDup_seq.
    + intros key Hin. by apply elem_of_nil in Hin.
  - simpl. rewrite length_app, length_fmap. f_equal; [|by rewrite Har].
    unfold pares_flujo.
    rewrite (length_concat_constante _ _ (length (nodos self))).
    + unfold enumerate. by rewrite length_imap, Hems, Hno.
    + intros ke. by rewrite length_fmap.
  - simpl. by apply wf_restricciones.
  - intros i j k Hij Hk.
    destruct (construir_modelo_x _ _ Hbuild) as (Hx & Har' & Hnum).
    apply Hx; [by rewrite Har|].
    apply init_forma in Hinit as (g & _ & _ & ->). simpl in *. by rewrite Hnum.
Qed.

Lemma construir_modelo_tamano_witness :
  init ej_multigrafo ej_emergencias 0 ej_costos = Ok ej_self0 ∧
  aristas_con (grafo ej_self0) "length" ∧
  aristas_con (grafo ej_self0) "capacity" ∧
  ∃ self m,
    construir_modelo ej_self0 = Ok self ∧ modelo self = Some m ∧
    length (x self)
    = (length ej_emergencias * length (dg_edges (grafo ej_self0)))%nat ∧
    length (constraints m)
    = (length ej_emergencias * length (dg_nodes (grafo ej_self0))
       + length (dg_edges (grafo ej_self0)))%nat ∧
    NoDup (constraints m).*1 ∧
    (∀ i j k, (i, j) ∈ dg_edges (grafo ej_self0) → (k < length ej_emergencias)%nat →
              OD.get (i, j, k) (x self) = Some (LpVar i j k)).
Proof.
  split_and!; [exact ej_init | exact ej_con_length | exact ej_con_capacity |].
  exact (construir_modelo_tamano ej_multigrafo ej_emergencias 0 ej_costos ej_self0
           ej_init ej_con_length ej_con_capacity).
Defined.

(** ** What the builder needs from the graph *)

(** A loop whose rounds raise [e] on the elements outside [P] and return on the
    others raises [e] as soon as some element is outside [P]. *)
Lemma for_each_primero_que_falla {A S : Type} (P : A → Prop) `{∀ a, Decision (P a)}
    (body : S → A → result S) (xs : list A) (e : exn) :
  (∀ s a, a ∈ xs → P a → ∃ s', body s a = Ok s') →
  (∀ s a, a ∈ xs → ¬ P a → body s a = Raise e) →
  ¬ Forall P xs →
  ∀ s, for_each body xs s = Raise e.
Proof.
  intros Hsi Hno. induction xs as [|a xs IH]; intros Hex s.
  - exfalso. apply Hex. constructor.
  - simpl. destruct (decide (P a)) as [Ha|Ha].
    + destruct (Hsi s a) as [s' ->]; [by left|done|]. simpl.
      apply IH.
      * intros s0 a0 Hin HP. apply Hsi; [by right|done].
      * intros s0 a0 Hin HP. apply Hno; [by right|done].
      * intros Hall. apply Hex. by constructor.
    + rewrite (Hno s a); [done|by left|done].
Qed.

Lemma atributo_arista_is_Some (g : DiGraph) (i j : Z) (name : string) (q : Q) :
  atributo_arista g i j name = Ok q →
  is_Some (dg_edge_data g i j ≫= (.!! name)).
Proof.
  unfold atributo_arista. destruct (dg_edge_data g i j) as [d|]; [|done]. simpl.
  destruct (d !! name); [by eauto|done].
Qed.

Lemma atributo_arista_falta (g : DiGraph) (i j : Z) (name : string) :
  dg_ok g → (i, j) ∈ dg_edges g →
  ¬ is_Some (dg_edge_data g i j ≫= (.!! name)) →
  atributo_arista g i j name = Raise (KeyError name).
Proof.
  intros Hok Hin Hno. destruct (elem_dg_edge_data g i j Hok Hin) as [d Hd].
  unfold atributo_arista. rewrite Hd in *. simpl in *.
  destruct (d !! name); [|done]. exfalso. apply Hno. by eauto.
Qed.

#[local] Instance aristas_con_dec (g : DiGraph) (name : string) :
  Decision (aristas_con g name).
Proof. unfold aristas_con. apply _. Defined.

Section atributos.
Variable self0 : AmbulanceOptimizationModel.
Hypothesis Har : aristas self0 = dg_edges (grafo self0).
Hypothesis Hno : nodos self0 = dg_nodes (grafo self0).
Hypothesis Hnum : num_emergencias self0 = length (emergencias self0).
Hypothesis Hok : dg_ok (grafo self0).

Lemma objetivo_sin_length :
  emergencias self0 ≠ [] →
  ¬ aristas_con (grafo self0) "length" →
  _definir_funcion_objetivo (con_variables self0) = Raise (KeyError "length").
Proof.
  intros Hems Hlen. set (self1 := con_variables self0).
  unfold _definir_funcion_objetivo.
  assert (Hx : x_completa self1) by apply crear_variables_x.
  destruct (emergencias self0) as [|e0 ems] eqn:He; [done|].
  change (emergencias self1) with (emergencias self0). rewrite He.
  assert (Hflujo : ∀ cv, costo_aristas_flujo self1 cv (0%nat, e0)
                         = Raise (KeyError "length")).
  { intros cv. unfold costo_aristas_flujo. cbn [fst snd].
    apply (for_each_primero_que_falla
             (λ ij, is_Some (dg_edge_data (grafo self0) ij.1 ij.2
                             ≫= (.!! "length")))).
    - intros cv' [i j] Hin [q Hq]. simpl in *.
      unfold atributo_arista. change (grafo self1) with (grafo self0).
      destruct (dg_edge_data (grafo self0) i j) as [d|]; [|done]. simpl in *.
      rewrite Hq. simpl. unfold x_get. rewrite Hx; [by eauto|done|].
      change (num_emergencias self1) with (num_emergencias self0).
      rewrite Hnum. simpl. lia.
    - intros cv' [i j] Hin Hq. simpl in *.
      change (grafo self1) with (grafo self0).
      rewrite atributo_arista_falta; [done|done| |done].
      change (aristas self1) with (aristas self0) in Hin. by rewrite <-Har.
    - change (aristas self1) with (aristas self0). by rewrite Har. }
  change (enumerate (e0 :: ems)) with ((0%nat, e0) :: imap (pair ∘ S) ems).
  cbn [for_each]. by rewrite Hflujo.
Qed.

Lemma construir_modelo_sin_emergencias :
  emergencias self0 = [] →
  aristas_con (grafo self0) "capacity" →
  ∃ self, construir_modelo self0 = Ok self.
Proof.
  intros Hems Hcap. unfold construir_modelo. fold (con_variables self0).
  set (self1 := con_variables self0).
  assert (Hx : x_completa self1) by apply crear_variables_x.
  unfold _definir_funcion_objetivo.
  change (emergencias self1) with (emergencias self0). rewrite Hems. simpl.
  unfold _agregar_restricciones, _restriccion_conservacion_flujo. simpl.
  rewrite Hems. simpl.
  match goal with |- context [_restriccion_capacidad_vias ?s] => set (self3 := s) end.
  assert (Hx3 : x_completa self3) by (do 2 apply x_completa_con_modelo; exact Hx).
  assert (Hnum3 : num_emergencias self3 = length (emergencias self3)) by exact Hnum.
  assert (Har3 : aristas self3 = dg_edges (grafo self3)) by exact Har.
  rewrite (capacidad_vias_forma_cerrada self3 Hx3 Hnum3 Har3 _ Hcap eq_refl);
    [by eauto|].
  change (OD.wf (par_arista self3 <$> aristas self3)).
  apply (wf_pares_arista self3). rewrite Har3. by apply NoDup_dg_edges.
Qed.
End atributos.

(** X15. What the builder needs from the prepared graph.  It succeeds exactly
    when every edge carries ['capacity'] and, unless there are no emergencies,
    every edge carries ['length']; with at least one emergency and an edge
    without ['length'] it raises [KeyError] for ['length'] while it states the
    objective. *)
Theorem construir_modelo_exige_atributos
    (mg : MultiDiGraph) (ems : list Emergencia) (origen : Z)
    (costos : option (list (Severidad * CostoUsuario)))
    (self0 : AmbulanceOptimizationModel) :
  init mg ems origen costos = Ok self0 →
  ((∃ self, construir_modelo self0 = Ok self)
   ↔ aristas_con (grafo self0) "capacity" ∧
     (ems = [] ∨ aristas_con (grafo self0) "length")) ∧
  (ems ≠ [] → ¬ aristas_con (grafo self0) "length" →
   construir_modelo self0 = Raise (KeyError "length")).
Proof.
  intros Hinit. pose proof Hinit as (g & Hg & Hok & Hself)%init_forma.
  assert (Har : aristas self0 = dg_edges (grafo self0)) by (by subst).
  assert (Hno : nodos self0 = dg_nodes (grafo self0)) by (by subst).
  assert (Hnum : num_emergencias self0 = length (emergencias self0)) by (by subst).
  assert (Hok0 : dg_ok (grafo self0)) by (by subst).
  assert (Hems : emergencias self0 = ems) by (by subst).
  split.
  - split.
    + intros [self Hbuild]. unfold construir_modelo in Hbuild.
      fold (con_variables self0) in Hbuild.
      apply bind_Ok in Hbuild as (self2 & Hobj & Hres).
      pose proof Hobj as [m2 ->]%definir_funcion_objetivo_forma.
      unfold _agregar_restricciones in Hres.
      apply bind_Ok in Hres as (self3 & Hcons & Hcapv).
      pose proof Hcons as [m3 ->]%conservacion_flujo_forma.
      split.
      * unfold _restriccion_capacidad_vias in Hcapv.
        apply bind_Ok in Hcapv as (m0 & _ & Hcapv).
        apply bind_Ok in Hcapv as (m & Hfe & _).
        apply Forall_forall. intros [i j] Hij.
        destruct (for_each_Ok_elem _ _ _ _ (i, j) Hfe) as (s1 & s2 & Hb).
        { simpl. by rewrite Har. }
        unfold restriccion_arista in Hb. apply bind_Ok in Hb as (q & Hq & _).
        by apply atributo_arista_is_Some in Hq.
      * destruct ems as [|e0 ems']; [by left|]. right.
        unfold _definir_funcion_objetivo in Hobj.
        apply bind_Ok in Hobj as (cv & Hfe & _).
        destruct (for_each_Ok_elem _ _ _ _ (0%nat, e0) Hfe) as (s1 & s2 & Hb).
        { apply elem_of_enumerate. simpl. by rewrite Hems. }
        unfold costo_aristas_flujo in Hb.
        apply Forall_forall. intros [i j] Hij.
        destruct (for_each_Ok_elem _ _ _ _ (i, j) Hb) as (s3 & s4 & Hb').
        { simpl. by rewrite Har. }
        apply bind_Ok in Hb' as (q & Hq & _).
        by apply atributo_arista_is_Some in Hq.
    + intros [Hcap [->|Hlen]].
      * by apply construir_modelo_sin_emergencias.
      * destruct (modelo_construido _ _ _ _ _ Hinit Hlen Hcap) as (self & Hb & _).
        by eauto.
  - intros Hne Hlen. unfold construir_modelo. fold (con_variables self0).
    rewrite objetivo_sin_length; [done..| |done]. by rewrite Hems.
Qed.

Lemma construir_modelo_exige_atributos_witness :
  init ej_sin_length ej_emergencias 0 None = Ok ej_self_sin_length ∧
  ((∃ self, construir_modelo ej_self_sin_length = Ok self)
   ↔ aristas_con (grafo ej_self_sin_length) "capacity" ∧
     (ej_emergencias = [] ∨ aristas_con (grafo ej_self_sin_length) "length")) ∧
  (ej_emergencias ≠ [] → ¬ aristas_con (grafo ej_self_sin_length) "length" →
   construir_modelo ej_self_sin_length = Raise (KeyError "length")).
Proof.
  assert (H : init ej_sin_length ej_emergencias 0 None = Ok ej_self_sin_length)
    by (vm_compute; reflexivity).
  split; [exact H|].
  exact (construir_modelo_exige_atributos ej_sin_length ej_emergencias 0 None
           ej_self_sin_length H).
Defined.

Example construir_modelo_sin_length_ejemplo :
  construir_modelo ej_self_sin_length = Raise (KeyError "length").
Proof. vm_compute. reflexivity. Qed.

(** ** Where the reconstruction of a route stops *)

Section ruta_final.
Variable self : AmbulanceOptimizationModel.
Variable varValue : LpVariable → Q.
Variable k : nat.
Hypothesis Hx : x_completa self.
Hypothesis Hk : (k < num_emergencias self)%nat.

Lemma buscar_siguiente_None nodo_actual restantes :
  restantes ⊆ aristas self →
  buscar_siguiente self varValue k nodo_actual restantes = Ok None →
  ∀ j, (nodo_actual, j) ∈ restantes → ¬ flujo_usa varValue nodo_actual j k.
Proof.
  induction restantes as [|[i j] rs IH]; intros Hsub Hb j0 Hin.
  - by apply elem_of_nil in Hin.
  - assert (Hsub' : rs ⊆ aristas self) by (intros e He; apply Hsub; by right).
    simpl in Hb. destruct (decide (i = nodo_actual)) as [->|Hne].
    + unfold x_get in Hb. rewrite Hx in Hb; [|apply Hsub; by left|done].
      simpl in Hb.
      destruct (Qgtb (varValue (LpVar nodo_actual j k)) (1 # 2)) eqn:Hgt; [done|].
      apply elem_of_cons in Hin as [[= ->]|Hin]; [|by apply IH].
      apply Qgtb_false in Hgt. unfold flujo_usa. by apply Qle_not_lt.
    + apply elem_of_cons in Hin as [[= -> ->]|Hin]; [done|by apply IH].
Qed.

(** The edge the search returns is the first one out of the node, in the
    order of [self.aristas], that the flow uses. *)
Lemma buscar_siguiente_primera nodo_actual restantes j :
  restantes ⊆ aristas self →
  buscar_siguiente self varValue k nodo_actual restantes = Ok (Some j) →
  primera_usada varValue k restantes nodo_actual j.
Proof.
  induction restantes as [|[i j0] rs IH]; intros Hsub Hb; [done|].
  assert (Hsub' : rs ⊆ aristas self) by (intros e He; apply Hsub; by right).
  assert (Hsigue : buscar_siguiente self varValue k nodo_actual rs = Ok (Some j) →
                   ¬ ((i, j0).1 = nodo_actual ∧ flujo_usa varValue nodo_actual j0 k) →
                   primera_usada varValue k ((i, j0) :: rs) nodo_actual j).
  { intros Hrs Hno. destruct (IH Hsub' Hrs) as (pre & post & -> & Hu & Hpre).
    exists ((i, j0) :: pre), post. split_and!; [done|done|].
    intros j' [[= -> ->]|Hin]%elem_of_cons; [|by apply Hpre].
    intros Hu'. by apply Hno. }
  simpl in Hb. destruct (decide (i = nodo_actual)) as [->|Hne].
  - unfold x_get in Hb. rewrite Hx in Hb; [|apply Hsub; by left|done].
    simpl in Hb.
    destruct (Qgtb (varValue (LpVar nodo_actual j0 k)) (1 # 2)) eqn:Hgt.
    + injection Hb as <-. exists [], rs. split_and!; [done| |].
      * by apply Qgtb_true.
      * by intros j' []%elem_of_nil.
    + apply Hsigue; [done|]. intros [_ Hu]. apply Qgtb_false in Hgt.
      by apply Qle_not_lt in Hgt.
  - apply Hsigue; [done|]. by intros [? _].
Qed.

(** The loop stops at the destination, at a node none of whose edges the
    flow uses, or at a node whose chosen edge leads back into the route. *)
Lemma ruta_loop_final destino fuel :
  ∀ ruta pre nodo_actual visitados r,
    ruta = pre ++ [nodo_actual] →
    (∀ n, n ∈ ruta ↔ n ∈ visitados) →
    ruta_loop fuel self varValue k destino ruta nodo_actual visitados = Some (Ok r) →
    ∃ fin, last r = Some fin ∧
           (fin = destino ∨
            (∀ j, (fin, j) ∈ aristas self → ¬ flujo_usa varValue fin j k) ∨
            (∃ j, primera_usada varValue k (aristas self) fin j ∧ j ∈ r)).
Proof.
  induction fuel as [|fuel IH]; intros ruta pre nodo_actual visitados r Hruta Hvis;
    simpl.
  - destruct (decide (nodo_actual = destino)) as [->|]; [|done].
    intros [= <-]. exists destino. rewrite Hruta, last_snoc. by eauto.
  - destruct (decide (nodo_actual = destino)) as [->|Hdest].
    { intros [= <-]. exists destino. rewrite Hruta, last_snoc. by eauto. }
    destruct (buscar_siguiente_ok self varValue k Hx Hk nodo_actual (aristas self))
      as (o & Ho & Hspec); [done|].
    rewrite Ho. destruct o as [j|].
    + destruct (Hspec j eq_refl) as [Hin Hval].
      destruct (decide (j ∈ visitados)) as [Hya|Hnew].
      * intros [= <-]. exists nodo_actual. rewrite Hruta, last_snoc.
        split; [done|]. right. right. exists j. split.
        -- by apply buscar_siguiente_primera.
        -- rewrite <-Hruta. by apply Hvis.
      * apply (IH _ ruta); [done|].
        intros n. rewrite elem_of_app, list_elem_of_singleton, Hvis. set_solver.
    + intros [= <-]. exists nodo_actual. rewrite Hruta, last_snoc.
      split; [done|]. right. left.
      by apply (buscar_siguiente_None nodo_actual (aristas self)).
Qed.

(** The loop run on a simple path whose edges are exactly those the flow
    uses walks the path to its end. *)
Lemma ruta_loop_camino destino (p : list Z) :
  NoDup p → last p = Some destino →
  (∀ i j, seguidos p i j → (i, j) ∈ aristas self) →
  (∀ i j, (i, j) ∈ aristas self → flujo_usa varValue i j k → seguidos p i j) →
  (∀ i j, seguidos p i j → flujo_usa varValue i j k) →
  ∀ resto pre nodo_actual visitados,
    p = pre ++ nodo_actual :: resto →
    (∀ n, n ∈ pre ++ [nodo_actual] ↔ n ∈ visitados) →
    ruta_loop (length resto) self varValue k destino (pre ++ [nodo_actual])
              nodo_actual visitados
    = Some (Ok p).
Proof.
  intros Hnd Hlast Hedges Hsolo Husa.
  induction resto as [|next resto IH]; intros pre nodo_actual visitados Hp Hvis.
  - simpl. rewrite Hp in Hlast. rewrite last_snoc in Hlast.
    injection Hlast as ->. rewrite decide_True by done. by rewrite Hp.
  - assert (Hseg : seguidos p nodo_actual next).
    { exists (length pre). rewrite Hp. split.
      - by rewrite lookup_app_r, Nat.sub_diag by lia.
      - rewrite lookup_app_r by lia.
        by replace (S (length pre) - length pre)%nat with 1%nat by lia. }
    assert (Hpos : ∀ n m x, p !! n = Some x → p !! m = Some x → n = m).
    { intros n m x Hn Hm. by eapply NoDup_lookup. }
    assert (Hact : p !! length pre = Some nodo_actual).
    { rewrite Hp. by rewrite lookup_app_r, Nat.sub_diag by lia. }
    assert (Hdest : nodo_actual ≠ destino).
    { intros ->. rewrite last_lookup in Hlast.
      pose proof (Hpos _ _ _ Hact Hlast) as Heq.
      rewrite Hp, length_app in Heq. simpl in Heq. lia. }
    cbn [length ruta_loop]. rewrite decide_False by done.
    destruct (buscar_siguiente_ok self varValue k Hx Hk nodo_actual (aristas self))
      as (o & Ho & Hspec); [done|].
    rewrite Ho. destruct o as [j|].
    + destruct (Hspec j eq_refl) as [Hin Hval].
      destruct (Hsolo _ _ Hin Hval) as (n & Hn & Hj).
      assert (n = length pre) as -> by (by eapply Hpos).
      assert (j = next) as ->.
      { destruct Hseg as (m & Hm & Hnext).
        assert (m = length pre) as -> by (by eapply Hpos). congruence. }
      rewrite decide_False.
      * rewrite <-(app_assoc pre [nodo_actual] [next]).
        replace (pre ++ [nodo_actual] ++ [next])
          with ((pre ++ [nodo_actual]) ++ [next]) by (by rewrite <-app_assoc).
        apply IH.
        -- by rewrite <-app_assoc.
        -- intros x. rewrite elem_of_app, list_elem_of_singleton, Hvis. set_solver.
      * rewrite <-Hvis. intros Hya.
        apply list_elem_of_lookup in Hya as [m Hm].
        assert (Hm' : p !! m = Some next).
        { rewrite Hp.
          replace (pre ++ nodo_actual :: next :: resto)
            with ((pre ++ [nodo_actual]) ++ next :: resto) by (by rewrite <-app_assoc).
          by apply lookup_app_l_Some. }
        pose proof (Hpos _ _ _ Hj Hm') as Heq.
        apply lookup_lt_Some in Hm. rewrite length_app in Hm. simpl in Hm. lia.
    + exfalso.
      apply (buscar_siguiente_None nodo_actual (aristas self) (reflexivity _) Ho next).
      * by apply Hedges.
      * by apply Husa.
Qed.
End ruta_final.

(** The model [construir_modelo] returns, as the reconstruction sees it. *)
Lemma modelo_para_rutas (mg : MultiDiGraph) (ems : list Emergencia) (origen : Z)
    (costos : option (list (Severidad * CostoUsuario)))
    (self0 self : AmbulanceOptimizationModel) :
  init mg ems origen costos = Ok self0 →
  construir_modelo self0 = Ok self →
  x_completa self ∧ num_emergencias self = length ems ∧
  aristas self = dg_edges (grafo self) ∧ nodo_origen self = origen ∧
  emergencias self = ems ∧ grafo self = grafo self0 ∧
  costos_usuario self = costos ∧ dg_ok (grafo self) ∧ dg_wf (grafo self).
Proof.
  intros Hinit Hbuild.
  destruct (construir_modelo_x _ _ Hbuild) as (Hx & Har & Hnum).
  apply construir_modelo_forma in Hbuild as [m ->].
  pose proof Hinit as (g & Hg & Hok & ->)%init_forma.
  simpl in *. split_and!; try done. by apply (simplificar_dg_wf mg).
Qed.

(** X16. Where a reconstructed route ends.  For every assignment of the
    variables the route of flow [k] ends at the destination, or at a node none
    of whose outgoing edges the flow uses (the route could not be completed),
    or at a node whose first used outgoing edge, in the order of the edges of
    the graph, leads to a node already on the route (a cycle). *)
Theorem reconstruir_ruta_flujo_final
    (mg : MultiDiGraph) (ems : list Emergencia) (origen : Z)
    (costos : option (list (Severidad * CostoUsuario)))
    (self0 self : AmbulanceOptimizationModel)
    (varValue : LpVariable → Q) (k : nat) (destino : Z) :
  init mg ems origen costos = Ok self0 →
  construir_modelo self0 = Ok self →
  (k < length ems)%nat →
  ∃ ruta fin,
    _reconstruir_ruta_flujo self varValue k destino = Some (Ok ruta) ∧
    last ruta = Some fin ∧
    (fin = destino ∨
     (∀ j, (fin, j) ∈ dg_edges (grafo self) → ¬ flujo_usa varValue fin j k) ∨
     (∃ j, primera_usada varValue k (dg_edges (grafo self)) fin j ∧ j ∈ ruta)).
Proof.
  intros Hinit Hbuild Hk.
  destruct (modelo_para_rutas _ _ _ _ _ _ Hinit Hbuild)
    as (Hx & Hnum & Har & Ho & _).
  rewrite <-Hnum in Hk. rewrite <-Har. unfold _reconstruir_ruta_flujo. rewrite Ho.
  destruct (ruta_loop_ok self varValue k Hx Hk destino (S (length (aristas self)))
              [origen] [] origen {[ origen ]}) as (r & Hr & _).
  - done.
  - by rewrite Ho.
  - apply NoDup_singleton.
  - intros n. rewrite list_elem_of_singleton. set_solver.
  - intros n cur next _ Hnext. by destruct n.
  - pose proof (pendientes_le self {[ origen ]}). lia.
  - destruct (ruta_loop_final self varValue k Hx Hk destino
                (S (length (aristas self))) [origen] [] origen
                {[ origen ]} r eq_refl) as (fin & Hfin & Hcasos); [|done|].
    + intros n. rewrite list_elem_of_singleton. set_solver.
    + by exists r, fin.
Qed.

Lemma reconstruir_ruta_flujo_final_witness :
  init ej_multigrafo ej_emergencias 0 ej_costos = Ok ej_self0 ∧
  construir_modelo ej_self0 = Ok ej_self ∧
  (0 < length ej_emergencias)%nat ∧
  ∃ ruta fin,
    _reconstruir_ruta_flujo ej_self ej_varValue 0 3 = Some (Ok ruta) ∧
    last ruta = Some fin ∧
    (fin = 3 ∨
     (∀ j, (fin, j) ∈ dg_edges (grafo ej_self) → ¬ flujo_usa ej_varValue fin j 0) ∨
     (∃ j, primera_usada ej_varValue 0 (dg_edges (grafo ej_self)) fin j ∧
           j ∈ ruta)).
Proof.
  assert (H2 : construir_modelo ej_self0 = Ok ej_self) by (vm_compute; reflexivity).
  assert (H3 : (0 < length ej_emergencias)%nat) by (simpl; lia).
  split_and!; [exact ej_init | exact H2 | exact H3 |].
  exact (reconstruir_ruta_flujo_final ej_multigrafo ej_emergencias 0 ej_costos
           ej_self0 ej_self ej_varValue 0 3 ej_init H2 H3).
Defined.

(** X17. The reconstruction inverts the encoding of a path.  When the edges
    that flow [k] uses are exactly the steps of a path without repeated nodes
    from the origin to the destination, the route returned is that path. *)
Theorem reconstruir_ruta_flujo_camino
    (mg : MultiDiGraph) (ems : list Emergencia) (origen : Z)
    (costos : option (list (Severidad * CostoUsuario)))
    (self0 self : AmbulanceOptimizationModel)
    (varValue : LpVariable → Q) (k : nat) (destino : Z) (p : list Z) :
  init mg ems origen costos = Ok self0 →
  construir_modelo self0 = Ok self →
  (k < length ems)%nat →
  head p = Some origen → last p = Some destino → NoDup p →
  (∀ i j, seguidos p i j → (i, j) ∈ dg_edges (grafo self)) →
  (∀ i j, (i, j) ∈ dg_edges (grafo self) →
          (flujo_usa varValue i j k ↔ seguidos p i j)) →
  _reconstruir_ruta_flujo self varValue k destino = Some (Ok p).
Proof.
  intros Hinit Hbuild Hk Hhead Hlast Hnd Hedges Hiff.
  destruct (modelo_para_rutas _ _ _ _ _ _ Hinit Hbuild)
    as (Hx & Hnum & Har & Ho & _).
  rewrite <-Hnum in Hk. rewrite <-Har in Hedges, Hiff.
  unfold _reconstruir_ruta_flujo. rewrite Ho.
  destruct p as [|o resto]; [done|]. injection Hhead as ->.
  pose proof (ruta_loop_camino self varValue k Hx Hk destino (origen :: resto)
                Hnd Hlast Hedges) as Hcam.
  specialize (Hcam (λ i j Hin Hu, proj1 (Hiff i j Hin) Hu)).
  specialize (Hcam (λ i j Hs, proj2 (Hiff i j (Hedges i j Hs)) Hs)).
  specialize (Hcam resto [] origen {[ origen ]} eq_refl).
  simpl in Hcam.
  destruct (ruta_loop_ok self varValue k Hx Hk destino (S (length (aristas self)))
              [origen] [] origen {[ origen ]}) as (r & Hr & _).
  - done.
  - by rewrite Ho.
  - apply NoDup_singleton.
  - intros n. rewrite list_elem_of_singleton. set_solver.
  - intros n cur next _ Hnext. by destruct n.
  - pose proof (pendientes_le self {[ origen ]}). lia.
  - assert (Hcam' : ruta_loop (length resto) self varValue k destino [origen] origen
                      {[ origen ]} = Some (Ok (origen :: resto))).
    { apply Hcam. intros n. rewrite list_elem_of_singleton. set_solver. }
    rewrite Hr.
    set (F := (length resto `max` S (length (aristas self)))%nat).
    apply (ruta_loop_mono_le self varValue k destino _ F) in Hr; [|lia].
    apply (ruta_loop_mono_le self varValue k destino _ F) in Hcam'; [|lia].
    rewrite Hcam' in Hr. by injection Hr as <-.
Qed.

(** The path [0 -> 1 -> 3] of the scenario, used by flow 0. *)
Lemma ej_camino_seguidos (i j : Z) :
  seguidos [0; 1; 3] i j ↔ (i, j) = (0, 1) ∨ (i, j) = (1, 3).
Proof.
  unfold seguidos. split.
  - intros (n & Hn & Hs). destruct n as [|[|[|n]]]; simplify_eq/=; eauto.
  - intros [[= -> ->]|[= -> ->]]; [by exists 0%nat|by exists 1%nat].
Qed.

Lemma reconstruir_ruta_flujo_camino_witness :
  init ej_multigrafo ej_emergencias 0 ej_costos = Ok ej_self0 ∧
  construir_modelo ej_self0 = Ok ej_self ∧
  (0 < length ej_emergencias)%nat ∧
  head [0; 1; 3] = Some 0 ∧ last [0; 1; 3] = Some 3 ∧ NoDup [0; 1; 3] ∧
  (∀ i j, seguidos [0; 1; 3] i j → (i, j) ∈ dg_edges (grafo ej_self)) ∧
  (∀ i j, (i, j) ∈ dg_edges (grafo ej_self) →
          (flujo_usa ej_varValue i j 0 ↔ seguidos [0; 1; 3] i j)) ∧
  _reconstruir_ruta_flujo ej_self ej_varValue 0 3 = Some (Ok [0; 1; 3]).
Proof.
  assert (H2 : construir_modelo ej_self0 = Ok ej_self) by (vm_compute; reflexivity).
  assert (H3 : (0 < length ej_emergencias)%nat) by (simpl; lia).
  assert (H4 : head [0; 1; 3] = Some 0) by reflexivity.
  assert (H5 : last [0; 1; 3] = Some 3) by reflexivity.
  assert (H6 : NoDup [0; 1; 3]) by (apply (bool_decide_unpack _); vm_compute; exact I).
  assert (H7 : ∀ i j, seguidos [0; 1; 3] i j → (i, j) ∈ dg_edges (grafo ej_self)).
  { intros i j [[= -> ->]|[= -> ->]]%ej_camino_seguidos;
      apply (bool_decide_unpack _); vm_compute; exact I. }
  assert (H8 : ∀ i j, (i, j) ∈ dg_edges (grafo ej_self) →
                      (flujo_usa ej_varValue i j 0 ↔ seguidos [0; 1; 3] i j)).
  { intros i j Hin. rewrite ej_camino_seguidos.
    assert (He : dg_edges (grafo ej_self) = [(0, 1); (0, 2); (1, 3); (2, 3)])
      by (vm_compute; reflexivity).
    rewrite He in Hin.
    repeat (apply elem_of_cons in Hin as [[= -> ->]|Hin]);
      try (by apply elem_of_nil in Hin);
      unfold flujo_usa; simpl; (split; [intros Hu|intros [[=]|[=]]]);
      try (by eauto); try (by vm_compute in Hu). }
  split_and!; [exact ej_init | exact H2 | exact H3 | exact H4 | exact H5 | exact H6
               | exact H7 | exact H8 |].
  exact (reconstruir_ruta_flujo_camino ej_multigrafo ej_emergencias 0 ej_costos
           ej_self0 ej_self ej_varValue 0 3 [0; 1; 3] ej_init H2 H3 H4 H5 H6 H7 H8).
Defined.

(** ** The details of the flows *)

Lemma elem_of_pasos (p : list Z) (i j : Z) : (i, j) ∈ pasos p ↔ seguidos p i j.
Proof.
  unfold pasos, seguidos. rewrite elem_of_lookup_zip_with. split.
  - intros (n & a & b & [= -> ->] & Ha & Hb). exists n.
    by rewrite lookup_tail in Hb.
  - intros (n & Hi & Hj). exists n, i, j. by rewrite lookup_tail.
Qed.

Lemma NoDup_pasos (p : list Z) : NoDup p → NoDup (pasos p).
Proof.
  intros Hnd. unfold pasos. apply (NoDup_fmap_1 snd).
  rewrite snd_zip by (destruct p; simpl; lia).
  destruct p as [|a p]; [constructor|]. by apply NoDup_cons in Hnd as [_ ?].
Qed.

Lemma length_pasos (p : list Z) : length (pasos p) = (length p - 1)%nat.
Proof.
  unfold pasos. rewrite length_zip_with. destruct p; [done|]. cbn [tail length]. lia.
Qed.

Section detalles.
Variable self : AmbulanceOptimizationModel.
Variable varValue : LpVariable → Q.
Hypothesis Hx : x_completa self.
Hypothesis Hnum : num_emergencias self = length (emergencias self).
Hypothesis Har : aristas self = dg_edges (grafo self).
Hypothesis Hlen : aristas_con (grafo self) "length".
Hypothesis Hcap : aristas_con (grafo self) "capacity".

Lemma buscar_arista_encontrada (k : nat) (i j : Z) (st : Recorrido) :
  (k < num_emergencias self)%nat →
  flujo_usa varValue i j k →
  ∀ restantes, restantes ⊆ aristas self → (i, j) ∈ restantes →
    buscar_arista self varValue k i j restantes st
    = Ok (st.1.1 + length_m (grafo self) i j,
          st.1.2 ++ [(i, j)],
          st.2 ++ [capacity_kmh (grafo self) i j])%Q.
Proof.
  intros Hk Husa. induction restantes as [|[i' j'] rs IH]; intros Hsub Hin.
  - by apply elem_of_nil in Hin.
  - simpl. destruct (decide (i' = i ∧ j' = j)) as [[-> ->]|Hne].
    + unfold x_get. rewrite Hx; [|apply Hsub; by left|done]. simpl.
      rewrite (proj2 (Qgtb_true _ _)) by exact Husa.
      rewrite !atributo_arista_Ok by (done || (apply Hsub; by left)).
      done.
    + apply IH.
      * intros e He. apply Hsub. by right.
      * apply elem_of_cons in Hin as [[= -> ->]|Hin]; [|done].
        exfalso. by apply Hne.
Qed.

(** The walk along a route whose steps are edges the flow uses. *)
Lemma recorrido_ok (k : nat) :
  (k < num_emergencias self)%nat →
  ∀ (ps : list (Z * Z)) (st : Recorrido),
    (∀ i j, (i, j) ∈ ps → (i, j) ∈ aristas self ∧ flujo_usa varValue i j k) →
    ∃ d, for_each (λ st paso, buscar_arista self varValue k paso.1 paso.2
                                (aristas self) st) ps st
         = Ok (d, st.1.2 ++ ps,
               st.2 ++ ((λ ij, capacity_kmh (grafo self) ij.1 ij.2) <$> ps)) ∧
         (d == st.1.1 + suma ((λ ij, length_m (grafo self) ij.1 ij.2) <$> ps))%Q.
Proof.
  intros Hk. induction ps as [|[i j] ps IH]; intros st Hps.
  - exists st.1.1. simpl. rewrite !app_nil_r. split; [by destruct st as [[??]?]|ring].
  - destruct (Hps i j) as [Hin Husa]; [by left|].
    cbn [for_each fst snd].
    rewrite buscar_arista_encontrada by done. simpl.
    destruct (IH (st.1.1 + length_m (grafo self) i j,
                  st.1.2 ++ [(i, j)],
                  st.2 ++ [capacity_kmh (grafo self) i j])%Q)
      as (d & -> & Hd).
    { intros i' j' Hin'. apply Hps. by right. }
    exists d. simpl. rewrite <-!app_assoc. split; [done|].
    rewrite Hd. csimpl. ring.
Qed.

(** Every route is reconstructed, in the order of the emergencies. *)
Lemma reconstruir_desde_ok (kes : list (nat * Emergencia)) :
  ∀ rutas,
    (∀ ke, ke ∈ kes → (ke.1 < num_emergencias self)%nat) →
    ∃ nuevas,
      reconstruir_desde self varValue kes rutas = Some (Ok (rutas ++ nuevas)) ∧
      length nuevas = length kes ∧
      ∀ n ke, kes !! n = Some ke →
        ∃ ruta, nuevas !! n = Some ruta ∧
                _reconstruir_ruta_flujo self varValue ke.1 (nodo_destino ke.2)
                = Some (Ok ruta) ∧
                NoDup ruta ∧ encadenada self varValue ke.1 ruta.
Proof.
  induction kes as [|[k e] kes IH]; intros rutas Hks.
  - exists []. rewrite app_nil_r. split_and!; [done..|].
    intros n ke Hn. by rewrite lookup_nil in Hn.
  - assert (Hk : (k < num_emergencias self)%nat) by (apply (Hks (k, e)); by left).
    destruct (ruta_loop_ok self varValue k Hx Hk (nodo_destino e)
                (S (length (aristas self)))
                [nodo_origen self] [] (nodo_origen self) {[ nodo_origen self ]})
      as (r & Hr & _ & Hnd & Henc).
    + done.
    + done.
    + apply NoDup_singleton.
    + intros n. rewrite list_elem_of_singleton. set_solver.
    + intros n cur next _ Hnext. by destruct n.
    + pose proof (pendientes_le self {[ nodo_origen self ]}). lia.
    + simpl. unfold _reconstruir_ruta_flujo at 1. rewrite Hr.
      destruct (IH (rutas ++ [r])) as (nuevas & -> & Hl & Hspec).
      { intros ke Hin. apply Hks. by right. }
      exists (r :: nuevas). rewrite <-app_assoc. simpl.
      split_and!; [done|by rewrite Hl|].
      intros [|n] ke Hn; simpl in *.
      * injection Hn as <-. exists r. split_and!; done.
      * by apply Hspec.
Qed.

Lemma enumerate_menor (ke : nat * Emergencia) :
  ke ∈ enumerate (emergencias self) → (ke.1 < num_emergencias self)%nat.
Proof.
  destruct ke as [k e]. intros Hin%elem_of_enumerate%lookup_lt_Some.
  simpl. by rewrite Hnum.
Qed.

Lemma detalle_flujo_ok (rutas : list (list Z)) (k : nat) (e : Emergencia)
    (ruta : list Z) :
  (k < num_emergencias self)%nat →
  rutas !! k = Some ruta →
  encadenada self varValue k ruta →
  ∃ d, detalle_flujo self varValue rutas k e = Ok d ∧ detalle_correcto self e ruta d.
Proof.
  intros Hk Hruta Henc. unfold detalle_flujo.
  destruct (costo_de_fila self (severidad e)) as [Hcf Hck].
  unfold costo_fijo_de in Hcf. unfold costo_km_de in Hck.
  rewrite Hruta. simpl.
  destruct (recorrido_ok k Hk (pasos ruta) (0%Q, [], [])) as (dist & -> & Hdist).
  { intros i j (n & Hi & Hj)%elem_of_pasos. by apply (Henc n). }
  simpl in *.
  destruct (fila_usuario self (severidad e)) as [fila|]; simpl;
    (eexists; split; [done|]);
    unfold detalle_correcto; simpl;
    (split_and!; try done;
     [by rewrite length_pasos | by rewrite Hdist, Qplus_0_l
      | by rewrite Hck ]).
Qed.

Lemma calcular_detalles_desde (rutas : list (list Z)) (kes : list (nat * Emergencia)) :
  (∀ ke, ke ∈ kes → (ke.1 < num_emergencias self)%nat ∧
                    ∃ ruta, rutas !! ke.1 = Some ruta ∧
                            encadenada self varValue ke.1 ruta) →
  ∀ detalles,
    ∃ nuevos,
      for_each (λ detalles ke,
                  detalle ← detalle_flujo self varValue rutas ke.1 ke.2;
                  Ok (detalles ++ [detalle])) kes detalles
      = Ok (detalles ++ nuevos) ∧
      length nuevos = length kes ∧
      ∀ n ke, kes !! n = Some ke →
        ∃ d ruta, nuevos !! n = Some d ∧ rutas !! ke.1 = Some ruta ∧
                  detalle_correcto self ke.2 ruta d.
Proof.
  induction kes as [|[k e] kes IH]; intros Hkes detalles.
  - exists []. rewrite app_nil_r. split_and!; [done..|].
    intros n ke Hn. by rewrite lookup_nil in Hn.
  - destruct (Hkes (k, e)) as (Hk & ruta & Hruta & Henc); [by left|]. simpl in *.
    destruct (detalle_flujo_ok rutas k e ruta Hk Hruta Henc) as (d & -> & Hd).
    simpl.
    destruct (IH (λ ke Hin, Hkes ke (list_elem_of_further _ _ _ Hin))
                 (detalles ++ [d])) as (nuevos & -> & Hl & Hspec).
    exists (d :: nuevos). rewrite <-app_assoc. simpl.
    split_and!; [done|by rewrite Hl|].
    intros [|n] ke Hn; simpl in *.
    + injection Hn as <-. by exists d, ruta.
    + by apply Hspec.
Qed.

(** Routes and details of a built model, for any assignment. *)
Lemma rutas_y_detalles :
  ∃ rutas detalles,
    _reconstruir_rutas self varValue = Some (Ok rutas) ∧
    _calcular_detalles_flujos self varValue rutas = Ok detalles ∧
    length rutas = length (emergencias self) ∧
    length detalles = length (emergencias self) ∧
    ∀ k e, emergencias self !! k = Some e →
      ∃ ruta d,
        rutas !! k = Some ruta ∧ detalles !! k = Some d ∧
        _reconstruir_ruta_flujo self varValue k (nodo_destino e) = Some (Ok ruta) ∧
        NoDup ruta ∧ encadenada self varValue k ruta ∧
        detalle_correcto self e ruta d.
Proof.
  unfold _reconstruir_rutas, _calcular_detalles_flujos.
  destruct (reconstruir_desde_ok (enumerate (emergencias self)) [])
    as (rutas & Hr & Hlr & Hrs); [apply enumerate_menor|].
  simpl in Hr.
  assert (Hlr' : length rutas = length (emergencias self)).
  { rewrite Hlr. unfold enumerate. by rewrite length_imap. }
  assert (Hen : ∀ k e, emergencias self !! k = Some e →
            enumerate (emergencias self) !! k = Some (k, e)).
  { intros k e He. unfold enumerate. by rewrite list_lookup_imap, He. }
  destruct (calcular_detalles_desde rutas (enumerate (emergencias self)))
    with (detalles := @nil DetalleFlujo) as (detalles & Hd & Hld & Hds).
  { intros [k e] Hin. split; [by apply enumerate_menor|].
    apply elem_of_enumerate in Hin. simpl.
    destruct (Hrs k (k, e) (Hen k e Hin)) as (ruta & Hruta & _ & _ & Henc).
    by exists ruta. }
  simpl in Hd. exists rutas, detalles.
  split_and!; [done|done|done| |].
  - rewrite Hld. unfold enumerate. by rewrite length_imap.
  - intros k e He.
    destruct (Hrs k (k, e) (Hen k e He)) as (ruta & Hruta & Hrec & Hnd & Henc).
    destruct (Hds k (k, e) (Hen k e He)) as (d & ruta' & Hd' & Hruta' & Hcorr).
    simpl in *. assert (ruta' = ruta) as -> by congruence.
    by exists ruta, d.
Qed.
End detalles.

(** X18. The details of the flows.  For every assignment of the variables of
    a built model, the routes are reconstructed and detailed without error,
    one per emergency in order; the detail of an emergency carries its
    identifier, severity, destination and required speed, the route of its
    flow, the steps of that route as its edges with their number and
    capacities, the sum of their lengths in kilometres, and the fixed cost
    plus that distance times the per-km cost of the cost row of the severity
    (the caller's row when there is one). *)
Theorem calcular_detalles_flujos_correcto
    (mg : MultiDiGraph) (ems : list Emergencia) (origen : Z)
    (costos : option (list (Severidad * CostoUsuario)))
    (self0 self : AmbulanceOptimizationModel) (varValue : LpVariable → Q) :
  init mg ems origen costos = Ok self0 →
  construir_modelo self0 = Ok self →
  aristas_con (grafo self0) "length" →
  aristas_con (grafo self0) "capacity" →
  ∃ rutas detalles,
    _reconstruir_rutas self varValue = Some (Ok rutas) ∧
    _calcular_detalles_flujos self varValue rutas = Ok detalles ∧
    length detalles = length ems ∧
    ∀ k e, ems !! k = Some e →
      ∃ ruta d,
        rutas !! k = Some ruta ∧ detalles !! k = Some d ∧
        _reconstruir_ruta_flujo self varValue k (nodo_destino e) = Some (Ok ruta) ∧
        dt_emergencia_id d = em_id e ∧ dt_severidad d = severidad e ∧
        dt_nodo_destino d = nodo_destino e ∧
        dt_velocidad_requerida d = velocidad_requerida e ∧
        dt_ruta_nodos d = ruta ∧
        dt_ruta_aristas d = pasos ruta ∧
        dt_num_aristas d = (length ruta - 1)%nat ∧
        dt_velocidades_aristas d
        = (λ ij, capacity_kmh (grafo self) ij.1 ij.2) <$> pasos ruta ∧
        (dt_distancia_km d
         == suma ((λ ij, length_m (grafo self) ij.1 ij.2) <$> pasos ruta) / 1000)%Q ∧
        (dt_costo_total d
         == costo_fijo (fila_costos costos (severidad e))
            + dt_distancia_km d * costo_km (fila_costos costos (severidad e)))%Q.
Proof.
  intros Hinit Hbuild Hlen Hcap.
  destruct (modelo_para_rutas _ _ _ _ _ _ Hinit Hbuild)
    as (Hx & Hnum & Har & Ho & Hems & Hg & Hcu & _).
  rewrite <-Hg in Hlen, Hcap. rewrite <-Hems in Hnum.
  destruct (rutas_y_detalles self varValue Hx Hnum Har Hlen Hcap)
    as (rutas & detalles & Hr & Hd & _ & Hld & Hspec).
  exists rutas, detalles. rewrite Hems in Hld, Hspec.
  split_and!; [done..|].
  intros k e He.
  destruct (Hspec k e He) as (ruta & d & Hruta & Hdk & Hrec & _ & _ & Hcorr).
  destruct Hcorr as (H1 & H2 & H3 & H4 & H5 & H6 & H7 & H8 & H9 & H10 & H11 & H12).
  exists ruta, d. rewrite Hcu in H10, H11.
  split_and!; try done.
  by rewrite H12, H10, H11.
Qed.

Lemma calcular_detalles_flujos_correcto_witness :
  init ej_multigrafo ej_emergencias 0 ej_costos = Ok ej_self0 ∧
  construir_modelo ej_self0 = Ok ej_self ∧
  aristas_con (grafo ej_self0) "length" ∧
  aristas_con (grafo ej_self0) "capacity" ∧
  ∃ rutas detalles,
    _reconstruir_rutas ej_self ej_varValue = Some (Ok rutas) ∧
    _calcular_detalles_flujos ej_self ej_varValue rutas = Ok detalles ∧
    length detalles = length ej_emergencias ∧
    ∀ k e, ej_emergencias !! k = Some e →
      ∃ ruta d,
        rutas !! k = Some ruta ∧ detalles !! k = Some d ∧
        _reconstruir_ruta_flujo ej_self ej_varValue k (nodo_destino e)
        = Some (Ok ruta) ∧
        dt_emergencia_id d = em_id e ∧ dt_severidad d = severidad e ∧
        dt_nodo_destino d = nodo_destino e ∧
        dt_velocidad_requerida d = velocidad_requerida e ∧
        dt_ruta_nodos d = ruta ∧
        dt_ruta_aristas d = pasos ruta ∧
        dt_num_aristas d = (length ruta - 1)%nat ∧
        dt_velocidades_aristas d
        = (λ ij, capacity_kmh (grafo ej_self) ij.1 ij.2) <$> pasos ruta ∧
        (dt_distancia_km d
         == suma ((λ ij, length_m (grafo ej_self) ij.1 ij.2) <$> pasos ruta) / 1000)%Q ∧
        (dt_costo_total d
         == costo_fijo (fila_costos ej_costos (severidad e))
            + dt_distancia_km d * costo_km (fila_costos ej_costos (severidad e)))%Q.
Proof.
  assert (H2 : construir_modelo ej_self0 = Ok ej_self) by (vm_compute; reflexivity).
  split_and!; [exact ej_init | exact H2 | exact ej_con_length | exact ej_con_capacity |].
  exact (calcular_detalles_flujos_correcto ej_multigrafo ej_emergencias 0 ej_costos
           ej_self0 ej_self ej_varValue ej_init H2 ej_con_length ej_con_capacity).
Defined.

(** ** The costs of the flows and the objective *)

Lemma suma_Permutation (l1 l2 : list Q) : l1 ≡ₚ l2 → (suma l1 == suma l2)%Q.
Proof.
  induction 1 as [|q l1 l2 _ IH|q1 q2 l|l1 l2 l3 _ IH1 _ IH2]; simpl.
  - done.
  - by rewrite IH.
  - ring.
  - by rewrite IH1.
Qed.

(** A sum weighted by the indicator of a sublist is the sum over the
    sublist. *)
Lemma suma_indicador {A : Type} `{EqDecision A} (f x : A → Q) (E P : list A) :
  NoDup E → NoDup P → (∀ a, a ∈ P → a ∈ E) →
  (∀ a, a ∈ E → (x a == if decide (a ∈ P) then 1 else 0)%Q) →
  (suma ((λ a, f a * x a) <$> E) == suma (f <$> P))%Q.
Proof.
  intros HE HP Hsub Hx.
  assert (Hfil : (suma ((λ a, f a * x a) <$> E)
                  == suma (f <$> filter (λ a, a ∈ P) E))%Q).
  { clear HE Hsub. induction E as [|a E IH]; [done|]. csimpl.
    rewrite IH by (intros ??; apply Hx; by right).
    rewrite filter_cons. rewrite (Hx a) by left.
    destruct (decide (a ∈ P)); csimpl; ring. }
  rewrite Hfil. apply suma_Permutation, fmap_Permutation.
  apply NoDup_Permutation; [by apply NoDup_filter|done|].
  intros a. rewrite list_elem_of_filter. naive_solver.
Qed.

Lemma suma_escala {A : Type} (g : A → Q) (c : Q) (l : list A) :
  (suma ((λ a, g a / 1000 * c) <$> l) == suma (g <$> l) / 1000 * c)%Q.
Proof.
  induction l as [|a l IH]; csimpl.
  - unfold Qdiv. ring.
  - rewrite IH. unfold Qdiv. ring.
Qed.

Lemma fmap_enumerate_snd {A B : Type} (g : A → B) (l : list A) :
  (λ ke, g ke.2) <$> enumerate l = g <$> l.
Proof.
  apply list_eq. intros i. rewrite !list_lookup_fmap. unfold enumerate.
  rewrite list_lookup_imap. by destruct (l !! i).
Qed.

(** The value of the objective of a built model. *)
Lemma valor_del_objetivo (mg : MultiDiGraph) (ems : list Emergencia) (origen : Z)
    (costos : option (list (Severidad * CostoUsuario)))
    (self0 self : AmbulanceOptimizationModel) :
  init mg ems origen costos = Ok self0 →
  construir_modelo self0 = Ok self →
  aristas_con (grafo self0) "length" →
  aristas_con (grafo self0) "capacity" →
  ∃ m obj, modelo self = Some m ∧ objective m = Some obj ∧
           ∀ val, (valor val obj == costo_objetivo (grafo self) ems costos val)%Q.
Proof.
  intros Hinit Hbuild Hlen Hcap.
  destruct (modelo_construido _ _ _ _ _ Hinit Hlen Hcap)
    as (self' & Hbuild' & Hg & Hems & Ho & Hcu & Har & Hno & Hndn & Hnda & Hm).
  assert (self' = self) as -> by congruence.
  eexists _, _. split_and!; [exact Hm|done|].
  intros val. rewrite valor_add_num, valor_lpSum. unfold costo_objetivo.
  apply Qplus_comp.
  - unfold costo_fijo_total_de.
    rewrite (fold_left_suma (λ e, costo_fijo_de self (severidad e))), Qplus_0_l.
    rewrite Hems. apply suma_ext. intros e _.
    destruct (costo_de_fila self (severidad e)) as [-> _]. by rewrite Hcu.
  - unfold terminos_costo. rewrite suma_concat, <-list_fmap_compose.
    rewrite Hems. apply suma_ext. intros [k e] _. simpl.
    rewrite <-list_fmap_compose, Har, Hg. apply suma_ext. intros [i j] _. simpl.
    rewrite valor_mul_var.
    destruct (costo_de_fila self (severidad e)) as [_ ->]. by rewrite Hcu.
Qed.

(** X19. The costs reported per flow add up to the objective.  When the
    assignment is the indicator of the reconstructed routes (the variable of
    flow [k] on an edge is 1 if the edge is a step of the route of [k] and 0
    otherwise), the sum of the total costs in the details of the flows equals
    the value of the objective of the model. *)
Theorem costos_de_flujos_suman_objetivo
    (mg : MultiDiGraph) (ems : list Emergencia) (origen : Z)
    (costos : option (list (Severidad * CostoUsuario)))
    (self0 self : AmbulanceOptimizationModel) (varValue : LpVariable → Q)
    (rutas : list (list Z)) :
  init mg ems origen costos = Ok self0 →
  construir_modelo self0 = Ok self →
  aristas_con (grafo self0) "length" →
  aristas_con (grafo self0) "capacity" →
  _reconstruir_rutas self varValue = Some (Ok rutas) →
  (∀ k ruta i j, rutas !! k = Some ruta → (i, j) ∈ dg_edges (grafo self) →
     (varValue (LpVar i j k) == if decide ((i, j) ∈ pasos ruta) then 1 else 0)%Q) →
  ∃ detalles m obj,
    _calcular_detalles_flujos self varValue rutas = Ok detalles ∧
    modelo self = Some m ∧ objective m = Some obj ∧
    (suma (dt_costo_total <$> detalles) == valor varValue obj)%Q.
Proof.
  intros Hinit Hbuild Hlen Hcap Hrutas Hind.
  destruct (valor_del_objetivo _ _ _ _ _ _ Hinit Hbuild Hlen Hcap)
    as (m & obj & Hm & Hobj & Hval).
  destruct (modelo_para_rutas _ _ _ _ _ _ Hinit Hbuild)
    as (Hx & Hnum & Har & Ho & Hems & Hg & Hcu & Hok & _).
  rewrite <-Hg in Hlen, Hcap. rewrite <-Hems in Hnum.
  destruct (rutas_y_detalles self varValue Hx Hnum Har Hlen Hcap)
    as (rutas' & detalles & Hr & Hd & Hlr & Hld & Hspec).
  assert (rutas' = rutas) as -> by congruence.
  exists detalles, m, obj. split_and!; [done..|].
  rewrite Hval. unfold costo_objetivo. rewrite <-Hems.
  (* both sides as sums over the emergencies with their positions *)
  assert (Hdet : (suma (dt_costo_total <$> detalles)
                  == suma ((λ ke : nat * Emergencia,
                              costo_fijo (fila_costos costos (severidad ke.2))
                              + suma ((λ ij, length_m (grafo self) ij.1 ij.2 / 1000
                                             * costo_km (fila_costos costos (severidad ke.2))
                                             * varValue (LpVar ij.1 ij.2 ke.1))
                                      <$> dg_edges (grafo self)))
                           <$> enumerate (emergencias self)))%Q).
  { clear Hd Hr Hlr Hnum. revert Hld Hspec. unfold enumerate.
    generalize (emergencias self) as es. intros es. revert detalles.
    induction es as [|e es IH] using rev_ind; intros detalles Hld Hspec.
    - by destruct detalles.
    - destruct detalles as [|dl detalles _] using rev_ind.
      { rewrite length_app in Hld. simpl in Hld. lia. }
      rewrite !length_app in Hld. simpl in Hld.
      rewrite imap_app, !fmap_app, !suma_app. simpl.
      rewrite IH; [| lia |].
      + apply Qplus_comp; [done|]. rewrite Nat.add_0_r, !Qplus_0_r.
        destruct (Hspec (length es) e) as (ruta & d & Hruta & Hdk & _ & Hnd & Henc & Hc).
        { by rewrite lookup_app_r, Nat.sub_diag by lia. }
        rewrite lookup_app_r in Hdk by lia.
        replace (length es - length detalles)%nat with 0%nat in Hdk by lia.
        injection Hdk as ->.
        destruct Hc as (_ & _ & _ & _ & _ & _ & _ & _ & H9 & H10 & H11 & H12).
        rewrite H12, H10, H11, H9, Hcu. apply Qplus_comp; [done|].
        symmetry.
        etrans; [apply (suma_indicador
                          (λ ij, length_m (grafo self) ij.1 ij.2 / 1000
                                 * costo_km (fila_costos costos (severidad e)))%Q
                          (λ ij, varValue (LpVar ij.1 ij.2 (length es)))
                          (dg_edges (grafo self)) (pasos ruta))|].
        * by apply NoDup_dg_edges.
        * by apply NoDup_pasos.
        * intros [i j] (n & Hi & Hj)%elem_of_pasos. rewrite <-Har.
          by apply (Henc n).
        * intros [i j] Hin. by apply Hind.
        * apply suma_escala.
      + intros k e' He'.
        destruct (Hspec k e') as (ruta & d & Hruta & Hdk & Hrest).
        { by apply lookup_app_l_Some. }
        exists ruta, d. split; [done|]. split; [|done].
        apply lookup_lt_Some in He'.
        by rewrite lookup_app_l in Hdk by lia. }
  rewrite Hdet. clear Hdet.
  assert (Hsplit : ∀ kes : list (nat * Emergencia),
            (suma ((λ ke, costo_fijo (fila_costos costos (severidad ke.2))
                          + suma ((λ ij, length_m (grafo self) ij.1 ij.2 / 1000
                                         * costo_km (fila_costos costos (severidad ke.2))
                                         * varValue (LpVar ij.1 ij.2 ke.1))
                                  <$> dg_edges (grafo self))) <$> kes)
             == suma ((λ ke, costo_fijo (fila_costos costos (severidad ke.2))) <$> kes)
                + suma ((λ ke, suma ((λ ij, length_m (grafo self) ij.1 ij.2 / 1000
                                            * costo_km (fila_costos costos (severidad ke.2))
                                            * varValue (LpVar ij.1 ij.2 ke.1))
                                     <$> dg_edges (grafo self))) <$> kes))%Q).
  { induction kes as [|ke kes IH]; csimpl; [ring|]. rewrite IH. ring. }
  rewrite Hsplit. apply Qplus_comp; [|done].
  by rewrite (fmap_enumerate_snd
                (λ e, costo_fijo (fila_costos costos (severidad e)))).
Qed.

Lemma costos_de_flujos_suman_objetivo_witness :
  init ej_multigrafo ej_emergencias 0 ej_costos = Ok ej_self0 ∧
  construir_modelo ej_self0 = Ok ej_self ∧
  aristas_con (grafo ej_self0) "length" ∧
  aristas_con (grafo ej_self0) "capacity" ∧
  _reconstruir_rutas ej_self ej_varValue = Some (Ok [[0; 1; 3]; [0; 1]]) ∧
  (∀ k ruta i j, [[0; 1; 3]; [0; 1]] !! k = Some ruta →
     (i, j) ∈ dg_edges (grafo ej_self) →
     (ej_varValue (LpVar i j k) == if decide ((i, j) ∈ pasos ruta) then 1 else 0)%Q) ∧
  ∃ detalles m obj,
    _calcular_detalles_flujos ej_self ej_varValue [[0; 1; 3]; [0; 1]] = Ok detalles ∧
    modelo ej_self = Some m ∧ objective m = Some obj ∧
    (suma (dt_costo_total <$> detalles) == valor ej_varValue obj)%Q.
Proof.
  assert (H2 : construir_modelo ej_self0 = Ok ej_self) by (vm_compute; reflexivity).
  assert (H5 : _reconstruir_rutas ej_self ej_varValue = Some (Ok [[0; 1; 3]; [0; 1]]))
    by (vm_compute; reflexivity).
  assert (H6 : ∀ k ruta i j, [[0; 1; 3]; [0; 1]] !! k = Some ruta →
            (i, j) ∈ dg_edges (grafo ej_self) →
            (ej_varValue (LpVar i j k)
             == if decide ((i, j) ∈ pasos ruta) then 1 else 0)%Q).
  { intros k ruta i j Hk Hin.
    assert (He : dg_edges (grafo ej_self) = [(0, 1); (0, 2); (1, 3); (2, 3)])
      by (vm_compute; reflexivity).
    rewrite He in Hin.
    destruct k as [|[|k]]; simplify_eq/=;
      repeat (apply elem_of_cons in Hin as [[= -> ->]|Hin]);
      try (by apply elem_of_nil in Hin);
      by vm_compute. }
  split_and!; [exact ej_init | exact H2 | exact ej_con_length | exact ej_con_capacity
               | exact H5 | exact H6 |].
  exact (costos_de_flujos_suman_objetivo ej_multigrafo ej_emergencias 0 ej_costos
           ej_self0 ej_self ej_varValue [[0; 1; 3]; [0; 1]]
           ej_init H2 ej_con_length ej_con_capacity H5 H6).
Defined.

(** ** Usage under a feasible assignment *)

Section uso_factible.
Variable self : AmbulanceOptimizationModel.
Variable varValue : LpVariable → Q.
Hypothesis Hx : x_completa self.
Hypothesis Hnum : num_emergencias self = length (emergencias self).

(** The usage table with the load of each entry as a sum over the flows that
    use the edge. *)
Lemma uso_aristas_carga :
  (∀ ij, ij ∈ aristas self →
         ∃ cap, atributo_arista (grafo self) ij.1 ij.2 "capacity" = Ok cap) →
  ∃ uso, _calcular_uso_aristas self varValue = Ok uso ∧
         ∀ ij u, (ij, u) ∈ uso →
           ij ∈ aristas self ∧
           (carga_total u
            == suma (velocidad_requerida ∘ snd
                       <$> flujos_que_usan varValue ij (enumerate (emergencias self))))%Q ∧
           atributo_arista (grafo self) ij.1 ij.2 "capacity" = Ok (capacidad u) ∧
           ((0 < capacidad u)%Q → utilizacion u = (carga_total u / capacidad u)%Q) ∧
           ((capacidad u <= 0)%Q → utilizacion u = 0%Q).
Proof.
  intros Hcap. unfold _calcular_uso_aristas.
  destruct (for_each_total_inv
    (λ (pre : list (Z * Z)) uso,
       ∀ ij u, (ij, u) ∈ uso →
         ij ∈ aristas self ∧
         (carga_total u
          == suma (velocidad_requerida ∘ snd
                     <$> flujos_que_usan varValue ij (enumerate (emergencias self))))%Q ∧
         atributo_arista (grafo self) ij.1 ij.2 "capacity" = Ok (capacidad u) ∧
         ((0 < capacidad u)%Q → utilizacion u = (carga_total u / capacidad u)%Q) ∧
         ((capacidad u <= 0)%Q → utilizacion u = 0%Q))
    (uso_arista self varValue) (aristas self) []) as (uso & Hfe & Hinv).
  - intros ij u Hin. by apply elem_of_nil in Hin.
  - intros pre ij post uso Hsplit Hrec.
    assert (Hij : ij ∈ aristas self).
    { rewrite Hsplit. apply elem_of_app. right. by left. }
    unfold uso_arista.
    destruct (uso_flujos_ok self varValue Hx ij (enumerate (emergencias self)) [] 0%Q
                Hij (enumerate_lt self Hnum)) as (carga & -> & Hcarga).
    rewrite app_nil_l. simpl. rewrite Qplus_0_l in Hcarga.
    destruct ((S ∘ fst) <$> flujos_que_usan varValue ij (enumerate (emergencias self)))
      as [|id ids] eqn:Heq.
    + exists uso. by split.
    + destruct (Hcap ij Hij) as [cap Hc]. rewrite Hc. simpl.
      assert (∃ u, (if Qgtb cap 0 then py_div carga cap else Ok 0%Q) = Ok u ∧
                   ((0 < cap)%Q → u = (carga / cap)%Q) ∧
                   ((cap <= 0)%Q → u = 0%Q)) as (u & -> & Hu1 & Hu2).
      { destruct (Qgtb cap 0) eqn:Hgt.
        - apply Qgtb_true in Hgt. unfold py_div.
          destruct (Qeq_bool cap 0) eqn:Hz.
          + apply Qeq_bool_iff in Hz. rewrite Hz in Hgt. by apply Qlt_irrefl in Hgt.
          + eexists. split; [done|]. split; [done|].
            intros Hle. by apply Qle_not_lt in Hle.
        - apply Qgtb_false in Hgt. exists 0%Q. split; [done|]. split; [|done].
          intros Hlt. by apply Qle_not_lt in Hgt. }
      simpl. eexists. split; [done|].
      intros ij' u' [[= -> ->]|Hin]%elem_of_set; [|by apply Hrec].
      simpl. by split_and!.
  - by exists uso.
Qed.

(** Under an assignment with values 0 and 1 the load of an edge is the
    demand the capacity constraint bounds. *)
Lemma carga_es_demanda (i j : Z) (l : list (nat * Emergencia)) :
  (∀ ke, ke ∈ l → (varValue (LpVar i j ke.1) == 0)%Q
                  ∨ (varValue (LpVar i j ke.1) == 1)%Q) →
  (suma (velocidad_requerida ∘ snd <$> flujos_que_usan varValue (i, j) l)
   == suma ((λ ke, velocidad_requerida ke.2 * varValue (LpVar i j ke.1)) <$> l))%Q.
Proof.
  unfold flujos_que_usan. cbn [fst snd].
  induction l as [|ke l IH]; intros Hbin; [done|].
  rewrite filter_cons. csimpl.
  rewrite <-IH by (intros ??; apply Hbin; by right).
  destruct (Hbin ke) as [H0|H1]; [by left| |].
  - rewrite decide_False.
    + rewrite H0. ring.
    + unfold flujo_usa. simpl. rewrite H0. by intros ?.
  - rewrite decide_True.
    + csimpl. rewrite H1. ring.
    + unfold flujo_usa. simpl. by rewrite H1.
Qed.
End uso_factible.

(** X20. No road is overloaded under a feasible assignment.  When every
    variable has the value 0 or 1 and the capacity constraints of the model
    hold, each entry of the usage table has a load of at most the capacity of
    its edge and a utilisation of at most 1. *)
Theorem uso_dentro_de_la_capacidad
    (mg : MultiDiGraph) (ems : list Emergencia) (origen : Z)
    (costos : option (list (Severidad * CostoUsuario)))
    (self0 self : AmbulanceOptimizationModel) (m : LpProblem)
    (varValue : LpVariable → Q) :
  init mg ems origen costos = Ok self0 →
  construir_modelo self0 = Ok self →
  aristas_con (grafo self0) "length" →
  aristas_con (grafo self0) "capacity" →
  modelo self = Some m →
  (∀ i j k, (i, j) ∈ dg_edges (grafo self) → (k < length ems)%nat →
            (varValue (LpVar i j k) == 0)%Q ∨ (varValue (LpVar i j k) == 1)%Q) →
  (∀ i j c, (Capacidad i j, c) ∈ constraints m → satisface varValue c) →
  ∃ uso, _calcular_uso_aristas self varValue = Ok uso ∧
         ∀ ij u, (ij, u) ∈ uso →
           (carga_total u <= capacidad u)%Q ∧ (utilizacion u <= 1)%Q.
Proof.
  intros Hinit Hbuild Hlen Hcap Hm Hbin Hsat.
  destruct (modelo_construido _ _ _ _ _ Hinit Hlen Hcap)
    as (self' & Hbuild' & Hg & Hems & Ho & Hcu & Har & Hno & Hndn & Hnda & Hm').
  assert (self' = self) as -> by congruence.
  rewrite Hm' in Hm. injection Hm as <-.
  destruct (modelo_para_rutas _ _ _ _ _ _ Hinit Hbuild) as (Hx & Hnum & Har' & _).
  rewrite <-Hems in Hnum. rewrite <-Hg in Hcap.
  destruct (uso_aristas_carga self varValue Hx Hnum) as (uso & Huso & Hspec).
  { intros [i j] Hij. eexists. by apply atributo_arista_Ok. }
  exists uso. split; [done|].
  intros [i j] u Hin.
  destruct (Hspec _ _ Hin) as (Hij & Hcarga & Hcapu & Hu1 & Hu2). simpl in *.
  rewrite (atributo_arista_Ok self Har' "capacity" i j Hcap Hij) in Hcapu.
  injection Hcapu as Hcapu.
  assert (Hle : (carga_total u <= capacidad u)%Q).
  { rewrite Hcarga, carga_es_demanda.
    - specialize (Hsat i j (par_arista self (i, j)).2).
      rewrite <-Hcapu.
      assert (Hs : satisface varValue (par_arista self (i, j)).2).
      { apply Hsat. simpl. apply elem_of_app. right.
        apply list_elem_of_fmap. by exists (i, j). }
      simpl in Hs. rewrite satisface_le, valor_lpSum, <-list_fmap_compose in Hs.
      assert (Heq : (suma (valor varValue
                           ∘ (λ ke, mul_var (velocidad_requerida ke.2) (LpVar i j ke.1))
                           <$> enumerate (emergencias self))
                     == suma ((λ ke, velocidad_requerida ke.2
                                     * varValue (LpVar i j ke.1))
                              <$> enumerate (emergencias self)))%Q).
      { apply suma_ext. intros ke _. simpl. apply valor_mul_var. }
      by rewrite <-Heq.
    - intros [k e] Hke. simpl. apply Hbin.
      + by rewrite <-Har'.
      + apply elem_of_enumerate, lookup_lt_Some in Hke. by rewrite <-Hems. }
  split; [done|].
  destruct (Qlt_le_dec 0 (capacidad u)) as [Hpos|Hneg].
  - rewrite (Hu1 Hpos). apply Qle_shift_div_r; [done|]. by rewrite Qmult_1_l.
  - by rewrite (Hu2 Hneg).
Qed.

Lemma ej_varValue_binaria (i j : Z) (k : nat) :
  (ej_varValue (LpVar i j k) == 0)%Q ∨ (ej_varValue (LpVar i j k) == 1)%Q.
Proof.
  unfold ej_varValue.
  repeat (match goal with
          | |- context [match ?x with _ => _ end] => destruct x
          end; try (by left); try (by right)).
Qed.

Lemma ej_capacidades_satisfechas (i j : Z) (c : LpConstraint) :
  (Capacidad i j, c) ∈ constraints ej_modelo → satisface ej_varValue c.
Proof.
  intros Hin. unfold ej_modelo in Hin. simpl in Hin.
  repeat (apply elem_of_cons in Hin as [Heq|Hin];
          [try discriminate Heq; injection Heq as -> -> ->; by vm_compute|]).
  by apply elem_of_nil in Hin.
Qed.

Lemma uso_dentro_de_la_capacidad_witness :
  init ej_multigrafo ej_emergencias 0 ej_costos = Ok ej_self0 ∧
  construir_modelo ej_self0 = Ok ej_self ∧
  aristas_con (grafo ej_self0) "length" ∧
  aristas_con (grafo ej_self0) "capacity" ∧
  modelo ej_self = Some ej_modelo ∧
  (∀ i j k, (i, j) ∈ dg_edges (grafo ej_self) → (k < length ej_emergencias)%nat →
            (ej_varValue (LpVar i j k) == 0)%Q ∨ (ej_varValue (LpVar i j k) == 1)%Q) ∧
  (∀ i j c, (Capacidad i j, c) ∈ constraints ej_modelo → satisface ej_varValue c) ∧
  ∃ uso, _calcular_uso_aristas ej_self ej_varValue = Ok uso ∧
         ∀ ij u, (ij, u) ∈ uso →
           (carga_total u <= capacidad u)%Q ∧ (utilizacion u <= 1)%Q.
Proof.
  assert (H2 : construir_modelo ej_self0 = Ok ej_self) by (vm_compute; reflexivity).
  assert (H5 : modelo ej_self = Some ej_modelo) by reflexivity.
  assert (H6 : ∀ i j k, (i, j) ∈ dg_edges (grafo ej_self) →
            (k < length ej_emergencias)%nat →
            (ej_varValue (LpVar i j k) == 0)%Q ∨ (ej_varValue (LpVar i j k) == 1)%Q)
    by (intros i j k _ _; apply ej_varValue_binaria).
  split_and!; [exact ej_init | exact H2 | exact ej_con_length | exact ej_con_capacity
               | exact H5 | exact H6 | exact ej_capacidades_satisfechas |].
  exact (uso_dentro_de_la_capacidad ej_multigrafo ej_emergencias 0 ej_costos
           ej_self0 ej_self ej_modelo ej_varValue
           ej_init H2 ej_con_length ej_con_capacity H5 H6 ej_capacidades_satisfechas).
Defined.

(** ** From the prepared multigraph to the built model *)

(** X21. A graph prepared by the two steps always gives a model.  After
    capacities from a range [0 < c_min <= c_max] and the travel times, on a
    well-formed graph with at least one edge whose edges all have a length,
    the constructor accepts the graph and [construir_modelo] succeeds for any
    emergencies, origin and costs; the graph of the model has an edge exactly
    for the pairs of nodes joined in the input, and each of them carries a
    length of a parallel edge of the input, a capacity within
    [[c_min, c_max]] and the travel time of that length at that capacity. *)
Theorem grafo_preparado_da_modelo (random_seed : Z → Rng) (c_min c_max : Q)
    (seed : option Z) (s : Store) (ems : list Emergencia) (origen : Z)
    (costos : option (list (Severidad * CostoUsuario))) :
  mg_wf (st_grafo s) →
  semilla_valida seed = true →
  mg_edges (st_grafo s) ≠ [] →
  (0 < c_min)%Q → (c_min <= c_max)%Q →
  (∀ e, e ∈ mg_edges (st_grafo s) → is_Some (e.2 !! "length")) →
  ∃ g1 s1 g2 self0 self,
    asignar_capacidades_aleatorias random_seed c_min c_max seed s = (Ok g1, s1) ∧
    calcular_tiempos_viaje g1 = (Ok g2, g2) ∧
    init g2 ems origen costos = Ok self0 ∧
    construir_modelo self0 = Ok self ∧
    is_Some (modelo self) ∧
    (∀ i j, (i, j) ∈ dg_edges (grafo self)
            ↔ ∃ k d, (i, j, k, d) ∈ mg_edges (st_grafo s)) ∧
    ∀ i j, (i, j) ∈ dg_edges (grafo self) →
      ∃ k d l c t,
        (i, j, k, d) ∈ mg_edges (st_grafo s) ∧ d !! "length" = Some l ∧
        dg_edge_data (grafo self) i j
        = Some (<["travel_time" := t]> (<["capacity" := c]> d)) ∧
        (c_min <= c)%Q ∧ (c <= c_max)%Q ∧ (t == l / 1000 / c * 60)%Q.
Proof.
  intros Hwf Hseed Hne Hpos Hle Hlen.
  destruct (capacidades_y_tiempos_ok random_seed c_min c_max seed s
              Hwf Hseed Hne Hpos Hle Hlen)
    as (g1 & s1 & g2 & H1 & H2 & Hwf2 & Hnode & Hsome & Hed).
  (* the edges of [g2] are those of the input, with the two attributes *)
  assert (He2 : ∀ u v k d2, (u, v, k, d2) ∈ mg_edges g2 →
            ∃ d l c t, (u, v, k, d) ∈ mg_edges (st_grafo s) ∧
                       d !! "length" = Some l ∧
                       d2 = <["travel_time" := t]> (<["capacity" := c]> d) ∧
                       (c_min <= c)%Q ∧ (c <= c_max)%Q ∧ (t == l / 1000 / c * 60)%Q).
  { intros u v k d2 Hin. pose proof (elem_mg_edge_data g2 u v k d2 Hwf2 Hin) as Hd2.
    assert (Hs : is_Some (mg_edge_data (st_grafo s) u v k)).
    { apply Hsome. by rewrite Hd2. }
    destruct Hs as [d Hd]. apply mg_edge_data_elem in Hd.
    destruct (Hed u v k d Hd) as (l & c & t & Hl & Hg2 & Hc1 & Hc2 & Ht).
    exists d, l, c, t. split_and!; try done.
    rewrite Hg2 in Hd2. by injection Hd2. }
  assert (Hcap2 : capacidades_validas g2).
  { apply Forall_forall. intros [[[u v] k] d2] Hin.
    destruct (He2 u v k d2 Hin) as (d & l & c & t & _ & _ & -> & Hc1 & _). simpl.
    unfold get_capacity. rewrite lookup_insert_ne, lookup_insert_eq by done. simpl.
    apply Qlt_le_trans with c_min; [|done].
    by apply Qlt_trans with 0%Q. }
  destruct (simplificar_ok g2 Hwf2 Hcap2) as (g & Hg & Hok & Hiff & Hsel).
  set (self0 := mkModel g ems origen costos (length ems) (dg_nodes g) (dg_edges g)
                        None []).
  assert (Hinit : init g2 ems origen costos = Ok self0).
  { unfold init. by rewrite Hg. }
  (* what an edge of the simple graph carries *)
  assert (Hdat : ∀ i j, (i, j) ∈ dg_edges g →
            ∃ k d l c t,
              (i, j, k, d) ∈ mg_edges (st_grafo s) ∧ d !! "length" = Some l ∧
              dg_edge_data g i j
              = Some (<["travel_time" := t]> (<["capacity" := c]> d)) ∧
              (c_min <= c)%Q ∧ (c <= c_max)%Q ∧ (t == l / 1000 / c * 60)%Q).
  { intros i j Hin. pose proof (elem_dg_edge_data g i j Hok Hin) as Hs.
    destruct (Hsel i j Hs) as (k & d2 & Hin2 & Hd2 & _).
    destruct (He2 i j k d2 Hin2) as (d & l & c & t & Hd & Hl & -> & Hc).
    by exists k, d, l, c, t. }
  assert (Hcl : aristas_con (grafo self0) "length").
  { apply Forall_forall. intros [i j] Hin. simpl in *.
    destruct (Hdat i j Hin) as (k & d & l & c & t & _ & Hl & -> & _). simpl.
    rewrite !lookup_insert_ne by done. by rewrite Hl. }
  assert (Hcc : aristas_con (grafo self0) "capacity").
  { apply Forall_forall. intros [i j] Hin. simpl in *.
    destruct (Hdat i j Hin) as (k & d & l & c & t & _ & _ & -> & _). simpl.
    rewrite lookup_insert_ne, lookup_insert_eq by done. by eauto. }
  destruct (modelo_construido g2 ems origen costos self0 Hinit Hcl Hcc)
    as (self & Hself & Hgr & _ & _ & _ & _ & _ & _ & _ & Hm).
  exists g1, s1, g2, self0, self. rewrite Hgr. simpl.
  split_and!; [done|done|done|done|by rewrite Hm| |done].
  intros i j. split.
  - intros Hin. destruct (Hdat i j Hin) as (k & d & _ & _ & _ & Hd & _). eauto.
  - intros (k & d & Hin).
    assert (Hs : is_Some (mg_edge_data g2 i j k)).
    { apply Hsome. rewrite (elem_mg_edge_data _ i j k d Hwf Hin). by eauto. }
    destruct Hs as [d2 Hd2]. apply mg_edge_data_elem in Hd2.
    assert (Hs : is_Some (dg_edge_data g i j)) by (apply Hiff; eauto).
    destruct Hs as [d' Hd']. by eapply dg_edge_data_elem.
Qed.

Lemma grafo_preparado_da_modelo_witness :
  mg_wf ej_multigrafo ∧
  semilla_valida (Some 42) = true ∧
  mg_edges ej_multigrafo ≠ [] ∧
  (0 < 30)%Q ∧ (30 <= 100)%Q ∧
  (∀ e, e ∈ mg_edges ej_multigrafo → is_Some (e.2 !! "length")) ∧
  ∃ g1 s1 g2 self0 self,
    asignar_capacidades_aleatorias (λ _, rng_seed42) 30 100 (Some 42)
      (mkStore ej_multigrafo rng_seed42) = (Ok g1, s1) ∧
    calcular_tiempos_viaje g1 = (Ok g2, g2) ∧
    init g2 ej_emergencias 0 ej_costos = Ok self0 ∧
    construir_modelo self0 = Ok self ∧
    is_Some (modelo self) ∧
    (∀ i j, (i, j) ∈ dg_edges (grafo self)
            ↔ ∃ k d, (i, j, k, d) ∈ mg_edges ej_multigrafo) ∧
    ∀ i j, (i, j) ∈ dg_edges (grafo self) →
      ∃ k d l c t,
        (i, j, k, d) ∈ mg_edges ej_multigrafo ∧ d !! "length" = Some l ∧
        dg_edge_data (grafo self) i j
        = Some (<["travel_time" := t]> (<["capacity" := c]> d)) ∧
        (30 <= c)%Q ∧ (c <= 100)%Q ∧ (t == l / 1000 / c * 60)%Q.
Proof.
  assert (H2 : semilla_valida (Some 42) = true) by reflexivity.
  assert (H3 : mg_edges ej_multigrafo ≠ []) by (vm_compute; discriminate).
  assert (H4 : (0 < 30)%Q) by reflexivity.
  assert (H5 : (30 <= 100)%Q) by (vm_compute; discriminate).
  split_and!; [exact ej_multigrafo_wf | exact H2 | exact H3 | exact H4 | exact H5
               | exact ej_multigrafo_con_length |].
  exact (grafo_preparado_da_modelo (λ _, rng_seed42) 30 100 (Some 42)
           (mkStore ej_multigrafo rng_seed42) ej_emergencias 0 ej_costos
           ej_multigrafo_wf H2 H3 H4 H5 ej_multigrafo_con_length).
Defined.
